(** * The extalloc garbage collector of TinyGo's polkawasm runtime

    A shallow embedding of [src/runtime/gc_extalloc.go] (the tracing
    collector), of its leaking sibling [gc_extalloc_leaking.go], of
    [gc_custom_extalloc.go] (allocation loop and collector) and of the
    debug output of [gc_debug.go], with the properties that the
    specification states about them and further properties of the code.

    The target is wasm32: [uintptr] and [int] are 32 bits wide, pointers
    are 4 bytes with 4-byte alignment, and the counters are [uint64]. *)

From Stdlib Require Import ZArith Lia Bool.
From stdpp Require Import base list.
From Equations Require Import Equations.

Local Open Scope Z_scope.

(** ** Machine words *)

Definition wrapPtr (x : Z) : Z := x mod 2 ^ 32.
Definition wrap64 (x : Z) : Z := x mod 2 ^ 64.

(** [unsafe.Sizeof(unsafe.Pointer(nil))] and [unsafe.Alignof] of it. *)
Definition ptrSize : Z := 4.
Definition ptrAlign : Z := 4.

(** [^uintptr(0)] *)
Definition maxPtr : Z := 2 ^ 32 - 1.

(** [x &^ (alignment - 1)]: clear the bits below the alignment. *)
Definition clearLow (x : Z) : Z := Z.land x (Z.lxor maxPtr (ptrAlign - 1)).

(** Modelled from the spec: [align] is declared outside src/ (the spec lists
    it among the small utilities and its scenario S2 has
    [align(pointer_size) = 4] on the 32-bit target): round up to the next
    pointer-aligned word. *)
Definition align (x : Z) : Z := clearLow (wrapPtr (x + ptrAlign - 1)).

(** Modelled from the spec: [wasmPageSize] is declared outside src/; it is
    the WebAssembly page size of 64 KiB, which enters the boot value
    [2 * wasmPageSize * pointer_size] of the heap usage limit. *)
Definition wasmPageSize : Z := 65536.

(** ** Data model *)

(** [heapAllocation]: [next] is a pointer to another slot of the registry's
    backing array, kept as the index of that slot ([None] is [nil]). *)
Record heapAllocation := mkAlloc {
  start : Z;
  end_ : Z;
  marked : bool;
  next : option nat
}.

(** [unsafe.Sizeof(heapAllocation{})] on wasm32. *)
Definition heapAllocationSize : Z := 16.

Definition startAt (arr : list heapAllocation) (i : nat) : Z :=
  match arr !! i with Some r => start r | None => 0 end.

Definition endAt (arr : list heapAllocation) (i : nat) : Z :=
  match arr !! i with Some r => end_ r | None => 0 end.

(** ** Registry: in-place heapsort *)

(** [arr[i], arr[j] = arr[j], arr[i]] *)
Definition swap (arr : list heapAllocation) (i j : nat) : list heapAllocation :=
  match arr !! i, arr !! j with
  | Some a, Some b => <[j := a]> (<[i := b]> arr)
  | _, _ => arr
  end.

(** The selection made by one pass of the body of [heapify]: the index of the
    largest [start] among [i] and its children below [n]. *)
Definition heapifyMax (arr : list heapAllocation) (n i : nat) : nat :=
  let max := i in
  let left := (2 * i + 1)%nat in
  let right := (2 * i + 2)%nat in
  let max := if (left <? n)%nat && (startAt arr max <? startAt arr left)
             then left else max in
  let max := if (right <? n)%nat && (startAt arr max <? startAt arr right)
             then right else max in
  max.

Lemma heapifyMax_bounds arr n i :
  heapifyMax arr n i ≠ i → (i < heapifyMax arr n i < n)%nat.
Proof.
  unfold heapifyMax.
  destruct (2 * i + 1 <? n)%nat eqn:Hl, (2 * i + 2 <? n)%nat eqn:Hr; simpl;
    repeat match goal with
           | |- context [if ?b then _ else _] => destruct b
           end;
    rewrite ?Nat.ltb_lt in *; lia.
Qed.

(** [heapify]: the loop runs while the largest is not the root [i]. *)
Equations? heapify (arr : list heapAllocation) (n i : nat) : list heapAllocation
  by wf (n - i)%nat lt :=
  heapify arr n i with Nat.eq_dec (heapifyMax arr n i) i := {
    | left _ := arr
    | right Hne :=
        heapify (swap arr i (heapifyMax arr n i)) n (heapifyMax arr n i) }.
Proof.
  apply heapifyMax_bounds in Hne. lia.
Qed.

(** First loop of [sortAllocations]: [for i := n/2 - 1; i >= 0; i--];
    [k] is [i + 1]. *)
Fixpoint buildHeap (arr : list heapAllocation) (n k : nat) : list heapAllocation :=
  match k with
  | O => arr
  | S i => buildHeap (heapify arr n i) n i
  end.

(** Second loop: [for end := n - 1; end > 0; end--]. *)
Fixpoint sortDown (arr : list heapAllocation) (e : nat) : list heapAllocation :=
  match e with
  | O => arr
  | S e' => sortDown (heapify (swap arr 0 e) e 0) e'
  end.

Definition sortAllocations (arr : list heapAllocation) : list heapAllocation :=
  let n := length arr in
  sortDown (buildHeap arr n (n / 2)) (n - 1).

Definition clearMark (r : heapAllocation) : heapAllocation :=
  mkAlloc (start r) (end_ r) false None.

(** [unmarkAllocations] *)
Definition unmarkAllocations (arr : list heapAllocation) : list heapAllocation :=
  map clearMark arr.

(** ** Registry: binary search by address *)

(** [mid := low + (high-low)/2] *)
Definition midpoint (low high : nat) : nat := (low + (high - low) / 2)%nat.

Lemma midpoint_bounds low high :
  (low < high)%nat → (low ≤ midpoint low high < high)%nat.
Proof.
  intros H. unfold midpoint.
  assert ((high - low) / 2 < high - low)%nat
    by (apply Nat.Div0.div_lt_upper_bound; lia).
  lia.
Qed.

Equations? searchLoop (arr : list heapAllocation) (addr : Z) (low high : nat)
  : option nat by wf (high - low)%nat lt :=
  searchLoop arr addr low high with lt_dec low high := {
    | right _ := None
    | left Hlt with Z_lt_dec addr (startAt arr (midpoint low high)) := {
        | left _ := searchLoop arr addr low (midpoint low high)
        | right _ with Z_lt_dec (endAt arr (midpoint low high)) addr := {
            | left _ := searchLoop arr addr (midpoint low high + 1) high
            | right _ := Some (midpoint low high) } } }.
Proof.
  all: pose proof (midpoint_bounds low high Hlt); lia.
Qed.

(** [searchAllocations]: the index of the slot whose address is returned. *)
Definition searchAllocations (arr : list heapAllocation) (addr : Z) : option nat :=
  searchLoop arr addr 0 (length arr).

(** ** The collector's state and its environment *)

(** What a call to the host allocator is for: the registry's backing array
    or a user allocation. *)
Inductive request := ForRecords | ForData.

Inductive event :=
| EvExtalloc (what : request) (size ptr : Z)
| EvExtfree (ptr : Z)
| EvMemzero (ptr size : Z)
| EvGC
| EvGrow (from to : Z).

(** The globals of gc_extalloc.go. The slice [allocations] is kept as its
    elements [allocations] (its length is their number), the slots of its
    backing array beyond the length that were written before ([allocSpare]),
    its capacity and the address of the backing array. [askedRecords],
    [askedData] and [cycles] count the requests made to the host allocator
    and the collections started, and [trace] records the calls made, in
    order. *)
Record state := mkState {
  gcInProgress : bool;
  gcMallocs : Z;
  gcFrees : Z;
  gcTotalAlloc : Z;
  heapUsageLimit : Z;
  allocations : list heapAllocation;
  allocSpare : list heapAllocation;
  allocCap : Z;
  allocPtr : Z;
  referenceScanQueue : option nat;
  askedRecords : nat;
  askedData : nat;
  cycles : nat;
  trace : list event
}.

(** The environment: the address of the global [zeroSizedAlloc], the bounds
    [heapStart] and [heapEnd], the answer of the host allocator to the k-th
    request of each kind (0 is the null pointer), and, for the k-th
    collection, the ranges that [markStack] and [findGlobals] hand to
    [markRoots] and the word that memory holds at each address. *)
Record world := mkWorld {
  zeroSizedAlloc : Z;
  heapStart : Z;
  heapEnd : Z;
  extallocAnswer : request → nat → Z;
  rootRanges : nat → list (Z * Z);
  load : nat → Z → Z
}.

Inductive panic := ReentrantCollection | OutOfMemory | Trap.

(** The result of running a piece of the collector: it returns, the process
    is terminated by a panic helper, or the loop bound given to the model
    was reached before the code returned. *)
Inductive result (S A : Type) :=
| Done (a : A) (s : S)
| Panic (p : panic) (s : S)
| OutOfFuel (s : S).
Arguments Done {S A} a s.
Arguments Panic {S A} p s.
Arguments OutOfFuel {S A} s.

Definition finalState {S A} (o : result S A) : S :=
  match o with Done _ s => s | Panic _ s => s | OutOfFuel s => s end.

Definition ret {S A} (a : A) : S → result S A := fun s => Done a s.

Definition bind {S A B} (c : S → result S A) (k : A → S → result S B)
  : S → result S B :=
  fun s => match c s with
           | Done a s' => k a s'
           | Panic p s' => Panic p s'
           | OutOfFuel s' => OutOfFuel s'
           end.

Notation "'do' x <- c ; k" := (bind c (fun x => k))
  (at level 10, x name, c at level 100, k at level 200).
Notation "c ;; k" := (bind c (fun _ => k))
  (at level 100, k at level 200, right associativity).

Abbreviation outcome := (result state).
Abbreviation M A := (state → result state A).

Definition modify {S} (f : S → S) : S → result S unit := fun s => Done tt (f s).

Definition setInProgress (b : bool) (s : state) : state :=
  mkState b (gcMallocs s) (gcFrees s) (gcTotalAlloc s) (heapUsageLimit s)
    (allocations s) (allocSpare s) (allocCap s) (allocPtr s)
    (referenceScanQueue s) (askedRecords s) (askedData s) (cycles s) (trace s).

Definition setMallocs (n : Z) (s : state) : state :=
  mkState (gcInProgress s) n (gcFrees s) (gcTotalAlloc s) (heapUsageLimit s)
    (allocations s) (allocSpare s) (allocCap s) (allocPtr s)
    (referenceScanQueue s) (askedRecords s) (askedData s) (cycles s) (trace s).

Definition setFrees (n : Z) (s : state) : state :=
  mkState (gcInProgress s) (gcMallocs s) n (gcTotalAlloc s) (heapUsageLimit s)
    (allocations s) (allocSpare s) (allocCap s) (allocPtr s)
    (referenceScanQueue s) (askedRecords s) (askedData s) (cycles s) (trace s).

Definition setTotalAlloc (n : Z) (s : state) : state :=
  mkState (gcInProgress s) (gcMallocs s) (gcFrees s) n (heapUsageLimit s)
    (allocations s) (allocSpare s) (allocCap s) (allocPtr s)
    (referenceScanQueue s) (askedRecords s) (askedData s) (cycles s) (trace s).

Definition setLimit (n : Z) (s : state) : state :=
  mkState (gcInProgress s) (gcMallocs s) (gcFrees s) (gcTotalAlloc s) n
    (allocations s) (allocSpare s) (allocCap s) (allocPtr s)
    (referenceScanQueue s) (askedRecords s) (askedData s) (cycles s) (trace s).

Definition setAllocations (l : list heapAllocation) (s : state) : state :=
  mkState (gcInProgress s) (gcMallocs s) (gcFrees s) (gcTotalAlloc s)
    (heapUsageLimit s) l (allocSpare s) (allocCap s) (allocPtr s)
    (referenceScanQueue s) (askedRecords s) (askedData s) (cycles s) (trace s).

(** Replace the slice: elements, stale slots, capacity and backing array. *)
Definition setSlice (l spare : list heapAllocation) (cap ptr : Z) (s : state)
  : state :=
  mkState (gcInProgress s) (gcMallocs s) (gcFrees s) (gcTotalAlloc s)
    (heapUsageLimit s) l spare cap ptr
    (referenceScanQueue s) (askedRecords s) (askedData s) (cycles s) (trace s).

Definition setQueue (q : option nat) (s : state) : state :=
  mkState (gcInProgress s) (gcMallocs s) (gcFrees s) (gcTotalAlloc s)
    (heapUsageLimit s) (allocations s) (allocSpare s) (allocCap s) (allocPtr s)
    q (askedRecords s) (askedData s) (cycles s) (trace s).

Definition setAsked (r d : nat) (s : state) : state :=
  mkState (gcInProgress s) (gcMallocs s) (gcFrees s) (gcTotalAlloc s)
    (heapUsageLimit s) (allocations s) (allocSpare s) (allocCap s) (allocPtr s)
    (referenceScanQueue s) r d (cycles s) (trace s).

Definition setCycles (c : nat) (s : state) : state :=
  mkState (gcInProgress s) (gcMallocs s) (gcFrees s) (gcTotalAlloc s)
    (heapUsageLimit s) (allocations s) (allocSpare s) (allocCap s) (allocPtr s)
    (referenceScanQueue s) (askedRecords s) (askedData s) c (trace s).

Definition emit (e : event) (s : state) : state :=
  mkState (gcInProgress s) (gcMallocs s) (gcFrees s) (gcTotalAlloc s)
    (heapUsageLimit s) (allocations s) (allocSpare s) (allocCap s) (allocPtr s)
    (referenceScanQueue s) (askedRecords s) (askedData s) (cycles s)
    (trace s ++ [e]).

(** The state at boot: [heapUsageLimit] is
    [2 * wasmPageSize * unsafe.Sizeof(unsafe.Pointer(nil))], the rest is
    zero. *)
Definition bootState : state :=
  mkState false 0 0 0 (wrapPtr (2 * wasmPageSize * ptrSize)) [] [] 0 0 None
    0 0 0 [].

(** ** The tracing collector (gc_extalloc.go) *)

(** [free]: count the call and hand the pointer to the host. *)
Definition free (ptr : Z) (s : state) : state :=
  emit (EvExtfree ptr) (setFrees (wrap64 (gcFrees s + 1)) s).

(** The record that [mark] leaves in the slot it found. *)
Definition markSlot (q : option nat) (r : heapAllocation) : heapAllocation :=
  mkAlloc (start r) (end_ r) true q.

(** [mark]: the result and the state it leaves. *)
Definition mark (addr : Z) (s : state) : bool * state :=
  let arr := allocations s in
  if Nat.eqb (length arr) 0 then (false, s)
  else if (addr <? startAt arr 0) || (endAt arr (length arr - 1) <? addr)
  then (false, s)
  else match searchAllocations arr addr with
       | Some i =>
           match arr !! i with
           | Some cur =>
               if marked cur then (false, s)
               else (true,
                     setQueue (Some i)
                       (setAllocations
                          (<[i := markSlot (referenceScanQueue s) cur]> arr) s))
           | None => (false, s)
           end
       | None => (false, s)
       end.

(** [sweep]'s loop body for index [i], with [k] iterations left; [j] is the
    next slot to fill. *)
Fixpoint sweepLoop (k i j : nat) (s : state) : nat * state :=
  match k with
  | O => (j, s)
  | S k' =>
      match allocations s !! i with
      | None => (j, s)
      | Some curAlloc =>
          if negb (marked curAlloc)
          then sweepLoop k' (S i) j (free (start curAlloc) s)
          else
            let s1 := setAllocations (<[j := curAlloc]> (allocations s)) s in
            let s2 :=
              setTotalAlloc
                (wrap64 (gcTotalAlloc s1
                         + wrapPtr (end_ curAlloc - start curAlloc))) s1 in
            sweepLoop k' (S i) (S j) s2
      end
  end.

(** [sweep]; [allocations = allocations[:j]] keeps the backing array, whose
    slots from [j] on are no longer part of the slice. *)
Definition sweep (s : state) : state :=
  let s0 := setTotalAlloc 0 s in
  let '(j, s1) := sweepLoop (length (allocations s0)) 0 0 s0 in
  setSlice (take j (allocations s1))
    (drop j (allocations s1) ++ allocSpare s1) (allocCap s1) (allocPtr s1) s1.

(** [prepareGC] *)
Definition prepareGC (s : state) : state :=
  setQueue None
    (setAllocations (unmarkAllocations (sortAllocations (allocations s))) s).

Section Collector.
Context (w : world).

(** The word at an address, as the collection in progress reads it. *)
Definition loadWord (addr : Z) (s : state) : Z :=
  wrapPtr (load w (cycles s) addr).

(** The [for] loop of [scan]; [fuel] bounds the number of iterations. *)
Fixpoint scanLoop (fuel : nat) (addr e : Z) (s : state) : outcome unit :=
  if wrapPtr (addr + ptrSize) <=? e then
    match fuel with
    | O => OutOfFuel s
    | S f =>
        scanLoop f (wrapPtr (addr + ptrAlign)) e
          (snd (mark (loadWord addr s) s))
    end
  else Done tt s.

(** [scan] *)
Definition scan (fuel : nat) (start e : Z) : M unit :=
  let start' := clearLow (wrapPtr (start + ptrAlign - 1)) in
  scanLoop fuel start' e ;;
  fun s =>
    if wrapPtr (start' + ptrSize) <=? e
    then Done tt (snd (mark (loadWord (wrapPtr (e - ptrSize)) s) s))
    else Done tt s.

(** [markRoots] *)
Definition markRoots (fuel : nat) (start e : Z) : M unit := scan fuel start e.

(** [markStack()] and [findGlobals(markRoots)]: the runtime calls
    [markRoots] on each root range in turn. *)
Fixpoint markRanges (fuel : nat) (ranges : list (Z * Z)) : M unit :=
  match ranges with
  | [] => ret tt
  | (lo, hi) :: rest => markRoots fuel lo hi ;; markRanges fuel rest
  end.

(** [finishMarking]; [fuel] bounds the number of pops and [sfuel] the
    iterations of each scan. A queue head that points outside the registry
    cannot arise and is given the result [Panic Trap]. *)
Fixpoint finishMarking (sfuel fuel : nat) (s : state) : outcome unit :=
  match referenceScanQueue s with
  | None => Done tt s
  | Some i =>
      match fuel with
      | O => OutOfFuel s
      | S f =>
          match allocations s !! i with
          | None => Panic Trap s
          | Some curAlloc =>
              match scan sfuel (start curAlloc) (end_ curAlloc)
                      (setQueue (next curAlloc) s) with
              | Done _ s' => finishMarking sfuel f s'
              | Panic p s' => Panic p s'
              | OutOfFuel s' => OutOfFuel s'
              end
          end
      end
  end.

(** [GC] *)
Definition GC (sfuel fuel : nat) : M unit := fun s =>
  let s := emit EvGC s in
  if gcInProgress s then Panic ReentrantCollection s
  else
    let s := setCycles (S (cycles s)) (setInProgress true s) in
    if Nat.eqb (length (allocations s)) 0 then Done tt (setInProgress false s)
    else
      (modify prepareGC ;;
       markRanges sfuel (rootRanges w (cycles s)) ;;
       finishMarking sfuel fuel ;;
       modify sweep ;;
       modify (setInProgress false)) s.
End Collector.

(** ** The allocation path of the tracing collector *)

(** [double] on [int], converted back to [uintptr]. *)
Definition double (value : Z) : Z :=
  if value =? 0 then 1 else wrapPtr (2 * value).

(** [newHeapAllocation] *)
Definition newHeapAllocation (ptr size : Z) : heapAllocation :=
  mkAlloc ptr (wrapPtr (ptr + size)) false None.

(** [appendAllocations]: write the slot at offset [len], then [len++]. *)
Definition appendAllocations (entry : heapAllocation) (s : state) : state :=
  setSlice (allocations s ++ [entry]) (drop 1 (allocSpare s))
    (allocCap s) (allocPtr s) s.

(** [needGC] *)
Definition needGC (size : Z) (s : state) : bool :=
  heapUsageLimit s <? wrap64 (gcTotalAlloc s + size).

(** The loop of [adjustHeapUsageLimit] with at most [n] passes through its
    body: [for heapUsageLimit != 0 && uintptr(gcTotalAlloc)+size >
    heapUsageLimit { heapUsageLimit <<= 1 }]. *)
Fixpoint growLimit (n : nat) (total size limit : Z) : Z :=
  match n with
  | O => limit
  | S n' =>
      if negb (limit =? 0) && (limit <? wrapPtr (wrapPtr total + size))
      then growLimit n' total size (wrapPtr (Z.shiftl limit 1))
      else limit
  end.

(** [adjustHeapUsageLimit]: a 32-bit value is zero after 32 shifts, so 32
    passes are all the loop can make ([growLimit_enough] below). *)
Definition adjustHeapUsageLimit (size : Z) : M unit := fun s =>
  let l := growLimit 32 (gcTotalAlloc s) size (heapUsageLimit s) in
  let l' := if l =? 0 then maxPtr else l in
  Done tt (emit (EvGrow (heapUsageLimit s) l') (setLimit l' s)).

(** [expandHeap] *)
Definition expandHeap (gcRan : bool) (size : Z) : M unit :=
  if gcRan then adjustHeapUsageLimit size else ret tt.

(** [fail]: [gcAllocPanic] does not return. *)
Definition fail (gcRan : bool) (size : Z) : M unit :=
  if gcRan then (fun s => Panic OutOfMemory s) else ret tt.

(** [ReadMemStats] fills these fields of [MemStats]. *)
Record MemStats := mkMemStats {
  HeapIdle : Z;
  HeapInuse : Z;
  HeapReleased : Z;
  Sys : Z;
  HeapSys : Z;
  GCSys : Z;
  TotalAlloc : Z;
  Mallocs : Z;
  Frees : Z
}.

Section Allocator.
Context (w : world).

(** The host import [extalloc]. *)
Definition extalloc (what : request) (size : Z) : M Z := fun s =>
  match what with
  | ForRecords =>
      let ptr := wrapPtr (extallocAnswer w ForRecords (askedRecords s)) in
      Done ptr (emit (EvExtalloc ForRecords size ptr)
                  (setAsked (S (askedRecords s)) (askedData s) s))
  | ForData =>
      let ptr := wrapPtr (extallocAnswer w ForData (askedData s)) in
      Done ptr (emit (EvExtalloc ForData size ptr)
                  (setAsked (askedRecords s) (S (askedData s)) s))
  end.

(** [tryGC]; the result is the value left in [*gcRan]. *)
Definition tryGC (sfuel gfuel : nat) (gcRan : bool) (size : Z)
    (fn : bool → Z → M unit) : M bool :=
  if gcRan then fn true size ;; ret true
  else GC w sfuel gfuel ;; ret true.

(** [expandAllocationsIfNeeded]; the result is the value left in [*gcRan].
    [copyAllocations] copies [allocationsHeader.len] slots of the old
    backing array, read from the header copied on entry. *)
Definition expandAllocationsIfNeeded (sfuel gfuel : nat) (gcRan : bool)
    : M bool := fun s =>
  let hptr := allocPtr s in
  let hlen := length (allocations s) in
  let hcap := allocCap s in
  if Z.of_nat hlen =? hcap then
    (let doubledCap := double hcap in
     do ptr <- extalloc ForRecords (wrapPtr (doubledCap * heapAllocationSize));
     do g <- (if ptr =? 0 then tryGC sfuel gfuel gcRan 0 fail else ret gcRan);
     modify (fun s' =>
               setSlice (take hlen (allocations s' ++ allocSpare s')) []
                 doubledCap ptr s') ;;
     (if hcap =? 0 then ret tt else modify (free hptr)) ;;
     ret g) s
  else Done gcRan s.

(** The [for] loop of [alloc]; [fuel] bounds the number of passes. *)
Fixpoint allocLoop (sfuel gfuel fuel : nat) (size : Z) (gcRan : bool)
    : M Z :=
  match fuel with
  | O => fun s => OutOfFuel s
  | S f => fun s =>
      if needGC size s then
        (do g <- tryGC sfuel gfuel gcRan size expandHeap;
         allocLoop sfuel gfuel f size g) s
      else
        (do g <- expandAllocationsIfNeeded sfuel gfuel gcRan;
         do ptr <- extalloc ForData size;
         if ptr =? 0 then
           do g' <- tryGC sfuel gfuel g size fail;
           allocLoop sfuel gfuel f size g'
         else
           modify (appendAllocations (newHeapAllocation ptr size)) ;;
           modify (fun s' =>
                     setTotalAlloc (wrap64 (gcTotalAlloc s' + size)) s') ;;
           modify (emit (EvMemzero ptr size)) ;;
           ret ptr) s
  end.

(** [alloc]; [gcRunningPanic] does not return. *)
Definition alloc (sfuel gfuel fuel : nat) (size : Z) : M Z := fun s =>
  if gcInProgress s then Panic ReentrantCollection s
  else
    let s := setMallocs (wrap64 (gcMallocs s + 1)) s in
    if size =? 0 then Done (zeroSizedAlloc w) s
    else
      allocLoop sfuel gfuel fuel (wrapPtr (size + align ptrSize)) false s.

(** [ReadMemStats] *)
Definition ReadMemStats (s : state) : MemStats :=
  mkMemStats 0 (gcTotalAlloc s) 0 (wrap64 (wrapPtr (heapEnd w - heapStart w)))
    (wrap64 (gcTotalAlloc s + 0)) 0 (gcTotalAlloc s) (gcMallocs s) (gcFrees s).
End Allocator.


(** ** The leaking variant (gc_extalloc_leaking.go) *)

Module Leaking.

(** Its globals ([gcFrees] is the constant 0), the number of requests made
    to the host allocator and the calls made. *)
Record state := mkState {
  gcMallocs : Z;
  gcTotalAlloc : Z;
  askedData : nat;
  trace : list event
}.

Definition gcFrees : Z := 0.

Definition bootState : state := mkState 0 0 0 [].

(** [alloc]; [abort] and [gcAllocPanic] do not return. *)
Definition alloc (w : world) (size : Z) : state → result state Z := fun s =>
  if size =? 0 then Done (zeroSizedAlloc w) s
  else
    let size := wrapPtr (size + align ptrSize) in
    if wrap64 (gcTotalAlloc s + size) <? gcTotalAlloc s then Panic Trap s
    else
      let pointer := wrapPtr (extallocAnswer w ForData (askedData s)) in
      let s1 :=
        mkState (gcMallocs s) (gcTotalAlloc s) (S (askedData s))
          (trace s ++ [EvExtalloc ForData size pointer]) in
      if pointer =? 0 then Panic OutOfMemory s1
      else
        Done pointer
          (mkState (gcMallocs s1) (wrap64 (gcTotalAlloc s1 + size))
             (askedData s1) (trace s1 ++ [EvMemzero pointer size])).

(** [free] and [GC] do nothing. *)
Definition free (ptr : Z) (s : state) : state := s.
Definition GC (s : state) : state := s.

(** [ReadMemStats] *)
Definition ReadMemStats (w : world) (s : state) : MemStats :=
  mkMemStats 0 (gcTotalAlloc s) 0 (wrap64 (wrapPtr (heapEnd w - heapStart w)))
    (wrap64 (gcTotalAlloc s + 0)) 0 (gcTotalAlloc s) (gcMallocs s) gcFrees.

End Leaking.

(** ** The allocation loop of the custom variant (gc_custom_extalloc.go) *)

Module Custom.

Record allocEntry := mkEntry {
  start : Z;
  end_ : Z;
  next : option nat
}.

(** [unsafe.Sizeof(allocEntry{})] on wasm32. *)
Definition allocEntrySize : Z := 12.

(** The globals of gc_custom_extalloc.go, with the slice [allocations],
    the request counters and the calls made kept as for the tracing
    collector above. *)
Record state := mkState {
  gcCollectorRunning : bool;
  gcMallocs : Z;
  gcFrees : Z;
  gcTotalAlloc : Z;
  heapBound : Z;
  allocations : list allocEntry;
  allocSpare : list allocEntry;
  allocCap : Z;
  allocPtr : Z;
  askedRecords : nat;
  askedData : nat;
  trace : list event
}.

Definition emit (e : event) (s : state) : state :=
  mkState (gcCollectorRunning s) (gcMallocs s) (gcFrees s) (gcTotalAlloc s)
    (heapBound s) (allocations s) (allocSpare s) (allocCap s) (allocPtr s)
    (askedRecords s) (askedData s) (trace s ++ [e]).

Definition setMallocs (n : Z) (s : state) : state :=
  mkState (gcCollectorRunning s) n (gcFrees s) (gcTotalAlloc s)
    (heapBound s) (allocations s) (allocSpare s) (allocCap s) (allocPtr s)
    (askedRecords s) (askedData s) (trace s).

Definition setFrees (n : Z) (s : state) : state :=
  mkState (gcCollectorRunning s) (gcMallocs s) n (gcTotalAlloc s)
    (heapBound s) (allocations s) (allocSpare s) (allocCap s) (allocPtr s)
    (askedRecords s) (askedData s) (trace s).

Definition setTotalAlloc (n : Z) (s : state) : state :=
  mkState (gcCollectorRunning s) (gcMallocs s) (gcFrees s) n
    (heapBound s) (allocations s) (allocSpare s) (allocCap s) (allocPtr s)
    (askedRecords s) (askedData s) (trace s).

Definition setBound (n : Z) (s : state) : state :=
  mkState (gcCollectorRunning s) (gcMallocs s) (gcFrees s) (gcTotalAlloc s)
    n (allocations s) (allocSpare s) (allocCap s) (allocPtr s)
    (askedRecords s) (askedData s) (trace s).

Definition setSlice (l spare : list allocEntry) (cap ptr : Z) (s : state)
  : state :=
  mkState (gcCollectorRunning s) (gcMallocs s) (gcFrees s) (gcTotalAlloc s)
    (heapBound s) l spare cap ptr (askedRecords s) (askedData s) (trace s).

Definition setAsked (r d : nat) (s : state) : state :=
  mkState (gcCollectorRunning s) (gcMallocs s) (gcFrees s) (gcTotalAlloc s)
    (heapBound s) (allocations s) (allocSpare s) (allocCap s) (allocPtr s)
    r d (trace s).

Definition free (ptr : Z) (s : state) : state :=
  emit (EvExtfree ptr) (setFrees (wrap64 (gcFrees s + 1)) s).

Definition newAllocEntry (ptr size : Z) : allocEntry :=
  mkEntry ptr (wrapPtr (ptr + size)) None.

Definition appendAllocations (entry : allocEntry) (s : state) : state :=
  setSlice (allocations s ++ [entry]) (drop 1 (allocSpare s))
    (allocCap s) (allocPtr s) s.

Section Alloc.
(** [GC] stands for the collection cycle of this variant, which is not
    embedded here. *)
Context (w : world) (GC : state → result state unit).

Definition extalloc (what : request) (size : Z) : state → result state Z :=
  fun s =>
  match what with
  | ForRecords =>
      let ptr := wrapPtr (extallocAnswer w ForRecords (askedRecords s)) in
      Done ptr (emit (EvExtalloc ForRecords size ptr)
                  (setAsked (S (askedRecords s)) (askedData s) s))
  | ForData =>
      let ptr := wrapPtr (extallocAnswer w ForData (askedData s)) in
      Done ptr (emit (EvExtalloc ForData size ptr)
                  (setAsked (askedRecords s) (S (askedData s)) s))
  end.

(** A call of [GC()] from [alloc]. *)
Definition callGC : state → result state unit :=
  modify (emit EvGC) ;; GC.

(** The block that grows [heapBound]. *)
Definition growBound (size : Z) (s : state) : state :=
  let l := growLimit 32 (gcTotalAlloc s) size (heapBound s) in
  let l' := if l =? 0 then maxPtr else l in
  emit (EvGrow (heapBound s) l') (setBound l' s).

(** The [for] loop of [alloc]; [fuel] bounds the number of passes. *)
Fixpoint allocLoop (fuel : nat) (size : Z) (gcRan : bool)
    : state → result state Z :=
  match fuel with
  | O => fun s => OutOfFuel s
  | S f => fun s =>
      if wrap64 (gcTotalAlloc s + size) <? gcTotalAlloc s then Panic Trap s
      else if (heapBound s <? wrap64 (gcTotalAlloc s + size)) && negb gcRan
      then (callGC ;; allocLoop f size true) s
      else
        let s :=
          if heapBound s <? wrap64 (gcTotalAlloc s + size)
          then growBound size s else s in
        let hptr := allocPtr s in
        let hlen := length (allocations s) in
        let hcap := allocCap s in
        let rest : state → result state Z :=
          do ptr <- extalloc ForData size;
          if ptr =? 0 then
            if gcRan then (fun s' => Panic OutOfMemory s')
            else callGC ;; allocLoop f size true
          else
            modify (appendAllocations (newAllocEntry ptr size)) ;;
            modify (emit (EvMemzero ptr size)) ;;
            modify (fun s' =>
                      setTotalAlloc (wrap64 (gcTotalAlloc s' + size)) s') ;;
            ret ptr in
        if Z.of_nat hlen =? hcap then
          (let newCap := double hcap in
           do newPtr <- extalloc ForRecords (wrapPtr (newCap * allocEntrySize));
           if newPtr =? 0 then
             if gcRan then (fun s' => Panic OutOfMemory s')
             else callGC ;; allocLoop f size true
           else
             modify (fun s' =>
                       setSlice (take hlen (allocations s' ++ allocSpare s'))
                         [] newCap newPtr s') ;;
             (if hcap =? 0 then ret tt else modify (free hptr)) ;;
             rest) s
        else rest s
  end.

Definition alloc (fuel : nat) (size : Z) : state → result state Z := fun s =>
  if gcCollectorRunning s then Panic ReentrantCollection s
  else
    let s := setMallocs (wrap64 (gcMallocs s + 1)) s in
    if size =? 0 then Done (zeroSizedAlloc w) s
    else allocLoop fuel (wrapPtr (size + align ptrSize)) false s.
End Alloc.

End Custom.

(** * Properties *)

(** ** Sweep *)

(** [uint64(curAlloc.end - curAlloc.start)] *)
Definition recSize (r : heapAllocation) : Z := wrapPtr (end_ r - start r).

Definition sumSizes (l : list heapAllocation) : Z :=
  foldr (λ r acc, recSize r + acc) 0 l.

Definition unmarked (r : heapAllocation) : bool := negb (marked r).

Lemma wrap64_add_l a b : wrap64 (wrap64 a + b) = wrap64 (a + b).
Proof. unfold wrap64. apply Zplus_mod_idemp_l. Qed.

Lemma recSize_range r : 0 ≤ recSize r < 2 ^ 32.
Proof. unfold recSize, wrapPtr. apply Z.mod_pos_bound. lia. Qed.

Lemma sumSizes_bound l : 0 ≤ sumSizes l ≤ Z.of_nat (length l) * (2 ^ 32 - 1).
Proof.
  induction l as [|r l IH]; simpl; [lia|].
  pose proof (recSize_range r). lia.
Qed.

Lemma sweepLoop_spec k : ∀ i j s,
  (j ≤ i)%nat → (i + k)%nat = length (allocations s) →
  wrap64 (gcTotalAlloc s) = gcTotalAlloc s →
  let arr := allocations s in
  let res := sweepLoop k i j s in
  let kept := List.filter marked (drop i arr) in
  let gone := List.filter unmarked (drop i arr) in
  fst res = (j + length kept)%nat
  ∧ take (fst res) (allocations (snd res)) = take j arr ++ kept
  ∧ length (allocations (snd res)) = length arr
  ∧ trace (snd res) = trace s ++ map (λ r, EvExtfree (start r)) gone
  ∧ gcTotalAlloc (snd res) = wrap64 (gcTotalAlloc s + sumSizes kept).
Proof.
  induction k as [|k IH]; intros i j s Hji Hlen Hrange; cbn zeta.
  - rewrite drop_ge by lia. simpl.
    rewrite Nat.add_0_r, !app_nil_r, Z.add_0_r. auto.
  - destruct (lookup_lt_is_Some_2 (allocations s) i) as [cur Hcur]; [lia|].
    rewrite (drop_S _ _ _ Hcur). simpl. rewrite Hcur. unfold unmarked at 1.
    destruct (marked cur) eqn:Hm; simpl.
    + set (s2 := setTotalAlloc _ _).
      assert (Harr : allocations s2 = <[j := cur]> (allocations s)) by reflexivity.
      destruct (IH (S i) (S j) s2) as (H1 & H2 & H3 & H4 & H5).
      { lia. }
      { rewrite Harr, length_insert. lia. }
      { subst s2. simpl. unfold wrap64. apply Zmod_mod. }
      rewrite Harr in *. rewrite length_insert in H3.
      rewrite drop_insert_lt in H1, H2, H4, H5 by lia.
      repeat split.
      * rewrite H1. simpl. lia.
      * rewrite H2. rewrite (take_S_r _ _ cur).
        -- rewrite take_insert_ge by lia. rewrite <- app_assoc. reflexivity.
        -- apply list_lookup_insert_eq. lia.
      * exact H3.
      * exact H4.
      * rewrite H5. subst s2. simpl. rewrite wrap64_add_l. f_equal. unfold recSize. lia.
    + destruct (IH (S i) j (free (start cur) s)) as (H1 & H2 & H3 & H4 & H5).
      { lia. }
      { simpl. lia. }
      { exact Hrange. }
      simpl in *. repeat split; auto.
      rewrite H4. rewrite <- app_assoc. reflexivity.
Qed.

(** C1. For every state, [sweep] keeps exactly the marked records, in their
    order, at the front of the registry; it calls [extfree] once on the start
    address of each unmarked record, in registry order; afterwards
    [gcTotalAlloc] is the sum of the sizes [end - start] of the records
    kept (a [uint64] sum, which is the exact sum for any registry of at most
    2^32 records) and the registry's length is their number. *)
Theorem sweep_keeps_marked_frees_unmarked (s : state) :
  let kept := List.filter marked (allocations s) in
  let gone := List.filter unmarked (allocations s) in
  allocations (sweep s) = kept
  ∧ trace (sweep s) = trace s ++ map (λ r, EvExtfree (start r)) gone
  ∧ gcTotalAlloc (sweep s) = wrap64 (sumSizes kept)
  ∧ (Z.of_nat (length kept) ≤ 2 ^ 32 → gcTotalAlloc (sweep s) = sumSizes kept)
  ∧ length (allocations (sweep s)) = length kept.
Proof.
  cbn zeta. unfold sweep.
  pose proof (sweepLoop_spec (length (allocations s)) 0 0 (setTotalAlloc 0 s))
    as Hloop.
  cbn zeta in Hloop.
  destruct Hloop as (H1 & H2 & H3 & H4 & H5); [lia | reflexivity | reflexivity |].
  change (allocations (setTotalAlloc 0 s)) with (allocations s) in *.
  destruct (sweepLoop _ 0 0 _) as [j s1]. simpl in *.
  rewrite drop_0 in *.
  assert (Hsum : wrap64 (sumSizes (List.filter marked (allocations s)))
                 = gcTotalAlloc s1) by (rewrite H5; reflexivity).
  repeat split.
  - exact H2.
  - exact H4.
  - symmetry. exact Hsum.
  - intros Hn. rewrite <- Hsum. unfold wrap64. apply Z.mod_small.
    pose proof (sumSizes_bound (List.filter marked (allocations s))). nia.
  - rewrite H2. reflexivity.
Qed.

(** ** Prepare: heapsort of the registry *)

(** Unfolding of the loop of [heapify]. *)
Lemma heapify_loop_eq arr n i :
  heapify arr n i =
  if Nat.eq_dec (heapifyMax arr n i) i then arr
  else heapify (swap arr i (heapifyMax arr n i)) n (heapifyMax arr n i).
Proof.
  rewrite heapify_equation_1.
  destruct (Nat.eq_dec (heapifyMax arr n i) i); reflexivity.
Qed.

(** Induction along the passes of the loop of [heapify]. *)
Lemma heapify_passes (P : list heapAllocation → nat → nat → list heapAllocation → Prop) :
  (∀ arr n i, heapifyMax arr n i = i → P arr n i arr) →
  (∀ arr n i, heapifyMax arr n i ≠ i →
     P (swap arr i (heapifyMax arr n i)) n (heapifyMax arr n i)
       (heapify (swap arr i (heapifyMax arr n i)) n (heapifyMax arr n i)) →
     P arr n i
       (heapify (swap arr i (heapifyMax arr n i)) n (heapifyMax arr n i))) →
  ∀ arr n i, P arr n i (heapify arr n i).
Proof.
  intros Hbase Hstep. apply heapify_elim; cbn zeta; intros; auto.
Qed.

Lemma swap_length arr i j : length (swap arr i j) = length arr.
Proof.
  unfold swap. destruct (arr !! i), (arr !! j); rewrite ?length_insert; auto.
Qed.

Lemma swap_Permutation arr i j : swap arr i j ≡ₚ arr.
Proof.
  unfold swap. destruct (arr !! i) eqn:Hi, (arr !! j) eqn:Hj; auto.
  apply Permutation_insert_swap; assumption.
Qed.

Lemma swap_lookup arr i j k :
  (i < length arr)%nat → (j < length arr)%nat →
  swap arr i j !! k =
  if decide (k = j) then arr !! i else if decide (k = i) then arr !! j
  else arr !! k.
Proof.
  intros Hi Hj. unfold swap.
  destruct (lookup_lt_is_Some_2 arr i Hi) as [a Ha].
  destruct (lookup_lt_is_Some_2 arr j Hj) as [b Hb].
  rewrite Ha, Hb.
  destruct (decide (k = j)) as [->|Hkj].
  - rewrite list_lookup_insert_eq; [reflexivity | rewrite length_insert; lia].
  - rewrite list_lookup_insert_ne by auto.
    destruct (decide (k = i)) as [->|Hki].
    + rewrite list_lookup_insert_eq by lia. reflexivity.
    + rewrite list_lookup_insert_ne by auto. reflexivity.
Qed.

Lemma startAt_swap arr i j k :
  (i < length arr)%nat → (j < length arr)%nat →
  startAt (swap arr i j) k =
  if decide (k = j) then startAt arr i else if decide (k = i) then startAt arr j
  else startAt arr k.
Proof.
  intros Hi Hj. unfold startAt. rewrite swap_lookup by assumption.
  repeat case_decide; reflexivity.
Qed.

(** What the selection of [heapify] guarantees. *)
Lemma heapifyMax_spec arr n i :
  let m := heapifyMax arr n i in
  (m = i ∨ m = (2 * i + 1)%nat ∨ m = (2 * i + 2)%nat)
  ∧ startAt arr i ≤ startAt arr m
  ∧ (m ≠ i → startAt arr i < startAt arr m)
  ∧ ((2 * i + 1 < n)%nat → startAt arr (2 * i + 1) ≤ startAt arr m)
  ∧ ((2 * i + 2 < n)%nat → startAt arr (2 * i + 2) ≤ startAt arr m).
Proof.
  unfold heapifyMax.
  destruct (startAt arr i <? startAt arr (2 * i + 1)) eqn:H1;
    destruct (2 * i + 1 <? n)%nat eqn:Hl; cbn [andb];
    match goal with
    | |- context [(2 * i + 2 <? n)%nat && (?a <? ?b)] =>
        destruct (a <? b) eqn:H2
    end;
    destruct (2 * i + 2 <? n)%nat eqn:Hr; cbn [andb];
    rewrite ?Nat.ltb_lt, ?Nat.ltb_ge, ?Z.ltb_lt, ?Z.ltb_ge in *;
    repeat split; intros; try lia; auto.
Qed.

Lemma heapify_length arr n i : length (heapify arr n i) = length arr.
Proof.
  apply (heapify_passes (λ arr n i res, length res = length arr)); clear.
  - reflexivity.
  - intros arr n i Hne IH. rewrite IH. apply swap_length.
Qed.

Lemma heapify_Permutation arr n i : heapify arr n i ≡ₚ arr.
Proof.
  apply (heapify_passes (λ arr n i res, res ≡ₚ arr)); clear.
  - reflexivity.
  - intros arr n i Hne IH. rewrite IH. apply swap_Permutation.
Qed.

(** [heapify arr n i] leaves the slots from [n] on as they are. *)
Lemma heapify_lookup_ge arr n i k :
  (n ≤ length arr)%nat → (n ≤ k)%nat → heapify arr n i !! k = arr !! k.
Proof.
  revert k.
  apply (heapify_passes (λ arr n i res, ∀ k,
           (n ≤ length arr)%nat → (n ≤ k)%nat → res !! k = arr !! k)); clear.
  - reflexivity.
  - intros arr n i Hne IH k Hn Hk.
    apply heapifyMax_bounds in Hne as Hb.
    rewrite IH by (rewrite ?swap_length; lia).
    rewrite swap_lookup by lia. repeat case_decide; lia || reflexivity.
Qed.

(** A bound on the starts of the first [n] slots survives [heapify]. *)
Lemma heapify_prefix_bound arr n i (B : Z) :
  (n ≤ length arr)%nat →
  (∀ j, (j < n)%nat → startAt arr j ≤ B) →
  ∀ j, (j < n)%nat → startAt (heapify arr n i) j ≤ B.
Proof.
  apply (heapify_passes (λ arr n i res,
           (n ≤ length arr)%nat →
           (∀ j, (j < n)%nat → startAt arr j ≤ B) →
           ∀ j, (j < n)%nat → startAt res j ≤ B)); clear - B.
  - auto.
  - intros arr n i Hne IH Hn Hall j Hj.
    apply heapifyMax_bounds in Hne as Hb.
    apply IH; [rewrite swap_length; lia | | assumption].
    intros j' Hj'. rewrite startAt_swap by lia.
    repeat case_decide; apply Hall; lia.
Qed.

(** The max-heap order at node [j] of the first [n] slots. *)
Definition heapAt (arr : list heapAllocation) (n j : nat) : Prop :=
  ((2 * j + 1 < n)%nat → startAt arr (2 * j + 1) ≤ startAt arr j)
  ∧ ((2 * j + 2 < n)%nat → startAt arr (2 * j + 2) ≤ startAt arr j).

Definition heapFrom (arr : list heapAllocation) (n lo : nat) : Prop :=
  ∀ j, (lo ≤ j < n)%nat → heapAt arr n j.

Definition childOf (c p : nat) : Prop :=
  c = (2 * p + 1)%nat ∨ c = (2 * p + 2)%nat.

(** Sift-down: if the heap order holds from [lo] on except at [i], and the
    children of [i] are below the parent of [i], then [heapify] restores the
    order from [lo] on. *)
Lemma heapify_restores lo arr n i :
  (n ≤ length arr)%nat →
  (∀ j, (lo ≤ j < n)%nat → j ≠ i → heapAt arr n j) →
  (∀ p c, (lo ≤ p)%nat → childOf i p → childOf c i → (c < n)%nat →
          startAt arr c ≤ startAt arr p) →
  heapFrom (heapify arr n i) n lo.
Proof.
  apply (heapify_passes (λ arr n i res,
    (n ≤ length arr)%nat →
    (∀ j, (lo ≤ j < n)%nat → j ≠ i → heapAt arr n j) →
    (∀ p c, (lo ≤ p)%nat → childOf i p → childOf c i → (c < n)%nat →
            startAt arr c ≤ startAt arr p) →
    heapFrom res n lo)); clear - lo.
  - intros arr n i Hmax Hn Hrest Hpar j Hj.
    destruct (decide (j = i)) as [->|Hji]; [|auto].
    pose proof (heapifyMax_spec arr n i) as Hs. cbn zeta in Hs.
    rewrite Hmax in Hs. split; intros; apply Hs; assumption.
  - intros arr n i Hne IH Hn Hrest Hpar.
    pose proof (heapifyMax_bounds _ _ _ Hne) as Hb.
    pose proof (heapifyMax_spec arr n i) as Hs. cbn zeta in Hs.
    set (m := heapifyMax arr n i) in *.
    destruct Hs as (Hm & Hge & Hgt & Hleft & Hright).
    specialize (Hgt Hne).
    assert (Hchild : childOf m i) by (unfold childOf; tauto).
    apply IH.
    + rewrite swap_length. lia.
    + intros j Hj Hjm. destruct (decide (j = i)) as [->|Hji].
      * split; intros Hc; rewrite !startAt_swap by lia;
          repeat case_decide; try lia; auto with zarith.
      * assert (Hold : heapAt arr n j) by auto.
        destruct Hold as [Hl Hr].
        split; intros Hc; rewrite !startAt_swap by lia;
          repeat case_decide; try lia;
          try (apply (Hpar j m); unfold childOf; auto; lia); auto.
    + intros p c Hp Hmp Hcm Hc.
      assert (p = i) as -> by (unfold childOf in *; lia).
      assert (Hold : heapAt arr n m) by (apply Hrest; lia).
      rewrite !startAt_swap by lia.
      repeat case_decide; try (unfold childOf in *; lia).
      destruct Hold as [Hl Hr]. destruct Hcm as [Hcm|Hcm]; rewrite Hcm in *; auto.
Qed.

Lemma buildHeap_length arr n k : length (buildHeap arr n k) = length arr.
Proof.
  revert arr. induction k as [|k IH]; intros arr; simpl; [reflexivity|].
  rewrite IH. apply heapify_length.
Qed.

Lemma buildHeap_Permutation arr n k : buildHeap arr n k ≡ₚ arr.
Proof.
  revert arr. induction k as [|k IH]; intros arr; simpl; [reflexivity|].
  rewrite IH. apply heapify_Permutation.
Qed.

(** The first loop of [sortAllocations] turns the array into a max-heap. *)
Lemma buildHeap_heap n k : ∀ arr,
  (n ≤ length arr)%nat → heapFrom arr n k → heapFrom (buildHeap arr n k) n 0.
Proof.
  induction k as [|k IH]; intros arr Hn Hheap; simpl; [exact Hheap|].
  apply IH; [rewrite heapify_length; exact Hn|].
  apply heapify_restores; [exact Hn | |].
  - intros j Hj Hne. apply Hheap. lia.
  - intros p c Hp Hkp. unfold childOf in Hkp. lia.
Qed.

Lemma heapFrom_half arr n : heapFrom arr n (n / 2).
Proof.
  intros j [Hlo Hhi].
  assert (n < 2 * (n / 2) + 2)%nat.
  { pose proof (Nat.div_mod_eq n 2) as Hd.
    pose proof (Nat.mod_upper_bound n 2). lia. }
  split; intros; lia.
Qed.

(** The root of a max-heap holds the largest start. *)
Lemma heap_root_max arr n :
  heapFrom arr n 0 → ∀ j, (j < n)%nat → startAt arr j ≤ startAt arr 0.
Proof.
  intros Hheap j. induction j as [j IH] using lt_wf_ind. intros Hj.
  destruct j as [|j]; [lia|].
  assert (Hp : ∃ p, (p < S j)%nat ∧ childOf (S j) p).
  { exists (j / 2)%nat. pose proof (Nat.div_mod_eq j 2) as Hd.
    pose proof (Nat.mod_upper_bound j 2). unfold childOf. lia. }
  destruct Hp as (p & Hlt & Hc).
  assert (Hat : heapAt arr n p) by (apply Hheap; lia).
  transitivity (startAt arr p); [|apply IH; lia].
  destruct Hat as [Hl Hr]. destruct Hc as [Hc|Hc]; rewrite Hc in *; auto.
Qed.

(** The order reached by the second loop once it has placed the slots
    above [e]. *)
Definition sortedAbove (arr : list heapAllocation) (e : nat) : Prop :=
  (∀ k, (e < k)%nat → (S k < length arr)%nat →
        startAt arr k ≤ startAt arr (S k))
  ∧ (∀ j k, (j ≤ e)%nat → (e < k < length arr)%nat →
        startAt arr j ≤ startAt arr k).

Lemma sortDown_length e : ∀ arr, length (sortDown arr e) = length arr.
Proof.
  induction e as [|e IH]; intros arr; simpl; [reflexivity|].
  rewrite IH, heapify_length. apply swap_length.
Qed.

Lemma sortDown_Permutation e : ∀ arr, sortDown arr e ≡ₚ arr.
Proof.
  induction e as [|e IH]; intros arr; simpl; [reflexivity|].
  rewrite IH, heapify_Permutation. apply swap_Permutation.
Qed.

Lemma startAt_heapify_ge arr n i k :
  (n ≤ length arr)%nat → (n ≤ k)%nat →
  startAt (heapify arr n i) k = startAt arr k.
Proof.
  intros. unfold startAt. rewrite heapify_lookup_ge by assumption. reflexivity.
Qed.

Lemma sortDown_sorted e : ∀ arr,
  (e < length arr)%nat → heapFrom arr (S e) 0 → sortedAbove arr e →
  sortedAbove (sortDown arr e) 0.
Proof.
  induction e as [|e IH]; intros arr He Hheap [Hsorted Hcross]; simpl.
  { split; assumption. }
  pose proof (heap_root_max arr (S (S e)) Hheap) as Hroot.
  set (arr1 := swap arr 0 (S e)).
  assert (Hlen1 : length arr1 = length arr) by apply swap_length.
  assert (Hk1 : ∀ k, startAt arr1 k =
                     if decide (k = S e) then startAt arr 0
                     else if decide (k = 0%nat) then startAt arr (S e)
                     else startAt arr k).
  { intros k. unfold arr1. apply startAt_swap; lia. }
  apply IH.
  - rewrite heapify_length. lia.
  - apply heapify_restores; [lia | |].
    + intros j Hj Hj0. destruct (Hheap j) as [Hl Hr]; [lia|].
      split; intros Hc; rewrite !Hk1; repeat case_decide; try lia;
        first [apply Hl; lia | apply Hr; lia].
    + intros p c _ Hp. unfold childOf in Hp. lia.
  - split.
    + intros k Hk HSk. rewrite heapify_length, Hlen1 in HSk.
      rewrite !startAt_heapify_ge by lia. rewrite !Hk1.
      repeat case_decide; try lia;
        first [apply Hcross; lia | apply Hsorted; lia].
    + intros j k Hj Hk. rewrite heapify_length, Hlen1 in Hk.
      rewrite (startAt_heapify_ge _ _ _ k) by lia.
      apply heapify_prefix_bound; [lia | | lia].
      intros j' Hj'. rewrite !Hk1.
      repeat case_decide; try lia;
        first [apply Hroot; lia | apply Hcross; lia].
Qed.

(** Adjacent records are in ascending order of [start]. *)
Definition sortedByStart (arr : list heapAllocation) : Prop :=
  ∀ i ri rj, arr !! i = Some ri → arr !! S i = Some rj → start ri ≤ start rj.

Lemma sortAllocations_Permutation arr : sortAllocations arr ≡ₚ arr.
Proof.
  unfold sortAllocations. rewrite sortDown_Permutation.
  apply buildHeap_Permutation.
Qed.

Lemma sortAllocations_sorted arr : sortedByStart (sortAllocations arr).
Proof.
  assert (Hs : sortedAbove (sortAllocations arr) 0).
  { unfold sortAllocations. destruct arr as [|r arr]; [split; simpl; intros; lia|].
    set (a := r :: arr). set (n := length a).
    assert (Hn : (0 < n)%nat) by (unfold n, a; simpl; lia).
    apply sortDown_sorted.
    - rewrite buildHeap_length. fold n. lia.
    - replace (S (n - 1)) with n by lia.
      apply buildHeap_heap; [reflexivity | apply heapFrom_half].
    - unfold sortedAbove. rewrite buildHeap_length. fold n.
      split; intros; lia. }
  destruct Hs as [Hsorted Hcross].
  intros i ri rj Hi Hj.
  assert (Hlen : (S i < length (sortAllocations arr))%nat)
    by (eapply lookup_lt_Some; eassumption).
  assert (Hsi : startAt (sortAllocations arr) i = start ri)
    by (unfold startAt; rewrite Hi; reflexivity).
  assert (Hsj : startAt (sortAllocations arr) (S i) = start rj)
    by (unfold startAt; rewrite Hj; reflexivity).
  rewrite <- Hsi, <- Hsj.
  destruct i as [|i]; [apply Hcross | apply Hsorted]; lia.
Qed.

(** C3. Immediately after [prepareGC] the registry holds the records it held
    before, permuted and with their [marked] flag and [next] link cleared;
    adjacent records are in ascending order of [start]; every [marked] flag
    is false, every [next] link is nil, and the scan queue is empty. *)
Theorem prepareGC_sorts_and_clears (s : state) :
  (∃ l, l ≡ₚ allocations s ∧ allocations (prepareGC s) = map clearMark l)
  ∧ sortedByStart (allocations (prepareGC s))
  ∧ (∀ r, r ∈ allocations (prepareGC s) → marked r = false ∧ next r = None)
  ∧ referenceScanQueue (prepareGC s) = None.
Proof.
  unfold prepareGC. simpl. unfold unmarkAllocations. repeat split.
  - exists (sortAllocations (allocations s)).
    split; [apply sortAllocations_Permutation | reflexivity].
  - intros i ri rj Hi Hj.
    rewrite list_lookup_fmap in Hi, Hj.
    destruct (sortAllocations (allocations s) !! i) as [a|] eqn:Ha;
      [|discriminate].
    destruct (sortAllocations (allocations s) !! S i) as [b|] eqn:Hb;
      [|discriminate].
    simpl in Hi, Hj. injection Hi as <-. injection Hj as <-. simpl.
    eapply sortAllocations_sorted; eassumption.
  - apply list_elem_of_fmap in H as (a & -> & _). reflexivity.
  - apply list_elem_of_fmap in H as (a & -> & _). reflexivity.
Qed.

(** ** Mark *)

(** The inclusive interval [[start, end]] of a record holds the address. *)
Definition contains (r : heapAllocation) (addr : Z) : Prop :=
  start r ≤ addr ≤ end_ r.

(** The address range [[start, end)] of a record holds the address. *)
Definition inRange (r : heapAllocation) (addr : Z) : Prop :=
  start r ≤ addr < end_ r.

(** No address lies in the ranges of two records. *)
Definition disjointRanges (arr : list heapAllocation) : Prop :=
  ∀ i j ri rj a, i ≠ j → arr !! i = Some ri → arr !! j = Some rj →
    ¬ (inRange ri a ∧ inRange rj a).

(** No address lies in the inclusive intervals of two records. *)
Definition disjointIntervals (arr : list heapAllocation) : Prop :=
  ∀ i j ri rj a, i ≠ j → arr !! i = Some ri → arr !! j = Some rj →
    ¬ (contains ri a ∧ contains rj a).

Definition wellFormed (arr : list heapAllocation) : Prop :=
  ∀ r, r ∈ arr → start r ≤ end_ r.

(** The state that [mark] leaves when it marks slot [i], which held [r]. *)
Definition pushMarked (i : nat) (r : heapAllocation) (s : state) : state :=
  setQueue (Some i)
    (setAllocations (<[i := markSlot (referenceScanQueue s) r]> (allocations s))
       s).

Definition someUnmarkedContains (arr : list heapAllocation) (addr : Z) : Prop :=
  ∃ i r, arr !! i = Some r ∧ contains r addr ∧ marked r = false.

Lemma searchLoop_eq arr addr low high :
  searchLoop arr addr low high =
  if lt_dec low high then
    if Z_lt_dec addr (startAt arr (midpoint low high))
    then searchLoop arr addr low (midpoint low high)
    else if Z_lt_dec (endAt arr (midpoint low high)) addr
         then searchLoop arr addr (midpoint low high + 1) high
         else Some (midpoint low high)
  else None.
Proof.
  rewrite searchLoop_equation_1.
  destruct (lt_dec low high); simpl; [|reflexivity].
  destruct (Z_lt_dec addr (startAt arr (midpoint low high))); simpl;
    [reflexivity|].
  destruct (Z_lt_dec (endAt arr (midpoint low high)) addr); reflexivity.
Qed.

(** What the binary search returns lies in its window and holds the
    address. *)
Lemma searchLoop_sound arr addr : ∀ d low high k,
  (high - low = d)%nat →
  searchLoop arr addr low high = Some k →
  (low ≤ k < high)%nat ∧ startAt arr k ≤ addr ≤ endAt arr k.
Proof.
  induction d as [d IH] using lt_wf_ind. intros low high k Hd.
  rewrite searchLoop_eq.
  destruct (lt_dec low high) as [Hlt|]; [|discriminate].
  pose proof (midpoint_bounds low high Hlt) as Hmid.
  destruct (Z_lt_dec addr (startAt arr (midpoint low high))).
  - intros Hs. eapply IH in Hs; [|
      | reflexivity]; lia.
  - destruct (Z_lt_dec (endAt arr (midpoint low high)) addr).
    + intros Hs. eapply IH in Hs; [| | reflexivity]; lia.
    + intros [= <-]. lia.
Qed.

(** Starts ascend and each end lies below every later start. *)
Definition separated (arr : list heapAllocation) : Prop :=
  ∀ i j, (i < j < length arr)%nat →
    startAt arr i ≤ startAt arr j ∧ endAt arr i < startAt arr j.

(** On such a registry the binary search finds the slot that holds the
    address, if there is one in its window. *)
Lemma searchLoop_complete arr addr : separated arr → ∀ d low high k,
  (high - low = d)%nat → (high ≤ length arr)%nat →
  (low ≤ k < high)%nat → startAt arr k ≤ addr ≤ endAt arr k →
  searchLoop arr addr low high = Some k.
Proof.
  intros Hsep. induction d as [d IH] using lt_wf_ind.
  intros low high k Hd Hhigh Hk Hin.
  rewrite searchLoop_eq.
  destruct (lt_dec low high) as [Hlt|]; [|lia].
  pose proof (midpoint_bounds low high Hlt) as Hmid.
  set (mid := midpoint low high) in *.
  destruct (Z_lt_dec addr (startAt arr mid)) as [Hl|Hl].
  - eapply IH; [| reflexivity | lia | | exact Hin]; [lia|].
    destruct (decide (k < mid)%nat); [lia|].
    destruct (decide (k = mid)) as [->|]; [lia|].
    destruct (Hsep mid k); lia.
  - destruct (Z_lt_dec (endAt arr mid) addr) as [Hr|Hr].
    + eapply IH; [| reflexivity | lia | | exact Hin]; [lia|].
      destruct (decide (mid < k)%nat); [lia|].
      destruct (decide (k = mid)) as [->|]; [lia|].
      destruct (Hsep k mid); lia.
    + destruct (decide (k = mid)) as [->|Hne]; [reflexivity|].
      destruct (decide (k < mid)%nat).
      * destruct (Hsep k mid); lia.
      * destruct (Hsep mid k); lia.
Qed.

Lemma startAt_lookup arr i r : arr !! i = Some r → startAt arr i = start r.
Proof. intros H. unfold startAt. rewrite H. reflexivity. Qed.

Lemma endAt_lookup arr i r : arr !! i = Some r → endAt arr i = end_ r.
Proof. intros H. unfold endAt. rewrite H. reflexivity. Qed.

Lemma sortedByStart_le arr :
  sortedByStart arr →
  ∀ d i, (i + d < length arr)%nat → startAt arr i ≤ startAt arr (i + d).
Proof.
  intros Hs d. induction d as [|d IH]; intros i Hlt.
  - rewrite Nat.add_0_r. lia.
  - transitivity (startAt arr (i + d)); [apply IH; lia|].
    destruct (lookup_lt_is_Some_2 arr (i + d)) as [a Ha]; [lia|].
    destruct (lookup_lt_is_Some_2 arr (S (i + d))) as [b Hb]; [lia|].
    replace (i + S d)%nat with (S (i + d)) by lia.
    rewrite (startAt_lookup _ _ _ Ha), (startAt_lookup _ _ _ Hb).
    eapply Hs; eassumption.
Qed.

Lemma separated_of_disjointIntervals arr :
  wellFormed arr → sortedByStart arr → disjointIntervals arr → separated arr.
Proof.
  intros Hwf Hs Hd i j Hij.
  assert (Hle : startAt arr i ≤ startAt arr j).
  { replace j with (i + (j - i))%nat by lia.
    apply sortedByStart_le; [assumption | lia]. }
  split; [exact Hle|].
  destruct (lookup_lt_is_Some_2 arr i) as [a Ha]; [lia|].
  destruct (lookup_lt_is_Some_2 arr j) as [b Hb]; [lia|].
  rewrite (startAt_lookup _ _ _ Ha), (startAt_lookup _ _ _ Hb) in *.
  rewrite (endAt_lookup _ _ _ Ha).
  destruct (Z_lt_dec (end_ a) (start b)) as [|Hge]; [assumption|].
  exfalso. apply (Hd i j a b (start b)); [lia | assumption | assumption |].
  assert (start b ≤ end_ b) by (apply Hwf; eapply list_elem_of_lookup_2; eauto).
  unfold contains. lia.
Qed.

(** On a separated registry at most one slot holds an address. *)
Lemma separated_unique arr addr i j :
  separated arr → (i < length arr)%nat → (j < length arr)%nat →
  startAt arr i ≤ addr ≤ endAt arr i → startAt arr j ≤ addr ≤ endAt arr j →
  i = j.
Proof.
  intros Hsep Hi Hj Hci Hcj.
  destruct (lt_eq_lt_dec i j) as [[Hlt| ->]|Hlt]; [| reflexivity |].
  - destruct (Hsep i j); lia.
  - destruct (Hsep j i); lia.
Qed.

(** The two ways [mark] can go on a separated registry. *)
Lemma mark_cases addr s :
  separated (allocations s) → wellFormed (allocations s) →
  (∃ i r, allocations s !! i = Some r ∧ contains r addr ∧ marked r = false
          ∧ mark addr s = (true, pushMarked i r s))
  ∨ (¬ someUnmarkedContains (allocations s) addr ∧ mark addr s = (false, s)).
Proof.
  intros Hsep Hwf. unfold mark. cbn zeta.
  set (arr := allocations s) in *.
  assert (Hnone : (∀ i r, arr !! i = Some r → ¬ contains r addr) →
                  ¬ someUnmarkedContains arr addr).
  { intros H (i & r & Hi & Hc & _). exact (H i r Hi Hc). }
  destruct (Nat.eqb_spec (length arr) 0) as [Hlen|Hlen].
  { right. split; [|reflexivity]. apply Hnone. intros i r Hi.
    apply lookup_lt_Some in Hi. lia. }
  destruct (Z.ltb_spec addr (startAt arr 0)) as [Hlow|Hlow]; simpl.
  { right. split; [|reflexivity]. apply Hnone. intros i r Hi Hc.
    pose proof (lookup_lt_Some _ _ _ Hi) as Hlt.
    assert (startAt arr 0 ≤ startAt arr i).
    { destruct i; [lia|]. apply Hsep. lia. }
    rewrite (startAt_lookup _ _ _ Hi) in *. unfold contains in Hc. lia. }
  destruct (Z.ltb_spec (endAt arr (length arr - 1)) addr) as [Hhigh|Hhigh].
  { right. split; [|reflexivity]. apply Hnone. intros i r Hi Hc.
    pose proof (lookup_lt_Some _ _ _ Hi) as Hlt.
    destruct (decide (i = length arr - 1)%nat) as [->|Hne].
    - rewrite (endAt_lookup _ _ _ Hi) in *. unfold contains in Hc. lia.
    - destruct (Hsep i (length arr - 1)%nat) as [_ Hlast]; [lia|].
      destruct (lookup_lt_is_Some_2 arr (length arr - 1)) as [b Hb]; [lia|].
      assert (start b ≤ end_ b)
        by (apply Hwf; eapply list_elem_of_lookup_2; eauto).
      rewrite (endAt_lookup _ _ _ Hi), (startAt_lookup _ _ _ Hb) in Hlast.
      rewrite (endAt_lookup _ _ _ Hb) in Hhigh.
      unfold contains in Hc. lia. }
  unfold searchAllocations.
  destruct (searchLoop arr addr 0 (length arr)) as [i|] eqn:Hsearch.
  - apply searchLoop_sound with (d := length arr) in Hsearch as [Hi Hin];
      [|lia].
    destruct (lookup_lt_is_Some_2 arr i) as [cur Hcur]; [lia|].
    rewrite Hcur.
    rewrite (startAt_lookup _ _ _ Hcur), (endAt_lookup _ _ _ Hcur) in Hin.
    destruct (marked cur) eqn:Hm.
    + right. split; [|reflexivity].
      intros (j & r & Hj & Hc & Hr).
      pose proof (lookup_lt_Some _ _ _ Hj) as Hlt.
      assert (i = j) as <-.
      { apply (separated_unique arr addr); auto; try lia.
        - rewrite (startAt_lookup _ _ _ Hcur), (endAt_lookup _ _ _ Hcur). lia.
        - rewrite (startAt_lookup _ _ _ Hj), (endAt_lookup _ _ _ Hj).
          exact Hc. }
      congruence.
    + left. exists i, cur. repeat split; auto; lia.
  - right. split; [|reflexivity]. apply Hnone. intros i r Hi Hc.
    pose proof (lookup_lt_Some _ _ _ Hi) as Hlt.
    assert (searchLoop arr addr 0 (length arr) = Some i) as Hfound.
    { apply (searchLoop_complete arr addr Hsep (length arr)); try lia.
      rewrite (startAt_lookup _ _ _ Hi), (endAt_lookup _ _ _ Hi). exact Hc. }
    congruence.
Qed.

(** C2, amended. On a registry of well-formed records ([start <= end]),
    sorted by [start], whose inclusive intervals [[start, end]] are pairwise
    disjoint: [mark addr] returns true exactly when some record that is not
    yet marked holds [addr] in its inclusive interval; it then sets that
    record's [marked] flag, links it in front of the scan queue and makes it
    the head; in every other case it returns false and leaves the state as
    it is. *)
Theorem mark_marks_the_record_holding_addr (addr : Z) (s : state) :
  wellFormed (allocations s) →
  sortedByStart (allocations s) →
  disjointIntervals (allocations s) →
  (fst (mark addr s) = true ↔ someUnmarkedContains (allocations s) addr)
  ∧ (∀ i r, allocations s !! i = Some r → contains r addr → marked r = false →
       mark addr s = (true, pushMarked i r s))
  ∧ (¬ someUnmarkedContains (allocations s) addr → mark addr s = (false, s)).
Proof.
  intros Hwf Hsorted Hdisj.
  pose proof (separated_of_disjointIntervals _ Hwf Hsorted Hdisj) as Hsep.
  destruct (mark_cases addr s Hsep Hwf)
    as [(i & r & Hi & Hc & Hm & Hmark)|[Hnone Hmark]]; rewrite Hmark; simpl.
  - split; [|split].
    + split; [intros _; exists i, r; auto | reflexivity].
    + intros j r' Hj Hc' Hm'.
      assert (i = j) as <-.
      { pose proof (lookup_lt_Some _ _ _ Hi). pose proof (lookup_lt_Some _ _ _ Hj).
        apply (separated_unique (allocations s) addr); auto.
        - rewrite (startAt_lookup _ _ _ Hi), (endAt_lookup _ _ _ Hi). exact Hc.
        - rewrite (startAt_lookup _ _ _ Hj), (endAt_lookup _ _ _ Hj). exact Hc'. }
      congruence.
    + intros Hn. exfalso. apply Hn. exists i, r. auto.
  - split; [|split].
    + split; [discriminate | intros H; contradiction].
    + intros j r' Hj Hc' Hm'. exfalso. apply Hnone. exists j, r'. auto.
    + reflexivity.
Qed.

(** A state at boot that holds the given registry in a full backing array. *)
Definition withRegistry (arr : list heapAllocation) : state :=
  setSlice arr [] (Z.of_nat (length arr)) 4096 bootState.

(** Two records whose ranges touch: [[16, 32)] and [[32, 48)], the second
    one already marked. *)
Definition touching : list heapAllocation :=
  [mkAlloc 16 32 false None; mkAlloc 32 48 true None].

(** Two records with a gap between them, neither marked. *)
Definition apart : list heapAllocation :=
  [mkAlloc 16 32 false None; mkAlloc 40 48 false None].

Ltac two_slots :=
  repeat match goal with
         | H : _ !! ?i = Some _ |- _ => is_var i; destruct i as [|[|?]]
         | H : (_ :: _) !! _ = Some _ |- _ => progress cbn in H
         | H : [] !! _ = Some _ |- _ => progress cbn in H
         | H : Some _ = Some _ |- _ => injection H as <-
         | H : None = Some _ |- _ => discriminate H
         end.

Lemma touching_wellFormed : wellFormed touching.
Proof.
  intros r Hr. apply list_elem_of_In in Hr. simpl in Hr.
  destruct Hr as [<-|[<-|[]]]; simpl; lia.
Qed.

Lemma touching_sorted : sortedByStart touching.
Proof.
  intros i ri rj Hi Hj. unfold touching in *. two_slots. simpl. lia.
Qed.

Lemma touching_disjointRanges : disjointRanges touching.
Proof.
  intros i j ri rj a Hne Hi Hj [H1 H2]. unfold touching in *.
  two_slots; unfold inRange in *; simpl in *; lia.
Qed.

(** C2 as stated fails where two records touch. The registry
    [[16, 32); [32, 48)] is sorted and its address ranges are disjoint; the
    first record is not marked and holds 32 in its inclusive interval, yet
    [mark 32] finds the second record, which is marked, and returns false. *)
Lemma mark_misses_unmarked_record_at_shared_bound :
  wellFormed touching ∧ sortedByStart touching ∧ disjointRanges touching
  ∧ someUnmarkedContains touching 32
  ∧ mark 32 (withRegistry touching) = (false, withRegistry touching)
  ∧ ¬ (fst (mark 32 (withRegistry touching)) = true
       ↔ someUnmarkedContains (allocations (withRegistry touching)) 32).
Proof.
  assert (Hsome : someUnmarkedContains touching 32).
  { exists 0%nat, (mkAlloc 16 32 false None).
    repeat split; simpl; unfold contains; simpl; lia || reflexivity. }
  assert (Hmark : mark 32 (withRegistry touching)
                  = (false, withRegistry touching)) by (vm_compute; reflexivity).
  split; [apply touching_wellFormed|].
  split; [apply touching_sorted|].
  split; [apply touching_disjointRanges|].
  split; [exact Hsome|].
  split; [exact Hmark|].
  rewrite Hmark. simpl. intros [_ H]. specialize (H Hsome). discriminate.
Qed.

Lemma apart_wellFormed : wellFormed apart.
Proof.
  intros r Hr. apply list_elem_of_In in Hr. simpl in Hr.
  destruct Hr as [<-|[<-|[]]]; simpl; lia.
Defined.

Lemma apart_sorted : sortedByStart apart.
Proof.
  intros i ri rj Hi Hj. unfold apart in *. two_slots. simpl. lia.
Defined.

Lemma apart_disjointIntervals : disjointIntervals apart.
Proof.
  intros i j ri rj a Hne Hi Hj [H1 H2]. unfold apart in *.
  two_slots; unfold contains in *; simpl in *; lia.
Defined.

Lemma mark_marks_the_record_holding_addr_witness :
  wellFormed (allocations (withRegistry apart))
  ∧ sortedByStart (allocations (withRegistry apart))
  ∧ disjointIntervals (allocations (withRegistry apart))
  ∧ mark 32 (withRegistry apart)
    = (true, pushMarked 0 (mkAlloc 16 32 false None) (withRegistry apart)).
Proof.
  split; [exact apart_wellFormed|].
  split; [exact apart_sorted|].
  split; [exact apart_disjointIntervals|].
  apply (mark_marks_the_record_holding_addr 32 (withRegistry apart)
           apart_wellFormed apart_sorted apart_disjointIntervals).
  - reflexivity.
  - unfold contains. simpl. lia.
  - reflexivity.
Defined.

(** ** What each operation leaves alone *)

(** A relation between a state and the state a computation ends in carries
    over [bind] when it is transitive. *)
Lemma bind_final {S A B} (Rel : S → S → Prop) (c : S → result S A)
    (k : A → S → result S B) :
  (∀ x y z, Rel x y → Rel y z → Rel x z) →
  (∀ s, Rel s (finalState (c s))) →
  (∀ a s, Rel s (finalState (k a s))) →
  ∀ s, Rel s (finalState (bind c k s)).
Proof.
  intros Htrans Hc Hk s. unfold bind. specialize (Hc s).
  destruct (c s) as [a s'| |]; simpl in *; auto.
  eapply Htrans; [exact Hc | apply Hk].
Qed.

(** A component of the state that the setters of the registry and of the
    scan queue do not touch. *)
Definition offRegistry {X} (π : state → X) : Prop :=
  (∀ l s, π (setAllocations l s) = π s) ∧ (∀ q s, π (setQueue q s) = π s).

Lemma mark_frame {X} (π : state → X) addr s :
  offRegistry π → π (snd (mark addr s)) = π s.
Proof.
  intros [Ha Hq]. unfold mark. cbn zeta.
  repeat case_match; simpl; rewrite ?Hq, ?Ha; reflexivity.
Qed.

Lemma scanLoop_frame {X} (π : state → X) w fuel : ∀ addr e s,
  offRegistry π → π (finalState (scanLoop w fuel addr e s)) = π s.
Proof.
  induction fuel as [|fuel IH]; intros addr e s Hoff; simpl.
  - destruct (_ <=? _); reflexivity.
  - destruct (_ <=? _); [|reflexivity].
    rewrite IH by assumption. apply mark_frame. assumption.
Qed.

Lemma scan_frame {X} (π : state → X) w fuel lo hi s :
  offRegistry π → π (finalState (scan w fuel lo hi s)) = π s.
Proof.
  intros Hoff. unfold scan.
  apply (bind_final (λ s s', π s' = π s)).
  - intros x y z Hxy Hyz. congruence.
  - intros s0. apply scanLoop_frame. assumption.
  - intros _ s0. destruct (_ <=? _); simpl; [|reflexivity].
    apply mark_frame. assumption.
Qed.

Lemma markRanges_frame {X} (π : state → X) w fuel ranges : ∀ s,
  offRegistry π → π (finalState (markRanges w fuel ranges s)) = π s.
Proof.
  induction ranges as [|[lo hi] rest IH]; intros s Hoff; simpl; [reflexivity|].
  apply (bind_final (λ s s', π s' = π s)).
  - intros x y z Hxy Hyz. congruence.
  - intros s0. apply scan_frame. assumption.
  - intros _ s0. apply IH. assumption.
Qed.

Lemma finishMarking_frame {X} (π : state → X) w sfuel fuel : ∀ s,
  offRegistry π → π (finalState (finishMarking w sfuel fuel s)) = π s.
Proof.
  induction fuel as [|fuel IH]; intros s Hoff; simpl.
  - destruct (referenceScanQueue s); reflexivity.
  - destruct (referenceScanQueue s) as [i|]; [|reflexivity].
    destruct (allocations s !! i) as [cur|]; [|reflexivity].
    pose proof (scan_frame π w sfuel (start cur) (end_ cur)
                  (setQueue (next cur) s) Hoff) as Hscan.
    destruct (scan w sfuel (start cur) (end_ cur) (setQueue (next cur) s))
      as [[] s'| |]; simpl in *.
    + rewrite IH by assumption. rewrite Hscan. apply Hoff.
    + rewrite Hscan. apply Hoff.
    + rewrite Hscan. apply Hoff.
Qed.

Lemma sweepLoop_limit k : ∀ i j s,
  heapUsageLimit (snd (sweepLoop k i j s)) = heapUsageLimit s.
Proof.
  induction k as [|k IH]; intros i j s; simpl; [reflexivity|].
  destruct (allocations s !! i) as [cur|]; [|reflexivity].
  destruct (marked cur); simpl; rewrite IH; reflexivity.
Qed.

Lemma sweep_limit s : heapUsageLimit (sweep s) = heapUsageLimit s.
Proof.
  unfold sweep.
  pose proof (sweepLoop_limit (length (allocations (setTotalAlloc 0 s))) 0 0
                (setTotalAlloc 0 s)) as H.
  destruct (sweepLoop _ 0 0 _) as [j s1]. simpl in *. exact H.
Qed.

Lemma limit_offRegistry : offRegistry heapUsageLimit.
Proof. split; reflexivity. Qed.

Lemma GC_limit w sfuel fuel s :
  heapUsageLimit (finalState (GC w sfuel fuel s)) = heapUsageLimit s.
Proof.
  unfold GC. cbn zeta.
  destruct (gcInProgress (emit EvGC s)); [reflexivity|].
  destruct (Nat.eqb _ 0); [reflexivity|].
  set (s1 := setCycles _ _).
  set (ranges := rootRanges w (cycles s1)).
  change (heapUsageLimit s) with (heapUsageLimit s1).
  clearbody ranges. generalize s1.
  pose proof (λ A B, @bind_final state A B
                (λ s s', heapUsageLimit s' = heapUsageLimit s)) as Hbind.
  assert (Htrans : ∀ x y z : state, heapUsageLimit y = heapUsageLimit x →
            heapUsageLimit z = heapUsageLimit y →
            heapUsageLimit z = heapUsageLimit x) by (intros; congruence).
  apply Hbind; [exact Htrans | reflexivity | intros _].
  apply Hbind; [exact Htrans | | intros _].
  { intros s0. apply markRanges_frame, limit_offRegistry. }
  apply Hbind; [exact Htrans | | intros _].
  { intros s0. apply finishMarking_frame, limit_offRegistry. }
  apply Hbind; [exact Htrans | | intros _].
  { intros s0. simpl. apply sweep_limit. }
  reflexivity.
Qed.

(** ** The heap usage limit *)

(** The values the limit takes: a power of two below 2^32, or all ones. *)
Definition limitOk (l : Z) : Prop :=
  l = maxPtr ∨ ∃ k, 0 ≤ k < 32 ∧ l = 2 ^ k.

Lemma growLimit_zero n total size : growLimit n total size 0 = 0.
Proof. destruct n; reflexivity. Qed.

Lemma wrapPtr_range x : 0 ≤ wrapPtr x ≤ maxPtr.
Proof.
  unfold wrapPtr, maxPtr. pose proof (Z.mod_pos_bound x (2 ^ 32)). lia.
Qed.

Lemma growLimit_maxPtr n total size : growLimit n total size maxPtr = maxPtr.
Proof.
  destruct n; [reflexivity|]. cbn [growLimit].
  pose proof (wrapPtr_range (wrapPtr total + size)).
  destruct (Z.ltb_spec maxPtr (wrapPtr (wrapPtr total + size))); [lia|].
  rewrite andb_false_r. reflexivity.
Qed.

Lemma double_pow2 k :
  0 ≤ k < 32 →
  wrapPtr (Z.shiftl (2 ^ k) 1) = if k =? 31 then 0 else 2 ^ (k + 1).
Proof.
  intros Hk. rewrite Z.shiftl_mul_pow2 by lia.
  replace (2 ^ k * 2 ^ 1) with (2 ^ (k + 1))
    by (rewrite Z.pow_add_r by lia; reflexivity).
  unfold wrapPtr. destruct (Z.eqb_spec k 31) as [->|Hne].
  - reflexivity.
  - apply Z.mod_small. split; [apply Z.pow_nonneg; lia|].
    apply Z.pow_lt_mono_r; lia.
Qed.

(** From a power of two the loop reaches a larger power of two or zero. *)
Lemma growLimit_pow2 total size n : ∀ k,
  0 ≤ k < 32 →
  growLimit n total size (2 ^ k) = 0
  ∨ ∃ j, k ≤ j < 32 ∧ growLimit n total size (2 ^ k) = 2 ^ j.
Proof.
  induction n as [|n IH]; intros k Hk; simpl.
  - right. exists k. split; [lia | reflexivity].
  - destruct (negb (2 ^ k =? 0) && _).
    + rewrite double_pow2 by assumption.
      destruct (Z.eqb_spec k 31) as [->|Hne].
      * left. apply growLimit_zero.
      * destruct (IH (k + 1)) as [H0|(j & Hj & Hr)]; [lia | auto |].
        right. exists j. split; [lia | exact Hr].
    + right. exists k. split; [lia | reflexivity].
Qed.

(** A 32-bit limit is zero after 32 shifts: the loop of
    [adjustHeapUsageLimit] makes at most 32 passes. *)
Lemma growLimit_enough total size : ∀ (j : nat) (l : Z) (n : nat),
  (j ≤ 32)%nat → 0 ≤ l < 2 ^ 32 → (2 ^ (32 - Z.of_nat j) | l) →
  growLimit (j + n) total size l = growLimit j total size l.
Proof.
  induction j as [|j IH]; intros l n Hj Hl [q Hq].
  - simpl in Hq. assert (l = 0) as -> by lia.
    rewrite Nat.add_0_l. apply growLimit_zero.
  - simpl. destruct (negb (l =? 0) && _); [|reflexivity].
    apply IH; [lia | apply Z.mod_pos_bound; lia |].
    rewrite Z.shiftl_mul_pow2 by lia. unfold wrapPtr.
    rewrite Z.mod_eq by lia.
    apply Z.divide_sub_r.
    + exists q. rewrite Hq.
      replace (2 ^ (32 - Z.of_nat j))
        with (2 ^ (32 - Z.of_nat (S j)) * 2 ^ 1)
        by (rewrite <- Z.pow_add_r by lia; f_equal; lia).
      ring.
    + apply Z.divide_mul_l.
      exists (2 ^ Z.of_nat j). rewrite <- Z.pow_add_r by lia. f_equal. lia.
Qed.

Lemma growLimit_32_passes total size l n :
  0 ≤ l < 2 ^ 32 →
  growLimit (32 + n) total size l = growLimit 32 total size l.
Proof.
  intros Hl. apply growLimit_enough; [lia | exact Hl |].
  simpl. exists l. lia.
Qed.

(** The limit keeps its shape and does not decrease. *)
Definition limitStep (s s' : state) : Prop :=
  limitOk (heapUsageLimit s) →
  limitOk (heapUsageLimit s') ∧ heapUsageLimit s ≤ heapUsageLimit s'.

Lemma limitStep_refl s : limitStep s s.
Proof. intros H. split; [exact H | lia]. Qed.

Lemma limitStep_trans x y z : limitStep x y → limitStep y z → limitStep x z.
Proof.
  intros Hxy Hyz Hx. destruct (Hxy Hx) as [Hy Hle].
  destruct (Hyz Hy) as [Hz Hle']. split; [exact Hz | lia].
Qed.

Lemma limitStep_same s s' :
  heapUsageLimit s' = heapUsageLimit s → limitStep s s'.
Proof. intros Heq H. rewrite Heq. split; [exact H | lia]. Qed.

Lemma pow2_le_maxPtr k : 0 ≤ k < 32 → 0 < 2 ^ k ≤ maxPtr.
Proof.
  intros Hk. unfold maxPtr.
  assert (2 ^ k < 2 ^ 32) by (apply Z.pow_lt_mono_r; lia).
  assert (0 < 2 ^ k) by (apply Z.pow_pos_nonneg; lia). lia.
Qed.

(** The limit that [adjustHeapUsageLimit] leaves. *)
Lemma adjustHeapUsageLimit_limit size s :
  heapUsageLimit (finalState (adjustHeapUsageLimit size s))
  = if growLimit 32 (gcTotalAlloc s) size (heapUsageLimit s) =? 0
    then maxPtr
    else growLimit 32 (gcTotalAlloc s) size (heapUsageLimit s).
Proof. unfold adjustHeapUsageLimit. reflexivity. Qed.

Lemma maxPtr_nonzero : (maxPtr =? 0) = false.
Proof. reflexivity. Qed.

Lemma adjustHeapUsageLimit_step size s :
  limitStep s (finalState (adjustHeapUsageLimit size s)).
Proof.
  intros Hok. rewrite adjustHeapUsageLimit_limit.
  destruct Hok as [Hmax|(k & Hk & Hpow)].
  - rewrite Hmax, growLimit_maxPtr, maxPtr_nonzero.
    split; [left; reflexivity | lia].
  - rewrite Hpow.
    destruct (growLimit_pow2 (gcTotalAlloc s) size 32 k Hk)
      as [H0|(j & Hj & Hr)].
    + rewrite H0. rewrite Z.eqb_refl. split; [left; reflexivity|].
      apply pow2_le_maxPtr. exact Hk.
    + rewrite Hr. pose proof (pow2_le_maxPtr j ltac:(lia)) as Hpos.
      destruct (Z.eqb_spec (2 ^ j) 0) as [H0|_]; [lia|].
      split; [right; exists j; split; [lia | reflexivity]|].
      apply Z.pow_le_mono_r; lia.
Qed.

Lemma extalloc_limit w what size s :
  heapUsageLimit (finalState (extalloc w what size s)) = heapUsageLimit s.
Proof. destruct what; reflexivity. Qed.

Lemma tryGC_limitStep w sfuel gfuel gcRan size fn :
  (∀ b sz s, limitStep s (finalState (fn b sz s))) →
  ∀ s, limitStep s (finalState (tryGC w sfuel gfuel gcRan size fn s)).
Proof.
  intros Hfn. unfold tryGC. destruct gcRan.
  - apply (bind_final limitStep); [exact limitStep_trans | apply Hfn |].
    intros _ s. apply limitStep_refl.
  - apply (bind_final limitStep); [exact limitStep_trans | |].
    + intros s. apply limitStep_same, GC_limit.
    + intros _ s. apply limitStep_refl.
Qed.

Lemma expandHeap_limitStep b size s :
  limitStep s (finalState (expandHeap b size s)).
Proof.
  destruct b; [apply adjustHeapUsageLimit_step | apply limitStep_refl].
Qed.

Lemma fail_limitStep b size s : limitStep s (finalState (fail b size s)).
Proof. destruct b; apply limitStep_refl. Qed.

Lemma expandAllocationsIfNeeded_limitStep w sfuel gfuel gcRan s :
  limitStep s (finalState (expandAllocationsIfNeeded w sfuel gfuel gcRan s)).
Proof.
  unfold expandAllocationsIfNeeded. cbn zeta.
  destruct (_ =? allocCap s); [|apply limitStep_refl].
  generalize (length (allocations s)), (allocPtr s), (allocCap s).
  intros hlen hptr hcap. revert s.
  apply (bind_final limitStep); [exact limitStep_trans | |].
  { intros s. apply limitStep_same, extalloc_limit. }
  intros ptr.
  apply (bind_final limitStep); [exact limitStep_trans | |].
  { intros s. destruct (ptr =? 0); [|apply limitStep_refl].
    apply tryGC_limitStep. apply fail_limitStep. }
  intros g.
  apply (bind_final limitStep); [exact limitStep_trans | |].
  { intros s. apply limitStep_same. reflexivity. }
  intros _.
  apply (bind_final limitStep); [exact limitStep_trans | |].
  { intros s. destruct (hcap =? 0); apply limitStep_same; reflexivity. }
  intros _ s. apply limitStep_refl.
Qed.

Lemma allocLoop_limitStep w sfuel gfuel fuel size : ∀ gcRan s,
  limitStep s (finalState (allocLoop w sfuel gfuel fuel size gcRan s)).
Proof.
  induction fuel as [|fuel IH]; intros gcRan s; [apply limitStep_refl|].
  cbn [allocLoop].
  destruct (needGC size s).
  - revert s. apply (bind_final limitStep); [exact limitStep_trans | |].
    + apply tryGC_limitStep. apply expandHeap_limitStep.
    + intros g s. apply IH.
  - revert s. apply (bind_final limitStep); [exact limitStep_trans | |].
    { intros s. apply expandAllocationsIfNeeded_limitStep. }
    intros g.
    apply (bind_final limitStep); [exact limitStep_trans | |].
    { intros s. apply limitStep_same, extalloc_limit. }
    intros ptr. destruct (ptr =? 0).
    + apply (bind_final limitStep); [exact limitStep_trans | |].
      * apply tryGC_limitStep. apply fail_limitStep.
      * intros g' s. apply IH.
    + intros s. apply limitStep_same. reflexivity.
Qed.

Lemma alloc_limitStep w sfuel gfuel fuel size s :
  limitStep s (finalState (alloc w sfuel gfuel fuel size s)).
Proof.
  unfold alloc. destruct (gcInProgress s); [apply limitStep_refl|].
  destruct (size =? 0); [apply limitStep_same; reflexivity|].
  eapply limitStep_trans; [|apply allocLoop_limitStep].
  apply limitStep_same. reflexivity.
Qed.

(** The calls a program makes into the collector. *)
Inductive op :=
| OpAlloc (size : Z)
| OpFree (ptr : Z)
| OpGC.

Definition runOp (w : world) (sfuel gfuel fuel : nat) (o : op) : M unit :=
  match o with
  | OpAlloc size => alloc w sfuel gfuel fuel size ;; ret tt
  | OpFree ptr => modify (free ptr)
  | OpGC => GC w sfuel gfuel
  end.

(** The states between the calls of a sequence, up to the first call that
    does not return. *)
Fixpoint boundaries (w : world) (sfuel gfuel fuel : nat) (ops : list op)
    (s : state) : list state :=
  match ops with
  | [] => []
  | o :: rest =>
      match runOp w sfuel gfuel fuel o s with
      | Done _ s' => s' :: boundaries w sfuel gfuel fuel rest s'
      | _ => []
      end
  end.

Lemma runOp_limitStep w sfuel gfuel fuel o s :
  limitStep s (finalState (runOp w sfuel gfuel fuel o s)).
Proof.
  destruct o as [size|ptr|]; cbn [runOp].
  - revert s. apply (bind_final limitStep); [exact limitStep_trans | |].
    + intros s. apply alloc_limitStep.
    + intros _ s. apply limitStep_refl.
  - apply limitStep_same. reflexivity.
  - apply limitStep_same, GC_limit.
Qed.

Lemma boundaries_limit w sfuel gfuel fuel ops : ∀ s,
  limitOk (heapUsageLimit s) →
  ∀ j sj, (s :: boundaries w sfuel gfuel fuel ops s) !! j = Some sj →
    limitOk (heapUsageLimit sj) ∧ heapUsageLimit s ≤ heapUsageLimit sj.
Proof.
  induction ops as [|o rest IH]; intros s Hok j sj Hj.
  - destruct j as [|j]; simpl in Hj; [|destruct j; discriminate].
    injection Hj as <-. split; [exact Hok | lia].
  - destruct j as [|j]; simpl in Hj.
    { injection Hj as <-. split; [exact Hok | lia]. }
    pose proof (runOp_limitStep w sfuel gfuel fuel o s Hok) as Hstep.
    destruct (runOp w sfuel gfuel fuel o s) as [[] s'| |];
      simpl in *; try (destruct j; discriminate).
    destruct Hstep as [Hok' Hle].
    destruct (IH s' Hok' j sj Hj) as [Hokj Hlej].
    split; [exact Hokj | lia].
Qed.

Lemma boundaries_suffix w sfuel gfuel fuel ops : ∀ s i si,
  (s :: boundaries w sfuel gfuel fuel ops s) !! i = Some si →
  ∃ ops', ∀ d, (s :: boundaries w sfuel gfuel fuel ops s) !! (i + d)%nat
               = (si :: boundaries w sfuel gfuel fuel ops' si) !! d.
Proof.
  induction ops as [|o rest IH]; intros s i si Hi.
  - destruct i as [|i]; simpl in Hi; [|destruct i; discriminate].
    injection Hi as <-. exists []. intros d. reflexivity.
  - destruct i as [|i]; simpl in Hi.
    { injection Hi as <-. exists (o :: rest). intros d. reflexivity. }
    destruct (runOp w sfuel gfuel fuel o s) as [[] s'| |] eqn:Hrun;
      simpl in *; try (destruct i; discriminate).
    destruct (IH s' i si Hi) as [ops' Hops']. exists ops'.
    intros d. simpl. rewrite Hrun. apply Hops'.
Qed.

Lemma bootState_limitOk : limitOk (heapUsageLimit bootState).
Proof. right. exists 19. split; [lia | reflexivity]. Qed.

Lemma growLimit_compose total size n : ∀ m l,
  growLimit (n + m) total size l
  = growLimit m total size (growLimit n total size l).
Proof.
  induction n as [|n IH]; intros m l; simpl; [reflexivity|].
  destruct (negb (l =? 0) && _) eqn:Hc; [apply IH|].
  destruct m; simpl; [reflexivity|]. rewrite Hc. reflexivity.
Qed.

Lemma growLimit_range total size n : ∀ l,
  0 ≤ l < 2 ^ 32 → 0 ≤ growLimit n total size l < 2 ^ 32.
Proof.
  induction n as [|n IH]; intros l Hl; simpl; [exact Hl|].
  destruct (negb (l =? 0) && _); [|exact Hl].
  apply IH. apply Z.mod_pos_bound. lia.
Qed.

(** When the loop of [adjustHeapUsageLimit] ends, the limit is zero or the
    request fits. *)
Lemma growLimit_exit total size l :
  0 ≤ l < 2 ^ 32 →
  growLimit 32 total size l = 0
  ∨ wrapPtr (wrapPtr total + size) ≤ growLimit 32 total size l.
Proof.
  intros Hl.
  pose proof (growLimit_32_passes total size l 1 Hl) as Hstable.
  rewrite growLimit_compose in Hstable.
  pose proof (growLimit_range total size 32 l Hl) as Hr.
  remember (growLimit 32 total size l) as r eqn:Heqr. clear Heqr.
  cbn [growLimit] in Hstable.
  destruct (Z.eqb_spec r 0) as [|Hne]; [left; assumption|].
  destruct (Z.ltb_spec r (wrapPtr (wrapPtr total + size))) as [Hlt|Hge];
    [|right; assumption].
  cbn [negb andb] in Hstable. exfalso.
  rewrite Z.shiftl_mul_pow2 in Hstable by lia. unfold wrapPtr in Hstable.
  change (2 ^ 1) with 2 in Hstable.
  destruct (Z_lt_dec (r * 2) (2 ^ 32)) as [Hsmall|Hbig].
  - rewrite Z.mod_small in Hstable by lia. lia.
  - replace (r * 2) with (r * 2 - 2 ^ 32 + 1 * 2 ^ 32) in Hstable by ring.
    rewrite Z.mod_add in Hstable by lia.
    rewrite Z.mod_small in Hstable by lia. lia.
Qed.

Lemma limitOk_range l : limitOk l → 0 ≤ l < 2 ^ 32.
Proof.
  intros [->|(k & Hk & ->)]; [unfold maxPtr; lia|].
  pose proof (pow2_le_maxPtr k Hk). unfold maxPtr in *. lia.
Qed.

(** From a power of two the loop of [adjustHeapUsageLimit] stops at the
    first power of two that is not below the 32-bit sum [v] of the total
    and the size, and reaches zero when [v] is above 2^31. *)
Lemma growLimit_pow2_exact total size : ∀ (n : nat) (k : Z),
  0 ≤ k < 32 → 32 - k ≤ Z.of_nat n →
  let v := wrapPtr (wrapPtr total + size) in
  let r := growLimit n total size (2 ^ k) in
  (v ≤ 2 ^ k → r = 2 ^ k)
  ∧ (2 ^ k < v → v ≤ 2 ^ 31 →
     ∃ j, k < j < 32 ∧ r = 2 ^ j ∧ 2 ^ (j - 1) < v ≤ 2 ^ j)
  ∧ (2 ^ k < v → 2 ^ 31 < v → r = 0).
Proof.
  cbn zeta. induction n as [|n IH]; intros k Hk Hn; [lia|].
  cbn [growLimit].
  assert (Hpos : 0 < 2 ^ k) by (apply Z.pow_pos_nonneg; lia).
  destruct (Z.eqb_spec (2 ^ k) 0) as [|_]; [lia|]. cbn [negb andb].
  destruct (Z.ltb_spec (2 ^ k) (wrapPtr (wrapPtr total + size)))
    as [Hlt|Hge].
  - rewrite double_pow2 by assumption.
    destruct (Z.eqb_spec k 31) as [->|Hne].
    + rewrite growLimit_zero. split; [lia|]. split; [lia|]. reflexivity.
    + destruct (IH (k + 1)) as (Ha & Hb & Hc); [lia | lia |].
      split; [lia|].
      assert (Hle : 2 ^ (k + 1) ≤ 2 ^ 31) by (apply Z.pow_le_mono_r; lia).
      destruct (Z_le_gt_dec (wrapPtr (wrapPtr total + size)) (2 ^ (k + 1)))
        as [Hfit|Hmore].
      * rewrite (Ha Hfit). split; [|lia]. intros _ _.
        exists (k + 1). split; [lia|]. split; [reflexivity|].
        replace (k + 1 - 1) with k by lia. lia.
      * split.
        -- intros _ Hv. destruct (Hb ltac:(lia) Hv) as (j & Hj & Hr & Hjv).
           exists j. split; [lia|]. split; assumption.
        -- intros _ Hv. apply Hc; lia.
  - split; [reflexivity|]. split; lia.
Qed.

(** X21. Over every sequence of [alloc], [free] and [GC] calls from boot,
    the limit seen between the calls never decreases. [free] and [GC] leave
    it as it is. [adjustHeapUsageLimit], the one place that assigns it,
    compares the limit [l] with [v], the sum of the total and the size
    taken as a [uintptr], that is, modulo 2^32: when [v] is not above [l]
    it leaves [l]; otherwise it leaves the first power of two that is not
    below [v], which is [l] doubled one or more times, and, when there is
    none below 2^32 ([v] is above 2^31), all ones. *)
Theorem heapUsageLimit_never_decreases (w : world) (sfuel gfuel fuel : nat)
    (ops : list op) :
  let sts := bootState :: boundaries w sfuel gfuel fuel ops bootState in
  (∀ i j si sj, (i ≤ j)%nat → sts !! i = Some si → sts !! j = Some sj →
     heapUsageLimit si ≤ heapUsageLimit sj)
  ∧ (∀ s ptr, heapUsageLimit (free ptr s) = heapUsageLimit s)
  ∧ (∀ s, heapUsageLimit (finalState (GC w sfuel gfuel s)) = heapUsageLimit s)
  ∧ (∀ i si size, sts !! i = Some si →
       let l := heapUsageLimit si in
       let v := wrapPtr (wrapPtr (gcTotalAlloc si) + size) in
       let l' := heapUsageLimit (finalState (adjustHeapUsageLimit size si)) in
       (v ≤ l → l' = l)
       ∧ (l < v → v ≤ 2 ^ 31 →
          ∃ m j, 0 < m ∧ l' = l * 2 ^ m ∧ l' = 2 ^ j
                 ∧ 2 ^ (j - 1) < v ≤ l')
       ∧ (l < v → 2 ^ 31 < v → l' = maxPtr)).
Proof.
  cbn zeta. split; [|split; [|split]].
  - intros i j si sj Hij Hi Hj.
    destruct (boundaries_limit w sfuel gfuel fuel ops bootState
                bootState_limitOk i si Hi) as [Hok _].
    destruct (boundaries_suffix w sfuel gfuel fuel ops bootState i si Hi)
      as [ops' Hops'].
    specialize (Hops' (j - i)%nat).
    replace (i + (j - i))%nat with j in Hops' by lia.
    rewrite Hj in Hops'. symmetry in Hops'.
    apply (boundaries_limit w sfuel gfuel fuel ops' si Hok _ _ Hops').
  - reflexivity.
  - intros s. apply GC_limit.
  - intros i si size Hi.
    destruct (boundaries_limit w sfuel gfuel fuel ops bootState
                bootState_limitOk i si Hi) as [Hok _].
    rewrite adjustHeapUsageLimit_limit.
    pose proof (wrapPtr_range (wrapPtr (gcTotalAlloc si) + size)) as Hv.
    destruct Hok as [Hmax|(k & Hk & Hpow)].
    + rewrite Hmax, growLimit_maxPtr, maxPtr_nonzero.
      split; [reflexivity|]. split; intros; lia.
    + rewrite Hpow.
      destruct (growLimit_pow2_exact (gcTotalAlloc si) size 32 k Hk
                  ltac:(lia)) as (Ha & Hb & Hc).
      assert (Hpos : 0 < 2 ^ k) by (apply Z.pow_pos_nonneg; lia).
      split; [|split].
      * intros Hfit. rewrite (Ha Hfit).
        destruct (Z.eqb_spec (2 ^ k) 0) as [|_]; [lia | reflexivity].
      * intros Hlt Hv31. destruct (Hb Hlt Hv31) as (j & Hj & Hr & Hjv).
        rewrite Hr.
        assert (Hposj : 0 < 2 ^ j) by (apply Z.pow_pos_nonneg; lia).
        destruct (Z.eqb_spec (2 ^ j) 0) as [|_]; [lia|].
        exists (j - k), j. split; [lia|]. split.
        -- rewrite <- Z.pow_add_r by lia. f_equal. lia.
        -- split; [reflexivity | exact Hjv].
      * intros Hlt Hv31. rewrite (Hc Hlt Hv31). reflexivity.
Qed.

(** ** The calls made: collect once, then grow *)

(** Events other than a collection or a growth of the limit. *)
Definition quietEvent (e : event) : bool :=
  match e with
  | EvGC | EvGrow _ _ => false
  | _ => true
  end.

(** The state went on by making calls that are neither a collection nor a
    growth of the limit. *)
Definition quietStep (s s' : state) : Prop :=
  ∃ evs, trace s' = trace s ++ evs ∧ forallb quietEvent evs = true.

Lemma quietStep_refl s : quietStep s s.
Proof. exists []. rewrite app_nil_r. split; reflexivity. Qed.

Lemma quietStep_trans x y z : quietStep x y → quietStep y z → quietStep x z.
Proof.
  intros (e1 & H1 & Q1) (e2 & H2 & Q2). exists (e1 ++ e2).
  rewrite H2, H1, app_assoc. split; [reflexivity|].
  rewrite forallb_app, Q1, Q2. reflexivity.
Qed.

Lemma quietStep_same s s' : trace s' = trace s → quietStep s s'.
Proof.
  intros H. exists []. rewrite app_nil_r. split; [exact H | reflexivity].
Qed.

Lemma quietStep_emit e s : quietEvent e = true → quietStep s (emit e s).
Proof. intros H. exists [e]. simpl. rewrite H. split; reflexivity. Qed.

Lemma trace_offRegistry : offRegistry trace.
Proof. split; reflexivity. Qed.

Lemma sweep_trace s :
  trace (sweep s)
  = trace s ++ map (λ r, EvExtfree (start r))
                 (List.filter unmarked (allocations s)).
Proof.
  unfold sweep.
  pose proof (sweepLoop_spec (length (allocations s)) 0 0 (setTotalAlloc 0 s))
    as Hloop.
  cbn zeta in Hloop.
  destruct Hloop as (_ & _ & _ & H4 & _); [lia | reflexivity | reflexivity |].
  change (allocations (setTotalAlloc 0 s)) with (allocations s) in *.
  destruct (sweepLoop _ 0 0 _) as [j s1]. simpl in *.
  rewrite drop_0 in H4. exact H4.
Qed.

Lemma sweep_quiet s : quietStep s (sweep s).
Proof.
  eexists. split; [apply sweep_trace|].
  induction (List.filter unmarked (allocations s)); simpl; auto.
Qed.

(** A collection emits its own event and then only frees. *)
Lemma GC_events w sfuel fuel s :
  ∃ evs, trace (finalState (GC w sfuel fuel s)) = trace s ++ EvGC :: evs
         ∧ forallb quietEvent evs = true.
Proof.
  assert (Hq : quietStep (emit EvGC s) (finalState (GC w sfuel fuel s))).
  { unfold GC. cbn zeta.
    destruct (gcInProgress (emit EvGC s)); [apply quietStep_refl|].
    destruct (Nat.eqb _ 0); [apply quietStep_same; reflexivity|].
    set (s1 := setCycles _ _).
    set (ranges := rootRanges w (cycles s1)).
    apply (quietStep_trans _ s1); [apply quietStep_same; reflexivity|].
    clearbody ranges. generalize s1.
    pose proof (λ A B, @bind_final state A B quietStep) as Hbind.
    apply Hbind; [exact quietStep_trans | | intros _].
    { intros s0. apply quietStep_same. reflexivity. }
    apply Hbind; [exact quietStep_trans | | intros _].
    { intros s0. apply quietStep_same.
      apply markRanges_frame, trace_offRegistry. }
    apply Hbind; [exact quietStep_trans | | intros _].
    { intros s0. apply quietStep_same.
      apply finishMarking_frame, trace_offRegistry. }
    apply Hbind; [exact quietStep_trans | | intros _].
    { intros s0. simpl. apply sweep_quiet. }
    intros s0. apply quietStep_same. reflexivity. }
  destruct Hq as (evs & Ht & Hq). exists evs. split; [|exact Hq].
  rewrite Ht. simpl. rewrite <- app_assoc. reflexivity.
Qed.

(** The policy as an automaton over the calls of one [alloc]: the state is
    whether a collection has run; a second collection, or a growth before
    any collection, is refused. *)
Fixpoint policyRun (ran : bool) (evs : list event) : option bool :=
  match evs with
  | [] => Some ran
  | EvGC :: rest => if ran then None else policyRun true rest
  | EvGrow _ _ :: rest => if ran then policyRun ran rest else None
  | _ :: rest => policyRun ran rest
  end.

Lemma policyRun_app ran e1 : ∀ e2 ran1,
  policyRun ran e1 = Some ran1 →
  policyRun ran (e1 ++ e2) = policyRun ran1 e2.
Proof.
  revert ran. induction e1 as [|e e1 IH]; intros ran e2 ran1 H; simpl in *.
  - injection H as <-. reflexivity.
  - destruct e; try (apply IH; exact H);
      destruct ran; try discriminate; apply IH; exact H.
Qed.

Lemma policyRun_quiet evs : ∀ ran,
  forallb quietEvent evs = true → policyRun ran evs = Some ran.
Proof.
  induction evs as [|e evs IH]; intros ran H; simpl in *; [reflexivity|].
  apply andb_prop in H as [He Hrest].
  destruct e; try discriminate; apply IH; exact Hrest.
Qed.

(** A computation whose calls the automaton accepts from [ran]; [out]
    relates a returned value to the automaton's final state. *)
Definition tracks {A} (c : M A) (ran : bool) (out : A → bool → Prop) : Prop :=
  ∀ s, ∃ evs ran',
    trace (finalState (c s)) = trace s ++ evs
    ∧ policyRun ran evs = Some ran'
    ∧ (∀ a s', c s = Done a s' → out a ran').

Lemma tracks_bind {A B} (c : M A) (k : A → M B) ran outc outk :
  tracks c ran outc →
  (∀ a ran', outc a ran' → tracks (k a) ran' outk) →
  tracks (bind c k) ran outk.
Proof.
  intros Hc Hk s. destruct (Hc s) as (e1 & r1 & Ht1 & Hp1 & Ho1).
  unfold bind. destruct (c s) as [a s1| |] eqn:Hcs; simpl in *.
  - destruct (Hk a r1 (Ho1 a s1 eq_refl) s1) as (e2 & r2 & Ht2 & Hp2 & Ho2).
    exists (e1 ++ e2), r2. split; [|split].
    + rewrite Ht2, Ht1, app_assoc. reflexivity.
    + rewrite (policyRun_app _ _ _ _ Hp1). exact Hp2.
    + exact Ho2.
  - exists e1, r1. split; [exact Ht1|]. split; [exact Hp1|]. discriminate.
  - exists e1, r1. split; [exact Ht1|]. split; [exact Hp1|]. discriminate.
Qed.

Lemma tracks_quiet {A} (c : M A) ran :
  (∀ s, quietStep s (finalState (c s))) → tracks c ran (λ _ r, r = ran).
Proof.
  intros Hq s. destruct (Hq s) as (evs & Ht & Hquiet).
  exists evs, ran. split; [exact Ht|].
  split; [apply policyRun_quiet; exact Hquiet | reflexivity].
Qed.

Lemma tracks_weaken {A} (c : M A) ran (out out' : A → bool → Prop) :
  (∀ a r, out a r → out' a r) → tracks c ran out → tracks c ran out'.
Proof.
  intros Himp Hc s. destruct (Hc s) as (evs & r & Ht & Hp & Ho).
  exists evs, r. split; [exact Ht|]. split; [exact Hp|].
  intros a s' Hd. apply Himp, (Ho a s' Hd).
Qed.

Lemma tracks_GC w sfuel fuel : tracks (GC w sfuel fuel) false (λ _ r, r = true).
Proof.
  intros s. destruct (GC_events w sfuel fuel s) as (evs & Ht & Hq).
  exists (EvGC :: evs), true. split; [exact Ht|].
  split; [simpl; apply policyRun_quiet; exact Hq | reflexivity].
Qed.

Lemma tracks_adjust size :
  tracks (adjustHeapUsageLimit size) true (λ _ r, r = true).
Proof.
  intros s. eexists [_], true. split; [reflexivity|].
  split; [reflexivity | reflexivity].
Qed.

Lemma tracks_ret {A} (a : A) ran : tracks (ret a) ran (λ x r, x = a ∧ r = ran).
Proof.
  intros s. exists [], ran. simpl. rewrite app_nil_r.
  split; [reflexivity|]. split; [reflexivity|].
  intros x s' [= <- <-]. auto.
Qed.

Lemma tracks_panic {A} p ran (out : A → bool → Prop) :
  tracks (λ s, Panic p s) ran out.
Proof.
  intros s. exists [], ran. simpl. rewrite app_nil_r.
  split; [reflexivity|]. split; [reflexivity | discriminate].
Qed.

(** After [tryGC] a collection has run, whichever callback it was given. *)
Lemma tracks_tryGC w sfuel gfuel gcRan size fn :
  fn = expandHeap ∨ fn = fail →
  tracks (tryGC w sfuel gfuel gcRan size fn) gcRan (λ g r, g = true ∧ r = true).
Proof.
  intros Hfn. unfold tryGC. destruct gcRan.
  - eapply tracks_bind with (outc := λ _ r, r = true).
    + destruct Hfn as [-> | ->]; simpl;
        [apply tracks_adjust | apply tracks_panic].
    + intros _ r ->. apply tracks_ret.
  - eapply tracks_bind; [apply tracks_GC|].
    intros _ r ->. apply tracks_ret.
Qed.

Lemma extalloc_quiet w what size s :
  quietStep s (finalState (extalloc w what size s)).
Proof.
  destruct what; simpl; eexists [_]; split; reflexivity.
Qed.

Lemma free_quiet ptr s : quietStep s (free ptr s).
Proof. exists [EvExtfree ptr]. split; reflexivity. Qed.

(** Read a goal about every start state as a [tracks] judgment. *)
Ltac as_tracks ran out :=
  match goal with
  | |- ∀ s : state, ∃ evs ran',
         trace (finalState (?c s)) = _ ∧ _ =>
      change (tracks c ran out)
  end.

Lemma tracks_expandAllocationsIfNeeded w sfuel gfuel gcRan :
  tracks (expandAllocationsIfNeeded w sfuel gfuel gcRan) gcRan (λ g r, g = r).
Proof.
  intros s. unfold expandAllocationsIfNeeded. cbn zeta.
  destruct (_ =? allocCap s).
  - generalize (length (allocations s)), (allocPtr s), (allocCap s).
    intros hlen hptr hcap. revert s.
    as_tracks gcRan (λ (g r : bool), g = r).
    eapply tracks_bind;
      [apply tracks_quiet; intros s; apply extalloc_quiet|].
    intros ptr r ->.
    eapply tracks_bind with (outc := λ g r, g = r).
    { destruct (ptr =? 0).
      - eapply tracks_weaken; [|apply tracks_tryGC; right; reflexivity].
        intros a r [-> ->]. reflexivity.
      - eapply tracks_weaken; [|apply tracks_ret].
        intros a r [-> ->]. reflexivity. }
    intros g r ->.
    eapply tracks_bind;
      [apply tracks_quiet; intros s; apply quietStep_same; reflexivity|].
    intros _ r' ->.
    eapply tracks_bind with (outc := λ _ r', r' = r).
    { apply tracks_quiet. intros s. destruct (hcap =? 0).
      - apply quietStep_refl.
      - apply free_quiet. }
    intros _ r' ->.
    eapply tracks_weaken; [|apply tracks_ret].
    intros a r' [-> ->]. reflexivity.
  - exists [], gcRan. simpl. rewrite app_nil_r.
    split; [reflexivity|]. split; [reflexivity|].
    intros a s' [= <- <-]. reflexivity.
Qed.

Lemma tracks_allocLoop w sfuel gfuel fuel size : ∀ gcRan,
  tracks (allocLoop w sfuel gfuel fuel size gcRan) gcRan (λ _ _, True).
Proof.
  induction fuel as [|fuel IH]; intros gcRan s.
  - exists [], gcRan. simpl. rewrite app_nil_r.
    split; [reflexivity|]. split; [reflexivity | auto].
  - cbn [allocLoop]. destruct (needGC size s).
    + revert s. as_tracks gcRan (λ (_ : Z) (_ : bool), True).
      eapply tracks_bind;
        [apply tracks_tryGC; left; reflexivity|].
      intros g r [-> ->]. apply IH.
    + revert s. as_tracks gcRan (λ (_ : Z) (_ : bool), True).
      eapply tracks_bind;
        [apply tracks_expandAllocationsIfNeeded|].
      intros g r ->.
      eapply tracks_bind;
        [apply tracks_quiet; intros s; apply extalloc_quiet|].
      intros ptr r' ->. destruct (ptr =? 0).
      * eapply tracks_bind; [apply tracks_tryGC; right; reflexivity|].
        intros g' r' [-> ->]. apply IH.
      * eapply tracks_weaken with (out := λ _ r', r' = r); [auto|].
        apply tracks_quiet.
        apply (bind_final quietStep); [exact quietStep_trans | | intros _].
        { intros s. apply quietStep_same. reflexivity. }
        apply (bind_final quietStep); [exact quietStep_trans | | intros _].
        { intros s. apply quietStep_same. reflexivity. }
        apply (bind_final quietStep); [exact quietStep_trans | | intros _].
        { intros s. apply (quietStep_emit (EvMemzero ptr size)). reflexivity. }
        intros s. apply quietStep_refl.
Qed.

Lemma tracks_alloc w sfuel gfuel fuel size :
  tracks (alloc w sfuel gfuel fuel size) false (λ _ _, True).
Proof.
  intros s. unfold alloc. destruct (gcInProgress s).
  { exists [], false. simpl. rewrite app_nil_r. auto. }
  destruct (size =? 0).
  { exists [], false. simpl. rewrite app_nil_r. auto. }
  destruct (tracks_allocLoop w sfuel gfuel fuel
              (wrapPtr (size + align ptrSize)) false
              (setMallocs (wrap64 (gcMallocs s + 1)) s))
    as (evs & r & Ht & Hp & _).
  exists evs, r. auto.
Qed.

Definition isGC (e : event) : bool :=
  match e with EvGC => true | _ => false end.

(** The calls made between two states of one run. *)
Definition newEvents (s s' : state) : list event :=
  drop (length (trace s)) (trace s').

(** What the automaton's acceptance means for a sequence of calls. *)
Lemma policyRun_meaning evs : ∀ ran r,
  policyRun ran evs = Some r →
  (length (List.filter isGC evs) ≤ (if ran then 0 else 1))%nat
  ∧ (∀ pre a b post, evs = pre ++ EvGrow a b :: post → ran = true ∨ EvGC ∈ pre).
Proof.
  induction evs as [|e evs IH]; intros ran r H.
  - split; [simpl; destruct ran; lia|].
    intros [|? ?] a b post Heq; discriminate.
  - assert (Hquiet : quietEvent e = true → policyRun ran evs = Some r →
              (length (List.filter isGC (e :: evs)) ≤ (if ran then 0 else 1))%nat
              ∧ (∀ pre a b post, e :: evs = pre ++ EvGrow a b :: post →
                   ran = true ∨ EvGC ∈ pre)).
    { intros Hq Hrun. destruct (IH ran r Hrun) as [Hc Hg]. split.
      - destruct e; try discriminate; exact Hc.
      - intros [|e' pre] a b post Heq; simpl in Heq.
        + injection Heq as -> _. discriminate.
        + injection Heq as <- Heq.
          destruct (Hg pre a b post Heq) as [?|?]; [left; assumption|].
          right. apply elem_of_cons. right. assumption. }
    destruct e; simpl in H; try (apply Hquiet; [reflexivity | exact H]).
    + destruct ran; [discriminate|].
      destruct (IH true r H) as [Hc Hg]. split; [simpl in *; lia|].
      intros [|e' pre] a b post Heq; simpl in Heq; [discriminate|].
      injection Heq as <- _. right. apply elem_of_cons. left. reflexivity.
    + destruct ran; [|discriminate].
      destruct (IH true r H) as [Hc Hg]. split; [exact Hc|]. auto.
Qed.

Definition isGrow (e : event) : bool :=
  match e with EvGrow _ _ => true | _ => false end.

(** The state went on, and [heapUsageLimit] kept its value unless a growth
    is among the calls made. *)
Definition growStep (s s' : state) : Prop :=
  ∃ evs, trace s' = trace s ++ evs
         ∧ (existsb isGrow evs = false → heapUsageLimit s' = heapUsageLimit s).

Lemma growStep_refl s : growStep s s.
Proof. exists []. rewrite app_nil_r. auto. Qed.

Lemma growStep_trans x y z : growStep x y → growStep y z → growStep x z.
Proof.
  intros (e1 & H1 & L1) (e2 & H2 & L2). exists (e1 ++ e2).
  rewrite H2, H1, app_assoc. split; [reflexivity|].
  rewrite existsb_app. intros H. apply orb_false_elim in H as [Ha Hb].
  rewrite L2, L1; auto.
Qed.

Lemma growStep_same_limit s s' evs :
  trace s' = trace s ++ evs → heapUsageLimit s' = heapUsageLimit s →
  growStep s s'.
Proof. intros Ht Hl. exists evs. auto. Qed.

Lemma growStep_quiet s s' :
  quietStep s s' → heapUsageLimit s' = heapUsageLimit s → growStep s s'.
Proof. intros (evs & Ht & _) Hl. exists evs. auto. Qed.

Lemma GC_growStep w sfuel fuel s : growStep s (finalState (GC w sfuel fuel s)).
Proof.
  destruct (GC_events w sfuel fuel s) as (evs & Ht & _).
  eapply growStep_same_limit; [exact Ht | apply GC_limit].
Qed.

Lemma adjustHeapUsageLimit_growStep size s :
  growStep s (finalState (adjustHeapUsageLimit size s)).
Proof.
  unfold adjustHeapUsageLimit. cbn [finalState].
  eexists [EvGrow _ _]. split; [reflexivity | discriminate].
Qed.

Lemma tryGC_growStep w sfuel gfuel gcRan size fn :
  fn = expandHeap ∨ fn = fail →
  ∀ s, growStep s (finalState (tryGC w sfuel gfuel gcRan size fn s)).
Proof.
  intros Hfn. unfold tryGC. destruct gcRan.
  - apply (bind_final growStep); [exact growStep_trans | |].
    + intros s. destruct Hfn as [-> | ->].
      * apply adjustHeapUsageLimit_growStep.
      * apply growStep_refl.
    + intros _ s. apply growStep_refl.
  - apply (bind_final growStep); [exact growStep_trans | |].
    + intros s. apply GC_growStep.
    + intros _ s. apply growStep_refl.
Qed.

Lemma extalloc_growStep w what size s :
  growStep s (finalState (extalloc w what size s)).
Proof.
  apply growStep_quiet; [apply extalloc_quiet | apply extalloc_limit].
Qed.

Lemma expandAllocationsIfNeeded_growStep w sfuel gfuel gcRan s :
  growStep s (finalState (expandAllocationsIfNeeded w sfuel gfuel gcRan s)).
Proof.
  unfold expandAllocationsIfNeeded. cbn zeta.
  destruct (_ =? allocCap s); [|apply growStep_refl].
  generalize (length (allocations s)), (allocPtr s), (allocCap s).
  intros hlen hptr hcap. revert s.
  apply (bind_final growStep); [exact growStep_trans | |].
  { intros s. apply extalloc_growStep. }
  intros ptr.
  apply (bind_final growStep); [exact growStep_trans | |].
  { intros s. destruct (ptr =? 0); [|apply growStep_refl].
    apply tryGC_growStep. right. reflexivity. }
  intros g.
  apply (bind_final growStep); [exact growStep_trans | |].
  { intros s. apply growStep_quiet; [apply quietStep_same|]; reflexivity. }
  intros _.
  apply (bind_final growStep); [exact growStep_trans | |].
  { intros s. destruct (hcap =? 0); [apply growStep_refl|].
    apply growStep_quiet; [apply free_quiet | reflexivity]. }
  intros _ s. apply growStep_refl.
Qed.

Lemma allocLoop_growStep w sfuel gfuel fuel size : ∀ gcRan s,
  growStep s (finalState (allocLoop w sfuel gfuel fuel size gcRan s)).
Proof.
  induction fuel as [|fuel IH]; intros gcRan s; [apply growStep_refl|].
  cbn [allocLoop].
  destruct (needGC size s).
  - revert s. apply (bind_final growStep); [exact growStep_trans | |].
    + apply tryGC_growStep. left. reflexivity.
    + intros g s. apply IH.
  - revert s. apply (bind_final growStep); [exact growStep_trans | |].
    { intros s. apply expandAllocationsIfNeeded_growStep. }
    intros g.
    apply (bind_final growStep); [exact growStep_trans | |].
    { intros s. apply extalloc_growStep. }
    intros ptr. destruct (ptr =? 0).
    + apply (bind_final growStep); [exact growStep_trans | |].
      * apply tryGC_growStep. right. reflexivity.
      * intros g' s. apply IH.
    + apply (bind_final growStep); [exact growStep_trans | |].
      { intros s. apply growStep_quiet; [apply quietStep_same|]; reflexivity. }
      intros _.
      apply (bind_final growStep); [exact growStep_trans | |].
      { intros s. apply growStep_quiet; [apply quietStep_same|]; reflexivity. }
      intros _.
      apply (bind_final growStep); [exact growStep_trans | |].
      { intros s. apply growStep_quiet;
          [apply (quietStep_emit (EvMemzero ptr size))|]; reflexivity. }
      intros _ s. apply growStep_refl.
Qed.

Lemma alloc_growStep w sfuel gfuel fuel size s :
  growStep s (finalState (alloc w sfuel gfuel fuel size s)).
Proof.
  unfold alloc. destruct (gcInProgress s); [apply growStep_refl|].
  destruct (size =? 0).
  { apply growStep_quiet; [apply quietStep_same|]; reflexivity. }
  eapply growStep_trans; [|apply allocLoop_growStep].
  apply growStep_quiet; [apply quietStep_same|]; reflexivity.
Qed.

Lemma no_growth_without_GC evs :
  (∀ pre a b post, evs = pre ++ EvGrow a b :: post → EvGC ∈ pre) →
  EvGC ∉ evs → existsb isGrow evs = false.
Proof.
  intros Hg Hno. destruct (existsb isGrow evs) eqn:Hex; [|reflexivity].
  exfalso. apply existsb_exists in Hex as (e & Hin & He).
  destruct e; try discriminate.
  apply in_split in Hin as (pre & post & ->).
  apply Hno. apply elem_of_app. left. eapply Hg. reflexivity.
Qed.

(** C5. Among the calls that one call of [alloc] makes, whatever its size
    and the state it starts in and however it ends, [GC()] occurs at most
    once, and every call of [adjustHeapUsageLimit], the only code that grows
    [heapUsageLimit], comes after the call of [GC()]; a call of [alloc] that
    does not collect leaves [heapUsageLimit] as it was. *)
Theorem alloc_collects_once_then_grows (w : world) (sfuel gfuel fuel : nat)
    (size : Z) (s : state) :
  let s' := finalState (alloc w sfuel gfuel fuel size s) in
  let evs := newEvents s s' in
  trace s' = trace s ++ evs
  ∧ (length (List.filter isGC evs) ≤ 1)%nat
  ∧ (∀ pre a b post, evs = pre ++ EvGrow a b :: post → EvGC ∈ pre)
  ∧ (EvGC ∉ evs → heapUsageLimit s' = heapUsageLimit s).
Proof.
  cbn zeta. unfold newEvents.
  destruct (tracks_alloc w sfuel gfuel fuel size s) as (evs & r & Ht & Hp & _).
  rewrite Ht, drop_app_length.
  destruct (policyRun_meaning evs false r Hp) as [Hc Hg].
  assert (Hafter : ∀ pre a b post,
             evs = pre ++ EvGrow a b :: post → EvGC ∈ pre).
  { intros pre a b post Heq. destruct (Hg pre a b post Heq) as [?|?];
      [discriminate | assumption]. }
  split; [reflexivity|]. split; [exact Hc|]. split; [exact Hafter|].
  intros Hno.
  destruct (alloc_growStep w sfuel gfuel fuel size s) as (evs' & Ht' & Hl).
  rewrite Ht in Ht'. apply app_inv_head in Ht'. subst evs'.
  apply Hl. apply no_growth_without_GC; assumption.
Qed.

(** ** Zero-sized allocations *)

(** A host that always has memory: record arrays from 65536 on, user
    allocations from 1048576 on; no roots, and memory holds zeros. *)
Definition roomyWorld : world :=
  mkWorld 1024 0 0
    (λ what k,
       match what with
       | ForRecords => 65536 + 4096 * Z.of_nat k
       | ForData => 1048576 + 400016 * Z.of_nat k
       end)
    (λ _, []) (λ _ _, 0).

(** C8, amended. For every call [alloc(0)] made while no collection is in
    progress, the call returns the address of [zeroSizedAlloc], which is the
    same for every such call; [gcMallocs] is incremented, and nothing else
    changes: no record is appended to the registry, [gcTotalAlloc] keeps its
    value, and the host is not called. *)
Theorem alloc_zero_returns_sentinel (w : world) (sfuel gfuel fuel : nat)
    (s : state) :
  gcInProgress s = false →
  let o := alloc w sfuel gfuel fuel 0 s in
  o = Done (zeroSizedAlloc w) (setMallocs (wrap64 (gcMallocs s + 1)) s)
  ∧ gcMallocs (finalState o) = wrap64 (gcMallocs s + 1)
  ∧ allocations (finalState o) = allocations s
  ∧ gcTotalAlloc (finalState o) = gcTotalAlloc s
  ∧ referenceScanQueue (finalState o) = referenceScanQueue s
  ∧ trace (finalState o) = trace s.
Proof.
  intros Hidle. cbn zeta. unfold alloc. rewrite Hidle. simpl.
  repeat split.
Qed.

Lemma alloc_zero_returns_sentinel_witness :
  gcInProgress bootState = false
  ∧ alloc roomyWorld 1 1 1 0 bootState = Done 1024 (setMallocs 1 bootState).
Proof.
  split; [reflexivity|].
  apply (alloc_zero_returns_sentinel roomyWorld 1 1 1 bootState eq_refl).
Defined.

(** C8 as stated fails for a call made while a collection is in progress:
    [alloc(0)] then stops in [gcRunningPanic]; it returns nothing and
    [gcMallocs] is not incremented. *)
Lemma alloc_zero_during_collection_panics :
  alloc roomyWorld 1 1 1 0 (setInProgress true bootState)
  = Panic ReentrantCollection (setInProgress true bootState)
  ∧ gcMallocs
      (finalState (alloc roomyWorld 1 1 1 0 (setInProgress true bootState)))
    = gcMallocs (setInProgress true bootState).
Proof. split; reflexivity. Qed.

(** ** A full registry and an exhausted host *)

(** A host that has no memory for record arrays. *)
Definition noRecordsWorld : world :=
  mkWorld 1024 0 0
    (λ what k,
       match what with
       | ForRecords => 0
       | ForData => 2097152 + 64 * Z.of_nat k
       end)
    (λ _, []) (λ _ _, 0).

(** One record that nothing refers to, in a backing array of capacity 1 at
    address 4096. *)
Definition strayRecord : heapAllocation := mkAlloc 1048576 1048592 false None.
Definition fullRegistry : state := setTotalAlloc 16 (withRegistry [strayRecord]).

(** C7 fails in gc_extalloc.go: [expandAllocationsIfNeeded] cannot send
    [alloc] back to the top of its loop. With the registry full and no memory
    for a larger array, it runs [GC()], which frees the one record, and then
    goes on: it installs the null pointer as the backing array with the
    length saved on entry, which brings the freed record back into the
    registry, frees the old array, and [alloc] appends the new record behind
    it. *)
Lemma alloc_installs_null_array_after_GC :
  Z.of_nat (length (allocations fullRegistry)) = allocCap fullRegistry
  ∧ ∃ s', alloc noRecordsWorld 1 1 1 8 fullRegistry = Done 2097152 s'
          ∧ trace s' = [EvExtalloc ForRecords 32 0; EvGC; EvExtfree 1048576;
                        EvExtfree 4096; EvExtalloc ForData 12 2097152;
                        EvMemzero 2097152 12]
          ∧ allocPtr s' = 0
          ∧ allocCap s' = 2
          ∧ allocations s' = [strayRecord; mkAlloc 2097152 2097164 false None].
Proof.
  split; [reflexivity|].
  eexists. split; [vm_compute; reflexivity|].
  repeat split.
Qed.

(** ** The custom and leaking variants keep the guard *)

(** X6: in gc_custom_extalloc.go the loop of [alloc] starts with the overflow
    guard: when the sum wraps, the first pass aborts, before the host is
    asked for anything. *)
Lemma custom_alloc_aborts_on_wrapped_total (w : world)
    (GC : Custom.state → result Custom.state unit) (fuel : nat) (size : Z)
    (s : Custom.state) :
  Custom.gcCollectorRunning s = false →
  size ≠ 0 →
  wrap64 (Custom.gcTotalAlloc s + wrapPtr (size + align ptrSize))
    < Custom.gcTotalAlloc s →
  let o := Custom.alloc w GC (S fuel) size s in
  o = Panic Trap (Custom.setMallocs (wrap64 (Custom.gcMallocs s + 1)) s)
  ∧ Custom.trace (finalState o) = Custom.trace s.
Proof.
  intros Hidle Hsize Hwrap. cbn zeta. unfold Custom.alloc. rewrite Hidle.
  destruct (Z.eqb_spec size 0) as [|_]; [contradiction|].
  cbn [Custom.allocLoop Custom.gcTotalAlloc Custom.setMallocs].
  destruct (Z.ltb_spec
              (wrap64 (Custom.gcTotalAlloc s + wrapPtr (size + align ptrSize)))
              (Custom.gcTotalAlloc s)) as [_|Hge]; [|lia].
  split; reflexivity.
Qed.

Lemma custom_alloc_aborts_on_wrapped_total_witness :
  ∃ s, Custom.alloc roomyWorld (λ s, Done tt s) 1 8
         (Custom.mkState false 0 0 (2 ^ 64 - 8) 16 [] [] 0 0 0 0 [])
       = Panic Trap s.
Proof.
  eexists.
  apply (custom_alloc_aborts_on_wrapped_total roomyWorld (λ s, Done tt s) 0 8
           (Custom.mkState false 0 0 (2 ^ 64 - 8) 16 [] [] 0 0 0 0 [])).
  - reflexivity.
  - discriminate.
  - vm_compute. reflexivity.
Defined.

(** X7: so does gc_extalloc_leaking.go: when the [uint64] sum of the total
    and the size wraps, its [alloc] aborts before the host is asked for
    anything, and changes nothing. *)
Lemma leaking_alloc_aborts_on_wrapped_total (w : world) (size : Z)
    (s : Leaking.state) :
  size ≠ 0 →
  wrap64 (Leaking.gcTotalAlloc s + wrapPtr (size + align ptrSize))
    < Leaking.gcTotalAlloc s →
  Leaking.alloc w size s = Panic Trap s.
Proof.
  intros Hsize Hwrap. unfold Leaking.alloc.
  destruct (Z.eqb_spec size 0) as [|_]; [contradiction|].
  cbn zeta.
  destruct (Z.ltb_spec
              (wrap64 (Leaking.gcTotalAlloc s + wrapPtr (size + align ptrSize)))
              (Leaking.gcTotalAlloc s)) as [_|Hge]; [reflexivity | lia].
Qed.

Lemma leaking_alloc_aborts_on_wrapped_total_witness :
  Leaking.alloc roomyWorld 8 (Leaking.mkState 0 (2 ^ 64 - 8) 0 [])
  = Panic Trap (Leaking.mkState 0 (2 ^ 64 - 8) 0 []).
Proof.
  apply (leaking_alloc_aborts_on_wrapped_total roomyWorld 8
           (Leaking.mkState 0 (2 ^ 64 - 8) 0 [])).
  - discriminate.
  - vm_compute. reflexivity.
Defined.

(** X8: in gc_custom_extalloc.go a full registry and a null answer for the new
    backing array send [alloc] back to the top of its loop after one
    collection, and into [gcAllocPanic] when a collection has already run;
    the null pointer is not installed. *)
Lemma custom_alloc_full_registry_null_array (w : world)
    (GC : Custom.state → result Custom.state unit) (fuel : nat) (size : Z)
    (gcRan : bool) (s : Custom.state) :
  Custom.gcTotalAlloc s ≤ wrap64 (Custom.gcTotalAlloc s + size) →
  wrap64 (Custom.gcTotalAlloc s + size) ≤ Custom.heapBound s →
  Z.of_nat (length (Custom.allocations s)) = Custom.allocCap s →
  wrapPtr (extallocAnswer w ForRecords (Custom.askedRecords s)) = 0 →
  let s1 :=
    Custom.emit
      (EvExtalloc ForRecords
         (wrapPtr (double (Custom.allocCap s) * Custom.allocEntrySize)) 0)
      (Custom.setAsked (S (Custom.askedRecords s)) (Custom.askedData s) s) in
  Custom.allocPtr s1 = Custom.allocPtr s
  ∧ Custom.allocLoop w GC (S fuel) size gcRan s
    = if gcRan then Panic OutOfMemory s1
      else (Custom.callGC GC ;; Custom.allocLoop w GC fuel size true) s1.
Proof.
  intros Hnowrap Hfits Hfull Hnull. cbn zeta. split; [reflexivity|].
  cbn [Custom.allocLoop].
  destruct (Z.ltb_spec (wrap64 (Custom.gcTotalAlloc s + size))
              (Custom.gcTotalAlloc s)) as [|_]; [lia|].
  destruct (Z.ltb_spec (Custom.heapBound s)
              (wrap64 (Custom.gcTotalAlloc s + size))) as [|_]; [lia|].
  cbn [andb]. rewrite Hfull, Z.eqb_refl.
  unfold bind at 1. cbn [Custom.extalloc]. rewrite Hnull.
  change (0 =? 0) with true. cbn iota.
  destruct gcRan; reflexivity.
Qed.

Lemma custom_alloc_full_registry_null_array_witness :
  Custom.allocLoop noRecordsWorld (λ s, Done tt s) 1 12 true
    (Custom.mkState false 1 0 0 16 [] [] 0 0 0 0 [])
  = Panic OutOfMemory
      (Custom.mkState false 1 0 0 16 [] [] 0 0 1 0 [EvExtalloc ForRecords 12 0]).
Proof.
  apply (custom_alloc_full_registry_null_array noRecordsWorld
           (λ s, Done tt s) 0 12 true
           (Custom.mkState false 1 0 0 16 [] [] 0 0 0 0 [])).
  - vm_compute. discriminate.
  - vm_compute. discriminate.
  - reflexivity.
  - reflexivity.
Defined.

(** ** The tracing and the leaking variant side by side *)

(** A sequence of [alloc] calls; the result lists the pointers returned. *)
Fixpoint allocAll (w : world) (sfuel gfuel fuel : nat) (sizes : list Z)
    : M (list Z) :=
  match sizes with
  | [] => ret []
  | size :: rest =>
      do p <- alloc w sfuel gfuel fuel size;
      do ps <- allocAll w sfuel gfuel fuel rest;
      ret (p :: ps)
  end.

Fixpoint leakingAllocAll (w : world) (sizes : list Z)
    : Leaking.state → result Leaking.state (list Z) :=
  match sizes with
  | [] => ret []
  | size :: rest =>
      do p <- Leaking.alloc w size;
      do ps <- leakingAllocAll w rest;
      ret (p :: ps)
  end.

(** C9 as stated fails. Two calls [alloc(400000)] served alike return the
    same pointers in both variants, but the tracing variant counts two
    mallocs and, having collected the first allocation before the second,
    reports 400004 bytes in use, while the leaking variant, whose [alloc]
    never increments [gcMallocs] and which never frees, reports no mallocs
    and 800008 bytes. *)
Lemma variants_disagree_on_stats :
  ∃ s l,
    allocAll roomyWorld 1 1 2 [400000; 400000] bootState
    = Done [1048576; 1448592] s
    ∧ leakingAllocAll roomyWorld [400000; 400000] Leaking.bootState
      = Done [1048576; 1448592] l
    ∧ Mallocs (ReadMemStats roomyWorld s) = 2
    ∧ Mallocs (Leaking.ReadMemStats roomyWorld l) = 0
    ∧ HeapInuse (ReadMemStats roomyWorld s) = 400004
    ∧ HeapInuse (Leaking.ReadMemStats roomyWorld l) = 800008.
Proof.
  eexists. eexists.
  split; [vm_compute; reflexivity|].
  split; [vm_compute; reflexivity|].
  repeat split.
Qed.

Definition traceExt (s s' : state) : Prop := ∃ evs, trace s' = trace s ++ evs.

Lemma growStep_traceExt s s' : growStep s s' → traceExt s s'.
Proof. intros (evs & Ht & _). exists evs. exact Ht. Qed.

Lemma traceExt_elem e s s' : traceExt s s' → e ∈ trace s → e ∈ trace s'.
Proof. intros [evs ->] H. apply elem_of_app. left. exact H. Qed.

Lemma tryGC_false_collects w sfuel gfuel size fn s :
  EvGC ∈ trace (finalState (tryGC w sfuel gfuel false size fn s)).
Proof.
  unfold tryGC, bind.
  destruct (GC_events w sfuel gfuel s) as (evs & Ht & _).
  assert (Hin : EvGC ∈ trace (finalState (GC w sfuel gfuel s))).
  { rewrite Ht. apply elem_of_app. right. apply elem_of_cons. auto. }
  destruct (GC w sfuel gfuel s); exact Hin.
Qed.

(** What [expandAllocationsIfNeeded] does when it does not collect. *)
Lemma expandAllocationsIfNeeded_calm w sfuel gfuel s g s' :
  expandAllocationsIfNeeded w sfuel gfuel false s = Done g s' →
  EvGC ∉ trace s' →
  g = false
  ∧ gcInProgress s' = gcInProgress s
  ∧ gcTotalAlloc s' = gcTotalAlloc s
  ∧ heapUsageLimit s' = heapUsageLimit s
  ∧ askedData s' = askedData s.
Proof.
  unfold expandAllocationsIfNeeded. cbn zeta.
  destruct (_ =? allocCap s).
  - unfold bind at 1. cbn [extalloc].
    set (ptr := wrapPtr (extallocAnswer w ForRecords (askedRecords s))).
    set (s1 := emit _ _).
    unfold bind at 1.
    destruct (ptr =? 0).
    + intros Hrun Hno. exfalso. apply Hno.
      pose proof (tryGC_false_collects w sfuel gfuel 0 fail s1) as Hin.
      destruct (tryGC w sfuel gfuel false 0 fail s1) as [g2 s2| |] eqn:Ht;
        [|discriminate..].
      simpl in Hin.
      assert (Hext : traceExt s2 s').
      { unfold bind in Hrun. simpl in Hrun.
        destruct (allocCap s =? 0); simpl in Hrun;
          injection Hrun as <- <-; eexists;
          [symmetry; apply app_nil_r | reflexivity]. }
      eapply traceExt_elem; eassumption.
    + intros Hrun _. unfold bind in Hrun. simpl in Hrun.
      destruct (allocCap s =? 0); simpl in Hrun;
        injection Hrun as <- <-; repeat split.
  - intros [= <- <-] _. repeat split.
Qed.

(** What [alloc] does when it does not collect. *)
Lemma alloc_calm w sfuel gfuel fuel size s p s' :
  alloc w sfuel gfuel fuel size s = Done p s' →
  EvGC ∉ trace s' →
  gcInProgress s' = gcInProgress s
  ∧ heapUsageLimit s' = heapUsageLimit s
  ∧ ((size = 0 ∧ p = zeroSizedAlloc w
      ∧ gcTotalAlloc s' = gcTotalAlloc s ∧ askedData s' = askedData s)
     ∨ (size ≠ 0
        ∧ needGC (wrapPtr (size + align ptrSize)) s = false
        ∧ p = wrapPtr (extallocAnswer w ForData (askedData s))
        ∧ p ≠ 0
        ∧ gcTotalAlloc s'
          = wrap64 (gcTotalAlloc s + wrapPtr (size + align ptrSize))
        ∧ askedData s' = S (askedData s))).
Proof.
  unfold alloc. destruct (gcInProgress s) eqn:Hidle; [discriminate|].
  destruct (Z.eqb_spec size 0) as [->|Hsize].
  { intros [= <- <-] _. split; [exact Hidle|].
    split; [reflexivity|]. left. repeat split. }
  set (size' := wrapPtr (size + align ptrSize)).
  set (s0 := setMallocs _ s).
  destruct fuel as [|fuel]; [discriminate|].
  cbn [allocLoop].
  change (needGC size' s0) with (needGC size' s).
  destruct (needGC size' s) eqn:Hneed.
  { intros Hrun Hno. exfalso. apply Hno.
    unfold bind in Hrun.
    pose proof (tryGC_false_collects w sfuel gfuel size' expandHeap s0) as Hin.
    destruct (tryGC w sfuel gfuel false size' expandHeap s0)
      as [g2 s2| |]; [|discriminate..].
    simpl in Hin.
    pose proof (allocLoop_growStep w sfuel gfuel fuel size' g2 s2) as Hstep.
    rewrite Hrun in Hstep. simpl in Hstep.
    eapply traceExt_elem; [apply growStep_traceExt|]; eassumption. }
  unfold bind at 1.
  destruct (expandAllocationsIfNeeded w sfuel gfuel false s0)
    as [g s1| |] eqn:Hexp; [|discriminate..].
  unfold bind at 1. cbn [extalloc].
  set (ptr := wrapPtr (extallocAnswer w ForData (askedData s1))).
  set (s2 := emit _ _).
  assert (Hext12 : traceExt s1 s2) by (eexists; reflexivity).
  destruct (Z.eqb_spec ptr 0) as [Hnull|Hptr].
  { intros Hrun Hno. exfalso. apply Hno.
    unfold bind in Hrun.
    assert (g = false) as ->.
    { destruct g; [|reflexivity]. simpl in Hrun. discriminate. }
    pose proof (tryGC_false_collects w sfuel gfuel size' fail s2) as Hin.
    destruct (tryGC w sfuel gfuel false size' fail s2)
      as [g3 s3| |]; [|discriminate..].
    simpl in Hin.
    pose proof (allocLoop_growStep w sfuel gfuel fuel size' g3 s3) as Hstep.
    rewrite Hrun in Hstep. simpl in Hstep.
    eapply traceExt_elem; [apply growStep_traceExt|]; eassumption. }
  intros Hrun Hno. unfold bind in Hrun. simpl in Hrun.
  injection Hrun as <- <-.
  assert (Hno1 : EvGC ∉ trace s1).
  { intros Hin. apply Hno. simpl. rewrite !elem_of_app. auto. }
  destruct (expandAllocationsIfNeeded_calm w sfuel gfuel s0 g s1 Hexp Hno1)
    as (-> & Hp & Ht & Hl & Ha).
  simpl. rewrite Hp, Ht, Hl. simpl. rewrite Hidle.
  split; [reflexivity|]. split; [reflexivity|]. right.
  unfold ptr in *. rewrite Ha in *. simpl in *.
  repeat split; auto.
Qed.

(** The two variants are in step: no collection is in progress, they count
    the same bytes and have made the same number of requests for user
    memory, and the bytes counted are within the limit. *)
Definition inStep (s : state) (l : Leaking.state) : Prop :=
  gcInProgress s = false
  ∧ gcTotalAlloc s = Leaking.gcTotalAlloc l
  ∧ askedData s = Leaking.askedData l
  ∧ 0 ≤ gcTotalAlloc s ≤ heapUsageLimit s
  ∧ heapUsageLimit s ≤ maxPtr.

Lemma alloc_inStep w sfuel gfuel fuel size s p s' l :
  alloc w sfuel gfuel fuel size s = Done p s' →
  EvGC ∉ trace s' →
  inStep s l →
  ∃ l', Leaking.alloc w size l = Done p l' ∧ inStep s' l'.
Proof.
  intros Hrun Hno (Hidle & Htotal & Hasked & Hrange & Hlimit).
  destruct (alloc_calm w sfuel gfuel fuel size s p s' Hrun Hno)
    as (Hidle' & Hlimit' & [(-> & -> & Ht & Ha)
                           |(Hsize & Hneed & -> & Hptr & Ht & Ha)]).
  - exists l. split; [reflexivity|].
    unfold inStep. rewrite Hidle', Hlimit', Ht, Ha. auto.
  - unfold Leaking.alloc.
    destruct (Z.eqb_spec size 0) as [|_]; [contradiction|].
    cbn zeta. set (size' := wrapPtr (size + align ptrSize)) in *.
    assert (Hsz : 0 ≤ size' ≤ maxPtr) by apply wrapPtr_range.
    unfold needGC in Hneed. apply Z.ltb_ge in Hneed.
    assert (Hsum : wrap64 (gcTotalAlloc s + size') = gcTotalAlloc s + size').
    { unfold wrap64. apply Z.mod_small. unfold maxPtr in *. lia. }
    rewrite Hsum in *. rewrite <- Htotal, <- Hasked, Hsum.
    destruct (Z.ltb_spec (gcTotalAlloc s + size') (gcTotalAlloc s)); [lia|].
    destruct (Z.eqb_spec (wrapPtr (extallocAnswer w ForData (askedData s))) 0)
      as [|_]; [contradiction|].
    eexists. split; [reflexivity|].
    unfold inStep. simpl. rewrite Hidle', Hlimit', Ht, Ha, Hsum.
    repeat split; auto; lia.
Qed.

Lemma allocAll_inStep w sfuel gfuel fuel sizes : ∀ s l ps s',
  allocAll w sfuel gfuel fuel sizes s = Done ps s' →
  EvGC ∉ trace s' →
  inStep s l →
  ∃ l', leakingAllocAll w sizes l = Done ps l' ∧ inStep s' l'.
Proof.
  induction sizes as [|size rest IH]; intros s l ps s' Hrun Hno Hstep.
  - injection Hrun as <- <-. exists l. split; [reflexivity | exact Hstep].
  - simpl in Hrun. unfold bind at 1 in Hrun.
    destruct (alloc w sfuel gfuel fuel size s) as [p s1| |] eqn:Halloc;
      [|discriminate..].
    unfold bind at 1 in Hrun.
    destruct (allocAll w sfuel gfuel fuel rest s1) as [ps1 s2| |] eqn:Hrest;
      [|discriminate..].
    injection Hrun as <- <-.
    assert (Hno1 : EvGC ∉ trace s1).
    { intros Hin. apply Hno.
      assert (Hext : traceExt s1 s2); [|eapply traceExt_elem; eassumption].
      clear - Hrest. revert s1 ps1 s2 Hrest.
      induction rest as [|sz rest IHr]; intros s1 ps1 s2 Hrest.
      - injection Hrest as <- <-. exists []. symmetry. apply app_nil_r.
      - simpl in Hrest. unfold bind at 1 in Hrest.
        pose proof (alloc_growStep w sfuel gfuel fuel sz s1) as Hg.
        destruct (alloc w sfuel gfuel fuel sz s1) as [q t| |];
          [|discriminate..].
        unfold bind at 1 in Hrest.
        destruct (allocAll w sfuel gfuel fuel rest t) as [qs t'| |] eqn:Hr;
          [|discriminate..].
        injection Hrest as <- <-.
        apply growStep_traceExt in Hg as [e1 He1].
        destruct (IHr _ _ _ Hr) as [e2 He2].
        exists (e1 ++ e2). simpl in He1. rewrite He2, He1, app_assoc.
        reflexivity. }
    destruct (alloc_inStep w sfuel gfuel fuel size s p s1 l Halloc Hno1 Hstep)
      as (l1 & Hl1 & Hstep1).
    destruct (IH s1 l1 ps1 s2 Hrest Hno Hstep1) as (l2 & Hl2 & Hstep2).
    exists l2. split; [|exact Hstep2].
    simpl. unfold bind. rewrite Hl1, Hl2. reflexivity.
Qed.

Lemma bootStates_inStep : inStep bootState Leaking.bootState.
Proof.
  unfold inStep. repeat split; try reflexivity; vm_compute; discriminate.
Qed.

(** ** The drain loop *)

(** On a range that ends at the last address the loop of [scan] never
    ends: [addr + 4] wraps before it can exceed the end. *)
Lemma scanLoop_top_never_ends w fuel : ∀ addr s,
  ∃ s', scanLoop w fuel addr maxPtr s = OutOfFuel s'.
Proof.
  induction fuel as [|fuel IH]; intros addr s; cbn [scanLoop];
    destruct (Z.leb_spec (wrapPtr (addr + ptrSize)) maxPtr) as [_|Hgt];
    try (pose proof (wrapPtr_range (addr + ptrSize)); lia).
  - exists s. reflexivity.
  - apply IH.
Qed.

Lemma finishMarking_top_never_ends w sfuel fuel s i r :
  referenceScanQueue s = Some i →
  allocations s !! i = Some r →
  end_ r = maxPtr →
  ∃ s', finishMarking w sfuel fuel s = OutOfFuel s'.
Proof.
  intros Hq Hi Hend. destruct fuel as [|fuel]; cbn [finishMarking];
    rewrite Hq; [exists s; reflexivity|].
  rewrite Hi, Hend. unfold scan, bind.
  destruct (scanLoop_top_never_ends w sfuel
              (clearLow (wrapPtr (start r + ptrAlign - 1)))
              (setQueue (next r) s)) as [s' Hs'].
  rewrite Hs'. exists s'. reflexivity.
Qed.

(** A record whose last byte is the last byte of the address space, as
    [alloc(11)] registers it when the host answers 0xFFFFFFF0. *)
Definition topRecord : heapAllocation := mkAlloc 4294967280 4294967295 false None.

(** A host whose one root range, [[2048, 2052)], holds the address of
    [topRecord]. *)
Definition topWorld : world :=
  mkWorld 1024 0 0 (λ _ _, 0) (λ _, [(2048, 2052)])
    (λ _ addr, if addr =? 2048 then 4294967280 else 0).

(** C4 fails for a record that ends at the last address: the collection
    marks it from the root and [finishMarking] pops it, but the scan of
    [[0xFFFFFFF0, 0xFFFFFFFF]] never ends, so neither [finishMarking] nor
    [GC] returns, whatever bound the loops are given. *)
Lemma GC_never_finishes_scanning_top_record (sfuel fuel : nat) :
  ∃ s', GC topWorld sfuel fuel (withRegistry [topRecord]) = OutOfFuel s'.
Proof.
  unfold GC. cbn zeta.
  change (gcInProgress (emit EvGC (withRegistry [topRecord]))) with false.
  cbn iota.
  set (s1 := setCycles _ _).
  change (Nat.eqb (length (allocations s1)) 0) with false. cbn iota.
  change (rootRanges topWorld (cycles s1)) with [(2048, 2052)].
  unfold bind at 1. cbn [modify].
  unfold bind at 1.
  destruct sfuel as [|sfuel].
  { eexists. vm_compute. reflexivity. }
  assert (Hroots : ∃ s2, markRanges topWorld (S sfuel) [(2048, 2052)]
                           (prepareGC s1) = Done tt s2
                         ∧ referenceScanQueue s2 = Some 0%nat
                         ∧ allocations s2 !! 0%nat
                           = Some (mkAlloc 4294967280 4294967295 true None)).
  { destruct sfuel as [|sfuel]; eexists; (split; [vm_compute; reflexivity|]);
      split; reflexivity. }
  destruct Hroots as (s2 & Hrun & Hq & Hslot). rewrite Hrun.
  unfold bind at 1.
  destruct (finishMarking_top_never_ends topWorld (S sfuel) fuel s2 0 _
              Hq Hslot eq_refl) as [s' Hs'].
  rewrite Hs'. exists s'. reflexivity.
Qed.

(** * Further properties of the code *)

(** ** Binary search and mark *)

(** The binary search reads only the bounds of the slots. *)
Lemma searchLoop_bounds_only arr arr' addr :
  (∀ k, startAt arr' k = startAt arr k ∧ endAt arr' k = endAt arr k) →
  ∀ d low high, (high - low = d)%nat →
    searchLoop arr' addr low high = searchLoop arr addr low high.
Proof.
  intros Hsame. induction d as [d IH] using lt_wf_ind. intros low high Hd.
  rewrite (searchLoop_eq arr'), (searchLoop_eq arr).
  destruct (lt_dec low high) as [Hlt|]; [|reflexivity].
  pose proof (midpoint_bounds low high Hlt) as Hmid.
  destruct (Hsame (midpoint low high)) as [-> ->].
  destruct (Z_lt_dec addr (startAt arr (midpoint low high))).
  - eapply IH; [|reflexivity]. lia.
  - destruct (Z_lt_dec (endAt arr (midpoint low high)) addr); [|reflexivity].
    eapply IH; [|reflexivity]. lia.
Qed.

Lemma markSlot_bounds arr i q r :
  arr !! i = Some r →
  ∀ k, startAt (<[i := markSlot q r]> arr) k = startAt arr k
       ∧ endAt (<[i := markSlot q r]> arr) k = endAt arr k.
Proof.
  intros Hi k. unfold startAt, endAt.
  destruct (decide (k = i)) as [->|Hne].
  - rewrite list_lookup_insert_eq by (eapply lookup_lt_Some; eassumption).
    rewrite Hi. split; reflexivity.
  - rewrite list_lookup_insert_ne by auto. split; reflexivity.
Qed.

(** X4: [searchAllocations] on any registry, sorted or not, returns only a
    slot whose inclusive interval holds the address; on a registry whose
    starts ascend and whose intervals are apart it returns the slot that
    holds the address whenever there is one. *)
Theorem searchAllocations_returns_a_holder (arr : list heapAllocation)
    (addr : Z) :
  (∀ i, searchAllocations arr addr = Some i →
     ∃ r, arr !! i = Some r ∧ contains r addr)
  ∧ (separated arr →
     ∀ i r, arr !! i = Some r → contains r addr →
       searchAllocations arr addr = Some i)
  ∧ (arr = [] → searchAllocations arr addr = None).
Proof.
  unfold searchAllocations. split; [|split].
  - intros i Hs.
    apply searchLoop_sound with (d := length arr) in Hs as [Hi Hin]; [|lia].
    destruct (lookup_lt_is_Some_2 arr i) as [r Hr]; [lia|].
    exists r. split; [exact Hr|].
    rewrite (startAt_lookup _ _ _ Hr), (endAt_lookup _ _ _ Hr) in Hin.
    exact Hin.
  - intros Hsep i r Hi Hc.
    pose proof (lookup_lt_Some _ _ _ Hi) as Hlt.
    apply (searchLoop_complete arr addr Hsep (length arr)); try lia.
    rewrite (startAt_lookup _ _ _ Hi), (endAt_lookup _ _ _ Hi). exact Hc.
  - intros ->. rewrite searchLoop_eq. reflexivity.
Qed.

(** X5: [mark] is idempotent: right after a call of [mark addr], whatever it
    returned, a second call with the same address returns false and changes
    nothing, so no record is pushed onto the scan queue twice. *)
Theorem mark_twice_changes_nothing (addr : Z) (s : state) :
  mark addr (snd (mark addr s)) = (false, snd (mark addr s)).
Proof.
  destruct (mark addr s) as [b s1] eqn:Hfirst. simpl.
  unfold mark in Hfirst. cbn zeta in Hfirst.
  destruct (Nat.eqb (length (allocations s)) 0) eqn:Hlen;
    [injection Hfirst as <- <-; unfold mark; cbn zeta; rewrite Hlen;
     reflexivity|].
  destruct ((addr <? startAt (allocations s) 0)
            || (endAt (allocations s) (length (allocations s) - 1) <? addr))
    eqn:Hout;
    [injection Hfirst as <- <-; unfold mark; cbn zeta; rewrite Hlen, Hout;
     reflexivity|].
  destruct (searchAllocations (allocations s) addr) as [i|] eqn:Hsearch;
    [|injection Hfirst as <- <-; unfold mark; cbn zeta;
      rewrite Hlen, Hout, Hsearch; reflexivity].
  destruct (allocations s !! i) as [cur|] eqn:Hcur;
    [|injection Hfirst as <- <-; unfold mark; cbn zeta;
      rewrite Hlen, Hout, Hsearch, Hcur; reflexivity].
  destruct (marked cur) eqn:Hm;
    [injection Hfirst as <- <-; unfold mark; cbn zeta;
     rewrite Hlen, Hout, Hsearch, Hcur, Hm; reflexivity|].
  injection Hfirst as <- <-.
  pose proof (markSlot_bounds (allocations s) i (referenceScanQueue s) cur Hcur)
    as Hsame.
  unfold mark. cbn zeta.
  change (allocations (setQueue _ (setAllocations ?l _))) with l.
  rewrite length_insert, Hlen.
  destruct (Hsame 0%nat) as [-> _].
  destruct (Hsame (length (allocations s) - 1)%nat) as [_ ->].
  rewrite Hout.
  unfold searchAllocations in *. rewrite length_insert.
  rewrite (searchLoop_bounds_only _ _ addr Hsame (length (allocations s)))
    by lia.
  rewrite Hsearch.
  rewrite list_lookup_insert_eq by (eapply lookup_lt_Some; eassumption).
  reflexivity.
Qed.

(** ** The drain loop ends *)

Lemma clearLow_range x : 0 ≤ x < 2 ^ 32 → 0 ≤ clearLow x < 2 ^ 32.
Proof.
  intros Hx. unfold clearLow. split.
  - apply Z.land_nonneg. left. lia.
  - assert (Hle : Z.land x (Z.lxor maxPtr (ptrAlign - 1)) ≤ x); [|lia].
    rewrite <- (Z2N.id x) at 1 2 by lia.
    change (Z.lxor maxPtr (ptrAlign - 1)) with (Z.of_N 4294967292).
    rewrite <- N2Z.inj_land. apply N2Z.inj_le. apply N.land_le_l.
Qed.

(** The scan queue as the list of the slots it links, head first: each
    slot is marked and links to the next. *)
Inductive chain (arr : list heapAllocation) : option nat → list nat → Prop :=
| chain_nil : chain arr None []
| chain_cons i r l :
    arr !! i = Some r → marked r = true → chain arr (next r) l →
    chain arr (Some i) (i :: l).

(** The state of a collection while it marks: the queue links [queued]
    distinct slots, [queued] plus the number of unmarked records is [m], and
    every record ends more than a pointer below the top of the address
    space. *)
Definition marking (m : nat) (s : state) : Prop :=
  ∃ l, chain (allocations s) (referenceScanQueue s) l
       ∧ NoDup l
       ∧ (length l + length (List.filter unmarked (allocations s)) = m)%nat
       ∧ (∀ r, r ∈ allocations s → end_ r + ptrSize < 2 ^ 32).

Lemma chain_marked arr q l i :
  chain arr q l → i ∈ l → ∃ r, arr !! i = Some r ∧ marked r = true.
Proof.
  induction 1 as [|j r l Hj Hm Hc IH]; intros Hin.
  - apply elem_of_nil in Hin. contradiction.
  - apply elem_of_cons in Hin as [->|Hin]; [exists r; auto | auto].
Qed.

Lemma chain_insert arr q l i x :
  chain arr q l → i ∉ l → chain (<[i := x]> arr) q l.
Proof.
  induction 1 as [|j r l Hj Hm Hc IH]; intros Hnot; [constructor|].
  apply not_elem_of_cons in Hnot as [Hne Hnot].
  econstructor; [|exact Hm | apply IH; exact Hnot].
  rewrite list_lookup_insert_ne by auto. exact Hj.
Qed.

Lemma unmarked_count_insert arr i cur x :
  arr !! i = Some cur → marked cur = false → marked x = true →
  (S (length (List.filter unmarked (<[i := x]> arr)))
   = length (List.filter unmarked arr))%nat.
Proof.
  intros Hi Hcur Hx.
  rewrite insert_take_drop by (eapply lookup_lt_Some; eassumption).
  rewrite <- (take_drop_middle arr i cur Hi) at 3.
  rewrite !List.filter_app, !length_app. cbn [List.filter].
  assert (Hu1 : unmarked x = false) by (unfold unmarked; rewrite Hx; reflexivity).
  assert (Hu2 : unmarked cur = true)
    by (unfold unmarked; rewrite Hcur; reflexivity).
  rewrite Hu1, Hu2. simpl. lia.
Qed.

Lemma elem_of_insert_inv (arr : list heapAllocation) i x r :
  r ∈ <[i := x]> arr → r = x ∨ r ∈ arr.
Proof.
  intros Hin. apply list_elem_of_lookup in Hin as [k Hk].
  destruct (decide (k = i)) as [->|Hne].
  - destruct (decide (i < length arr)%nat).
    + rewrite list_lookup_insert_eq in Hk by assumption.
      injection Hk as <-. left. reflexivity.
    + rewrite list_insert_ge in Hk by lia.
      right. eapply list_elem_of_lookup_2. exact Hk.
  - rewrite list_lookup_insert_ne in Hk by auto.
    right. eapply list_elem_of_lookup_2. exact Hk.
Qed.

(** [mark] keeps a marking collection's state a marking state, with the
    same measure. *)
Lemma mark_marking m addr s : marking m s → marking m (snd (mark addr s)).
Proof.
  intros Hmk. unfold mark. cbn zeta.
  destruct (Nat.eqb (length (allocations s)) 0); [exact Hmk|].
  destruct ((addr <? startAt (allocations s) 0) || _); [exact Hmk|].
  destruct (searchAllocations (allocations s) addr) as [i|]; [|exact Hmk].
  destruct (allocations s !! i) as [cur|] eqn:Hcur; [|exact Hmk].
  destruct (marked cur) eqn:Hun; [exact Hmk|].
  destruct Hmk as (l & Hc & Hnd & Hm & Hends). cbn [snd].
  assert (Hnot : i ∉ l).
  { intros Hin. destruct (chain_marked _ _ _ _ Hc Hin) as (r' & Hr' & Hm').
    congruence. }
  exists (i :: l). split; [|split; [|split]].
  - apply (chain_cons _ i (markSlot (referenceScanQueue s) cur)).
    + apply list_lookup_insert_eq. eapply lookup_lt_Some; eassumption.
    + reflexivity.
    + apply chain_insert; assumption.
  - constructor; assumption.
  - pose proof (unmarked_count_insert (allocations s) i cur
                  (markSlot (referenceScanQueue s) cur) Hcur Hun eq_refl) as Hn.
    simpl in *. lia.
  - intros r Hr. apply elem_of_insert_inv in Hr as [->|Hr]; [|auto].
    simpl. apply Hends. eapply list_elem_of_lookup_2. exact Hcur.
Qed.

(** The loop of [scan] ends on a range whose end is more than a pointer
    below the top of the address space. *)
Lemma scanLoop_ends w (Inv : state → Prop) e :
  (∀ a s, Inv s → Inv (snd (mark a s))) →
  e + ptrSize < 2 ^ 32 →
  ∀ fuel addr s,
    0 ≤ addr → addr + ptrSize < 2 ^ 32 → (Z.to_nat (e - addr) ≤ fuel)%nat →
    Inv s →
    ∃ s', scanLoop w fuel addr e s = Done tt s' ∧ Inv s'.
Proof.
  intros Hmark He. unfold ptrSize in *.
  induction fuel as [|fuel IH]; intros addr s Ha Hnowrap Hfuel Hinv;
    cbn [scanLoop]; unfold ptrSize, ptrAlign;
    assert (Hw : wrapPtr (addr + 4) = addr + 4)
      by (unfold wrapPtr; apply Z.mod_small; lia);
    rewrite Hw;
    destruct (Z.leb_spec (addr + 4) e) as [Hle|Hgt];
    try (exists s; split; [reflexivity | exact Hinv]).
  - lia.
  - apply IH; [lia | lia | lia | apply Hmark; exact Hinv].
Qed.

Lemma scanLoop_ends_from_anywhere w (Inv : state → Prop) e fuel addr s :
  (∀ a s, Inv s → Inv (snd (mark a s))) →
  e + ptrSize < 2 ^ 32 →
  0 ≤ addr < 2 ^ 32 → (Z.to_nat e < fuel)%nat →
  Inv s →
  ∃ s', scanLoop w fuel addr e s = Done tt s' ∧ Inv s'.
Proof.
  intros Hmark He Ha Hfuel Hinv.
  destruct (Z_lt_dec (addr + ptrSize) (2 ^ 32)) as [Hlow|Hhigh].
  - apply scanLoop_ends; auto; lia.
  - destruct fuel as [|fuel]; [lia|]. cbn [scanLoop].
    unfold ptrSize, ptrAlign in *.
    assert (Hw : wrapPtr (addr + 4) = addr + 4 - 2 ^ 32).
    { unfold wrapPtr. symmetry.
      apply Z.mod_unique with (q := 1); [left; lia | lia]. }
    rewrite Hw.
    destruct (Z.leb_spec (addr + 4 - 2 ^ 32) e) as [Hle|Hgt];
      [|exists s; split; [reflexivity | exact Hinv]].
    apply scanLoop_ends; auto; unfold ptrSize; lia.
Qed.

Lemma scan_ends w (Inv : state → Prop) fuel lo hi s :
  (∀ a s, Inv s → Inv (snd (mark a s))) →
  hi + ptrSize < 2 ^ 32 → (Z.to_nat hi < fuel)%nat →
  Inv s →
  ∃ s', scan w fuel lo hi s = Done tt s' ∧ Inv s'.
Proof.
  intros Hmark Hhi Hfuel Hinv. unfold scan, bind.
  destruct (scanLoop_ends_from_anywhere w Inv hi fuel
              (clearLow (wrapPtr (lo + ptrAlign - 1))) s Hmark Hhi)
    as (s1 & Hs1 & Hinv1); auto.
  { apply clearLow_range. apply Z.mod_pos_bound. lia. }
  rewrite Hs1. destruct (_ <=? hi).
  - eexists. split; [reflexivity|]. apply Hmark. exact Hinv1.
  - exists s1. auto.
Qed.

(** The drain loop ends, after as many pops as the measure allows. *)
Lemma finishMarking_ends w sfuel : ∀ fuel m s,
  (Z.to_nat (2 ^ 32) ≤ sfuel)%nat → (m ≤ fuel)%nat →
  marking m s →
  ∃ s', finishMarking w sfuel fuel s = Done tt s'
        ∧ referenceScanQueue s' = None
        ∧ ∃ m', marking m' s'.
Proof.
  induction fuel as [|fuel IH]; intros m s Hsf Hm Hmk;
    destruct Hmk as (l & Hc & Hnd & Hlen & Hends).
  - assert (l = []) as -> by (destruct l; simpl in *; [reflexivity | lia]).
    inversion Hc as [Hq|]. cbn [finishMarking]. try rewrite <- Hq.
    exists s. split; [reflexivity|]. split; [auto|].
    exists m, []. try rewrite <- Hq. repeat split; auto. constructor.
  - cbn [finishMarking].
    inversion Hc as [Hq|i r l' Hi Hmr Hc' Hq Hl]; subst.
    + exists s. split; [reflexivity|]. split; [auto|].
      exists (0 + length (List.filter unmarked (allocations s)))%nat, [].
      try rewrite <- Hq. repeat split; auto. constructor.
    + try rewrite <- Hq. rewrite Hi.
      set (m0 := (length l' + length (List.filter unmarked (allocations s)))%nat).
      assert (Hmk0 : marking m0 (setQueue (next r) s)).
      { exists l'. repeat split; auto. apply NoDup_cons in Hnd as [_ ?]. auto. }
      assert (Hend : end_ r + ptrSize < 2 ^ 32)
        by (apply Hends; eapply list_elem_of_lookup_2; exact Hi).
      destruct (scan_ends w (marking m0) sfuel (start r) (end_ r)
                  (setQueue (next r) s) (mark_marking m0) Hend)
        as (s1 & Hs1 & Hmk1); [|exact Hmk0|].
      { unfold ptrSize in Hend.
        change (2 ^ 32) with 4294967296 in *. lia. }
      rewrite Hs1. apply (IH m0); [exact Hsf | | exact Hmk1].
      subst m0. simpl in Hm. lia.
Qed.

(** X1: [finishMarking] terminates whenever every record of the registry ends
    more than a pointer below the top of the address space. From a state whose
    scan queue links distinct marked records, with [m] the number of queued
    plus unmarked records, [m] pops are enough: each pop takes one record off
    the queue, and [mark] pushes unmarked records only, which it marks. The
    loop ends with the queue empty. *)
Theorem finishMarking_terminates (w : world) (m : nat) (s : state)
    (sfuel fuel : nat) :
  marking m s →
  (Z.to_nat (2 ^ 32) ≤ sfuel)%nat → (m ≤ fuel)%nat →
  ∃ s', finishMarking w sfuel fuel s = Done tt s'
        ∧ referenceScanQueue s' = None.
Proof.
  intros Hmk Hsf Hm.
  destruct (finishMarking_ends w sfuel fuel m s Hsf Hm Hmk) as (s' & H1 & H2 & _).
  exists s'. auto.
Qed.

(** A registry of two records, the first marked and queued. *)
Definition oneQueued : state :=
  setQueue (Some 0%nat)
    (withRegistry [mkAlloc 16 32 true None; mkAlloc 48 64 false None]).

Lemma oneQueued_marking : marking 2 oneQueued.
Proof.
  exists [0%nat]. split; [|split; [|split]].
  - apply (chain_cons _ 0%nat (mkAlloc 16 32 true None)); [reflexivity..|].
    constructor.
  - apply NoDup_singleton.
  - reflexivity.
  - intros r Hr. unfold ptrSize.
    apply elem_of_cons in Hr as [->|Hr]; [simpl; lia|].
    apply elem_of_cons in Hr as [->|Hr]; [simpl; lia|].
    apply elem_of_nil in Hr. contradiction.
Qed.

Lemma finishMarking_terminates_witness :
  ∃ s', finishMarking roomyWorld (Z.to_nat (2 ^ 32)) 2 oneQueued = Done tt s'
        ∧ referenceScanQueue s' = None.
Proof.
  apply (finishMarking_terminates roomyWorld 2 oneQueued).
  - exact oneQueued_marking.
  - apply Nat.le_refl.
  - apply Nat.le_refl.
Defined.

(** ** A collection ends *)

(** What [sweep] leaves in the registry, its calls and the total. *)
Lemma sweep_outcome s :
  allocations (sweep s) = List.filter marked (allocations s)
  ∧ trace (sweep s)
    = trace s
      ++ map (λ r, EvExtfree (start r)) (List.filter unmarked (allocations s))
  ∧ gcTotalAlloc (sweep s)
    = wrap64 (sumSizes (List.filter marked (allocations s))).
Proof.
  unfold sweep.
  pose proof (sweepLoop_spec (length (allocations s)) 0 0 (setTotalAlloc 0 s))
    as Hloop.
  cbn zeta in Hloop.
  destruct Hloop as (H1 & H2 & H3 & H4 & H5); [lia | reflexivity | reflexivity |].
  change (allocations (setTotalAlloc 0 s)) with (allocations s) in *.
  destruct (sweepLoop _ 0 0 _) as [j s1]. simpl in *.
  rewrite drop_0 in *. split; [exact H2|]. split; [exact H4|].
  rewrite H5. reflexivity.
Qed.

Lemma markRanges_ends w (Inv : state → Prop) fuel :
  (∀ a s, Inv s → Inv (snd (mark a s))) →
  ∀ ranges s,
    (∀ lo hi, (lo, hi) ∈ ranges → hi + ptrSize < 2 ^ 32) →
    (Z.to_nat (2 ^ 32) ≤ fuel)%nat →
    Inv s →
    ∃ s', markRanges w fuel ranges s = Done tt s' ∧ Inv s'.
Proof.
  intros Hmark.
  induction ranges as [|[lo hi] rest IH]; intros s Hlow Hfuel Hinv.
  - exists s. split; [reflexivity | exact Hinv].
  - cbn [markRanges]. unfold markRoots, bind.
    assert (Hhi : hi + ptrSize < 2 ^ 32) by (apply (Hlow lo); left).
    destruct (scan_ends w Inv fuel lo hi s Hmark Hhi) as (s1 & Hs1 & Hinv1).
    { unfold ptrSize in Hhi. change (2 ^ 32) with 4294967296 in *. lia. }
    { exact Hinv. }
    rewrite Hs1. apply IH; [|exact Hfuel | exact Hinv1].
    intros lo' hi' Hin. apply (Hlow lo'). right. exact Hin.
Qed.

Lemma filter_unmarked_cleared l :
  List.filter unmarked (map clearMark l) = map clearMark l.
Proof. induction l as [|r l IH]; simpl; [reflexivity | rewrite IH; reflexivity]. Qed.

Lemma prepareGC_marking s :
  (∀ r, r ∈ allocations s → end_ r + ptrSize < 2 ^ 32) →
  marking (length (allocations s)) (prepareGC s).
Proof.
  intros Hends. exists []. split; [constructor|]. split; [constructor|].
  unfold prepareGC. simpl. unfold unmarkAllocations. split.
  - rewrite filter_unmarked_cleared, length_map.
    apply Permutation_length, sortAllocations_Permutation.
  - intros r Hr. apply list_elem_of_fmap in Hr as (r0 & -> & Hr0). simpl.
    apply Hends.
    rewrite <- (sortAllocations_Permutation (allocations s)). exact Hr0.
Qed.

Lemma filter_marked_all (l : list heapAllocation) r :
  r ∈ List.filter marked l → marked r = true ∧ r ∈ l.
Proof.
  intros Hr. apply list_elem_of_In, filter_In in Hr as [Hin Hm].
  split; [exact Hm | apply list_elem_of_In; exact Hin].
Qed.

(** X2: a collection started outside a collection terminates, whatever the
    roots and the memory hold, when every record and every root range ends
    more than a pointer below the top of the address space: [GC()] returns
    with [gcInProgress] cleared and every record it leaves in the registry is
    marked; unless the registry was empty (then [GC()] returns at once and
    changes no counter), [gcTotalAlloc] is the sum of the sizes of the
    records left. One pop of the scan queue per record is enough. *)
Theorem GC_terminates (w : world) (s : state) (sfuel fuel : nat) :
  gcInProgress s = false →
  (∀ r, r ∈ allocations s → end_ r + ptrSize < 2 ^ 32) →
  (∀ lo hi, (lo, hi) ∈ rootRanges w (S (cycles s)) → hi + ptrSize < 2 ^ 32) →
  (Z.to_nat (2 ^ 32) ≤ sfuel)%nat → (length (allocations s) ≤ fuel)%nat →
  ∃ s', GC w sfuel fuel s = Done tt s'
        ∧ gcInProgress s' = false
        ∧ (∀ r, r ∈ allocations s' → marked r = true)
        ∧ (allocations s = [] → gcTotalAlloc s' = gcTotalAlloc s)
        ∧ (allocations s ≠ [] →
           gcTotalAlloc s' = wrap64 (sumSizes (allocations s'))).
Proof.
  intros Hidle Hends Hroots Hsf Hfuel. unfold GC. cbn zeta.
  change (gcInProgress (emit EvGC s)) with (gcInProgress s). rewrite Hidle.
  set (s1 := setCycles _ _).
  change (allocations s1) with (allocations s).
  change (cycles s1) with (S (cycles s)).
  destruct (Nat.eqb_spec (length (allocations s)) 0) as [Hlen|Hlen].
  { eexists. split; [reflexivity|]. split; [reflexivity|].
    change (allocations (setInProgress false s1)) with (allocations s).
    destruct (allocations s) eqn:Harr; [|discriminate Hlen].
    split; [intros r Hr; apply elem_of_nil in Hr; contradiction|].
    split; [reflexivity | intros H; contradiction]. }
  unfold bind, modify.
  pose proof (prepareGC_marking s1 Hends) as Hmk.
  change (allocations s1) with (allocations s) in Hmk.
  destruct (markRanges_ends w (marking (length (allocations s))) sfuel
              (mark_marking _) (rootRanges w (S (cycles s))) (prepareGC s1)
              Hroots Hsf Hmk) as (s2 & Hs2 & Hmk2).
  rewrite Hs2.
  destruct (finishMarking_ends w sfuel fuel _ s2 Hsf Hfuel Hmk2)
    as (s3 & Hs3 & _ & _).
  rewrite Hs3. eexists. split; [reflexivity|]. split; [reflexivity|].
  destruct (sweep_outcome s3) as (Hkept & _ & Htotal).
  change (allocations (setInProgress false (sweep s3)))
    with (allocations (sweep s3)).
  change (gcTotalAlloc (setInProgress false (sweep s3)))
    with (gcTotalAlloc (sweep s3)).
  rewrite Hkept, Htotal. split; [|split].
  - intros r Hr. apply filter_marked_all in Hr as [Hm _]. exact Hm.
  - intros Hnil. rewrite Hnil in Hlen. contradiction.
  - reflexivity.
Qed.

(** A registry of two records away from the top of the address space. *)
Lemma apart_ends_low r : r ∈ apart → end_ r + ptrSize < 2 ^ 32.
Proof.
  intros Hr. unfold ptrSize.
  apply elem_of_cons in Hr as [->|Hr]; [simpl; lia|].
  apply elem_of_cons in Hr as [->|Hr]; [simpl; lia|].
  apply elem_of_nil in Hr. contradiction.
Qed.

Lemma GC_terminates_witness :
  ∃ s', GC roomyWorld (Z.to_nat (2 ^ 32)) 2 (withRegistry apart) = Done tt s'
        ∧ gcInProgress s' = false
        ∧ (∀ r, r ∈ allocations s' → marked r = true)
        ∧ (allocations (withRegistry apart) = [] →
           gcTotalAlloc s' = gcTotalAlloc (withRegistry apart))
        ∧ (allocations (withRegistry apart) ≠ [] →
           gcTotalAlloc s' = wrap64 (sumSizes (allocations s'))).
Proof.
  apply (GC_terminates roomyWorld (withRegistry apart)).
  - reflexivity.
  - exact apart_ends_low.
  - intros lo hi Hin. apply elem_of_nil in Hin. contradiction.
  - apply Nat.le_refl.
  - apply Nat.le_refl.
Defined.

(** ** What a collection keeps *)

(** The block of addresses of a record. *)
Definition bounds (r : heapAllocation) : Z * Z := (start r, end_ r).

(** The addresses whose word the loop of [scan], when at [a], reads before
    it ends: [a] itself if the loop condition holds there, and what the loop
    reads from [a + alignment] on. *)
Inductive loopReads (e : Z) : Z → Z → Prop :=
| loopReads_here a : wrapPtr (a + ptrSize) ≤ e → loopReads e a a
| loopReads_later a b :
    wrapPtr (a + ptrSize) ≤ e → loopReads e (wrapPtr (a + ptrAlign)) b →
    loopReads e a b.

(** The addresses whose word [scan(lo, hi)] reads: those of its loop, and
    the last word of the range. *)
Definition scanReads (lo hi a : Z) : Prop :=
  loopReads hi (clearLow (wrapPtr (lo + ptrAlign - 1))) a
  ∨ (wrapPtr (clearLow (wrapPtr (lo + ptrAlign - 1)) + ptrSize) ≤ hi
     ∧ a = wrapPtr (hi - ptrSize)).

Section ScanReads.
Context (w : world) (Inv : state → Prop) (Hit : Z → state → Prop)
  (ok : Z → Prop).
Hypothesis step : ∀ a s, Inv s → ok a →
  Inv (snd (mark (loadWord w a s) s)) ∧ Hit a (snd (mark (loadWord w a s) s)).
Hypothesis stable : ∀ a v s, Hit a s → Hit a (snd (mark v s)).

Lemma scanLoop_reads e :
  e + ptrSize < 2 ^ 32 →
  ∀ fuel addr s,
    0 ≤ addr → addr + ptrSize < 2 ^ 32 → (Z.to_nat (e - addr) ≤ fuel)%nat →
    Inv s → (∀ a, loopReads e addr a → ok a) →
    ∃ s', scanLoop w fuel addr e s = Done tt s' ∧ Inv s'
          ∧ (∀ a, loopReads e addr a → Hit a s')
          ∧ (∀ a, Hit a s → Hit a s').
Proof.
  intros He. unfold ptrSize in *.
  induction fuel as [|fuel IH]; intros addr s Ha Hnowrap Hfuel Hinv Hok;
    cbn [scanLoop]; unfold ptrSize, ptrAlign;
    assert (Hw : wrapPtr (addr + 4) = addr + 4)
      by (unfold wrapPtr; apply Z.mod_small; lia);
    rewrite Hw;
    destruct (Z.leb_spec (addr + 4) e) as [Hle|Hgt];
    try (exists s; split; [reflexivity|]; split; [exact Hinv|];
         split; [|auto];
         intros a Hr; inversion Hr; subst; unfold ptrSize in *; lia).
  - lia.
  - assert (Hhere : loopReads e addr addr)
      by (constructor; unfold ptrSize; lia).
    destruct (step addr s Hinv (Hok _ Hhere)) as [Hinv1 Hhit1].
    destruct (IH (addr + 4) (snd (mark (loadWord w addr s) s)))
      as (s' & Hs' & Hinv' & Hreads & Hstable); try lia; [exact Hinv1 | |].
    { intros a Hr. apply Hok. apply loopReads_later.
      - unfold ptrSize. lia.
      - unfold ptrAlign. rewrite Hw. exact Hr. }
    exists s'. split; [exact Hs'|]. split; [exact Hinv'|]. split.
    + intros a Hr. inversion Hr as [? Hc|? ? Hc Hnext]; subst.
      * apply Hstable. exact Hhit1.
      * apply Hreads. unfold ptrAlign in Hnext. rewrite Hw in Hnext.
        exact Hnext.
    + intros a Hhit. apply Hstable, stable. exact Hhit.
Qed.

Lemma scanLoop_reads_from_anywhere e fuel addr s :
  e + ptrSize < 2 ^ 32 →
  0 ≤ addr < 2 ^ 32 → (Z.to_nat e < fuel)%nat →
  Inv s → (∀ a, loopReads e addr a → ok a) →
  ∃ s', scanLoop w fuel addr e s = Done tt s' ∧ Inv s'
        ∧ (∀ a, loopReads e addr a → Hit a s')
        ∧ (∀ a, Hit a s → Hit a s').
Proof.
  intros He Ha Hfuel Hinv Hok.
  destruct (Z_lt_dec (addr + ptrSize) (2 ^ 32)) as [Hlow|Hhigh].
  - apply scanLoop_reads; auto; lia.
  - destruct fuel as [|fuel]; [lia|]. cbn [scanLoop].
    unfold ptrSize, ptrAlign in *.
    assert (Hw : wrapPtr (addr + 4) = addr + 4 - 2 ^ 32).
    { unfold wrapPtr. symmetry.
      apply Z.mod_unique with (q := 1); [left; lia | lia]. }
    rewrite Hw.
    destruct (Z.leb_spec (addr + 4 - 2 ^ 32) e) as [Hle|Hgt].
    + assert (Hhere : loopReads e addr addr)
        by (constructor; unfold ptrSize; lia).
      destruct (step addr s Hinv (Hok _ Hhere)) as [Hinv1 Hhit1].
      destruct (scanLoop_reads e He fuel (addr + 4 - 2 ^ 32)
                  (snd (mark (loadWord w addr s) s)))
        as (s' & Hs' & Hinv' & Hreads & Hstable);
        try (unfold ptrSize; lia); [exact Hinv1 | |].
      { intros a Hr. apply Hok. apply loopReads_later.
        - unfold ptrSize. lia.
        - unfold ptrAlign. rewrite Hw. exact Hr. }
      exists s'. split; [exact Hs'|]. split; [exact Hinv'|]. split.
      * intros a Hr. inversion Hr as [? Hc|? ? Hc Hnext]; subst.
        -- apply Hstable. exact Hhit1.
        -- apply Hreads. unfold ptrAlign in Hnext. rewrite Hw in Hnext.
           exact Hnext.
      * intros a Hhit. apply Hstable, stable. exact Hhit.
    + exists s. split; [reflexivity|]. split; [exact Hinv|].
      split; [|auto].
      intros a Hr. inversion Hr; subst; unfold ptrSize in *; lia.
Qed.

Lemma scan_reads fuel lo hi s :
  hi + ptrSize < 2 ^ 32 → (Z.to_nat hi < fuel)%nat →
  Inv s → (∀ a, scanReads lo hi a → ok a) →
  ∃ s', scan w fuel lo hi s = Done tt s' ∧ Inv s'
        ∧ (∀ a, scanReads lo hi a → Hit a s')
        ∧ (∀ a, Hit a s → Hit a s').
Proof.
  intros Hhi Hfuel Hinv Hok. unfold scan, bind.
  destruct (scanLoop_reads_from_anywhere hi fuel
              (clearLow (wrapPtr (lo + ptrAlign - 1))) s Hhi)
    as (s1 & Hs1 & Hinv1 & Hreads & Hstable); auto.
  { apply clearLow_range. apply Z.mod_pos_bound. lia. }
  { intros a Hr. apply Hok. left. exact Hr. }
  rewrite Hs1.
  destruct (Z.leb_spec (wrapPtr (clearLow (wrapPtr (lo + ptrAlign - 1)) + ptrSize))
              hi) as [Hle|Hgt].
  - destruct (step (wrapPtr (hi - ptrSize)) s1 Hinv1) as [Hinv2 Hhit2].
    { apply Hok. right. split; [exact Hle | reflexivity]. }
    eexists. split; [reflexivity|]. split; [exact Hinv2|]. split.
    + intros a [Hr|[_ ->]]; [apply stable, Hreads; exact Hr | exact Hhit2].
    + intros a Hhit. apply stable, Hstable. exact Hhit.
  - exists s1. split; [reflexivity|]. split; [exact Hinv1|]. split.
    + intros a [Hr|[Hc _]]; [apply Hreads; exact Hr | lia].
    + exact Hstable.
Qed.

Lemma markRanges_reads fuel : ∀ ranges s,
  (∀ lo hi, (lo, hi) ∈ ranges → hi + ptrSize < 2 ^ 32) →
  (Z.to_nat (2 ^ 32) ≤ fuel)%nat →
  Inv s → (∀ lo hi a, (lo, hi) ∈ ranges → scanReads lo hi a → ok a) →
  ∃ s', markRanges w fuel ranges s = Done tt s' ∧ Inv s'
        ∧ (∀ lo hi a, (lo, hi) ∈ ranges → scanReads lo hi a → Hit a s')
        ∧ (∀ a, Hit a s → Hit a s').
Proof.
  induction ranges as [|[lo hi] rest IH]; intros s Hlow Hfuel Hinv Hok.
  - exists s. split; [reflexivity|]. split; [exact Hinv|]. split; [|auto].
    intros lo hi a Hin. apply elem_of_nil in Hin. contradiction.
  - cbn [markRanges]. unfold markRoots, bind.
    assert (Hhi : hi + ptrSize < 2 ^ 32) by (apply (Hlow lo); left).
    destruct (scan_reads fuel lo hi s Hhi)
      as (s1 & Hs1 & Hinv1 & Hreads1 & Hstable1).
    { unfold ptrSize in Hhi. change (2 ^ 32) with 4294967296 in *. lia. }
    { exact Hinv. }
    { intros a Hr. apply (Hok lo hi); [left | exact Hr]. }
    rewrite Hs1.
    destruct (IH s1) as (s' & Hs' & Hinv' & Hreads & Hstable);
      [|exact Hfuel | exact Hinv1 | |].
    { intros lo' hi' Hin. apply (Hlow lo'). right. exact Hin. }
    { intros lo' hi' a Hin. apply Hok. right. exact Hin. }
    exists s'. split; [exact Hs'|]. split; [exact Hinv'|]. split.
    + intros lo' hi' a Hin Hr. apply elem_of_cons in Hin as [Heq|Hin].
      * injection Heq as -> ->. apply Hstable, Hreads1. exact Hr.
      * apply (Hreads lo' hi'); assumption.
    + intros a Hhit. apply Hstable, Hstable1. exact Hhit.
Qed.
End ScanReads.

(** The value [v] lies in the block, bounds included, as [mark] tests it. *)
Definition blockHolds (b : Z * Z) (v : Z) : Prop := b.1 ≤ v ≤ b.2.

(** The blocks that a conservative scan reaches in collection cycle [c],
    where [reads lo hi a] says that the scan of the range from [lo] to [hi]
    reads the word at [a] ([scanReads] for the [scan] above): a block is
    reachable when a word read from a root range, or from a reachable block,
    holds one of its addresses. *)
Inductive reachable (reads : Z → Z → Z → Prop) (w : world) (c : nat)
    (blocks : list (Z * Z)) : Z * Z → Prop :=
| reachable_root lo hi a b :
    (lo, hi) ∈ rootRanges w c → reads lo hi a →
    b ∈ blocks → blockHolds b (wrapPtr (load w c a)) →
    reachable reads w c blocks b
| reachable_step b0 a b :
    reachable reads w c blocks b0 → reads b0.1 b0.2 a →
    b ∈ blocks → blockHolds b (wrapPtr (load w c a)) →
    reachable reads w c blocks b.

Lemma reachable_same_blocks reads w c blocks blocks' b :
  (∀ x, x ∈ blocks ↔ x ∈ blocks') →
  reachable reads w c blocks b → reachable reads w c blocks' b.
Proof.
  intros Hsame. induction 1 as [lo hi a b Hroot Hr Hb Hh|b0 a b _ IH Hr Hb Hh].
  - eapply reachable_root; eauto. apply Hsame. exact Hb.
  - eapply reachable_step; eauto. apply Hsame. exact Hb.
Qed.

(** Every record that holds [v] is marked. *)
Definition hit (v : Z) (s : state) : Prop :=
  ∀ r, r ∈ allocations s → contains r v → marked r = true.

Lemma mark_allocations addr s r :
  r ∈ allocations (snd (mark addr s)) → marked r = true ∨ r ∈ allocations s.
Proof.
  unfold mark. cbn zeta.
  destruct (Nat.eqb (length (allocations s)) 0); [auto|].
  destruct ((addr <? startAt (allocations s) 0) || _); [auto|].
  destruct (searchAllocations (allocations s) addr) as [i|]; [|auto].
  destruct (allocations s !! i) as [cur|] eqn:Hcur; [|auto].
  destruct (marked cur) eqn:Hun; [auto|].
  cbn [snd]. intros Hr.
  apply elem_of_insert_inv in Hr as [->|Hr]; [left; reflexivity | auto].
Qed.

Lemma mark_hit_stable v v' s : hit v s → hit v (snd (mark v' s)).
Proof.
  intros Hhit r Hr Hc.
  destruct (mark_allocations v' s r Hr) as [Hm|Hin]; [exact Hm | auto].
Qed.

Lemma mark_same_bounds addr s :
  map bounds (allocations (snd (mark addr s))) = map bounds (allocations s).
Proof.
  unfold mark. cbn zeta.
  destruct (Nat.eqb (length (allocations s)) 0); [reflexivity|].
  destruct ((addr <? startAt (allocations s) 0) || _); [reflexivity|].
  destruct (searchAllocations (allocations s) addr) as [i|]; [|reflexivity].
  destruct (allocations s !! i) as [cur|] eqn:Hcur; [|reflexivity].
  destruct (marked cur) eqn:Hun; [reflexivity|].
  cbn [snd].
  change (allocations (setQueue _ (setAllocations ?l _))) with l.
  rewrite list_fmap_insert. apply list_insert_id.
  rewrite list_lookup_fmap, Hcur. reflexivity.
Qed.

Lemma same_bounds_lookup (l l' : list heapAllocation) i r :
  map bounds l = map bounds l' → l !! i = Some r →
  ∃ r', l' !! i = Some r' ∧ start r' = start r ∧ end_ r' = end_ r.
Proof.
  intros Hsame Hi.
  assert (H : map bounds l' !! i = Some (bounds r))
    by (rewrite <- Hsame, list_lookup_fmap, Hi; reflexivity).
  rewrite list_lookup_fmap in H.
  destruct (l' !! i) as [r'|]; [|discriminate].
  injection H as Hs He. exists r'. auto.
Qed.

Lemma same_bounds_at (l l' : list heapAllocation) :
  map bounds l = map bounds l' →
  ∀ k, startAt l k = startAt l' k ∧ endAt l k = endAt l' k.
Proof.
  intros Hsame k. unfold startAt, endAt.
  destruct (l !! k) as [r|] eqn:Hk.
  - destruct (same_bounds_lookup l l' k r Hsame Hk) as (r' & -> & -> & ->).
    auto.
  - assert (H : map bounds l' !! k = None)
      by (rewrite <- Hsame, list_lookup_fmap, Hk; reflexivity).
    rewrite list_lookup_fmap in H.
    destruct (l' !! k); [discriminate | auto].
Qed.

Lemma same_bounds_separated (l l' : list heapAllocation) :
  map bounds l = map bounds l' → separated l → separated l'.
Proof.
  intros Hsame Hsep i j Hij.
  assert (Hlen : length l' = length l)
    by (rewrite <- (length_map bounds l'), <- Hsame, length_map; reflexivity).
  destruct (same_bounds_at l l' Hsame i) as [<- <-].
  destruct (same_bounds_at l l' Hsame j) as [<- _].
  apply Hsep. lia.
Qed.

Lemma same_bounds_elem (l l' : list heapAllocation) r :
  map bounds l = map bounds l' → r ∈ l →
  ∃ r', r' ∈ l' ∧ start r' = start r ∧ end_ r' = end_ r.
Proof.
  intros Hsame Hr. apply list_elem_of_lookup in Hr as [i Hi].
  destruct (same_bounds_lookup l l' i r Hsame Hi) as (r' & Hi' & Hs & He).
  exists r'. split; [eapply list_elem_of_lookup_2; exact Hi' | auto].
Qed.

Lemma same_bounds_wellFormed (l l' : list heapAllocation) :
  map bounds l = map bounds l' → wellFormed l → wellFormed l'.
Proof.
  intros Hsame Hwf r Hr.
  destruct (same_bounds_elem l' l r (eq_sym Hsame) Hr) as (r' & Hr' & <- & <-).
  apply Hwf. exact Hr'.
Qed.

Lemma disjointIntervals_Permutation l l' :
  l ≡ₚ l' → disjointIntervals l → disjointIntervals l'.
Proof.
  intros Hp Hd i j ri rj a Hij Hi Hj.
  symmetry in Hp. apply Permutation_inj in Hp as (_ & f & Hinj & Hf).
  rewrite Hf in Hi, Hj.
  apply (Hd (f i) (f j) ri rj a); [|assumption..].
  intros Heq. apply Hij. apply Hinj. exact Heq.
Qed.

Lemma unmarkAllocations_bounds l :
  map bounds (unmarkAllocations l) = map bounds l.
Proof.
  unfold unmarkAllocations.
  induction l as [|r l IH]; simpl; [reflexivity | rewrite IH; reflexivity].
Qed.

Lemma same_bounds_disjointIntervals (l l' : list heapAllocation) :
  map bounds l = map bounds l' → disjointIntervals l → disjointIntervals l'.
Proof.
  intros Hsame Hd i j ri rj a Hij Hi Hj [Hci Hcj].
  destruct (same_bounds_lookup l' l i ri (eq_sym Hsame) Hi)
    as (ri' & Hi' & Hsi & Hei).
  destruct (same_bounds_lookup l' l j rj (eq_sym Hsame) Hj)
    as (rj' & Hj' & Hsj & Hej).
  apply (Hd i j ri' rj' a Hij Hi' Hj').
  unfold contains in *. rewrite Hsi, Hei, Hsj, Hej. auto.
Qed.

Lemma same_bounds_sortedByStart (l l' : list heapAllocation) :
  map bounds l = map bounds l' → sortedByStart l → sortedByStart l'.
Proof.
  intros Hsame Hs i ri rj Hi Hj.
  destruct (same_bounds_lookup l' l i ri (eq_sym Hsame) Hi)
    as (ri' & Hi' & <- & _).
  destruct (same_bounds_lookup l' l (S i) rj (eq_sym Hsame) Hj)
    as (rj' & Hj' & <- & _).
  eapply Hs; eassumption.
Qed.

Lemma reachable_in_blocks reads w c blocks b :
  reachable reads w c blocks b → b ∈ blocks.
Proof. destruct 1; assumption. Qed.

Section Tracing.
Context (reads : Z → Z → Z → Prop) (w : world) (c : nat)
  (blocks : list (Z * Z)).

(** The word that the collection reads at an address. *)
Definition wordAt (a : Z) : Z := wrapPtr (load w c a).

(** Every record that a word of the range points into is marked. *)
Definition seen (lo hi : Z) (s : state) : Prop :=
  ∀ a, reads lo hi a → hit (wordAt a) s.

(** The address holds a word that points into reachable blocks only. *)
Definition legit (a : Z) : Prop :=
  ∀ b, b ∈ blocks → blockHolds b (wordAt a) → reachable reads w c blocks b.

(** The state of a collection while it marks: the registry holds the blocks
    it held after [prepareGC], separated; every marked record is reachable;
    the scan queue links distinct marked records, and every marked record is
    in the queue, is the record [ex] being scanned, or has all the records
    its words point into marked. *)
Definition tracing (ex : option nat) (m : nat) (s : state) : Prop :=
  cycles s = c
  ∧ map bounds (allocations s) = blocks
  ∧ separated (allocations s)
  ∧ wellFormed (allocations s)
  ∧ (∀ r, r ∈ allocations s → marked r = true →
       reachable reads w c blocks (bounds r))
  ∧ ∃ l, chain (allocations s) (referenceScanQueue s) l
         ∧ NoDup l
         ∧ (length l + length (List.filter unmarked (allocations s)) = m)%nat
         ∧ (∀ r, r ∈ allocations s → end_ r + ptrSize < 2 ^ 32)
         ∧ (∀ j r, allocations s !! j = Some r → marked r = true →
              j ∈ l ∨ ex = Some j ∨ seen (start r) (end_ r) s).

Lemma mark_tracing ex m a s :
  tracing ex m s → legit a →
  tracing ex m (snd (mark (loadWord w a s) s))
  ∧ hit (wordAt a) (snd (mark (loadWord w a s) s)).
Proof.
  intros (Hc & Hb & Hsep & Hwf & Hexact & l & Hchain & Hnd & Hm & Hends & Htri)
    Hlegit.
  unfold loadWord. rewrite Hc. fold (wordAt a). set (v := wordAt a) in *.
  pose proof (mark_same_bounds v s) as Hsame.
  pose proof (λ v', mark_hit_stable v' v s) as Hstable.
  destruct (mark_cases v s Hsep Hwf)
    as [(i & r & Hi & Hcv & Hun & Hmark)|[Hnone Hmark]];
    rewrite Hmark in *; cbn [snd] in *.
  - assert (Hnot : i ∉ l).
    { intros Hin. destruct (chain_marked _ _ _ _ Hchain Hin) as (r' & Hr' & Hm').
      congruence. }
    assert (Hlt : (i < length (allocations s))%nat)
      by (eapply lookup_lt_Some; eassumption).
    assert (Harr : allocations (pushMarked i r s)
                   = <[i := markSlot (referenceScanQueue s) r]> (allocations s))
      by reflexivity.
    split.
    + split; [exact Hc|]. split; [rewrite Hsame; exact Hb|].
      split; [eapply same_bounds_separated; [symmetry; exact Hsame | exact Hsep]|].
      split; [eapply same_bounds_wellFormed; [symmetry; exact Hsame | exact Hwf]|].
      split.
      { intros r' Hr' Hm'. rewrite Harr in Hr'.
        apply elem_of_insert_inv in Hr' as [->|Hr']; [|auto].
        change (bounds (markSlot (referenceScanQueue s) r)) with (bounds r).
        apply Hlegit.
        - rewrite <- Hb. apply list_elem_of_fmap. exists r.
          split; [reflexivity | eapply list_elem_of_lookup_2; exact Hi].
        - exact Hcv. }
      exists (i :: l). split; [|split; [|split; [|split]]].
      * apply (chain_cons _ i (markSlot (referenceScanQueue s) r)).
        -- rewrite Harr. apply list_lookup_insert_eq. exact Hlt.
        -- reflexivity.
        -- rewrite Harr. apply chain_insert; assumption.
      * constructor; assumption.
      * pose proof (unmarked_count_insert (allocations s) i r
                      (markSlot (referenceScanQueue s) r) Hi Hun eq_refl) as Hn.
        rewrite Harr. simpl in *. lia.
      * intros r' Hr'. rewrite Harr in Hr'.
        apply elem_of_insert_inv in Hr' as [->|Hr']; [|auto].
        simpl. apply Hends. eapply list_elem_of_lookup_2. exact Hi.
      * intros j r' Hj Hm'. rewrite Harr in Hj.
        destruct (decide (j = i)) as [->|Hne]; [left; left|].
        rewrite list_lookup_insert_ne in Hj by auto.
        destruct (Htri j r' Hj Hm') as [Hin|[Hex|Hseen]].
        -- left. right. exact Hin.
        -- right. left. exact Hex.
        -- right. right. intros a' Ha'. apply Hstable. apply Hseen. exact Ha'.
    + intros r' Hr' Hc'. rewrite Harr in Hr'.
      apply list_elem_of_lookup in Hr' as [k Hk].
      destruct (decide (k = i)) as [->|Hne].
      * rewrite list_lookup_insert_eq in Hk by exact Hlt.
        injection Hk as <-. reflexivity.
      * rewrite list_lookup_insert_ne in Hk by auto.
        exfalso. apply Hne.
        pose proof (lookup_lt_Some _ _ _ Hk).
        apply (separated_unique (allocations s) v); auto.
        -- rewrite (startAt_lookup _ _ _ Hk), (endAt_lookup _ _ _ Hk). exact Hc'.
        -- rewrite (startAt_lookup _ _ _ Hi), (endAt_lookup _ _ _ Hi). exact Hcv.
  - split.
    + split; [exact Hc|]. split; [exact Hb|]. split; [exact Hsep|].
      split; [exact Hwf|]. split; [exact Hexact|].
      exists l. auto.
    + intros r Hr Hcv. destruct (marked r) eqn:Hmr; [reflexivity|].
      exfalso. apply Hnone.
      apply list_elem_of_lookup in Hr as [k Hk]. exists k, r. auto.
Qed.
End Tracing.

(** The drain loop, with what it keeps true. *)
Lemma finishMarking_tracing w c blocks sfuel : ∀ fuel m s,
  (Z.to_nat (2 ^ 32) ≤ sfuel)%nat → (m ≤ fuel)%nat →
  tracing scanReads w c blocks None m s →
  ∃ s' m', finishMarking w sfuel fuel s = Done tt s'
           ∧ tracing scanReads w c blocks None m' s'
           ∧ referenceScanQueue s' = None
           ∧ (∀ a, hit (wordAt w c a) s → hit (wordAt w c a) s').
Proof.
  induction fuel as [|fuel IH]; intros m s Hsf Hfuel Htr;
    pose proof Htr as
      (Hc & Hb & Hsep & Hwf & Hexact & l & Hchain & Hnd & Hm & Hends & Htri);
    cbn [finishMarking].
  - assert (l = []) as -> by (destruct l; simpl in *; [reflexivity | lia]).
    inversion Hchain as [Hq|]. exists s, m. auto.
  - inversion Hchain as [Hq|i r l' Hi Hmr Hc' Hq Hl].
    + exists s, m. auto.
    + subst l. rewrite Hi.
      set (m0 := (length l' + length (List.filter unmarked (allocations s)))%nat).
      assert (Htr0 : tracing scanReads w c blocks (Some i) m0 (setQueue (next r) s)).
      { split; [exact Hc|]. split; [exact Hb|]. split; [exact Hsep|].
        split; [exact Hwf|]. split; [exact Hexact|].
        exists l'. split; [exact Hc'|].
        split; [apply NoDup_cons in Hnd as [_ ?]; assumption|].
        split; [reflexivity|]. split; [exact Hends|].
        intros j r' Hj Hm'.
        destruct (Htri j r' Hj Hm') as [Hin|[Hex|Hseen]].
        - apply elem_of_cons in Hin as [->|Hin]; [right; left; reflexivity|].
          left. exact Hin.
        - discriminate Hex.
        - right. right. exact Hseen. }
      assert (Hend : end_ r + ptrSize < 2 ^ 32)
        by (apply Hends; eapply list_elem_of_lookup_2; exact Hi).
      assert (Hreach : reachable scanReads w c blocks (bounds r))
        by (apply Hexact; [eapply list_elem_of_lookup_2; exact Hi | exact Hmr]).
      destruct (scan_reads w (tracing scanReads w c blocks (Some i) m0)
                  (λ a s, hit (wordAt w c a) s) (legit scanReads w c blocks)
                  (mark_tracing scanReads w c blocks (Some i) m0)
                  (λ a v s, mark_hit_stable (wordAt w c a) v s)
                  sfuel (start r) (end_ r) (setQueue (next r) s) Hend)
        as (s1 & Hs1 & Htr1 & Hseen1 & Hstable1).
      { unfold ptrSize in Hend. change (2 ^ 32) with 4294967296 in *. lia. }
      { exact Htr0. }
      { intros a Ha b Hbin Hh.
        apply (reachable_step scanReads w c blocks (bounds r) a b);
          [exact Hreach | exact Ha | exact Hbin | exact Hh]. }
      rewrite Hs1.
      assert (Htr1' : tracing scanReads w c blocks None m0 s1).
      { destruct Htr1 as (Hc1 & Hb1 & Hsep1 & Hwf1 & Hexact1 & l1 & Hchain1
                          & Hnd1 & Hm1 & Hends1 & Htri1).
        split; [exact Hc1|]. split; [exact Hb1|]. split; [exact Hsep1|].
        split; [exact Hwf1|]. split; [exact Hexact1|].
        exists l1. split; [exact Hchain1|]. split; [exact Hnd1|].
        split; [exact Hm1|]. split; [exact Hends1|].
        intros j r1 Hj Hm1'.
        destruct (Htri1 j r1 Hj Hm1') as [Hin|[Hex|Hseen]]; [auto | | auto].
        injection Hex as <-. right. right.
        destruct (same_bounds_lookup (allocations s1) (allocations s) i r1)
          as (r0 & Hr0 & Hs0 & He0); [congruence | exact Hj |].
        assert (r0 = r) as -> by congruence.
        rewrite <- Hs0, <- He0. exact Hseen1. }
      destruct (IH m0 s1 Hsf) as (s' & m' & Hs' & Htr' & Hq' & Hstable');
        [subst m0; simpl in Hm; lia | exact Htr1' |].
      exists s', m'. split; [exact Hs'|]. split; [exact Htr'|].
      split; [exact Hq'|].
      intros a Hhit. apply Hstable'. apply (Hstable1 a). exact Hhit.
Qed.

(** The state that [prepareGC] leaves is the start of a marking phase. *)
Lemma prepareGC_tracing w s :
  wellFormed (allocations s) → disjointIntervals (allocations s) →
  (∀ r, r ∈ allocations s → end_ r + ptrSize < 2 ^ 32) →
  tracing scanReads w (cycles s) (map bounds (allocations (prepareGC s))) None
    (length (allocations s)) (prepareGC s).
Proof.
  intros Hwf Hdisj Hends.
  assert (Harr : allocations (prepareGC s)
                 = unmarkAllocations (sortAllocations (allocations s)))
    by reflexivity.
  assert (Hsame : map bounds (allocations (prepareGC s))
                  = map bounds (sortAllocations (allocations s)))
    by (rewrite Harr; apply unmarkAllocations_bounds).
  pose proof (sortAllocations_Permutation (allocations s)) as Hperm.
  assert (Hwf' : wellFormed (allocations (prepareGC s))).
  { apply (same_bounds_wellFormed _ _ (eq_sym Hsame)).
    intros r Hr. apply Hwf. rewrite <- Hperm. exact Hr. }
  assert (Hunmarked : ∀ r, r ∈ allocations (prepareGC s) → marked r = false).
  { intros r Hr. rewrite Harr in Hr. unfold unmarkAllocations in Hr.
    apply list_elem_of_fmap in Hr as (r0 & -> & _). reflexivity. }
  split; [reflexivity|]. split; [reflexivity|]. split.
  { apply separated_of_disjointIntervals; [exact Hwf' | |].
    - apply (same_bounds_sortedByStart _ _ (eq_sym Hsame)).
      apply sortAllocations_sorted.
    - apply (same_bounds_disjointIntervals _ _ (eq_sym Hsame)).
      apply (disjointIntervals_Permutation (allocations s)); [|exact Hdisj].
      symmetry. exact Hperm. }
  split; [exact Hwf'|]. split.
  { intros r Hr Hm. rewrite (Hunmarked r Hr) in Hm. discriminate. }
  destruct (prepareGC_marking s Hends) as (l & Hchain & Hnd & Hm & Hlow).
  exists l. split; [exact Hchain|]. split; [exact Hnd|].
  split; [exact Hm|]. split; [exact Hlow|].
  intros j r Hj Hmr.
  rewrite (Hunmarked r) in Hmr by (eapply list_elem_of_lookup_2; exact Hj).
  discriminate.
Qed.

(** X3: what a collection keeps and what it frees. On a registry of
    well-formed records whose inclusive intervals are pairwise disjoint and
    end more than a pointer below the top of the address space, [GC()]
    returns, and the records it leaves in the registry are exactly those
    whose block is reachable: some word that [scan] reads from a root range
    or from a reachable block holds an address of the block. The calls it
    makes are [extfree], once for each record it drops, and these are exactly
    the records whose block is not reachable. *)
Theorem GC_keeps_exactly_the_reachable (w : world) (s : state)
    (sfuel fuel : nat) :
  gcInProgress s = false →
  wellFormed (allocations s) → disjointIntervals (allocations s) →
  (∀ r, r ∈ allocations s → end_ r + ptrSize < 2 ^ 32) →
  (∀ lo hi, (lo, hi) ∈ rootRanges w (S (cycles s)) → hi + ptrSize < 2 ^ 32) →
  (Z.to_nat (2 ^ 32) ≤ sfuel)%nat → (length (allocations s) ≤ fuel)%nat →
  ∃ s' gone,
    GC w sfuel fuel s = Done tt s'
    ∧ (∀ b, b ∈ map bounds (allocations s')
            ↔ reachable scanReads w (S (cycles s)) (map bounds (allocations s)) b)
    ∧ trace s' = trace s ++ EvGC :: map (λ r, EvExtfree (start r)) gone
    ∧ (∀ b, b ∈ map bounds gone
            ↔ b ∈ map bounds (allocations s)
              ∧ ¬ reachable scanReads w (S (cycles s)) (map bounds (allocations s)) b).
Proof.
  intros Hidle Hwf Hdisj Hends Hroots Hsf Hfuel. unfold GC. cbn zeta.
  change (gcInProgress (emit EvGC s)) with (gcInProgress s). rewrite Hidle.
  set (s1 := setCycles _ _).
  change (allocations s1) with (allocations s).
  change (cycles s1) with (S (cycles s)).
  set (c := S (cycles s)).
  assert (Htrace1 : trace s1 = trace s ++ [EvGC]) by reflexivity.
  destruct (Nat.eqb_spec (length (allocations s)) 0) as [Hlen|Hlen].
  { exists (setInProgress false s1), []. split; [reflexivity|].
    change (allocations (setInProgress false s1)) with (allocations s).
    destruct (allocations s) eqn:Harr; [|discriminate Hlen]. simpl.
    split; [|split; [exact Htrace1|]].
    - intros b. split; [intros Hb; apply elem_of_nil in Hb; contradiction|].
      intros Hr. apply reachable_in_blocks in Hr. exact Hr.
    - intros b. split; [intros Hb; apply elem_of_nil in Hb; contradiction|].
      intros [Hb _]. exact Hb. }
  unfold bind, modify.
  set (blocks := map bounds (allocations (prepareGC s1))).
  assert (Hblocks : ∀ x, x ∈ blocks ↔ x ∈ map bounds (allocations s)).
  { intros x. unfold blocks.
    change (allocations (prepareGC s1))
      with (unmarkAllocations (sortAllocations (allocations s))).
    rewrite unmarkAllocations_bounds.
    rewrite (sortAllocations_Permutation (allocations s)). reflexivity. }
  pose proof (prepareGC_tracing w s1 Hwf Hdisj Hends) as Htr.
  change (cycles s1) with c in Htr. fold blocks in Htr.
  change (allocations s1) with (allocations s) in Htr.
  destruct (markRanges_reads w (tracing scanReads w c blocks None (length (allocations s)))
              (λ a s, hit (wordAt w c a) s) (legit scanReads w c blocks)
              (mark_tracing scanReads w c blocks None (length (allocations s)))
              (λ a v s, mark_hit_stable (wordAt w c a) v s)
              sfuel (rootRanges w c) (prepareGC s1) Hroots Hsf Htr)
    as (s2 & Hs2 & Htr2 & Hroots2 & _).
  { intros lo hi a Hin Ha b Hb Hh.
    apply (reachable_root scanReads w c blocks lo hi a b); assumption. }
  rewrite Hs2.
  destruct (finishMarking_tracing w c blocks sfuel fuel _ s2 Hsf Hfuel Htr2)
    as (s3 & m3 & Hs3 & Htr3 & Hq3 & Hstable3).
  rewrite Hs3.
  destruct Htr3 as (Hc3 & Hb3 & Hsep3 & Hwf3 & Hexact3 & l3 & Hchain3 & _ & _
                    & _ & Htri3).
  rewrite Hq3 in Hchain3. inversion Hchain3; subst l3.
  assert (Hsafe : ∀ b, reachable scanReads w c blocks b →
                  ∀ r, r ∈ allocations s3 → bounds r = b → marked r = true).
  { induction 1 as [lo hi a b Hroot Hr Hb Hh|b0 a b Hreach0 IH Hr Hb Hh];
      intros r Hin Hbr.
    - apply (Hroots2 lo hi a Hroot) in Hr. apply Hstable3 in Hr.
      apply Hr; [exact Hin|]. subst b. exact Hh.
    - pose proof (reachable_in_blocks _ _ _ _ _ Hreach0) as Hb0.
      rewrite <- Hb3 in Hb0. apply list_elem_of_fmap in Hb0 as (r0 & Hb0 & Hr0).
      pose proof (IH r0 Hr0 (eq_sym Hb0)) as Hm0.
      apply list_elem_of_lookup in Hr0 as [j Hj].
      destruct (Htri3 j r0 Hj Hm0) as [Hnil|[Hno|Hseen]].
      + apply elem_of_nil in Hnil. contradiction.
      + discriminate Hno.
      + subst b0. apply (Hseen a Hr r Hin). subst b. exact Hh. }
  assert (Htrace3 : trace s3 = trace s ++ [EvGC]).
  { rewrite <- Htrace1.
    pose proof (finishMarking_frame trace w sfuel fuel s2 trace_offRegistry)
      as H3.
    pose proof (markRanges_frame trace w sfuel (rootRanges w c) (prepareGC s1)
                  trace_offRegistry) as H2.
    rewrite Hs3 in H3. rewrite Hs2 in H2. simpl in H2, H3.
    rewrite H3, H2. reflexivity. }
  destruct (sweep_outcome s3) as (Hkept & Hfreed & _).
  exists (setInProgress false (sweep s3)),
         (List.filter unmarked (allocations s3)).
  split; [reflexivity|].
  change (allocations (setInProgress false (sweep s3)))
    with (allocations (sweep s3)).
  change (trace (setInProgress false (sweep s3))) with (trace (sweep s3)).
  rewrite Hkept, Hfreed, Htrace3, <- app_assoc. split; [|split; [reflexivity|]].
  - intros b. split.
    + intros Hb. apply list_elem_of_fmap in Hb as (r & -> & Hr).
      apply filter_marked_all in Hr as [Hm Hr].
      apply (reachable_same_blocks scanReads w c blocks); [exact Hblocks|].
      apply Hexact3; assumption.
    + intros Hreach.
      apply (reachable_same_blocks scanReads w c _ blocks) in Hreach;
        [|intros x; symmetry; apply Hblocks].
      pose proof (reachable_in_blocks _ _ _ _ _ Hreach) as Hb.
      rewrite <- Hb3 in Hb. apply list_elem_of_fmap in Hb as (r & -> & Hr).
      apply list_elem_of_fmap. exists r. split; [reflexivity|].
      apply list_elem_of_In, filter_In. split; [apply list_elem_of_In; exact Hr|].
      apply (Hsafe (bounds r) Hreach r Hr eq_refl).
  - intros b. split.
    + intros Hb. apply list_elem_of_fmap in Hb as (r & -> & Hr).
      apply list_elem_of_In, filter_In in Hr as [Hr Hun].
      apply list_elem_of_In in Hr. split.
      * apply Hblocks. rewrite <- Hb3. apply list_elem_of_fmap.
        exists r. auto.
      * intros Hreach.
        apply (reachable_same_blocks scanReads w c _ blocks) in Hreach;
          [|intros x; symmetry; apply Hblocks].
        unfold unmarked in Hun.
        rewrite (Hsafe _ Hreach r Hr eq_refl) in Hun. discriminate Hun.
    + intros [Hb Hnot]. apply Hblocks in Hb. rewrite <- Hb3 in Hb.
      apply list_elem_of_fmap in Hb as (r & -> & Hr).
      apply list_elem_of_fmap. exists r. split; [reflexivity|].
      apply list_elem_of_In, filter_In. split; [apply list_elem_of_In; exact Hr|].
      unfold unmarked. destruct (marked r) eqn:Hm; [|reflexivity].
      exfalso. apply Hnot.
      apply (reachable_same_blocks scanReads w c blocks); [exact Hblocks|].
      apply Hexact3; assumption.
Qed.

(** A host whose only root range is the two words at 2048; the first holds
    the address 20, all other memory holds zeros. *)
Definition rootedWorld : world :=
  mkWorld 1024 0 0 (extallocAnswer roomyWorld) (λ _, [(2048, 2056)])
    (λ _ a, if a =? 2048 then 20 else 0).

Lemma GC_keeps_exactly_the_reachable_witness :
  ∃ s' gone,
    GC rootedWorld (Z.to_nat (2 ^ 32)) 2 (withRegistry apart) = Done tt s'
    ∧ (∀ b, b ∈ map bounds (allocations s')
            ↔ reachable scanReads rootedWorld 1 (map bounds apart) b)
    ∧ trace s' = [] ++ EvGC :: map (λ r, EvExtfree (start r)) gone
    ∧ (∀ b, b ∈ map bounds gone
            ↔ b ∈ map bounds apart
              ∧ ¬ reachable scanReads rootedWorld 1 (map bounds apart) b).
Proof.
  apply (GC_keeps_exactly_the_reachable rootedWorld (withRegistry apart)).
  - reflexivity.
  - exact apart_wellFormed.
  - exact apart_disjointIntervals.
  - exact apart_ends_low.
  - intros lo hi Hin. apply list_elem_of_singleton in Hin.
    injection Hin as -> ->. unfold ptrSize. lia.
  - apply Nat.le_refl.
  - apply Nat.le_refl.
Defined.

(** In that host the record at 16 is reachable and the record at 40 is
    not. *)
Lemma rootedWorld_reaches_first :
  reachable scanReads rootedWorld 1 (map bounds apart) (16, 32)
  ∧ ¬ reachable scanReads rootedWorld 1 (map bounds apart) (40, 48).
Proof.
  split.
  - apply (reachable_root scanReads rootedWorld 1 _ 2048 2056 2048).
    + left.
    + left. apply loopReads_here. vm_compute. discriminate.
    + left.
    + vm_compute. split; discriminate.
  - intros Hr.
    assert (Hword : ∀ a, wrapPtr (load rootedWorld 1 a) = 20
                         ∨ wrapPtr (load rootedWorld 1 a) = 0).
    { intros a. simpl. destruct (a =? 2048); [left | right]; reflexivity. }
    remember (40, 48) as b eqn:Hb.
    destruct Hr as [lo hi a b _ _ _ Hh|b0 a b _ _ _ Hh]; subst b;
      unfold blockHolds in Hh; simpl fst in Hh; simpl snd in Hh;
      destruct (Hword a) as [Hw|Hw]; rewrite Hw in Hh; lia.
Qed.

(** ** What a successful allocation leaves *)

Lemma allocLoop_returns w sfuel gfuel size : ∀ fuel gcRan s p s',
  allocLoop w sfuel gfuel fuel size gcRan s = Done p s' →
  p ≠ 0 ∧ 0 ≤ p < 2 ^ 32
  ∧ ∃ before evs,
      allocations s' = before ++ [newHeapAllocation p size]
      ∧ trace s' = evs ++ [EvExtalloc ForData size p; EvMemzero p size].
Proof.
  induction fuel as [|fuel IH]; intros gcRan s p s' Hrun; [discriminate|].
  cbn [allocLoop] in Hrun. destruct (needGC size s).
  - unfold bind in Hrun.
    destruct (tryGC w sfuel gfuel gcRan size expandHeap s) as [g s1| |];
      try discriminate.
    eapply IH. exact Hrun.
  - unfold bind at 1 in Hrun.
    destruct (expandAllocationsIfNeeded w sfuel gfuel gcRan s) as [g s1| |];
      try discriminate.
    unfold bind at 1 in Hrun. unfold extalloc in Hrun.
    set (ptr := wrapPtr (extallocAnswer w ForData (askedData s1))) in *.
    destruct (Z.eqb_spec ptr 0) as [Hnull|Hptr].
    + unfold bind in Hrun.
      destruct (tryGC w sfuel gfuel g size fail _) as [g' s2| |];
        try discriminate.
      eapply IH. exact Hrun.
    + unfold bind, modify, ret in Hrun. injection Hrun as <- <-.
      split; [exact Hptr|]. split; [apply Z.mod_pos_bound; lia|].
      exists (allocations s1), (trace s1). split; [reflexivity|].
      simpl. rewrite <- app_assoc. reflexivity.
Qed.

(** X9: an [alloc] of a non-zero size that returns gives a non-nil pointer:
    the last answer of the host's [extalloc], which was asked for the size
    plus one aligned pointer ([size'] bytes); the record [[p, p + size']]
    is then the last of the registry, unmarked, and the last call made is the
    [memzero] of those [size'] bytes. *)
Theorem alloc_returns_registered_block (w : world) (sfuel gfuel fuel : nat)
    (size p : Z) (s s' : state) :
  size ≠ 0 →
  alloc w sfuel gfuel fuel size s = Done p s' →
  let size' := wrapPtr (size + align ptrSize) in
  p ≠ 0
  ∧ last (allocations s') = Some (mkAlloc p (wrapPtr (p + size')) false None)
  ∧ ∃ evs, trace s' = evs ++ [EvExtalloc ForData size' p; EvMemzero p size'].
Proof.
  intros Hsize Hrun. cbn zeta. unfold alloc in Hrun.
  destruct (gcInProgress s); [discriminate|].
  destruct (Z.eqb_spec size 0) as [|_]; [contradiction|].
  apply allocLoop_returns in Hrun
    as (Hp & _ & before & evs & Harr & Htrace).
  split; [exact Hp|]. split.
  - rewrite Harr, last_snoc. reflexivity.
  - exists evs. exact Htrace.
Qed.

Lemma alloc_returns_registered_block_witness :
  let size' := wrapPtr (8 + align ptrSize) in
  1048576 ≠ 0
  ∧ last (allocations (finalState (alloc roomyWorld 1 1 2 8 bootState)))
    = Some (mkAlloc 1048576 (wrapPtr (1048576 + size')) false None)
  ∧ ∃ evs, trace (finalState (alloc roomyWorld 1 1 2 8 bootState))
           = evs ++ [EvExtalloc ForData size' 1048576;
                     EvMemzero 1048576 size'].
Proof.
  apply (alloc_returns_registered_block roomyWorld 1 1 2 8 1048576 bootState
           (finalState (alloc roomyWorld 1 1 2 8 bootState))).
  - discriminate.
  - vm_compute. reflexivity.
Defined.

(** ** A request that cannot fit *)

(** X10: the loop of [alloc] does not end when the total plus the size
    exceeds what a [uintptr] limit can hold. [needGC] compares the [uint64]
    sum with [heapUsageLimit], which is at most [2^32 - 1]; once a collection
    has run in this call, each pass only calls [adjustHeapUsageLimit], which
    keeps a 32-bit limit and changes nothing else, so [needGC] holds again:
    for every bound on the number of passes the loop is still running, it
    has not called the host, and the registry and the total are as they
    were. *)
Theorem allocLoop_never_exits_above_address_space (w : world)
    (sfuel gfuel : nat) (size : Z) (fuel : nat) (s : state) :
  0 ≤ heapUsageLimit s < 2 ^ 32 →
  maxPtr < wrap64 (gcTotalAlloc s + size) →
  ∃ s', allocLoop w sfuel gfuel fuel size true s = OutOfFuel s'
        ∧ allocations s' = allocations s
        ∧ gcTotalAlloc s' = gcTotalAlloc s
        ∧ askedData s' = askedData s
        ∧ askedRecords s' = askedRecords s.
Proof.
  revert s. induction fuel as [|fuel IH]; intros s Hlimit Hbig.
  - exists s. repeat split; reflexivity.
  - cbn [allocLoop]. unfold needGC.
    destruct (Z.ltb_spec (heapUsageLimit s) (wrap64 (gcTotalAlloc s + size)))
      as [_|Hfits]; [|unfold maxPtr in Hbig; lia].
    unfold bind, tryGC, expandHeap, bind, ret, adjustHeapUsageLimit.
    pose proof (growLimit_range (gcTotalAlloc s) size 32 (heapUsageLimit s)
                  Hlimit) as Hrange.
    remember (growLimit 32 (gcTotalAlloc s) size (heapUsageLimit s)) as g
      eqn:Hg.
    clear Hg. cbn zeta.
    set (l' := if g =? 0 then maxPtr else g).
    assert (Hl' : 0 ≤ l' < 2 ^ 32)
      by (unfold l'; destruct (g =? 0); [unfold maxPtr; lia | assumption]).
    clearbody l'.
    destruct (IH (emit (EvGrow (heapUsageLimit s) l') (setLimit l' s)))
      as (s' & Hs' & Ha & Ht & Hd & Hr); [exact Hl' | exact Hbig |].
    exists s'. split; [exact Hs'|]. auto.
Qed.

Lemma allocLoop_never_exits_above_address_space_witness :
  ∃ s', allocLoop roomyWorld 1 1 1000 2147483648 true
          (setTotalAlloc 2147483648 bootState) = OutOfFuel s'
        ∧ allocations s' = []
        ∧ gcTotalAlloc s' = 2147483648
        ∧ askedData s' = 0%nat
        ∧ askedRecords s' = 0%nat.
Proof.
  apply (allocLoop_never_exits_above_address_space roomyWorld 1 1 2147483648
           1000 (setTotalAlloc 2147483648 bootState)).
  - vm_compute. split; [discriminate | reflexivity].
  - vm_compute. reflexivity.
Defined.

(** ** A limit that is not grown *)

(** A host like [roomyWorld] whose one root range, [[2048, 2056)], holds
    the address 1048576, the first block it hands out. *)
Definition pinnedWorld : world :=
  mkWorld 1024 0 0 (extallocAnswer roomyWorld) (λ _, [(2048, 2056)])
    (λ _ a, if a =? 2048 then 1048576 else 0).

(** With 12 bytes in use and the limit at its boot value, requests of
    4294967288 bytes are not made to fit: the 32-bit sum is 4, so each pass
    of the loop of [alloc] calls [adjustHeapUsageLimit], which leaves the
    limit as it is, and the loop goes on. *)
Lemma allocLoop_limit_stuck w sfuel gfuel : ∀ fuel s,
  gcTotalAlloc s = 12 → heapUsageLimit s = 524288 →
  ∃ s', allocLoop w sfuel gfuel fuel 4294967288 true s = OutOfFuel s'
        ∧ gcTotalAlloc s' = 12 ∧ heapUsageLimit s' = 524288
        ∧ trace s' = trace s ++ repeat (EvGrow 524288 524288) fuel.
Proof.
  induction fuel as [|fuel IH]; intros s Ht Hl.
  - exists s. cbn. rewrite app_nil_r. auto.
  - cbn [allocLoop]. unfold needGC. rewrite Ht, Hl.
    change (524288 <? wrap64 (12 + 4294967288)) with true. cbv iota.
    unfold bind, tryGC, expandHeap, bind, ret, adjustHeapUsageLimit.
    rewrite Ht, Hl.
    change (growLimit 32 12 4294967288 524288) with 524288.
    cbn zeta. change (524288 =? 0) with false. cbv iota.
    destruct (IH (emit (EvGrow 524288 524288) (setLimit 524288 s)))
      as (s' & Hs' & Ht' & Hl' & Htr); [exact Ht | reflexivity |].
    exists s'. split; [exact Hs'|]. split; [exact Ht'|].
    split; [exact Hl'|]. rewrite Htr. cbn. rewrite <- app_assoc. reflexivity.
Qed.

(** C10 fails where the 32-bit sum wraps. From boot, [alloc(8)] registers
    a block of 12 bytes, which the root range keeps alive. [alloc] of
    4294967284 bytes (4294967288 with the header) then collects once and,
    the request still being above the limit, calls [adjustHeapUsageLimit]
    on every further pass: [uintptr(gcTotalAlloc) + size] is 4, not above
    the limit, so the limit is neither doubled nor set to all ones; it stays
    524288, far below the 4294967300 bytes needed, and the loop never ends.
    Likewise after [alloc(2147483644)] from boot, which leaves the total and
    the limit at 2^31: for a second request of that size the sum is 2^32,
    which is 0 as a [uintptr], and [adjustHeapUsageLimit] leaves the limit
    at 2^31. *)
Lemma adjustHeapUsageLimit_leaves_request_unfit :
  (∃ s1, alloc pinnedWorld 8 2 1 8 bootState = Done 1048576 s1
         ∧ gcTotalAlloc s1 = 12 ∧ heapUsageLimit s1 = 524288
         ∧ ∀ fuel, ∃ s',
             alloc pinnedWorld 8 2 (S fuel) 4294967284 s1 = OutOfFuel s'
             ∧ heapUsageLimit s' = 524288
             ∧ heapUsageLimit s' < gcTotalAlloc s' + 4294967288
             ∧ trace s'
               = trace s1 ++ EvGC :: repeat (EvGrow 524288 524288) fuel)
  ∧ (∃ s1, alloc roomyWorld 1 1 3 2147483644 bootState = Done 1048576 s1
           ∧ gcTotalAlloc s1 = 2147483648
           ∧ heapUsageLimit s1 = 2147483648
           ∧ heapUsageLimit (finalState (adjustHeapUsageLimit 2147483648 s1))
             = 2147483648
           ∧ heapUsageLimit (finalState (adjustHeapUsageLimit 2147483648 s1))
             < gcTotalAlloc s1 + 2147483648).
Proof.
  split.
  - eexists. split; [vm_compute; reflexivity|].
    split; [reflexivity|]. split; [reflexivity|].
    intros fuel. unfold alloc. cbn [gcInProgress].
    change (4294967284 =? 0) with false. cbv iota. cbn zeta.
    change (wrapPtr (4294967284 + align ptrSize)) with 4294967288.
    cbn [allocLoop].
    match goal with
    | |- context [needGC 4294967288 ?s] =>
        change (needGC 4294967288 s) with true
    end.
    cbv iota. unfold bind at 1. unfold tryGC. unfold bind at 1.
    match goal with
    | |- context [GC pinnedWorld 8 2 ?s] =>
        let r := eval vm_compute in (GC pinnedWorld 8 2 s) in
        change (GC pinnedWorld 8 2 s) with r
    end.
    cbv iota beta. unfold ret.
    match goal with
    | |- context [allocLoop pinnedWorld 8 2 fuel 4294967288 true ?s] =>
        destruct (allocLoop_limit_stuck pinnedWorld 8 2 fuel s)
          as (s' & Hs' & Ht' & Hl' & Htr); [reflexivity | reflexivity |]
    end.
    exists s'. split; [exact Hs'|]. split; [exact Hl'|].
    split; [rewrite Hl', Ht'; reflexivity|].
    rewrite Htr. reflexivity.
  - eexists. split; [vm_compute; reflexivity|].
    repeat split; vm_compute; reflexivity.
Qed.

(** ** Growing the registry *)

(** X11: when the registry is full and the host answers the request for the
    doubled array, [expandAllocationsIfNeeded] keeps every record, in order:
    it asks for [double(cap)] records of 16 bytes, installs the answer with
    the doubled capacity and the same length, copies the records, frees the
    old array unless the old capacity was zero, and leaves [*gcRan] as it
    was; when the registry is not full it does nothing. *)
Theorem expandAllocationsIfNeeded_keeps_records (w : world)
    (sfuel gfuel : nat) (gcRan : bool) (s : state) :
  (Z.of_nat (length (allocations s)) ≠ allocCap s →
   expandAllocationsIfNeeded w sfuel gfuel gcRan s = Done gcRan s)
  ∧ (Z.of_nat (length (allocations s)) = allocCap s →
     wrapPtr (extallocAnswer w ForRecords (askedRecords s)) ≠ 0 →
     ∃ s', expandAllocationsIfNeeded w sfuel gfuel gcRan s = Done gcRan s'
           ∧ allocations s' = allocations s
           ∧ allocCap s' = double (allocCap s)
           ∧ allocPtr s'
             = wrapPtr (extallocAnswer w ForRecords (askedRecords s))
           ∧ newEvents s s'
             = EvExtalloc ForRecords
                 (wrapPtr (double (allocCap s) * heapAllocationSize))
                 (allocPtr s')
               :: (if allocCap s =? 0 then [] else [EvExtfree (allocPtr s)])
           ∧ gcTotalAlloc s' = gcTotalAlloc s).
Proof.
  unfold expandAllocationsIfNeeded. cbn zeta. split.
  - intros Hne. destruct (Z.eqb_spec (Z.of_nat (length (allocations s)))
                            (allocCap s)); [contradiction | reflexivity].
  - intros Hfull Hptr. rewrite Hfull, Z.eqb_refl.
    unfold bind at 1. cbn [extalloc].
    set (ptr := wrapPtr (extallocAnswer w ForRecords (askedRecords s))) in *.
    destruct (Z.eqb_spec ptr 0) as [|_]; [contradiction|].
    unfold bind, ret, modify, newEvents.
    destruct (Z.eqb_spec (allocCap s) 0) as [Hcap|Hcap].
    + eexists. split; [reflexivity|]. cbn.
      rewrite take_app_length, drop_app_length. repeat split.
    + eexists. split; [reflexivity|]. cbn.
      rewrite take_app_length, <- app_assoc, drop_app_length. repeat split.
Qed.

(** ** The leaking variant's total *)

(** The bytes that [alloc(size)] accounts for: nothing for a zero size,
    else the size plus one aligned pointer, as a [uintptr]. *)
Definition accounted (size : Z) : Z :=
  if size =? 0 then 0 else wrapPtr (size + align ptrSize).

Lemma accounted_range size : 0 ≤ accounted size < 2 ^ 32.
Proof.
  unfold accounted. destruct (size =? 0); [lia|].
  apply Z.mod_pos_bound. lia.
Qed.

Lemma leaking_alloc_total w size s p s' :
  0 ≤ Leaking.gcTotalAlloc s < 2 ^ 64 →
  Leaking.alloc w size s = Done p s' →
  Leaking.gcTotalAlloc s' = Leaking.gcTotalAlloc s + accounted size
  ∧ Leaking.gcTotalAlloc s' < 2 ^ 64
  ∧ Leaking.gcMallocs s' = Leaking.gcMallocs s.
Proof.
  intros Hrange Hrun. unfold Leaking.alloc in Hrun.
  pose proof (accounted_range size) as Hacc. unfold accounted in *.
  destruct (size =? 0).
  { injection Hrun as <- <-. lia. }
  cbn zeta in Hrun.
  set (sz := wrapPtr (size + align ptrSize)) in *.
  destruct (Z.ltb_spec (wrap64 (Leaking.gcTotalAlloc s + sz))
              (Leaking.gcTotalAlloc s)) as [|Hge]; [discriminate|].
  destruct (_ =? 0); [discriminate|].
  injection Hrun as <- <-. cbn.
  assert (Hsum : Leaking.gcTotalAlloc s + sz < 2 ^ 64).
  { destruct (Z_lt_dec (Leaking.gcTotalAlloc s + sz) (2 ^ 64)) as [|Hbig];
      [assumption|].
    exfalso. unfold wrap64 in Hge.
    replace (Leaking.gcTotalAlloc s + sz)
      with (Leaking.gcTotalAlloc s + sz - 2 ^ 64 + 1 * 2 ^ 64) in Hge by ring.
    rewrite Z.mod_add, Z.mod_small in Hge by lia. lia. }
  unfold wrap64. rewrite Z.mod_small by lia. lia.
Qed.

(** X12: in the leaking variant the total never wraps and never decreases.
    For every sequence of [alloc] calls that return, started with a total
    that is a [uint64], the total afterwards is the total before plus the
    exact sum of the bytes accounted for each call; this is what
    [ReadMemStats] reports as [HeapInuse] and [TotalAlloc], while [Mallocs]
    stays what it was, since this [alloc] never counts its calls. *)
Theorem leaking_total_is_the_exact_sum (w : world) (sizes : list Z)
    (s s' : Leaking.state) (ps : list Z) :
  0 ≤ Leaking.gcTotalAlloc s < 2 ^ 64 →
  leakingAllocAll w sizes s = Done ps s' →
  HeapInuse (Leaking.ReadMemStats w s')
  = Leaking.gcTotalAlloc s + foldr Z.add 0 (map accounted sizes)
  ∧ TotalAlloc (Leaking.ReadMemStats w s') = HeapInuse (Leaking.ReadMemStats w s')
  ∧ HeapInuse (Leaking.ReadMemStats w s) ≤ HeapInuse (Leaking.ReadMemStats w s')
  ∧ Mallocs (Leaking.ReadMemStats w s') = Mallocs (Leaking.ReadMemStats w s).
Proof.
  cbn [HeapInuse TotalAlloc Mallocs Leaking.ReadMemStats].
  revert s s' ps.
  induction sizes as [|size rest IH]; intros s s' ps Hrange Hrun.
  - injection Hrun as <- <-. simpl. lia.
  - cbn [leakingAllocAll] in Hrun. unfold bind at 1 in Hrun.
    destruct (Leaking.alloc w size s) as [p s1| |] eqn:Halloc;
      try discriminate.
    unfold bind at 1 in Hrun.
    destruct (leakingAllocAll w rest s1) as [ps1 s2| |] eqn:Hrest;
      try discriminate.
    injection Hrun as <- <-.
    destruct (leaking_alloc_total w size s p s1 Hrange Halloc)
      as (Ht & Hlt & Hm).
    pose proof (accounted_range size) as Hacc.
    destruct (IH s1 s2 ps1) as (H1 & H2 & H3 & H4); [lia | exact Hrest |].
    cbn [map foldr]. repeat split; try lia.
Qed.

Lemma leaking_total_is_the_exact_sum_witness :
  HeapInuse (Leaking.ReadMemStats roomyWorld
               (finalState (leakingAllocAll roomyWorld [8; 0; 400000]
                              Leaking.bootState)))
  = 0 + foldr Z.add 0 (map accounted [8; 0; 400000]).
Proof.
  apply (leaking_total_is_the_exact_sum roomyWorld [8; 0; 400000]
           Leaking.bootState
           (finalState (leakingAllocAll roomyWorld [8; 0; 400000]
                          Leaking.bootState))
           [1048576; 1024; 1448592]).
  - vm_compute. split; [discriminate | reflexivity].
  - vm_compute. reflexivity.
Defined.

(** ** The counters *)

Definition isExtfree (e : event) : bool :=
  match e with EvExtfree _ => true | _ => false end.

(** The number of [extfree] calls among the calls. *)
Definition countFrees (evs : list event) : Z :=
  Z.of_nat (length (List.filter isExtfree evs)).

Lemma countFrees_app e1 e2 : countFrees (e1 ++ e2) = countFrees e1 + countFrees e2.
Proof. unfold countFrees. rewrite List.filter_app, length_app. lia. Qed.

(** [gcMallocs] is kept, and [gcFrees] has counted the [extfree] calls. *)
Definition countStep (s s' : state) : Prop :=
  gcMallocs s' = gcMallocs s
  ∧ ∃ evs, trace s' = trace s ++ evs
           ∧ wrap64 (gcFrees s') = wrap64 (gcFrees s + countFrees evs).

Lemma countStep_refl s : countStep s s.
Proof.
  split; [reflexivity|]. exists []. rewrite app_nil_r.
  split; [reflexivity|]. f_equal. unfold countFrees. simpl. lia.
Qed.

Lemma countStep_trans x y z : countStep x y → countStep y z → countStep x z.
Proof.
  intros (Hm1 & e1 & Ht1 & Hf1) (Hm2 & e2 & Ht2 & Hf2).
  split; [congruence|]. exists (e1 ++ e2).
  split; [rewrite Ht2, Ht1, app_assoc; reflexivity|].
  rewrite Hf2, countFrees_app.
  rewrite <- wrap64_add_l, Hf1, wrap64_add_l. f_equal. lia.
Qed.

Definition counters (s : state) : Z * Z * list event :=
  (gcMallocs s, gcFrees s, trace s).

Lemma countStep_same s s' : counters s' = counters s → countStep s s'.
Proof.
  unfold counters. intros H. injection H as Hm Hf Ht.
  split; [exact Hm|]. exists []. rewrite app_nil_r.
  split; [exact Ht|]. rewrite Hf. f_equal. unfold countFrees. simpl. lia.
Qed.

Lemma countStep_emit e s :
  isExtfree e = false → countStep s (emit e s).
Proof.
  intros He. split; [reflexivity|]. exists [e]. split; [reflexivity|].
  unfold countFrees. simpl. rewrite He. simpl. f_equal. lia.
Qed.

Lemma countStep_free ptr s : countStep s (free ptr s).
Proof.
  split; [reflexivity|]. exists [EvExtfree ptr]. split; [reflexivity|].
  unfold free, countFrees. simpl. unfold wrap64. apply Zmod_mod.
Qed.

Lemma counters_offRegistry : offRegistry counters.
Proof. split; reflexivity. Qed.

Lemma sweepLoop_countStep k : ∀ i j s, countStep s (snd (sweepLoop k i j s)).
Proof.
  induction k as [|k IH]; intros i j s; simpl; [apply countStep_refl|].
  destruct (allocations s !! i) as [cur|]; [|apply countStep_refl].
  destruct (marked cur); simpl.
  - eapply countStep_trans; [|apply IH]. apply countStep_same. reflexivity.
  - eapply countStep_trans; [|apply IH]. apply countStep_free.
Qed.

Lemma sweep_countStep s : countStep s (sweep s).
Proof.
  unfold sweep.
  pose proof (sweepLoop_countStep (length (allocations (setTotalAlloc 0 s))) 0 0
                (setTotalAlloc 0 s)) as H.
  destruct (sweepLoop _ 0 0 _) as [j s1]. simpl in *.
  eapply countStep_trans; [|eapply countStep_trans; [exact H|]];
    apply countStep_same; reflexivity.
Qed.

Lemma GC_countStep w sfuel fuel s :
  countStep s (finalState (GC w sfuel fuel s)).
Proof.
  apply (countStep_trans _ (emit EvGC s)); [apply countStep_emit; reflexivity|].
  unfold GC. cbn zeta.
  destruct (gcInProgress (emit EvGC s)); [apply countStep_refl|].
  destruct (Nat.eqb _ 0); [apply countStep_same; reflexivity|].
  set (s1 := setCycles _ _).
  set (ranges := rootRanges w (cycles s1)).
  apply (countStep_trans _ s1); [apply countStep_same; reflexivity|].
  clearbody ranges. generalize s1.
  pose proof (λ A B, @bind_final state A B countStep) as Hbind.
  apply Hbind; [exact countStep_trans | | intros _].
  { intros s0. apply countStep_same. reflexivity. }
  apply Hbind; [exact countStep_trans | | intros _].
  { intros s0. apply countStep_same.
    apply markRanges_frame, counters_offRegistry. }
  apply Hbind; [exact countStep_trans | | intros _].
  { intros s0. apply countStep_same.
    apply finishMarking_frame, counters_offRegistry. }
  apply Hbind; [exact countStep_trans | | intros _].
  { intros s0. simpl. apply sweep_countStep. }
  intros s0. apply countStep_same. reflexivity.
Qed.

Lemma extalloc_countStep w what size s :
  countStep s (finalState (extalloc w what size s)).
Proof.
  destruct what; simpl;
    (eapply countStep_trans; [|apply countStep_emit; reflexivity]);
    apply countStep_same; reflexivity.
Qed.

Lemma adjustHeapUsageLimit_countStep size s :
  countStep s (finalState (adjustHeapUsageLimit size s)).
Proof.
  unfold adjustHeapUsageLimit.
  remember (growLimit 32 (gcTotalAlloc s) size (heapUsageLimit s)) as g eqn:Hg.
  clear Hg. cbn zeta. cbn [finalState].
  eapply countStep_trans; [|apply countStep_emit; reflexivity].
  apply countStep_same. reflexivity.
Qed.

Lemma tryGC_countStep w sfuel gfuel gcRan size fn :
  (∀ b sz s, countStep s (finalState (fn b sz s))) →
  ∀ s, countStep s (finalState (tryGC w sfuel gfuel gcRan size fn s)).
Proof.
  intros Hfn. unfold tryGC. destruct gcRan.
  - apply (bind_final countStep); [exact countStep_trans | apply Hfn |].
    intros _ s. apply countStep_refl.
  - apply (bind_final countStep); [exact countStep_trans | |].
    + intros s. apply GC_countStep.
    + intros _ s. apply countStep_refl.
Qed.

Lemma expandHeap_countStep b size s :
  countStep s (finalState (expandHeap b size s)).
Proof.
  destruct b; [apply adjustHeapUsageLimit_countStep | apply countStep_refl].
Qed.

Lemma fail_countStep b size s : countStep s (finalState (fail b size s)).
Proof. destruct b; apply countStep_refl. Qed.

Lemma expandAllocationsIfNeeded_countStep w sfuel gfuel gcRan s :
  countStep s (finalState (expandAllocationsIfNeeded w sfuel gfuel gcRan s)).
Proof.
  unfold expandAllocationsIfNeeded. cbn zeta.
  destruct (_ =? allocCap s); [|apply countStep_refl].
  generalize (length (allocations s)), (allocPtr s), (allocCap s).
  intros hlen hptr hcap. revert s.
  apply (bind_final countStep); [exact countStep_trans | |].
  { intros s. apply extalloc_countStep. }
  intros ptr.
  apply (bind_final countStep); [exact countStep_trans | |].
  { intros s. destruct (ptr =? 0); [|apply countStep_refl].
    apply tryGC_countStep. apply fail_countStep. }
  intros g.
  apply (bind_final countStep); [exact countStep_trans | |].
  { intros s. apply countStep_same. reflexivity. }
  intros _.
  apply (bind_final countStep); [exact countStep_trans | |].
  { intros s. destruct (hcap =? 0);
      [apply countStep_same; reflexivity | apply countStep_free]. }
  intros _ s. apply countStep_refl.
Qed.

Lemma allocLoop_countStep w sfuel gfuel fuel size : ∀ gcRan s,
  countStep s (finalState (allocLoop w sfuel gfuel fuel size gcRan s)).
Proof.
  induction fuel as [|fuel IH]; intros gcRan s; [apply countStep_refl|].
  cbn [allocLoop].
  destruct (needGC size s).
  - revert s. apply (bind_final countStep); [exact countStep_trans | |].
    + apply tryGC_countStep. apply expandHeap_countStep.
    + intros g s. apply IH.
  - revert s. apply (bind_final countStep); [exact countStep_trans | |].
    { intros s. apply expandAllocationsIfNeeded_countStep. }
    intros g.
    apply (bind_final countStep); [exact countStep_trans | |].
    { intros s. apply extalloc_countStep. }
    intros ptr. destruct (ptr =? 0).
    + apply (bind_final countStep); [exact countStep_trans | |].
      * apply tryGC_countStep. apply fail_countStep.
      * intros g' s. apply IH.
    + intros s. unfold bind, modify, ret. cbn [finalState].
      eapply countStep_trans; [|apply countStep_emit; reflexivity].
      apply countStep_same. reflexivity.
Qed.

(** X13: the counters count. Over any call of [alloc], [free] or [GC], from
    any state and however the call ends, [gcFrees] grows (as a [uint64]) by
    the number of [extfree] calls made, whether by [free] itself, by [sweep]
    for a dropped record or by [expandAllocationsIfNeeded] for the old
    registry array; [gcMallocs] grows by one over an [alloc] entered outside
    a collection, be the size zero or not, and is left as it is by every
    other call, so the [extalloc] calls for registry arrays are not
    counted. *)
Theorem counters_count_calls (w : world) (sfuel gfuel fuel : nat) (o : op)
    (s : state) :
  let s' := finalState (runOp w sfuel gfuel fuel o s) in
  gcMallocs s'
  = match o with
    | OpAlloc _ =>
        if gcInProgress s then gcMallocs s else wrap64 (gcMallocs s + 1)
    | _ => gcMallocs s
    end
  ∧ ∃ evs, trace s' = trace s ++ evs
           ∧ wrap64 (gcFrees s') = wrap64 (gcFrees s + countFrees evs).
Proof.
  cbn zeta. destruct o as [size|ptr|]; cbn [runOp].
  - assert (Hfinal : finalState ((alloc w sfuel gfuel fuel size ;; ret tt) s)
                     = finalState (alloc w sfuel gfuel fuel size s)).
    { unfold bind. destruct (alloc w sfuel gfuel fuel size s); reflexivity. }
    rewrite Hfinal. unfold alloc.
    destruct (gcInProgress s).
    { split; [reflexivity|]. apply (countStep_refl s). }
    set (s0 := setMallocs (wrap64 (gcMallocs s + 1)) s).
    change (trace s) with (trace s0). change (gcFrees s) with (gcFrees s0).
    assert (Hs0 : gcMallocs s0 = wrap64 (gcMallocs s + 1)) by reflexivity.
    rewrite <- Hs0. clearbody s0.
    destruct (size =? 0); [apply (countStep_refl s0)|].
    apply allocLoop_countStep.
  - apply countStep_free.
  - apply GC_countStep.
Qed.

(** * Debug output (gc_debug.go, runtime_polkawasm.go)

    A Go string is its sequence of bytes; [int] is 32 bits wide. *)

Module Debug.

(** The output buffer of runtime_polkawasm.go: [putcharBuffer], an array of
    [putcharBufferSize] bytes, and [putcharPosition]. *)
Record state := mkState {
  putcharBuffer : list Byte.byte;
  putcharPosition : nat
}.

(** The string literals ["0"] to ["9"]. *)
Definition digitStrings : list (list Byte.byte) :=
  [[Byte.x30]; [Byte.x31]; [Byte.x32]; [Byte.x33]; [Byte.x34];
   [Byte.x35]; [Byte.x36]; [Byte.x37]; [Byte.x38]; [Byte.x39]].

Section Printing.
Context (gcDebug : bool) (putcharBufferSize : nat).

(** [putchar]: an index outside the array is a run-time panic. *)
Definition putchar (c : Byte.byte) : state → result state unit := fun d =>
  if (putcharPosition d <? length (putcharBuffer d))%nat
  then Done tt (mkState (<[putcharPosition d := c]> (putcharBuffer d))
                  (S (putcharPosition d)))
  else Panic Trap d.

(** The loop of [printstr] over the bytes left of the string. *)
Fixpoint printstrLoop (str : list Byte.byte) : state → result state unit :=
  fun d =>
    match str with
    | [] => Done tt d
    | c :: rest =>
        if (putcharBufferSize <=? putcharPosition d)%nat then Done tt d
        else (putchar c ;; printstrLoop rest) d
    end.

(** [printstr] *)
Definition printstr (str : list Byte.byte) : state → result state unit :=
  if negb gcDebug then ret tt else printstrLoop str.

(** The first loop of [printnum]:
    [for ; num > 0; num /= 10 { digits[count] = num % 10; count++ }];
    [fuel] bounds the number of passes. *)
Fixpoint extractLoop (fuel : nat) (num : Z) (digits : list Z) (count : nat)
    : state → result state (list Z * nat) := fun d =>
  if 0 <? num then
    match fuel with
    | O => OutOfFuel d
    | S f =>
        if (count <? length digits)%nat
        then extractLoop f (Z.quot num 10) (<[count := Z.rem num 10]> digits)
               (S count) d
        else Panic Trap d
    end
  else Done (digits, count) d.

(** The second loop, [for i := 0; i < count/2; i++], with [k] passes left:
    [digits[i], digits[j] = digits[j], digits[i]] for [j = count - i - 1]. *)
Fixpoint reverseLoop (k : nat) (count i : nat) (digits : list Z)
    : state → result state (list Z) := fun d =>
  match k with
  | O => Done digits d
  | S k' =>
      let j := (count - i - 1)%nat in
      match digits !! i, digits !! j with
      | Some a, Some b =>
          reverseLoop k' count (S i) (<[j := a]> (<[i := b]> digits)) d
      | _, _ => Panic Trap d
      end
  end.

(** The third loop, [for i := 0; i < count; i++], with [k] passes left:
    [printstr(digitStrings[digits[i]])]. *)
Fixpoint printLoop (k : nat) (i : nat) (digits : list Z)
    : state → result state unit := fun d =>
  match k with
  | O => Done tt d
  | S k' =>
      match digits !! i with
      | Some x =>
          if x <? 0 then Panic Trap d
          else match digitStrings !! Z.to_nat x with
               | Some str => (printstr str ;; printLoop k' (S i) digits) d
               | None => Panic Trap d
               end
      | None => Panic Trap d
      end
  end.

(** [printnum] *)
Definition printnum (fuel : nat) (num : Z) : state → result state unit :=
  if num =? 0 then printstr [Byte.x30]
  else
    do r <- extractLoop fuel num (replicate 16 0) 0;
    let '(digits, count) := r in
    do digits' <- reverseLoop (count / 2) count 0 digits;
    printLoop count 0 digits'.
End Printing.

(** The number that a sequence of decimal digits, most significant first,
    stands for; a byte that is no digit counts as zero. *)
Definition digitValue (c : Byte.byte) : Z :=
  match c with
  | Byte.x30 => 0 | Byte.x31 => 1 | Byte.x32 => 2 | Byte.x33 => 3
  | Byte.x34 => 4 | Byte.x35 => 5 | Byte.x36 => 6 | Byte.x37 => 7
  | Byte.x38 => 8 | Byte.x39 => 9 | _ => 0
  end.

Definition isDigit (c : Byte.byte) : bool :=
  match c with
  | Byte.x30 | Byte.x31 | Byte.x32 | Byte.x33 | Byte.x34
  | Byte.x35 | Byte.x36 | Byte.x37 | Byte.x38 | Byte.x39 => true
  | _ => false
  end.

Definition decimalValue (l : list Byte.byte) : Z :=
  fold_left (λ acc c, 10 * acc + digitValue c) l 0.

End Debug.

(** ** What [printnum] writes *)

(** The number that a sequence of digits, least significant first, stands
    for. *)
Definition valueLSD (l : list Z) : Z := foldr (λ x acc, x + 10 * acc) 0 l.

Definition decimalDigit (x : Z) : Prop := 0 ≤ x ≤ 9.

(** The first loop of [printnum] leaves the digits of the number, least
    significant first, from [count] on; it stays inside the first [width]
    slots when the number has at most [width] digits. *)
Lemma extractLoop_digits (N : Z) (width : nat) : ∀ fuel num digits count d,
  0 ≤ num → num * 10 ^ Z.of_nat count ≤ N → N < 10 ^ Z.of_nat width →
  (width ≤ length digits)%nat → num < 10 ^ Z.of_nat fuel →
  ∃ lsd,
    Debug.extractLoop fuel num digits count d
    = Done (take count digits ++ lsd ++ drop (count + length lsd) digits,
            (count + length lsd)%nat) d
    ∧ valueLSD lsd = num
    ∧ Forall decimalDigit lsd
    ∧ (num = 0 → lsd = [])
    ∧ (0 < num → (count + length lsd ≤ width)%nat
                 ∧ ∃ m, last lsd = Some m ∧ m ≠ 0).
Proof.
  induction fuel as [|fuel IH]; intros num digits count d Hnum HN Hwidth Hlen
    Hfuel.
  - assert (num = 0) as -> by (simpl in Hfuel; lia).
    exists []. simpl. rewrite Nat.add_0_r, take_drop.
    split; [reflexivity|]. split; [reflexivity|].
    split; [constructor|]. split; [reflexivity | intros; lia].
  - cbn [Debug.extractLoop].
    destruct (Z.ltb_spec 0 num) as [Hpos|Hzero].
    + assert (Hpow : 0 < 10 ^ Z.of_nat count) by (apply Z.pow_pos_nonneg; lia).
      assert (Hcount : (count < width)%nat).
      { assert (10 ^ Z.of_nat count < 10 ^ Z.of_nat width) by nia.
        apply Z.pow_lt_mono_r_iff in H; lia. }
      destruct (Nat.ltb_spec count (length digits)) as [Hin|]; [|lia].
      pose proof (Z.quot_rem' num 10) as Hqr.
      pose proof (Z.rem_bound_pos num 10 ltac:(lia) ltac:(lia)) as Hrem.
      pose proof (Z.quot_pos num 10 ltac:(lia) ltac:(lia)) as Hquot.
      destruct (IH (Z.quot num 10) (<[count := Z.rem num 10]> digits) (S count)
                  d) as (lsd & Hrun & Hval & Hdig & Hnil & Hlast).
      * exact Hquot.
      * rewrite Nat2Z.inj_succ, Z.pow_succ_r by lia. nia.
      * exact Hwidth.
      * rewrite length_insert. exact Hlen.
      * rewrite Nat2Z.inj_succ, Z.pow_succ_r in Hfuel by lia. lia.
      * exists (Z.rem num 10 :: lsd). rewrite Hrun.
        rewrite (take_S_r _ _ (Z.rem num 10))
          by (apply list_lookup_insert_eq; exact Hin).
        rewrite take_insert_ge by lia.
        rewrite drop_insert_lt by lia.
        cbn [length]. rewrite <- app_assoc.
        replace (S count + length lsd)%nat with (count + S (length lsd))%nat
          by lia.
        split; [reflexivity|]. split; [simpl; lia|].
        split; [constructor; [unfold decimalDigit; lia | exact Hdig]|].
        split; [lia|]. intros _.
        destruct (Z_lt_dec 0 (Z.quot num 10)) as [Hmore|Hlast0].
        -- destruct (Hlast Hmore) as (Hw & m & Hm & Hne).
           split; [lia|]. exists m. split; [|exact Hne].
           rewrite last_cons, Hm. reflexivity.
        -- assert (Hq0 : Z.quot num 10 = 0) by lia.
           rewrite (Hnil Hq0). simpl. split; [lia|].
           exists (Z.rem num 10). split; [reflexivity | lia].
    + assert (num = 0) as -> by lia.
      exists []. simpl. rewrite Nat.add_0_r, take_drop.
      split; [reflexivity|]. split; [reflexivity|].
    split; [constructor|]. split; [reflexivity | intros; lia].
Qed.

Lemma insert_at_length {A} (pre : list A) x post v :
  <[length pre := v]> (pre ++ x :: post) = pre ++ v :: post.
Proof.
  rewrite insert_app_r_alt by lia. rewrite Nat.sub_diag. reflexivity.
Qed.

(** The second loop reverses, in place, the part of the array between the
    slots it has already exchanged. *)
Lemma reverseLoop_reverses : ∀ n m pre post d,
  length m = n →
  Debug.reverseLoop (length m / 2) (2 * length pre + length m) (length pre)
    (pre ++ m ++ post) d
  = Done (pre ++ rev m ++ post) d.
Proof.
  induction n as [n IH] using lt_wf_ind. intros m pre post d Hn.
  destruct m as [|x m]; [reflexivity|].
  destruct (decide (m = [])) as [->|Hne]; [reflexivity|].
  destruct (exists_last Hne) as (m' & y & ->).
  assert (Hk : (length (x :: m' ++ [y]) / 2 = S (length m' / 2))%nat).
  { cbn [length]. rewrite length_app. cbn [length].
    replace (S (length m' + 1)) with (length m' + 1 * 2)%nat by lia.
    rewrite Nat.div_add by lia. lia. }
  rewrite Hk. cbn [Debug.reverseLoop].
  assert (Hj : (2 * length pre + length (x :: m' ++ [y]) - length pre - 1
                = length (pre ++ x :: m'))%nat).
  { cbn [length]. rewrite !length_app. cbn [length]. lia. }
  rewrite Hj.
  assert (Hshape : pre ++ (x :: m' ++ [y]) ++ post
                   = (pre ++ x :: m') ++ y :: post).
  { rewrite <- ?app_assoc. cbn [app]. rewrite <- ?app_assoc. reflexivity. }
  assert (Hi : (pre ++ (x :: m' ++ [y]) ++ post) !! length pre = Some x)
    by (apply list_lookup_middle; reflexivity).
  assert (Hjy : (pre ++ (x :: m' ++ [y]) ++ post) !! length (pre ++ x :: m')
                = Some y)
    by (rewrite Hshape; apply list_lookup_middle; reflexivity).
  rewrite Hi, Hjy.
  assert (Hswapped :
            <[length (pre ++ x :: m') := x]>
              (<[length pre := y]> (pre ++ (x :: m' ++ [y]) ++ post))
            = (pre ++ [y]) ++ m' ++ (x :: post)).
  { cbn [app]. rewrite insert_at_length.
    replace (pre ++ y :: (m' ++ [y]) ++ post)
      with ((pre ++ y :: m') ++ y :: post)
      by (rewrite <- ?app_assoc; cbn [app]; rewrite <- ?app_assoc; reflexivity).
    replace (length (pre ++ x :: m')) with (length (pre ++ y :: m'))
      by (rewrite !length_app; reflexivity).
    rewrite insert_at_length. rewrite <- ?app_assoc. reflexivity. }
  rewrite Hswapped.
  replace (2 * length pre + length (x :: m' ++ [y]))%nat
    with (2 * length (pre ++ [y]) + length m')%nat
    by (cbn [length]; rewrite !length_app; cbn [length]; lia).
  replace (S (length pre)) with (length (pre ++ [y]))
    by (rewrite length_app; cbn [length]; lia).
  rewrite (IH (length m')); [| |reflexivity].
  - f_equal. cbn [rev]. rewrite rev_unit. rewrite <- ?app_assoc. reflexivity.
  - subst n. cbn [length]. rewrite length_app. lia.
Qed.

(** The byte of the string literal for a digit. *)
Definition digitByte (x : Z) : Byte.byte :=
  match Debug.digitStrings !! Z.to_nat x with
  | Some [c] => c
  | _ => Byte.x30
  end.

Lemma digitByte_spec x :
  decimalDigit x →
  Debug.digitStrings !! Z.to_nat x = Some [digitByte x]
  ∧ Debug.digitValue (digitByte x) = x
  ∧ Debug.isDigit (digitByte x) = true
  ∧ (x ≠ 0 → digitByte x ≠ Byte.x30).
Proof.
  intros [H0 H9].
  assert (Hx : x = 0 ∨ x = 1 ∨ x = 2 ∨ x = 3 ∨ x = 4 ∨ x = 5 ∨ x = 6 ∨ x = 7
               ∨ x = 8 ∨ x = 9) by lia.
  repeat (destruct Hx as [->|Hx]); try subst x;
    (split; [reflexivity|]; split; [reflexivity|]; split; [reflexivity|]);
    intros Hne; try contradiction; discriminate.
Qed.

(** The buffer after the bytes have been written from [putcharPosition] on,
    as far as there is room. *)
Definition writtenAfter (size : nat) (bytes : list Byte.byte)
    (d : Debug.state) : Debug.state :=
  let pos := Debug.putcharPosition d in
  let out := take (size - pos) bytes in
  Debug.mkState
    (take pos (Debug.putcharBuffer d) ++ out
     ++ drop (pos + length out) (Debug.putcharBuffer d))
    (pos + length out).

Lemma writtenAfter_nil size d : writtenAfter size [] d = d.
Proof.
  unfold writtenAfter. destruct d as [buf pos]. cbn.
  rewrite take_nil. cbn. rewrite Nat.add_0_r, take_drop. reflexivity.
Qed.

Lemma writtenAfter_full size bytes d :
  (size ≤ Debug.putcharPosition d)%nat → writtenAfter size bytes d = d.
Proof.
  intros Hfull. unfold writtenAfter. destruct d as [buf pos]. cbn in *.
  replace (size - pos)%nat with 0%nat by lia. rewrite take_0. cbn.
  rewrite Nat.add_0_r, take_drop. reflexivity.
Qed.

Lemma writtenAfter_step size c rest buf pos :
  length buf = size → (pos < size)%nat →
  writtenAfter size rest (Debug.mkState (<[pos := c]> buf) (S pos))
  = writtenAfter size (c :: rest) (Debug.mkState buf pos).
Proof.
  intros Hlen Hroom. unfold writtenAfter. cbn.
  replace (size - pos)%nat with (S (size - S pos)) by lia. cbn.
  rewrite (take_S_r _ _ c) by (apply list_lookup_insert_eq; lia).
  rewrite take_insert_ge by lia.
  rewrite drop_insert_lt by lia.
  rewrite <- app_assoc. cbn.
  replace (pos + S (length (take (size - S pos) rest)))%nat
    with (S (pos + length (take (size - S pos) rest))) by lia.
  reflexivity.
Qed.

Lemma writtenAfter_length size bytes d :
  length (Debug.putcharBuffer d) = size →
  length (Debug.putcharBuffer (writtenAfter size bytes d)) = size.
Proof.
  intros Hlen. unfold writtenAfter. cbn.
  rewrite !length_app, length_drop, !length_take. lia.
Qed.

Lemma printstrLoop_writes size : ∀ str d,
  length (Debug.putcharBuffer d) = size →
  Debug.printstrLoop size str d = Done tt (writtenAfter size str d).
Proof.
  induction str as [|c rest IH]; intros d Hlen; cbn [Debug.printstrLoop].
  - rewrite writtenAfter_nil. reflexivity.
  - destruct (Nat.leb_spec size (Debug.putcharPosition d)) as [Hfull|Hroom].
    + rewrite writtenAfter_full by exact Hfull. reflexivity.
    + unfold bind, Debug.putchar.
      destruct (Nat.ltb_spec (Debug.putcharPosition d)
                  (length (Debug.putcharBuffer d))) as [_|]; [|lia].
      rewrite IH by (cbn; rewrite length_insert; exact Hlen).
      destruct d as [buf pos]. cbn in *.
      rewrite writtenAfter_step by assumption. reflexivity.
Qed.

Lemma printLoop_writes gcDebug size : ∀ ds pre post d,
  Forall decimalDigit ds →
  length (Debug.putcharBuffer d) = size →
  Debug.printLoop gcDebug size (length ds) (length pre) (pre ++ ds ++ post) d
  = Done tt (if gcDebug then writtenAfter size (map digitByte ds) d else d).
Proof.
  induction ds as [|x ds IH]; intros pre post d Hdig Hlen.
  - cbn. rewrite writtenAfter_nil. destruct gcDebug; reflexivity.
  - cbn [length Debug.printLoop].
    rewrite (list_lookup_middle pre (ds ++ post) x) by reflexivity.
    apply Forall_cons in Hdig as [Hx Hdig].
    destruct (digitByte_spec x Hx) as (Hstr & _).
    destruct (Z.ltb_spec x 0) as [Hneg|_]; [unfold decimalDigit in Hx; lia|].
    rewrite Hstr.
    replace (pre ++ (x :: ds) ++ post) with ((pre ++ [x]) ++ ds ++ post)
      by (rewrite <- app_assoc; reflexivity).
    replace (S (length pre)) with (length (pre ++ [x]))
      by (rewrite length_app; cbn; lia).
    unfold bind, Debug.printstr. destruct gcDebug; cbn [negb].
    + cbn [Debug.printstrLoop map].
      destruct (Nat.leb_spec size (Debug.putcharPosition d)) as [Hfull|Hroom].
      * rewrite IH by assumption.
        rewrite !writtenAfter_full by exact Hfull. reflexivity.
      * unfold bind, Debug.putchar.
        destruct (Nat.ltb_spec (Debug.putcharPosition d)
                    (length (Debug.putcharBuffer d))) as [_|]; [|lia].
        rewrite IH by (try assumption; cbn; rewrite length_insert; exact Hlen).
        destruct d as [buf pos]. cbn in *.
        rewrite writtenAfter_step by assumption. reflexivity.
    + unfold ret. apply IH; assumption.
Qed.

Lemma decimalValue_digits l :
  Forall decimalDigit l →
  Debug.decimalValue (map digitByte (rev l)) = valueLSD l.
Proof.
  unfold Debug.decimalValue. induction 1 as [|x l Hx Hl IH]; [reflexivity|].
  cbn [rev valueLSD foldr]. rewrite map_app, fold_left_app. cbn.
  destruct (digitByte_spec x Hx) as (_ & -> & _).
  unfold valueLSD in IH. rewrite IH. lia.
Qed.

(** What [printnum] does with a positive number, whatever [gcDebug] is. *)
Lemma printnum_positive gcDebug size fuel num d :
  0 < num < 2 ^ 31 →
  length (Debug.putcharBuffer d) = size → (10 ≤ fuel)%nat →
  ∃ lsd,
    Debug.printnum gcDebug size fuel num d
    = Done tt (if gcDebug
               then writtenAfter size (map digitByte (rev lsd)) d else d)
    ∧ valueLSD lsd = num
    ∧ Forall decimalDigit lsd
    ∧ (length lsd ≤ 10)%nat
    ∧ ∃ m, last lsd = Some m ∧ m ≠ 0.
Proof.
  intros Hnum Hlen Hfuel. unfold Debug.printnum.
  destruct (Z.eqb_spec num 0) as [|_]; [lia|].
  destruct (extractLoop_digits num 10 fuel num (replicate 16 0) 0 d)
    as (lsd & Hrun & Hval & Hdig & _ & Hlast).
  - lia.
  - simpl. lia.
  - change (10 ^ Z.of_nat 10) with 10000000000.
    change (2 ^ 31) with 2147483648 in Hnum. lia.
  - rewrite length_replicate. lia.
  - assert (10 ^ 10 ≤ 10 ^ Z.of_nat fuel)
      by (apply Z.pow_le_mono_r; lia).
    change (10 ^ 10) with 10000000000 in H.
    change (2 ^ 31) with 2147483648 in Hnum. lia.
  - destruct Hlast as (Hwidth & m & Hm & Hne); [lia|].
    rewrite take_0 in Hrun. cbn [app Nat.add] in Hrun.
    exists lsd. unfold bind at 1. rewrite Hrun. cbn beta iota.
    unfold bind.
    pose proof (reverseLoop_reverses (length lsd) lsd []
                  (drop (length lsd) (replicate 16 0)) d eq_refl) as Hrev.
    cbn [length app Nat.mul Nat.add] in Hrev. rewrite Hrev.
    pose proof (printLoop_writes gcDebug size (rev lsd) []
                  (drop (length lsd) (replicate 16 0)) d) as Hprint.
    rewrite length_rev in Hprint. cbn [length app] in Hprint.
    rewrite Hprint; [|apply Forall_rev; exact Hdig | exact Hlen].
    split; [reflexivity|]. split; [exact Hval|]. split; [exact Hdig|].
    split; [lia|]. exists m. auto.
Qed.

(** X14: [printnum] writes a positive number in decimal. With debugging on,
    for every [int] above zero, [printnum] returns and has written, from
    [putcharPosition] on and as far as the buffer has room, a sequence of at
    most ten decimal digits without a leading zero whose value is the
    number; the rest of the buffer is as it was. *)
Theorem printnum_writes_the_decimal_digits (size fuel : nat) (num : Z)
    (d : Debug.state) :
  0 < num < 2 ^ 31 →
  length (Debug.putcharBuffer d) = size → (10 ≤ fuel)%nat →
  ∃ digits,
    Debug.printnum true size fuel num d = Done tt (writtenAfter size digits d)
    ∧ Debug.decimalValue digits = num
    ∧ forallb Debug.isDigit digits = true
    ∧ head digits ≠ Some Byte.x30
    ∧ (0 < length digits ≤ 10)%nat.
Proof.
  intros Hnum Hlen Hfuel.
  destruct (printnum_positive true size fuel num d Hnum Hlen Hfuel)
    as (lsd & Hrun & Hval & Hdig & Hwidth & m & Hm & Hne).
  exists (map digitByte (rev lsd)). split; [exact Hrun|].
  split; [rewrite decimalValue_digits by exact Hdig; exact Hval|].
  apply last_Some in Hm as [l' ->].
  split; [|split].
  - apply forallb_forall. intros c Hc.
    apply in_map_iff in Hc as (x & <- & Hx).
    apply in_rev in Hx.
    rewrite Forall_forall in Hdig.
    apply (digitByte_spec x). apply Hdig. apply list_elem_of_In. exact Hx.
  - rewrite rev_unit. cbn. intros Heq. injection Heq as Heq.
    apply Forall_app in Hdig as [_ Hm]. apply Forall_cons in Hm as [Hm _].
    destruct (digitByte_spec m Hm) as (_ & _ & _ & Hnz).
    exact (Hnz Hne Heq).
  - rewrite length_map, length_rev. rewrite length_app in *. cbn in *. lia.
Qed.

Lemma printnum_writes_the_decimal_digits_witness :
  ∃ digits,
    Debug.printnum true 8 10 1024 (Debug.mkState (replicate 8 Byte.x00) 2)
    = Done tt (writtenAfter 8 digits
                 (Debug.mkState (replicate 8 Byte.x00) 2))
    ∧ Debug.decimalValue digits = 1024
    ∧ forallb Debug.isDigit digits = true
    ∧ head digits ≠ Some Byte.x30
    ∧ (0 < length digits ≤ 10)%nat.
Proof.
  apply (printnum_writes_the_decimal_digits 8 10 1024
           (Debug.mkState (replicate 8 Byte.x00) 2)).
  - lia.
  - reflexivity.
  - lia.
Defined.

Lemma writtenAfter_safe size bytes d :
  length (Debug.putcharBuffer d) = size →
  (Debug.putcharPosition d ≤ size)%nat →
  (Debug.putcharPosition d
   ≤ Debug.putcharPosition (writtenAfter size bytes d) ≤ size)%nat
  ∧ take (Debug.putcharPosition d)
      (Debug.putcharBuffer (writtenAfter size bytes d))
    = take (Debug.putcharPosition d) (Debug.putcharBuffer d).
Proof.
  intros Hlen Hpos. unfold writtenAfter. cbn.
  rewrite length_take. split; [lia|].
  rewrite take_app_le by (rewrite length_take; lia).
  rewrite take_take. f_equal. lia.
Qed.

(** X15: [printnum] is safe for every [int] and keeps inside the buffer. It
    returns; the buffer keeps its size and the bytes before
    [putcharPosition], and [putcharPosition] does not pass the end of the
    buffer. It writes ["0"] for zero, and nothing at all for a negative
    number (neither a sign nor digits), with debugging off, or when the
    buffer is full. *)
Theorem printnum_stays_inside_the_buffer (gcDebug : bool) (size fuel : nat)
    (num : Z) (d : Debug.state) :
  - 2 ^ 31 ≤ num < 2 ^ 31 →
  length (Debug.putcharBuffer d) = size →
  (Debug.putcharPosition d ≤ size)%nat → (10 ≤ fuel)%nat →
  ∃ d',
    Debug.printnum gcDebug size fuel num d = Done tt d'
    ∧ length (Debug.putcharBuffer d') = size
    ∧ (Debug.putcharPosition d ≤ Debug.putcharPosition d' ≤ size)%nat
    ∧ take (Debug.putcharPosition d) (Debug.putcharBuffer d')
      = take (Debug.putcharPosition d) (Debug.putcharBuffer d)
    ∧ (num = 0 → gcDebug = true → d' = writtenAfter size [Byte.x30] d)
    ∧ (num < 0 ∨ gcDebug = false ∨ Debug.putcharPosition d = size → d' = d).
Proof.
  intros Hnum Hlen Hpos Hfuel.
  assert (Hwritten : ∀ bytes,
            ∃ d', Done tt (if gcDebug then writtenAfter size bytes d else d)
                  = Done tt d'
                  ∧ length (Debug.putcharBuffer d') = size
                  ∧ (Debug.putcharPosition d ≤ Debug.putcharPosition d'
                     ≤ size)%nat
                  ∧ take (Debug.putcharPosition d) (Debug.putcharBuffer d')
                    = take (Debug.putcharPosition d) (Debug.putcharBuffer d)
                  ∧ (gcDebug = true → d' = writtenAfter size bytes d)
                  ∧ (gcDebug = false ∨ Debug.putcharPosition d = size →
                     d' = d)).
  { intros bytes. eexists. split; [reflexivity|].
    destruct gcDebug.
    - split; [apply writtenAfter_length; exact Hlen|].
      destruct (writtenAfter_safe size bytes d Hlen Hpos) as [Hp Ht].
      split; [exact Hp|]. split; [exact Ht|]. split; [reflexivity|].
      intros [Hoff|Hfull]; [discriminate|].
      apply writtenAfter_full. lia.
    - split; [exact Hlen|]. split; [lia|]. split; [reflexivity|].
      split; [discriminate | reflexivity]. }
  destruct (Z.lt_trichotomy num 0) as [Hneg|[->|Hposnum]].
  - exists d. split.
    + unfold Debug.printnum.
      destruct (Z.eqb_spec num 0) as [|_]; [lia|].
      destruct fuel as [|fuel]; [lia|]. unfold bind. cbn [Debug.extractLoop].
      destruct (Z.ltb_spec 0 num) as [|_]; [lia|]. reflexivity.
    + split; [exact Hlen|]. split; [lia|]. split; [reflexivity|].
      split; [lia | reflexivity].
  - destruct (Hwritten [Byte.x30]) as (d' & Hd' & H1 & H2 & H3 & H4 & H5).
    exists d'. split.
    + rewrite <- Hd'. unfold Debug.printnum, Debug.printstr. cbn [Z.eqb].
      destruct gcDebug; cbn [negb]; [|reflexivity].
      apply printstrLoop_writes. exact Hlen.
    + split; [exact H1|]. split; [exact H2|]. split; [exact H3|].
      split; [intros _; exact H4|].
      intros [Hneg|Hrest]; [lia | exact (H5 Hrest)].
  - destruct (printnum_positive gcDebug size fuel num d ltac:(lia) Hlen Hfuel)
      as (lsd & Hrun & _).
    destruct (Hwritten (map digitByte (rev lsd)))
      as (d' & Hd' & H1 & H2 & H3 & H4 & H5).
    exists d'. split; [rewrite Hrun; exact Hd'|].
    split; [exact H1|]. split; [exact H2|]. split; [exact H3|].
    split; [lia|].
    intros [Hneg|Hrest]; [lia | exact (H5 Hrest)].
Qed.

Lemma printnum_stays_inside_the_buffer_witness :
  ∃ d',
    Debug.printnum true 4 10 (-5) (Debug.mkState (replicate 4 Byte.x00) 1)
    = Done tt d'
    ∧ length (Debug.putcharBuffer d') = 4%nat
    ∧ (1 ≤ Debug.putcharPosition d' ≤ 4)%nat
    ∧ take 1 (Debug.putcharBuffer d') = take 1 (replicate 4 Byte.x00)
    ∧ (-5 = 0 → true = true
       → d' = writtenAfter 4 [Byte.x30]
                (Debug.mkState (replicate 4 Byte.x00) 1))
    ∧ (-5 < 0 ∨ true = false ∨ 1%nat = 4%nat
       → d' = Debug.mkState (replicate 4 Byte.x00) 1).
Proof.
  apply (printnum_stays_inside_the_buffer true 4 10 (-5)
           (Debug.mkState (replicate 4 Byte.x00) 1)).
  - lia.
  - reflexivity.
  - cbn. lia.
  - lia.
Defined.

(** * The registry of the custom variant (gc_custom_extalloc.go) *)

Module CustomGC.

Definition startAt (arr : list Custom.allocEntry) (i : nat) : Z :=
  match arr !! i with Some r => Custom.start r | None => 0 end.

(** [arr[i], arr[j] = arr[j], arr[i]] *)
Definition swap (arr : list Custom.allocEntry) (i j : nat)
    : list Custom.allocEntry :=
  match arr !! i, arr !! j with
  | Some a, Some b => <[j := a]> (<[i := b]> arr)
  | _, _ => arr
  end.

(** The selection that [heapify] makes before it tests [max != i]. *)
Definition heapifyMax (arr : list Custom.allocEntry) (n i : nat) : nat :=
  let max := i in
  let left := (2 * i + 1)%nat in
  let right := (2 * i + 2)%nat in
  let max := if (left <? n)%nat && (startAt arr max <? startAt arr left)
             then left else max in
  let max := if (right <? n)%nat && (startAt arr max <? startAt arr right)
             then right else max in
  max.

Lemma custom_heapifyMax_bounds arr n i :
  heapifyMax arr n i ≠ i → (i < heapifyMax arr n i < n)%nat.
Proof.
  unfold heapifyMax.
  destruct (2 * i + 1 <? n)%nat eqn:Hl, (2 * i + 2 <? n)%nat eqn:Hr; simpl;
    repeat match goal with
           | |- context [if ?b then _ else _] => destruct b
           end;
    rewrite ?Nat.ltb_lt in *; lia.
Qed.

(** [heapify], which calls itself on [max] after the exchange. *)
Equations? heapify (arr : list Custom.allocEntry) (n i : nat)
    : list Custom.allocEntry by wf (n - i)%nat lt :=
  heapify arr n i with Nat.eq_dec (heapifyMax arr n i) i := {
    | left _ := arr
    | right Hne :=
        heapify (swap arr i (heapifyMax arr n i)) n (heapifyMax arr n i) }.
Proof.
  apply custom_heapifyMax_bounds in Hne. lia.
Qed.

(** First loop of [sortAllocations]; [k] is [i + 1]. *)
Fixpoint buildHeap (arr : list Custom.allocEntry) (n k : nat)
    : list Custom.allocEntry :=
  match k with
  | O => arr
  | S i => buildHeap (heapify arr n i) n i
  end.

(** Second loop: [for end := len(allocations) - 1; end > 0; end--]. *)
Fixpoint sortDown (arr : list Custom.allocEntry) (e : nat)
    : list Custom.allocEntry :=
  match e with
  | O => arr
  | S e' => sortDown (heapify (swap arr 0 e) e 0) e'
  end.

Definition sortAllocations (arr : list Custom.allocEntry)
    : list Custom.allocEntry :=
  sortDown (buildHeap arr (length arr) (length arr / 2)) (length arr - 1).

(** The loop of [checkIfAllocationsSorted] over [allocations[1:]], at index
    [i] with [k] passes left: false when it calls
    [gcUnsortedAllocsPanic]. *)
Fixpoint checkLoop (arr : list Custom.allocEntry) (k i : nat) : bool :=
  match k with
  | O => true
  | S k' =>
      if startAt arr (i + 1) <? startAt arr i then false
      else checkLoop arr k' (S i)
  end.

(** [checkIfAllocationsSorted]; [gcUnsortedAllocsPanic] does not return. *)
Definition checkIfAllocationsSorted
    : Custom.state → result Custom.state unit := fun s =>
  let arr := Custom.allocations s in
  if (1 <? length arr)%nat then
    if checkLoop arr (length arr - 1) 0 then Done tt s else Panic Trap s
  else Done tt s.

(** [unmarkAllocations] *)
Definition unmarkAllocations (arr : list Custom.allocEntry)
    : list Custom.allocEntry :=
  map (λ r, Custom.mkEntry (Custom.start r) (Custom.end_ r) None) arr.

End CustomGC.

(** ** The sorted check of the custom variant never fires *)

(** A record of the custom variant, seen as one of the tracing variant. *)
Definition asRecord (e : Custom.allocEntry) : heapAllocation :=
  mkAlloc (Custom.start e) (Custom.end_ e) false None.

Lemma asRecord_startAt arr k :
  startAt (map asRecord arr) k = CustomGC.startAt arr k.
Proof.
  unfold startAt, CustomGC.startAt. rewrite list_lookup_fmap.
  destruct (arr !! k); reflexivity.
Qed.

Lemma asRecord_swap arr i j :
  map asRecord (CustomGC.swap arr i j) = swap (map asRecord arr) i j.
Proof.
  unfold swap, CustomGC.swap. rewrite !list_lookup_fmap.
  destruct (arr !! i), (arr !! j); cbn; try reflexivity.
  rewrite !list_fmap_insert. reflexivity.
Qed.

Lemma asRecord_heapifyMax arr n i :
  heapifyMax (map asRecord arr) n i = CustomGC.heapifyMax arr n i.
Proof.
  unfold heapifyMax, CustomGC.heapifyMax. rewrite !asRecord_startAt.
  reflexivity.
Qed.

Lemma asRecord_heapify arr n i :
  map asRecord (CustomGC.heapify arr n i) = heapify (map asRecord arr) n i.
Proof.
  apply (CustomGC.heapify_elim
           (λ arr n i res, map asRecord res = heapify (map asRecord arr) n i));
    clear; intros arr n i.
  - intros Heq _. rewrite heapify_loop_eq, asRecord_heapifyMax.
    destruct (Nat.eq_dec (CustomGC.heapifyMax arr n i) i); [reflexivity|].
    contradiction.
  - intros Hne IH _. rewrite IH.
    rewrite (heapify_loop_eq (map asRecord arr)), asRecord_heapifyMax.
    destruct (Nat.eq_dec (CustomGC.heapifyMax arr n i) i); [contradiction|].
    rewrite asRecord_swap. reflexivity.
Qed.

Lemma asRecord_buildHeap n k : ∀ arr,
  map asRecord (CustomGC.buildHeap arr n k)
  = buildHeap (map asRecord arr) n k.
Proof.
  induction k as [|k IH]; intros arr; cbn; [reflexivity|].
  rewrite IH, asRecord_heapify. reflexivity.
Qed.

Lemma asRecord_sortDown e : ∀ arr,
  map asRecord (CustomGC.sortDown arr e) = sortDown (map asRecord arr) e.
Proof.
  induction e as [|e IH]; intros arr; cbn; [reflexivity|].
  rewrite IH, asRecord_heapify, asRecord_swap. reflexivity.
Qed.

Lemma asRecord_sortAllocations arr :
  map asRecord (CustomGC.sortAllocations arr)
  = sortAllocations (map asRecord arr).
Proof.
  unfold CustomGC.sortAllocations, sortAllocations. cbn zeta.
  rewrite asRecord_sortDown, asRecord_buildHeap, length_map. reflexivity.
Qed.

Lemma custom_swap_Permutation arr i j : CustomGC.swap arr i j ≡ₚ arr.
Proof.
  unfold CustomGC.swap. destruct (arr !! i) eqn:Hi, (arr !! j) eqn:Hj; auto.
  apply Permutation_insert_swap; assumption.
Qed.

Lemma custom_heapify_Permutation arr n i : CustomGC.heapify arr n i ≡ₚ arr.
Proof.
  apply (CustomGC.heapify_elim (λ arr n i res, res ≡ₚ arr)); clear;
    intros arr n i.
  - reflexivity.
  - intros Hne IH _. rewrite IH. apply custom_swap_Permutation.
Qed.

Lemma custom_buildHeap_Permutation n k : ∀ arr,
  CustomGC.buildHeap arr n k ≡ₚ arr.
Proof.
  induction k as [|k IH]; intros arr; cbn; [reflexivity|].
  rewrite IH. apply custom_heapify_Permutation.
Qed.

Lemma custom_sortDown_Permutation e : ∀ arr, CustomGC.sortDown arr e ≡ₚ arr.
Proof.
  induction e as [|e IH]; intros arr; cbn; [reflexivity|].
  rewrite IH, custom_heapify_Permutation. apply custom_swap_Permutation.
Qed.

Lemma custom_startAt_lookup arr i r :
  arr !! i = Some r → CustomGC.startAt arr i = Custom.start r.
Proof. intros H. unfold CustomGC.startAt. rewrite H. reflexivity. Qed.

(** The loop of the check passes exactly when no start descends from a
    slot to the next, from [i] on. *)
Lemma checkLoop_spec arr : ∀ k i,
  CustomGC.checkLoop arr k i = true
  ↔ ∀ j, (i ≤ j < i + k)%nat →
         CustomGC.startAt arr j ≤ CustomGC.startAt arr (j + 1).
Proof.
  induction k as [|k IH]; intros i; cbn [CustomGC.checkLoop].
  - split; [intros _ j Hj; lia | reflexivity].
  - destruct (Z.ltb_spec (CustomGC.startAt arr (i + 1))
                (CustomGC.startAt arr i)) as [Hdesc|Hasc].
    + split; [discriminate|]. intros H. specialize (H i ltac:(lia)). lia.
    + rewrite IH. split; intros H j Hj.
      * destruct (decide (j = i)) as [->|Hne]; [exact Hasc|].
        apply H. lia.
      * apply H. lia.
Qed.

Lemma checkLoop_descent arr : ∀ k i,
  CustomGC.checkLoop arr k i = false →
  ∃ j, (i ≤ j < i + k)%nat
       ∧ CustomGC.startAt arr (j + 1) < CustomGC.startAt arr j.
Proof.
  induction k as [|k IH]; intros i; cbn [CustomGC.checkLoop]; [discriminate|].
  destruct (Z.ltb_spec (CustomGC.startAt arr (i + 1))
              (CustomGC.startAt arr i)) as [Hdesc|Hasc].
  - intros _. exists i. split; [lia | exact Hdesc].
  - intros Hrest. apply IH in Hrest as (j & Hj & Hdesc).
    exists j. split; [lia | exact Hdesc].
Qed.

(** X16: in the custom variant the check after the sort never fires. For
    every registry, [sortAllocations] leaves a permutation of the records
    whose starts ascend from each slot to the next, and
    [checkIfAllocationsSorted] then returns without a change; on any
    registry, it calls [gcUnsortedAllocsPanic] exactly when some record
    starts below the record in the slot before it. *)
Theorem custom_sorted_check_never_fires (s : Custom.state) :
  let sorted := CustomGC.sortAllocations (Custom.allocations s) in
  sorted ≡ₚ Custom.allocations s
  ∧ (∀ i a b, sorted !! i = Some a → sorted !! S i = Some b →
       Custom.start a ≤ Custom.start b)
  ∧ CustomGC.checkIfAllocationsSorted
      (Custom.setSlice sorted (Custom.allocSpare s) (Custom.allocCap s)
         (Custom.allocPtr s) s)
    = Done tt (Custom.setSlice sorted (Custom.allocSpare s) (Custom.allocCap s)
                 (Custom.allocPtr s) s)
  ∧ (CustomGC.checkIfAllocationsSorted s = Panic Trap s
     ↔ ∃ i a b, Custom.allocations s !! i = Some a
                ∧ Custom.allocations s !! S i = Some b
                ∧ Custom.start b < Custom.start a).
Proof.
  cbn zeta.
  assert (Hsorted : ∀ i a b,
            CustomGC.sortAllocations (Custom.allocations s) !! i = Some a →
            CustomGC.sortAllocations (Custom.allocations s) !! S i = Some b →
            Custom.start a ≤ Custom.start b).
  { intros i a b Ha Hb.
    pose proof (sortAllocations_sorted (map asRecord (Custom.allocations s)) i
                  (asRecord a) (asRecord b)) as H.
    rewrite <- asRecord_sortAllocations, !list_lookup_fmap, Ha, Hb in H.
    apply H; reflexivity. }
  split; [|split; [exact Hsorted|split]].
  - unfold CustomGC.sortAllocations. rewrite custom_sortDown_Permutation.
    apply custom_buildHeap_Permutation.
  - unfold CustomGC.checkIfAllocationsSorted. cbn zeta.
    change (Custom.allocations (Custom.setSlice ?l _ _ _ _)) with l.
    set (sorted := CustomGC.sortAllocations (Custom.allocations s)) in *.
    destruct (1 <? length sorted)%nat eqn:Hlen; [|reflexivity].
    apply Nat.ltb_lt in Hlen.
    assert (Hcheck : CustomGC.checkLoop sorted (length sorted - 1) 0 = true).
    { apply checkLoop_spec. intros j Hj.
      destruct (lookup_lt_is_Some_2 sorted j) as [a Ha]; [lia|].
      destruct (lookup_lt_is_Some_2 sorted (S j)) as [b Hb]; [lia|].
      replace (j + 1)%nat with (S j) by lia.
      rewrite (custom_startAt_lookup _ _ _ Ha), (custom_startAt_lookup _ _ _ Hb).
      eapply Hsorted; eassumption. }
    rewrite Hcheck. reflexivity.
  - unfold CustomGC.checkIfAllocationsSorted. cbn zeta.
    set (arr := Custom.allocations s).
    destruct (Nat.ltb_spec 1 (length arr)) as [Hlen|Hlen].
    + destruct (CustomGC.checkLoop arr (length arr - 1) 0) eqn:Hcheck.
      * split; [discriminate|]. intros (i & a & b & Ha & Hb & Hlt).
        exfalso. rewrite checkLoop_spec in Hcheck.
        pose proof (lookup_lt_Some _ _ _ Hb) as Hi.
        specialize (Hcheck i ltac:(lia)).
        replace (i + 1)%nat with (S i) in Hcheck by lia.
        rewrite (custom_startAt_lookup _ _ _ Ha),
          (custom_startAt_lookup _ _ _ Hb) in Hcheck. lia.
      * split; [|reflexivity]. intros _.
        apply checkLoop_descent in Hcheck as (j & Hj & Hdesc).
        destruct (lookup_lt_is_Some_2 arr j) as [a Ha]; [lia|].
        destruct (lookup_lt_is_Some_2 arr (S j)) as [b Hb]; [lia|].
        replace (j + 1)%nat with (S j) in Hdesc by lia.
        rewrite (custom_startAt_lookup _ _ _ Ha),
          (custom_startAt_lookup _ _ _ Hb) in Hdesc.
        exists j, a, b. auto.
    + split; [discriminate|]. intros (i & a & b & Ha & Hb & _).
      apply lookup_lt_Some in Hb. lia.
Qed.

(** * The collector of the custom variant (gc_custom_extalloc.go)

    A record is marked when its [next] link is not nil; the last record of
    the scan queue links to itself. *)

Module CustomCollector.

(** The globals of [Custom.state], the scan queue (the index of the slot
    that [scanQueue] points to) and the number of collections started. *)
Record state := mkState {
  base : Custom.state;
  scanQueue : option nat;
  cycles : nat
}.

Definition allocations (s : state) : list Custom.allocEntry :=
  Custom.allocations (base s).

Definition setBase (f : Custom.state → Custom.state) (s : state) : state :=
  mkState (f (base s)) (scanQueue s) (cycles s).

Definition setAllocations (l : list Custom.allocEntry) : state → state :=
  setBase (λ b, Custom.setSlice l (Custom.allocSpare b) (Custom.allocCap b)
                  (Custom.allocPtr b) b).

Definition setQueue (q : option nat) (s : state) : state :=
  mkState (base s) q (cycles s).

Definition setRunning (r : bool) (b : Custom.state) : Custom.state :=
  Custom.mkState r (Custom.gcMallocs b) (Custom.gcFrees b)
    (Custom.gcTotalAlloc b) (Custom.heapBound b) (Custom.allocations b)
    (Custom.allocSpare b) (Custom.allocCap b) (Custom.allocPtr b)
    (Custom.askedRecords b) (Custom.askedData b) (Custom.trace b).

Definition endAt (arr : list Custom.allocEntry) (i : nat) : Z :=
  match arr !! i with Some r => Custom.end_ r | None => 0 end.

(** The loop of [searchAllocations]. *)
Equations? searchLoop (arr : list Custom.allocEntry) (addr : Z)
    (low high : nat) : option nat by wf (high - low)%nat lt :=
  searchLoop arr addr low high with lt_dec low high := {
    | right _ := None
    | left Hlt with Z_lt_dec addr (CustomGC.startAt arr (midpoint low high)) := {
        | left _ := searchLoop arr addr low (midpoint low high)
        | right _ with Z_lt_dec (endAt arr (midpoint low high)) addr := {
            | left _ := searchLoop arr addr (midpoint low high + 1) high
            | right _ := Some (midpoint low high) } } }.
Proof.
  all: pose proof (midpoint_bounds low high Hlt); lia.
Qed.

(** [searchAllocations]: the index of the slot whose address is returned. *)
Definition searchAllocations (arr : list Custom.allocEntry) (addr : Z)
    : option nat :=
  searchLoop arr addr 0 (length arr).

(** [mark]: a record whose [next] is nil is linked in front of the queue, or
    to itself when the queue is empty. *)
Definition mark (addr : Z) (s : state) : bool * state :=
  let arr := allocations s in
  if Nat.eqb (length arr) 0 then (false, s)
  else if (addr <? CustomGC.startAt arr 0)
          || (endAt arr (length arr - 1) <? addr)
  then (false, s)
  else match searchAllocations arr addr with
       | Some i =>
           match arr !! i with
           | Some cur =>
               match Custom.next cur with
               | None =>
                   let nextAlloc :=
                     match scanQueue s with
                     | None => Some i
                     | Some q => Some q
                     end in
                   (true,
                    setQueue (Some i)
                      (setAllocations
                         (<[i := Custom.mkEntry (Custom.start cur)
                                   (Custom.end_ cur) nextAlloc]> arr) s))
               | Some _ => (false, s)
               end
           | None => (false, s)
           end
       | None => (false, s)
       end.

(** The loop of [sweep] at index [i], with [k] passes left; [j] is the next
    slot to fill. *)
Fixpoint sweepLoop (k i j : nat) (s : state) : nat * state :=
  match k with
  | O => (j, s)
  | S k' =>
      match allocations s !! i with
      | None => (j, s)
      | Some curAlloc =>
          match Custom.next curAlloc with
          | None =>
              sweepLoop k' (S i) j
                (setBase (Custom.free (Custom.start curAlloc)) s)
          | Some _ =>
              let s1 := setAllocations (<[j := curAlloc]> (allocations s)) s in
              let s2 :=
                setBase
                  (λ b, Custom.setTotalAlloc
                          (wrap64 (Custom.gcTotalAlloc b
                                   + wrapPtr (Custom.end_ curAlloc
                                              - Custom.start curAlloc))) b)
                  s1 in
              sweepLoop k' (S i) (S j) s2
          end
      end
  end.

(** [sweep] *)
Definition sweep (s : state) : state :=
  let s0 := setBase (Custom.setTotalAlloc 0) s in
  let '(j, s1) := sweepLoop (length (allocations s0)) 0 0 s0 in
  setBase
    (λ b, Custom.setSlice (take j (Custom.allocations b))
            (drop j (Custom.allocations b) ++ Custom.allocSpare b)
            (Custom.allocCap b) (Custom.allocPtr b) b)
    s1.

Section Collector.
Context (w : world).

Definition loadWord (addr : Z) (s : state) : Z :=
  wrapPtr (load w (cycles s) addr).

(** The [for] loop of [scan]; [fuel] bounds the number of iterations. *)
Fixpoint scanLoop (fuel : nat) (addr e : Z) (s : state)
    : result state unit :=
  if wrapPtr (addr + ptrSize) <=? e then
    match fuel with
    | O => OutOfFuel s
    | S f =>
        scanLoop f (wrapPtr (addr + ptrAlign)) e
          (snd (mark (loadWord addr s) s))
    end
  else Done tt s.

(** [scan]: in this variant the loop is all of it. *)
Definition scan (fuel : nat) (start e : Z) : state → result state unit :=
  scanLoop fuel (clearLow (wrapPtr (start + ptrAlign - 1))) e.

(** [markRoots] *)
Definition markRoots (fuel : nat) (start e : Z)
    : state → result state unit :=
  scan fuel start e.

(** [markStack()] and [findGlobals(markRoots)] *)
Fixpoint markRanges (fuel : nat) (ranges : list (Z * Z))
    : state → result state unit :=
  match ranges with
  | [] => ret tt
  | (lo, hi) :: rest => markRoots fuel lo hi ;; markRanges fuel rest
  end.

(** [finishMarking]: the record popped is the last of the queue when it
    links to itself. *)
Fixpoint finishMarking (sfuel fuel : nat) (s : state) : result state unit :=
  match scanQueue s with
  | None => Done tt s
  | Some i =>
      match fuel with
      | O => OutOfFuel s
      | S f =>
          match allocations s !! i with
          | None => Panic Trap s
          | Some curAlloc =>
              let nextAlloc :=
                match Custom.next curAlloc with
                | Some n => if Nat.eqb n i then None else Some n
                | None => None
                end in
              match scan sfuel (Custom.start curAlloc) (Custom.end_ curAlloc)
                      (setQueue nextAlloc s) with
              | Done _ s' => finishMarking sfuel f s'
              | Panic p s' => Panic p s'
              | OutOfFuel s' => OutOfFuel s'
              end
          end
      end
  end.

(** [checkIfAllocationsSorted] on the globals. *)
Definition checkSorted : state → result state unit := fun s =>
  match CustomGC.checkIfAllocationsSorted (base s) with
  | Done _ _ => Done tt s
  | Panic p _ => Panic p s
  | OutOfFuel _ => OutOfFuel s
  end.

(** [GC] *)
Definition GC (sfuel fuel : nat) : state → result state unit := fun s =>
  if Custom.gcCollectorRunning (base s) then Panic ReentrantCollection s
  else
    let s := mkState (setRunning true (base s)) (scanQueue s) (S (cycles s)) in
    if Nat.eqb (length (allocations s)) 0
    then Done tt (setBase (setRunning false) s)
    else
      (modify (λ s, setAllocations
                      (CustomGC.sortAllocations (allocations s)) s) ;;
       checkSorted ;;
       modify (λ s, setAllocations
                      (CustomGC.unmarkAllocations (allocations s)) s) ;;
       modify (setQueue None) ;;
       markRanges sfuel (rootRanges w (cycles s)) ;;
       finishMarking sfuel fuel ;;
       modify sweep ;;
       modify (setBase (setRunning false))) s.
End Collector.

End CustomCollector.

(** ** The custom collector marks as the tracing collector does *)

(** The record in slot [i] as the tracing collector would hold it: marked
    when [next] is not nil, and last of the queue when it links to itself. *)
Definition absRecord (i : nat) (e : Custom.allocEntry) : heapAllocation :=
  mkAlloc (Custom.start e) (Custom.end_ e)
    (match Custom.next e with Some _ => true | None => false end)
    (match Custom.next e with
     | Some n => if Nat.eqb n i then None else Some n
     | None => None
     end).

(** The state of the custom collector as a state of the tracing one. *)
Definition abs (s : CustomCollector.state) : state :=
  let b := CustomCollector.base s in
  mkState (Custom.gcCollectorRunning b) (Custom.gcMallocs b) (Custom.gcFrees b)
    (Custom.gcTotalAlloc b) (Custom.heapBound b)
    (imap absRecord (Custom.allocations b))
    (map asRecord (Custom.allocSpare b)) (Custom.allocCap b)
    (Custom.allocPtr b) (CustomCollector.scanQueue s)
    (Custom.askedRecords b) (Custom.askedData b) (CustomCollector.cycles s)
    (Custom.trace b).

Lemma custom_searchLoop_eq arr addr low high :
  CustomCollector.searchLoop arr addr low high =
  if lt_dec low high then
    if Z_lt_dec addr (CustomGC.startAt arr (midpoint low high))
    then CustomCollector.searchLoop arr addr low (midpoint low high)
    else if Z_lt_dec (CustomCollector.endAt arr (midpoint low high)) addr
         then CustomCollector.searchLoop arr addr (midpoint low high + 1) high
         else Some (midpoint low high)
  else None.
Proof.
  rewrite CustomCollector.searchLoop_equation_1.
  destruct (lt_dec low high); simpl; [|reflexivity].
  destruct (Z_lt_dec addr (CustomGC.startAt arr (midpoint low high))); simpl;
    [reflexivity|].
  destruct (Z_lt_dec (CustomCollector.endAt arr (midpoint low high)) addr);
    reflexivity.
Qed.

Lemma abs_searchLoop arr arr' addr :
  (∀ k, startAt arr' k = CustomGC.startAt arr k
        ∧ endAt arr' k = CustomCollector.endAt arr k) →
  ∀ d low high, (high - low = d)%nat →
    CustomCollector.searchLoop arr addr low high
    = searchLoop arr' addr low high.
Proof.
  intros Hsame. induction d as [d IH] using lt_wf_ind. intros low high Hd.
  rewrite custom_searchLoop_eq, (searchLoop_eq arr').
  destruct (lt_dec low high) as [Hlt|]; [|reflexivity].
  pose proof (midpoint_bounds low high Hlt) as Hmid.
  destruct (Hsame (midpoint low high)) as [-> ->].
  destruct (Z_lt_dec addr (CustomGC.startAt arr (midpoint low high))).
  - eapply IH; [|reflexivity]. lia.
  - destruct (Z_lt_dec (CustomCollector.endAt arr (midpoint low high)) addr);
      [|reflexivity].
    eapply IH; [|reflexivity]. lia.
Qed.

Lemma absRecord_at arr k :
  startAt (imap absRecord arr) k = CustomGC.startAt arr k
  ∧ endAt (imap absRecord arr) k = CustomCollector.endAt arr k.
Proof.
  unfold startAt, endAt, CustomGC.startAt, CustomCollector.endAt.
  rewrite list_lookup_imap. destruct (arr !! k); split; reflexivity.
Qed.

Lemma imap_insert {A B} (f : nat → A → B) (l : list A) i x :
  imap f (<[i := x]> l) = <[i := f i x]> (imap f l).
Proof.
  apply list_eq. intros k. rewrite list_lookup_imap.
  destruct (decide (k = i)) as [->|Hne].
  - destruct (decide (i < length l)%nat) as [Hlt|Hge].
    + rewrite !list_lookup_insert_eq by (rewrite ?length_imap; lia).
      reflexivity.
    + rewrite !list_insert_ge by (rewrite ?length_imap; lia).
      rewrite list_lookup_imap. reflexivity.
  - rewrite !list_lookup_insert_ne by auto.
    rewrite list_lookup_imap. reflexivity.
Qed.

(** The head of the scan queue is a marked record. *)
Definition headMarked (t : state) : Prop :=
  ∀ q, referenceScanQueue t = Some q →
       ∃ r, allocations t !! q = Some r ∧ marked r = true.

(** [mark] of the custom variant is [mark] of the tracing variant on the
    state seen through [abs]. *)
Lemma abs_mark addr s :
  headMarked (abs s) →
  abs (snd (CustomCollector.mark addr s)) = snd (mark addr (abs s))
  ∧ fst (CustomCollector.mark addr s) = fst (mark addr (abs s)).
Proof.
  intros Hhead. unfold CustomCollector.mark, mark. cbn zeta.
  change (allocations (abs s))
    with (imap absRecord (CustomCollector.allocations s)).
  set (arr := CustomCollector.allocations s) in *.
  rewrite length_imap.
  destruct (Nat.eqb (length arr) 0); [split; reflexivity|].
  destruct (absRecord_at arr 0) as [-> _].
  destruct (absRecord_at arr (length arr - 1)) as [_ ->].
  destruct ((addr <? CustomGC.startAt arr 0)
            || (CustomCollector.endAt arr (length arr - 1) <? addr));
    [split; reflexivity|].
  unfold CustomCollector.searchAllocations, searchAllocations.
  rewrite length_imap.
  rewrite (abs_searchLoop arr (imap absRecord arr) addr (absRecord_at arr)
             (length arr - 0) 0 (length arr) eq_refl).
  destruct (searchLoop (imap absRecord arr) addr 0 (length arr)) as [i|];
    [|split; reflexivity].
  rewrite list_lookup_imap.
  destruct (arr !! i) as [cur|] eqn:Hcur; cbn [fmap option_fmap option_map];
    [|split; reflexivity].
  assert (Hmk : marked (absRecord i cur)
                = match Custom.next cur with Some _ => true | None => false end)
    by reflexivity.
  rewrite Hmk.
  destruct (Custom.next cur) as [n|] eqn:Hnext; [split; reflexivity|].
  cbn [fst snd]. split; [|reflexivity].
  unfold abs, CustomCollector.setQueue, CustomCollector.setAllocations,
    CustomCollector.setBase, setQueue, setAllocations. cbn.
  fold arr. f_equal. rewrite imap_insert. f_equal.
  unfold absRecord, markSlot. cbn.
  destruct (CustomCollector.scanQueue s) as [q|] eqn:Hq.
  - destruct (Nat.eqb_spec q i) as [->|_]; [|reflexivity].
    exfalso. destruct (Hhead i Hq) as (r & Hr & Hm).
    change (allocations (abs s)) with (imap absRecord arr) in Hr.
    rewrite list_lookup_imap, Hcur in Hr. injection Hr as <-.
    unfold absRecord in Hm. cbn in Hm. rewrite Hnext in Hm. discriminate.
  - rewrite Nat.eqb_refl. reflexivity.
Qed.

(** The addresses whose word the [scan] of the custom variant reads: those
    of its loop. *)
Definition customReads (lo hi a : Z) : Prop :=
  loopReads hi (clearLow (wrapPtr (lo + ptrAlign - 1))) a.

Section CustomScan.
Context (w : world) (Inv : state → Prop) (Hit : Z → state → Prop)
  (ok : Z → Prop).
Hypothesis head : ∀ t, Inv t → headMarked t.
Hypothesis step : ∀ a t, Inv t → ok a →
  Inv (snd (mark (loadWord w a t) t)) ∧ Hit a (snd (mark (loadWord w a t) t)).
Hypothesis stable : ∀ a v t, Hit a t → Hit a (snd (mark v t)).

(** The loop of the custom [scan] ends where the loop of the tracing [scan]
    ends, in the same state seen through [abs]. *)
Lemma custom_scanLoop_sim : ∀ fuel addr e s t',
  Inv (abs s) → (∀ a, loopReads e addr a → ok a) →
  scanLoop w fuel addr e (abs s) = Done tt t' →
  ∃ s', CustomCollector.scanLoop w fuel addr e s = Done tt s' ∧ abs s' = t'.
Proof.
  induction fuel as [|fuel IH]; intros addr e s t' Hinv Hok Hrun;
    cbn [scanLoop CustomCollector.scanLoop] in *;
    destruct (Z.leb_spec (wrapPtr (addr + ptrSize)) e) as [Hle|Hgt];
    try discriminate;
    try (injection Hrun as <-; exists s; split; reflexivity).
  assert (Hhere : loopReads e addr addr) by (constructor; exact Hle).
  destruct (abs_mark (CustomCollector.loadWord w addr s) s (head _ Hinv))
    as [Habs _].
  change (CustomCollector.loadWord w addr s) with (loadWord w addr (abs s))
    in *.
  apply IH; [| |rewrite Habs; exact Hrun].
  - rewrite Habs. apply step; [exact Hinv | apply Hok; exact Hhere].
  - intros a Ha. apply Hok. apply loopReads_later; assumption.
Qed.

Lemma custom_scan_reads fuel lo hi s :
  hi + ptrSize < 2 ^ 32 → (Z.to_nat hi < fuel)%nat →
  Inv (abs s) → (∀ a, customReads lo hi a → ok a) →
  ∃ s', CustomCollector.scan w fuel lo hi s = Done tt s' ∧ Inv (abs s')
        ∧ (∀ a, customReads lo hi a → Hit a (abs s'))
        ∧ (∀ a, Hit a (abs s) → Hit a (abs s')).
Proof.
  intros Hhi Hfuel Hinv Hok. unfold CustomCollector.scan.
  destruct (scanLoop_reads_from_anywhere w Inv Hit ok step stable hi fuel
              (clearLow (wrapPtr (lo + ptrAlign - 1))) (abs s) Hhi)
    as (t' & Ht' & Hinv' & Hreads & Hstable); auto.
  { apply clearLow_range. apply Z.mod_pos_bound. lia. }
  destruct (custom_scanLoop_sim fuel _ hi s t' Hinv Hok Ht')
    as (s' & Hs' & <-).
  exists s'. auto.
Qed.

Lemma custom_markRanges_reads fuel : ∀ ranges s,
  (∀ lo hi, (lo, hi) ∈ ranges → hi + ptrSize < 2 ^ 32) →
  (Z.to_nat (2 ^ 32) ≤ fuel)%nat →
  Inv (abs s) →
  (∀ lo hi a, (lo, hi) ∈ ranges → customReads lo hi a → ok a) →
  ∃ s', CustomCollector.markRanges w fuel ranges s = Done tt s'
        ∧ Inv (abs s')
        ∧ (∀ lo hi a, (lo, hi) ∈ ranges → customReads lo hi a →
             Hit a (abs s'))
        ∧ (∀ a, Hit a (abs s) → Hit a (abs s')).
Proof.
  induction ranges as [|[lo hi] rest IH]; intros s Hlow Hfuel Hinv Hok.
  - exists s. split; [reflexivity|]. split; [exact Hinv|]. split; [|auto].
    intros lo hi a Hin. apply elem_of_nil in Hin. contradiction.
  - cbn [CustomCollector.markRanges].
    unfold CustomCollector.markRoots, bind.
    assert (Hhi : hi + ptrSize < 2 ^ 32) by (apply (Hlow lo); left).
    destruct (custom_scan_reads fuel lo hi s Hhi)
      as (s1 & Hs1 & Hinv1 & Hreads1 & Hstable1).
    { unfold ptrSize in Hhi. change (2 ^ 32) with 4294967296 in *. lia. }
    { exact Hinv. }
    { intros a Hr. apply (Hok lo hi); [left | exact Hr]. }
    rewrite Hs1.
    destruct (IH s1) as (s' & Hs' & Hinv' & Hreads & Hstable);
      [|exact Hfuel | exact Hinv1 | |].
    { intros lo' hi' Hin. apply (Hlow lo'). right. exact Hin. }
    { intros lo' hi' a Hin. apply Hok. right. exact Hin. }
    exists s'. split; [exact Hs'|]. split; [exact Hinv'|]. split.
    + intros lo' hi' a Hin Hr. apply elem_of_cons in Hin as [Heq|Hin].
      * injection Heq as -> ->. apply Hstable, Hreads1. exact Hr.
      * apply (Hreads lo' hi'); assumption.
    + intros a Hhit. apply Hstable, Hstable1. exact Hhit.
Qed.
End CustomScan.

Lemma tracing_headMarked reads w c blocks ex m t :
  tracing reads w c blocks ex m t → headMarked t.
Proof.
  intros (_ & _ & _ & _ & _ & l & Hchain & _) q Hq.
  rewrite Hq in Hchain. inversion Hchain as [|i r l' Hi Hm]; subst.
  exists r. auto.
Qed.

(** The drain loop of the custom variant, with what it keeps true. *)
Lemma custom_finishMarking_tracing w c blocks sfuel : ∀ fuel m s,
  (Z.to_nat (2 ^ 32) ≤ sfuel)%nat → (m ≤ fuel)%nat →
  tracing customReads w c blocks None m (abs s) →
  ∃ s' m', CustomCollector.finishMarking w sfuel fuel s = Done tt s'
           ∧ tracing customReads w c blocks None m' (abs s')
           ∧ CustomCollector.scanQueue s' = None
           ∧ (∀ a, hit (wordAt w c a) (abs s) → hit (wordAt w c a) (abs s')).
Proof.
  induction fuel as [|fuel IH]; intros m s Hsf Hfuel Htr;
    pose proof Htr as
      (Hc & Hb & Hsep & Hwf & Hexact & l & Hchain & Hnd & Hm & Hends & Htri);
    cbn [CustomCollector.finishMarking];
    change (referenceScanQueue (abs s)) with (CustomCollector.scanQueue s)
      in Hchain.
  - assert (l = []) as -> by (destruct l; simpl in *; [reflexivity | lia]).
    inversion Hchain as [Hq|]. exists s, m. auto.
  - inversion Hchain as [Hq|i r l' Hi Hmr Hc' Hq Hl].
    + exists s, m. auto.
    + subst l.
      change (allocations (abs s))
        with (imap absRecord (CustomCollector.allocations s)) in Hi.
      rewrite list_lookup_imap in Hi.
      destruct (CustomCollector.allocations s !! i) as [cur|] eqn:Hcur;
        [|discriminate].
      injection Hi as Hr.
      assert (Hi : allocations (abs s) !! i = Some r).
      { change (allocations (abs s))
          with (imap absRecord (CustomCollector.allocations s)).
        rewrite list_lookup_imap, Hcur, <- Hr. reflexivity. }
      set (nextAlloc := match Custom.next cur with
                        | Some n => if Nat.eqb n i then None else Some n
                        | None => None
                        end).
      assert (Hnext : next r = nextAlloc) by (rewrite <- Hr; reflexivity).
      assert (Hstart : Custom.start cur = start r)
        by (rewrite <- Hr; reflexivity).
      assert (Hend' : Custom.end_ cur = end_ r) by (rewrite <- Hr; reflexivity).
      rewrite Hstart, Hend'.
      set (m0 := (length l'
                  + length (List.filter unmarked (allocations (abs s))))%nat).
      assert (Htr0 : tracing customReads w c blocks (Some i) m0
                       (abs (CustomCollector.setQueue nextAlloc s))).
      { change (abs (CustomCollector.setQueue nextAlloc s))
          with (setQueue nextAlloc (abs s)).
        rewrite <- Hnext.
        split; [exact Hc|]. split; [exact Hb|]. split; [exact Hsep|].
        split; [exact Hwf|]. split; [exact Hexact|].
        exists l'. split; [exact Hc'|].
        split; [apply NoDup_cons in Hnd as [_ ?]; assumption|].
        split; [reflexivity|]. split; [exact Hends|].
        intros j r' Hj Hm'.
        destruct (Htri j r' Hj Hm') as [Hin|[Hex|Hseen]].
        - apply elem_of_cons in Hin as [->|Hin]; [right; left; reflexivity|].
          left. exact Hin.
        - discriminate Hex.
        - right. right. exact Hseen. }
      assert (Hend : end_ r + ptrSize < 2 ^ 32)
        by (apply Hends; eapply list_elem_of_lookup_2; exact Hi).
      assert (Hreach : reachable customReads w c blocks (bounds r))
        by (apply Hexact; [eapply list_elem_of_lookup_2; exact Hi | exact Hmr]).
      destruct (custom_scan_reads w
                  (tracing customReads w c blocks (Some i) m0)
                  (λ a s, hit (wordAt w c a) s) (legit customReads w c blocks)
                  (tracing_headMarked customReads w c blocks (Some i) m0)
                  (mark_tracing customReads w c blocks (Some i) m0)
                  (λ a v s, mark_hit_stable (wordAt w c a) v s)
                  sfuel (start r) (end_ r)
                  (CustomCollector.setQueue nextAlloc s) Hend)
        as (s1 & Hs1 & Htr1 & Hseen1 & Hstable1).
      { unfold ptrSize in Hend. change (2 ^ 32) with 4294967296 in *. lia. }
      { exact Htr0. }
      { intros a Ha b Hbin Hh.
        apply (reachable_step customReads w c blocks (bounds r) a b);
          [exact Hreach | exact Ha | exact Hbin | exact Hh]. }
      rewrite Hs1.
      assert (Htr1' : tracing customReads w c blocks None m0 (abs s1)).
      { destruct Htr1 as (Hc1 & Hb1 & Hsep1 & Hwf1 & Hexact1 & l1 & Hchain1
                          & Hnd1 & Hm1 & Hends1 & Htri1).
        split; [exact Hc1|]. split; [exact Hb1|]. split; [exact Hsep1|].
        split; [exact Hwf1|]. split; [exact Hexact1|].
        exists l1. split; [exact Hchain1|]. split; [exact Hnd1|].
        split; [exact Hm1|]. split; [exact Hends1|].
        intros j r1 Hj Hm1'.
        destruct (Htri1 j r1 Hj Hm1') as [Hin|[Hex|Hseen]]; [auto | | auto].
        injection Hex as <-. right. right.
        destruct (same_bounds_lookup (allocations (abs s1))
                    (allocations (abs s)) i r1)
          as (r0 & Hr0 & Hs0 & He0); [congruence | exact Hj |].
        assert (r0 = r) as -> by congruence.
        rewrite <- Hs0, <- He0. exact Hseen1. }
      destruct (IH m0 s1 Hsf) as (s' & m' & Hs' & Htr' & Hq' & Hstable');
        [subst m0; cbn [length] in Hm; lia | exact Htr1' |].
      exists s', m'. split; [exact Hs'|]. split; [exact Htr'|].
      split; [exact Hq'|].
      intros a Hhit. apply Hstable'. apply (Hstable1 a). exact Hhit.
Qed.

(** ** What a collection of the custom variant keeps *)

Definition customBounds (e : Custom.allocEntry) : Z * Z :=
  (Custom.start e, Custom.end_ e).

Definition customMarked (e : Custom.allocEntry) : bool :=
  match Custom.next e with Some _ => true | None => false end.

Lemma abs_bounds l : map bounds (imap absRecord l) = map customBounds l.
Proof.
  apply list_eq. intros k.
  rewrite !list_lookup_fmap, list_lookup_imap.
  destruct (l !! k); reflexivity.
Qed.

Lemma asRecord_bounds l : map bounds (map asRecord l) = map customBounds l.
Proof.
  induction l as [|e l IH]; cbn; [reflexivity | rewrite IH; reflexivity].
Qed.

Lemma custom_unmark_bounds l :
  map customBounds (CustomGC.unmarkAllocations l) = map customBounds l.
Proof.
  unfold CustomGC.unmarkAllocations.
  induction l as [|e l IH]; cbn; [reflexivity | rewrite IH; reflexivity].
Qed.

Lemma custom_sortAllocations_Permutation arr :
  CustomGC.sortAllocations arr ≡ₚ arr.
Proof.
  unfold CustomGC.sortAllocations. rewrite custom_sortDown_Permutation.
  apply custom_buildHeap_Permutation.
Qed.

Lemma custom_sortAllocations_sorted arr i a b :
  CustomGC.sortAllocations arr !! i = Some a →
  CustomGC.sortAllocations arr !! S i = Some b →
  Custom.start a ≤ Custom.start b.
Proof.
  intros Ha Hb.
  pose proof (sortAllocations_sorted (map asRecord arr) i (asRecord a)
                (asRecord b)) as H.
  rewrite <- asRecord_sortAllocations, !list_lookup_fmap, Ha, Hb in H.
  apply H; reflexivity.
Qed.

Lemma custom_check_passes (b : Custom.state) :
  (∀ i x y, Custom.allocations b !! i = Some x →
            Custom.allocations b !! S i = Some y →
            Custom.start x ≤ Custom.start y) →
  CustomGC.checkIfAllocationsSorted b = Done tt b.
Proof.
  intros Hsorted. unfold CustomGC.checkIfAllocationsSorted. cbn zeta.
  set (arr := Custom.allocations b) in *.
  destruct (1 <? length arr)%nat eqn:Hlen; [|reflexivity].
  apply Nat.ltb_lt in Hlen.
  assert (Hcheck : CustomGC.checkLoop arr (length arr - 1) 0 = true).
  { apply checkLoop_spec. intros j Hj.
    destruct (lookup_lt_is_Some_2 arr j) as [x Hx]; [lia|].
    destruct (lookup_lt_is_Some_2 arr (S j)) as [y Hy]; [lia|].
    replace (j + 1)%nat with (S j) by lia.
    rewrite (custom_startAt_lookup _ _ _ Hx), (custom_startAt_lookup _ _ _ Hy).
    eapply Hsorted; eassumption. }
  rewrite Hcheck. reflexivity.
Qed.

Lemma filter_unmarked_all l :
  (∀ r, r ∈ l → marked r = false) → List.filter unmarked l = l.
Proof.
  induction l as [|r l IH]; intros Hall; [reflexivity|].
  cbn. unfold unmarked at 1. rewrite (Hall r) by left. cbn.
  f_equal. apply IH. intros r' Hr'. apply Hall. right. exact Hr'.
Qed.

(** The state in which the custom collector starts to mark. *)
Lemma custom_prepare_tracing w (s : CustomCollector.state) :
  wellFormed (map asRecord (CustomCollector.allocations s)) →
  disjointIntervals (map asRecord (CustomCollector.allocations s)) →
  (∀ e, e ∈ CustomCollector.allocations s →
        Custom.end_ e + ptrSize < 2 ^ 32) →
  let sp :=
    CustomCollector.setQueue None
      (CustomCollector.setAllocations
         (CustomGC.unmarkAllocations
            (CustomGC.sortAllocations (CustomCollector.allocations s))) s) in
  tracing customReads w (CustomCollector.cycles s)
    (map bounds (allocations (abs sp))) None
    (length (CustomCollector.allocations s)) (abs sp).
Proof.
  intros Hwf Hdisj Hends. cbn zeta.
  set (arr := CustomCollector.allocations s) in *.
  set (sorted := CustomGC.sortAllocations arr).
  set (sp := CustomCollector.setQueue None _).
  assert (Harr : allocations (abs sp)
                 = imap absRecord (CustomGC.unmarkAllocations sorted))
    by reflexivity.
  assert (Hsame : map bounds (allocations (abs sp))
                  = map bounds (sortAllocations (map asRecord arr))).
  { rewrite Harr, abs_bounds, custom_unmark_bounds.
    rewrite <- asRecord_sortAllocations, asRecord_bounds. reflexivity. }
  pose proof (sortAllocations_Permutation (map asRecord arr)) as Hperm.
  assert (Hwf' : wellFormed (allocations (abs sp))).
  { apply (same_bounds_wellFormed _ _ (eq_sym Hsame)).
    intros r Hr. apply Hwf. rewrite <- Hperm. exact Hr. }
  assert (Hunmarked : ∀ r, r ∈ allocations (abs sp) → marked r = false).
  { intros r Hr. rewrite Harr in Hr.
    apply list_elem_of_lookup in Hr as [k Hk].
    rewrite list_lookup_imap in Hk. unfold CustomGC.unmarkAllocations in Hk.
    rewrite list_lookup_fmap in Hk.
    destruct (sorted !! k); [|discriminate]. injection Hk as <-. reflexivity. }
  assert (Hlen : length (allocations (abs sp)) = length arr).
  { rewrite Harr, length_imap. unfold CustomGC.unmarkAllocations.
    rewrite length_map. apply Permutation_length.
    apply custom_sortAllocations_Permutation. }
  split; [reflexivity|]. split; [reflexivity|]. split.
  { apply separated_of_disjointIntervals; [exact Hwf' | |].
    - apply (same_bounds_sortedByStart _ _ (eq_sym Hsame)).
      apply sortAllocations_sorted.
    - apply (same_bounds_disjointIntervals _ _ (eq_sym Hsame)).
      apply (disjointIntervals_Permutation (map asRecord arr)); [|exact Hdisj].
      symmetry. exact Hperm. }
  split; [exact Hwf'|]. split.
  { intros r Hr Hm. rewrite (Hunmarked r Hr) in Hm. discriminate. }
  exists []. split; [constructor|]. split; [constructor|]. split.
  { cbn [length Nat.add]. rewrite filter_unmarked_all by exact Hunmarked.
    exact Hlen. }
  split.
  { intros r Hr.
    destruct (same_bounds_elem _ _ r Hsame Hr) as (r' & Hr' & _ & Hend).
    rewrite <- Hend.
    rewrite Hperm in Hr'. apply list_elem_of_fmap in Hr' as (e & -> & He).
    cbn. apply Hends. exact He. }
  intros j r Hj Hmr.
  rewrite (Hunmarked r) in Hmr by (eapply list_elem_of_lookup_2; exact Hj).
  discriminate.
Qed.

Definition customUnmarked (e : Custom.allocEntry) : bool :=
  negb (customMarked e).

Lemma custom_sweepLoop_spec k : ∀ i j s,
  (j ≤ i)%nat → (i + k)%nat = length (CustomCollector.allocations s) →
  let arr := CustomCollector.allocations s in
  let res := CustomCollector.sweepLoop k i j s in
  let kept := List.filter customMarked (drop i arr) in
  let gone := List.filter customUnmarked (drop i arr) in
  fst res = (j + length kept)%nat
  ∧ take (fst res) (CustomCollector.allocations (snd res))
    = take j arr ++ kept
  ∧ length (CustomCollector.allocations (snd res)) = length arr
  ∧ Custom.trace (CustomCollector.base (snd res))
    = Custom.trace (CustomCollector.base s)
      ++ map (λ e, EvExtfree (Custom.start e)) gone.
Proof.
  induction k as [|k IH]; intros i j s Hji Hlen; cbn zeta.
  - rewrite drop_ge by lia. simpl.
    rewrite Nat.add_0_r, !app_nil_r. auto.
  - destruct (lookup_lt_is_Some_2 (CustomCollector.allocations s) i)
      as [cur Hcur]; [lia|].
    rewrite (drop_S _ _ _ Hcur). cbn [CustomCollector.sweepLoop List.filter].
    rewrite Hcur.
    assert (Hmk : customMarked cur
                  = match Custom.next cur with Some _ => true | None => false end)
      by reflexivity.
    unfold customUnmarked at 1. rewrite Hmk.
    destruct (Custom.next cur) as [n|] eqn:Hnext; cbn [negb].
    + set (s2 := CustomCollector.setBase _ _).
      assert (Harr : CustomCollector.allocations s2
                     = <[j := cur]> (CustomCollector.allocations s))
        by reflexivity.
      destruct (IH (S i) (S j) s2) as (H1 & H2 & H3 & H4).
      { lia. }
      { rewrite Harr, length_insert. lia. }
      rewrite Harr in *. rewrite length_insert in H3.
      rewrite drop_insert_lt in H1, H2, H4 by lia.
      split; [|split; [|split]].
      * rewrite H1. simpl. lia.
      * rewrite H2. rewrite (take_S_r _ _ cur).
        -- rewrite take_insert_ge by lia. rewrite <- app_assoc. reflexivity.
        -- apply list_lookup_insert_eq. lia.
      * exact H3.
      * exact H4.
    + destruct (IH (S i) j
                  (CustomCollector.setBase (Custom.free (Custom.start cur)) s))
        as (H1 & H2 & H3 & H4).
      { lia. }
      { change (CustomCollector.allocations
                  (CustomCollector.setBase (Custom.free (Custom.start cur)) s))
          with (CustomCollector.allocations s). lia. }
      change (CustomCollector.allocations
                (CustomCollector.setBase (Custom.free (Custom.start cur)) s))
        with (CustomCollector.allocations s) in *.
      split; [exact H1|]. split; [exact H2|]. split; [exact H3|].
      rewrite H4. cbn. rewrite <- app_assoc. reflexivity.
Qed.

Lemma custom_sweep_outcome s :
  CustomCollector.allocations (CustomCollector.sweep s)
  = List.filter customMarked (CustomCollector.allocations s)
  ∧ Custom.trace (CustomCollector.base (CustomCollector.sweep s))
    = Custom.trace (CustomCollector.base s)
      ++ map (λ e, EvExtfree (Custom.start e))
           (List.filter customUnmarked (CustomCollector.allocations s)).
Proof.
  unfold CustomCollector.sweep.
  pose proof (custom_sweepLoop_spec
                (length (CustomCollector.allocations s)) 0 0
                (CustomCollector.setBase (Custom.setTotalAlloc 0) s))
    as Hloop.
  cbn zeta in Hloop.
  destruct Hloop as (H1 & H2 & H3 & H4); [lia | reflexivity |].
  change (CustomCollector.allocations
            (CustomCollector.setBase (Custom.setTotalAlloc 0) s))
    with (CustomCollector.allocations s) in *.
  destruct (CustomCollector.sweepLoop _ 0 0 _) as [j s1]. simpl in *.
  rewrite drop_0 in *. split; [exact H2 | exact H4].
Qed.

Definition customTrace (s : CustomCollector.state) : list event :=
  Custom.trace (CustomCollector.base s).

Lemma custom_mark_trace addr s :
  customTrace (snd (CustomCollector.mark addr s)) = customTrace s.
Proof.
  unfold CustomCollector.mark. cbn zeta.
  repeat case_match; reflexivity.
Qed.

Lemma custom_scanLoop_trace w fuel : ∀ addr e s,
  customTrace (finalState (CustomCollector.scanLoop w fuel addr e s))
  = customTrace s.
Proof.
  induction fuel as [|fuel IH]; intros addr e s; simpl.
  - destruct (_ <=? _); reflexivity.
  - destruct (_ <=? _); [|reflexivity].
    rewrite IH. apply custom_mark_trace.
Qed.

Lemma custom_markRanges_trace w fuel ranges : ∀ s,
  customTrace (finalState (CustomCollector.markRanges w fuel ranges s))
  = customTrace s.
Proof.
  induction ranges as [|[lo hi] rest IH]; intros s; simpl; [reflexivity|].
  apply (bind_final (λ s s', customTrace s' = customTrace s)).
  - intros x y z Hxy Hyz. congruence.
  - intros s0. apply custom_scanLoop_trace.
  - intros _ s0. apply IH.
Qed.

Lemma custom_finishMarking_trace w sfuel fuel : ∀ s,
  customTrace (finalState (CustomCollector.finishMarking w sfuel fuel s))
  = customTrace s.
Proof.
  induction fuel as [|fuel IH]; intros s; simpl.
  - destruct (CustomCollector.scanQueue s); reflexivity.
  - destruct (CustomCollector.scanQueue s) as [i|]; [|reflexivity].
    destruct (CustomCollector.allocations s !! i) as [cur|]; [|reflexivity].
    match goal with
    | |- context [CustomCollector.scan w sfuel ?lo ?hi ?s0] =>
        pose proof (custom_scanLoop_trace w sfuel
                      (clearLow (wrapPtr (lo + ptrAlign - 1))) hi s0) as Hscan;
        fold (CustomCollector.scan w sfuel lo hi s0) in Hscan;
        destruct (CustomCollector.scan w sfuel lo hi s0) as [[] s'| |]
    end; simpl in *.
    + rewrite IH. exact Hscan.
    + exact Hscan.
    + exact Hscan.
Qed.

(** X17: what a collection of the custom variant keeps and frees. On a
    registry of well-formed records whose inclusive intervals are pairwise
    disjoint and end more than a pointer below the top of the address space,
    [GC()] of gc_custom_extalloc.go returns with [gcCollectorRunning]
    cleared; its sorted check does not fire; the records it leaves are
    exactly those whose block is reachable through the aligned words that
    this variant's [scan] reads (its loop only: the last, possibly
    unaligned, word of a range is not read), and it calls [extfree] once for
    each record it drops, which are exactly the records whose block is not
    reachable. *)
Theorem custom_GC_keeps_exactly_the_reachable (w : world)
    (s : CustomCollector.state) (sfuel fuel : nat) :
  Custom.gcCollectorRunning (CustomCollector.base s) = false →
  wellFormed (map asRecord (CustomCollector.allocations s)) →
  disjointIntervals (map asRecord (CustomCollector.allocations s)) →
  (∀ e, e ∈ CustomCollector.allocations s →
        Custom.end_ e + ptrSize < 2 ^ 32) →
  (∀ lo hi, (lo, hi) ∈ rootRanges w (S (CustomCollector.cycles s)) →
            hi + ptrSize < 2 ^ 32) →
  (Z.to_nat (2 ^ 32) ≤ sfuel)%nat →
  (length (CustomCollector.allocations s) ≤ fuel)%nat →
  ∃ s' gone,
    CustomCollector.GC w sfuel fuel s = Done tt s'
    ∧ Custom.gcCollectorRunning (CustomCollector.base s') = false
    ∧ (∀ b, b ∈ map customBounds (CustomCollector.allocations s')
            ↔ reachable customReads w (S (CustomCollector.cycles s))
                (map customBounds (CustomCollector.allocations s)) b)
    ∧ customTrace s'
      = customTrace s ++ map (λ e, EvExtfree (Custom.start e)) gone
    ∧ (∀ b, b ∈ map customBounds gone
            ↔ b ∈ map customBounds (CustomCollector.allocations s)
              ∧ ¬ reachable customReads w (S (CustomCollector.cycles s))
                    (map customBounds (CustomCollector.allocations s)) b).
Proof.
  intros Hidle Hwf Hdisj Hends Hroots Hsf Hfuel.
  unfold CustomCollector.GC. rewrite Hidle. cbn zeta.
  set (s1 := CustomCollector.mkState _ _ _).
  change (CustomCollector.allocations s1)
    with (CustomCollector.allocations s).
  change (CustomCollector.cycles s1) with (S (CustomCollector.cycles s)).
  set (c := S (CustomCollector.cycles s)).
  set (arr := CustomCollector.allocations s) in *.
  destruct (Nat.eqb_spec (length arr) 0) as [Hlen|Hlen].
  { exists (CustomCollector.setBase (CustomCollector.setRunning false) s1), [].
    split; [reflexivity|]. split; [reflexivity|].
    change (CustomCollector.allocations
              (CustomCollector.setBase (CustomCollector.setRunning false) s1))
      with arr.
    destruct arr eqn:Harr; [|discriminate Hlen]. simpl.
    split; [|split].
    - intros b. split; [intros Hb; apply elem_of_nil in Hb; contradiction|].
      intros Hr. apply reachable_in_blocks in Hr. exact Hr.
    - unfold customTrace. cbn. rewrite app_nil_r. reflexivity.
    - intros b. split; [intros Hb; apply elem_of_nil in Hb; contradiction|].
      intros [Hb _]. exact Hb. }
  unfold bind at 1. unfold modify at 1.
  set (ssorted := CustomCollector.setAllocations _ s1).
  unfold bind at 1. unfold CustomCollector.checkSorted at 1.
  rewrite (custom_check_passes (CustomCollector.base ssorted))
    by (intros i x y; apply custom_sortAllocations_sorted).
  unfold bind at 1. unfold modify at 1.
  unfold bind at 1. unfold modify at 1.
  set (sp := CustomCollector.setQueue None _).
  pose proof (custom_prepare_tracing w s1 Hwf Hdisj Hends) as Htr.
  cbn zeta in Htr.
  change (CustomCollector.allocations s1) with arr in Htr.
  change (CustomCollector.cycles s1) with c in Htr.
  change (CustomCollector.setQueue None _) with sp in Htr.
  set (blocks := map bounds (allocations (abs sp))) in *.
  assert (Hblocks : ∀ x, x ∈ blocks ↔ x ∈ map customBounds arr).
  { intros x. unfold blocks.
    change (allocations (abs sp))
      with (imap absRecord
              (CustomGC.unmarkAllocations (CustomGC.sortAllocations arr))).
    rewrite abs_bounds, custom_unmark_bounds.
    rewrite (custom_sortAllocations_Permutation arr). reflexivity. }
  unfold bind at 1.
  destruct (custom_markRanges_reads w
              (tracing customReads w c blocks None (length arr))
              (λ a s, hit (wordAt w c a) s) (legit customReads w c blocks)
              (tracing_headMarked customReads w c blocks None (length arr))
              (mark_tracing customReads w c blocks None (length arr))
              (λ a v s, mark_hit_stable (wordAt w c a) v s)
              sfuel (rootRanges w c) sp Hroots Hsf Htr)
    as (s2 & Hs2 & Htr2 & Hroots2 & _).
  { intros lo hi a Hin Ha b Hb Hh.
    apply (reachable_root customReads w c blocks lo hi a b); assumption. }
  rewrite Hs2. unfold bind at 1.
  destruct (custom_finishMarking_tracing w c blocks sfuel fuel _ s2 Hsf Hfuel
              Htr2) as (s3 & m3 & Hs3 & Htr3 & Hq3 & Hstable3).
  rewrite Hs3. unfold bind, modify.
  destruct Htr3 as (Hc3 & Hb3 & Hsep3 & Hwf3 & Hexact3 & l3 & Hchain3 & _ & _
                    & _ & Htri3).
  change (referenceScanQueue (abs s3)) with (CustomCollector.scanQueue s3)
    in Hchain3.
  rewrite Hq3 in Hchain3. inversion Hchain3; subst l3.
  assert (Hsafe : ∀ b, reachable customReads w c blocks b →
                  ∀ r, r ∈ allocations (abs s3) → bounds r = b →
                       marked r = true).
  { induction 1 as [lo hi a b Hroot Hr Hb Hh|b0 a b Hreach0 IH Hr Hb Hh];
      intros r Hin Hbr.
    - apply (Hroots2 lo hi a Hroot) in Hr. apply Hstable3 in Hr.
      apply Hr; [exact Hin|]. subst b. exact Hh.
    - pose proof (reachable_in_blocks _ _ _ _ _ Hreach0) as Hb0.
      rewrite <- Hb3 in Hb0. apply list_elem_of_fmap in Hb0 as (r0 & Hb0 & Hr0).
      pose proof (IH r0 Hr0 (eq_sym Hb0)) as Hm0.
      apply list_elem_of_lookup in Hr0 as [j Hj].
      destruct (Htri3 j r0 Hj Hm0) as [Hnil|[Hno|Hseen]].
      + apply elem_of_nil in Hnil. contradiction.
      + discriminate Hno.
      + subst b0. apply (Hseen a Hr r Hin). subst b. exact Hh. }
  assert (Hmarked : ∀ e, e ∈ CustomCollector.allocations s3 →
            (customMarked e = true
             ↔ reachable customReads w c blocks (customBounds e))).
  { intros e He. apply list_elem_of_lookup in He as [k Hk].
    assert (Hr : absRecord k e ∈ allocations (abs s3)).
    { apply (list_elem_of_lookup_2 _ k).
      change (allocations (abs s3))
        with (imap absRecord (CustomCollector.allocations s3)).
      rewrite list_lookup_imap, Hk. reflexivity. }
    split.
    - intros Hm. apply (Hexact3 _ Hr). exact Hm.
    - intros Hreach. apply (Hsafe _ Hreach _ Hr). reflexivity. }
  assert (Hb3' : map customBounds (CustomCollector.allocations s3) = blocks).
  { rewrite <- Hb3.
    change (allocations (abs s3))
      with (imap absRecord (CustomCollector.allocations s3)).
    rewrite abs_bounds. reflexivity. }
  assert (Htrace3 : customTrace s3 = customTrace s).
  { pose proof (custom_finishMarking_trace w sfuel fuel s2) as H3.
    pose proof (custom_markRanges_trace w sfuel (rootRanges w c) sp) as H2.
    rewrite Hs3 in H3. rewrite Hs2 in H2. simpl in H2, H3.
    rewrite H3, H2. reflexivity. }
  destruct (custom_sweep_outcome s3) as (Hkept & Hfreed).
  exists (CustomCollector.setBase (CustomCollector.setRunning false)
            (CustomCollector.sweep s3)),
         (List.filter customUnmarked (CustomCollector.allocations s3)).
  split; [reflexivity|]. split; [reflexivity|].
  change (CustomCollector.allocations
            (CustomCollector.setBase (CustomCollector.setRunning false)
               (CustomCollector.sweep s3)))
    with (CustomCollector.allocations (CustomCollector.sweep s3)).
  change (customTrace
            (CustomCollector.setBase (CustomCollector.setRunning false)
               (CustomCollector.sweep s3)))
    with (Custom.trace (CustomCollector.base (CustomCollector.sweep s3))).
  rewrite Hkept, Hfreed. fold (customTrace s3). rewrite Htrace3.
  split; [|split; [reflexivity|]].
  - intros b. split.
    + intros Hb. apply list_elem_of_fmap in Hb as (e & -> & He).
      apply list_elem_of_In, filter_In in He as [He Hm].
      apply list_elem_of_In in He.
      apply (reachable_same_blocks customReads w c blocks); [exact Hblocks|].
      apply Hmarked; assumption.
    + intros Hreach.
      apply (reachable_same_blocks customReads w c _ blocks) in Hreach;
        [|intros x; symmetry; apply Hblocks].
      pose proof (reachable_in_blocks _ _ _ _ _ Hreach) as Hb.
      rewrite <- Hb3' in Hb. apply list_elem_of_fmap in Hb as (e & -> & He).
      apply list_elem_of_fmap. exists e. split; [reflexivity|].
      apply list_elem_of_In, filter_In. split; [apply list_elem_of_In; exact He|].
      apply Hmarked; assumption.
  - intros b. split.
    + intros Hb. apply list_elem_of_fmap in Hb as (e & -> & He).
      apply list_elem_of_In, filter_In in He as [He Hun].
      apply list_elem_of_In in He. split.
      * apply Hblocks. rewrite <- Hb3'. apply list_elem_of_fmap.
        exists e. auto.
      * intros Hreach.
        apply (reachable_same_blocks customReads w c _ blocks) in Hreach;
          [|intros x; symmetry; apply Hblocks].
        apply (Hmarked e He) in Hreach.
        unfold customUnmarked in Hun. rewrite Hreach in Hun. discriminate Hun.
    + intros [Hb Hnot]. apply Hblocks in Hb. rewrite <- Hb3' in Hb.
      apply list_elem_of_fmap in Hb as (e & -> & He).
      apply list_elem_of_fmap. exists e. split; [reflexivity|].
      apply list_elem_of_In, filter_In. split; [apply list_elem_of_In; exact He|].
      unfold customUnmarked. destruct (customMarked e) eqn:Hm; [|reflexivity].
      exfalso. apply Hnot.
      apply (reachable_same_blocks customReads w c blocks); [exact Hblocks|].
      apply Hmarked; assumption.
Qed.

(** The registry [apart] in the custom variant, at boot otherwise. *)
Definition customApart : CustomCollector.state :=
  CustomCollector.mkState
    (Custom.mkState false 0 0 0 16
       [Custom.mkEntry 16 32 None; Custom.mkEntry 40 48 None] [] 2 4096 0 0 [])
    None 0.

Lemma custom_GC_keeps_exactly_the_reachable_witness :
  ∃ s' gone,
    CustomCollector.GC rootedWorld (Z.to_nat (2 ^ 32)) 2 customApart
    = Done tt s'
    ∧ Custom.gcCollectorRunning (CustomCollector.base s') = false
    ∧ (∀ b, b ∈ map customBounds (CustomCollector.allocations s')
            ↔ reachable customReads rootedWorld 1 [(16, 32); (40, 48)] b)
    ∧ customTrace s' = [] ++ map (λ e, EvExtfree (Custom.start e)) gone
    ∧ (∀ b, b ∈ map customBounds gone
            ↔ b ∈ [(16, 32); (40, 48)]
              ∧ ¬ reachable customReads rootedWorld 1 [(16, 32); (40, 48)] b).
Proof.
  apply (custom_GC_keeps_exactly_the_reachable rootedWorld customApart).
  - reflexivity.
  - exact apart_wellFormed.
  - exact apart_disjointIntervals.
  - intros e He. unfold ptrSize.
    apply elem_of_cons in He as [->|He]; [simpl; lia|].
    apply elem_of_cons in He as [->|He]; [simpl; lia|].
    apply elem_of_nil in He. contradiction.
  - intros lo hi Hin. apply list_elem_of_singleton in Hin.
    injection Hin as -> ->. unfold ptrSize. lia.
  - apply Nat.le_refl.
  - apply Nat.le_refl.
Defined.

(** ** The two scans side by side *)

(** A host whose only root range is the seven bytes from 2048: the word at
    2048 holds zero, and the last four bytes of the range, read at 2051,
    hold the address 20. *)
Definition lastWordWorld : world :=
  mkWorld 1024 0 0 (extallocAnswer roomyWorld) (λ _, [(2048, 2055)])
    (λ _ a, if a =? 2051 then 20 else 0).

Lemma customReads_scanReads lo hi a : customReads lo hi a → scanReads lo hi a.
Proof. intros H. left. exact H. Qed.

Lemma clearLow_aligned x : clearLow x mod 4 = 0.
Proof.
  unfold clearLow. change 4 with (2 ^ 2).
  rewrite <- Z.land_ones by lia. rewrite <- Z.land_assoc.
  change (Z.land (Z.lxor maxPtr (ptrAlign - 1)) (Z.ones 2)) with 0.
  apply Z.land_0_r.
Qed.

(** The loop of [scan] reads aligned words only. *)
Lemma loopReads_aligned e a b : loopReads e a b → a mod 4 = 0 → b mod 4 = 0.
Proof.
  induction 1 as [a _|a b _ _ IH]; intros Ha; [exact Ha|].
  apply IH. unfold wrapPtr, ptrAlign.
  rewrite Z.mod_mod_divide by (exists (2 ^ 30); reflexivity).
  rewrite Z.add_mod, Ha by lia. reflexivity.
Qed.

(** X18: the custom variant's collection reaches no more than the tracing
    variant's, and sometimes less. Every word that the [scan] of
    gc_custom_extalloc.go reads, the [scan] of gc_extalloc.go reads too, so
    on the same blocks, roots and memory every block reachable for the
    custom collector is reachable for the tracing collector; but the
    tracing [scan] also reads the last four bytes of a range, aligned or
    not, so a block that only those bytes of a root range point into is
    kept by the tracing collector and dropped by the custom one. *)
Theorem custom_scan_reaches_no_more :
  (∀ w c blocks b,
     reachable customReads w c blocks b → reachable scanReads w c blocks b)
  ∧ reachable scanReads lastWordWorld 1 [(16, 32); (40, 48)] (16, 32)
  ∧ ¬ reachable customReads lastWordWorld 1 [(16, 32); (40, 48)] (16, 32).
Proof.
  split; [|split].
  - intros w c blocks b.
    induction 1 as [lo hi a b Hroot Hr Hb Hh|b0 a b _ IH Hr Hb Hh].
    + apply (reachable_root scanReads w c blocks lo hi a b); auto.
      apply customReads_scanReads. exact Hr.
    + apply (reachable_step scanReads w c blocks b0 a b); auto.
      apply customReads_scanReads. exact Hr.
  - apply (reachable_root scanReads lastWordWorld 1 _ 2048 2055 2051).
    + left.
    + right. split; [vm_compute; discriminate | reflexivity].
    + left.
    + vm_compute. split; discriminate.
  - intros Hr.
    assert (Hword : ∀ lo hi a, customReads lo hi a →
                      wrapPtr (load lastWordWorld 1 a) = 0).
    { intros lo hi a Ha.
      apply loopReads_aligned in Ha; [|apply clearLow_aligned].
      simpl. destruct (Z.eqb_spec a 2051) as [->|_]; [discriminate Ha|].
      reflexivity. }
    assert (Hzero : ∀ blocks b,
              reachable customReads lastWordWorld 1 blocks b →
              blockHolds b 0).
    { intros blocks b Hb.
      destruct Hb as [lo hi a b _ Ha _ Hh|b0 a b _ Ha _ Hh];
        rewrite (Hword _ _ _ Ha) in Hh; exact Hh. }
    apply Hzero in Hr. unfold blockHolds in Hr. simpl in Hr. lia.
Qed.


(** * The registry stays sound *)

(** What the collection theorems ask of a registry, on its blocks: each
    block is well-formed and ends more than a pointer below the top of the
    address space, and no address lies in two blocks, bounds included. *)
Definition blocksOk (B : list (Z * Z)) : Prop :=
  (∀ b, b ∈ B → b.1 ≤ b.2 ∧ b.2 + ptrSize < 2 ^ 32)
  ∧ (∀ i j bi bj a, i ≠ j → B !! i = Some bi → B !! j = Some bj →
       ¬ (blockHolds bi a ∧ blockHolds bj a)).

Lemma blocksOk_registry arr :
  blocksOk (map bounds arr)
  ↔ wellFormed arr ∧ disjointIntervals arr
    ∧ (∀ r, r ∈ arr → end_ r + ptrSize < 2 ^ 32).
Proof.
  split.
  - intros [Hok Hdisj]. split; [|split].
    + intros r Hr. apply (Hok (bounds r)).
      apply list_elem_of_fmap. exists r. auto.
    + intros i j ri rj a Hij Hi Hj.
      apply (Hdisj i j (bounds ri) (bounds rj) a Hij);
        rewrite list_lookup_fmap; [rewrite Hi | rewrite Hj]; reflexivity.
    + intros r Hr. apply (Hok (bounds r)).
      apply list_elem_of_fmap. exists r. auto.
  - intros (Hwf & Hdisj & Hlow). split.
    + intros b Hb. apply list_elem_of_fmap in Hb as (r & -> & Hr).
      split; [apply Hwf | apply Hlow]; exact Hr.
    + intros i j bi bj a Hij Hi Hj.
      rewrite list_lookup_fmap in Hi, Hj.
      destruct (arr !! i) as [ri|] eqn:Hri; [|discriminate].
      destruct (arr !! j) as [rj|] eqn:Hrj; [|discriminate].
      injection Hi as <-. injection Hj as <-.
      apply (Hdisj i j ri rj a Hij Hri Hrj).
Qed.

Lemma blocksOk_Permutation B B' : B ≡ₚ B' → blocksOk B → blocksOk B'.
Proof.
  intros Hp [Hok Hdisj]. split.
  - intros b Hb. apply Hok. rewrite Hp. exact Hb.
  - intros i j bi bj a Hij Hi Hj.
    symmetry in Hp. apply Permutation_inj in Hp as (_ & f & Hinj & Hf).
    rewrite Hf in Hi, Hj.
    apply (Hdisj (f i) (f j) bi bj a); [|assumption..].
    intros Heq. apply Hij. apply Hinj. exact Heq.
Qed.

Lemma blocksOk_app_l B K : blocksOk (B ++ K) → blocksOk B.
Proof.
  intros [Hok Hdisj]. split.
  - intros b Hb. apply Hok. apply elem_of_app. left. exact Hb.
  - intros i j bi bj a Hij Hi Hj.
    apply (Hdisj i j bi bj a Hij).
    + rewrite lookup_app_l by (eapply lookup_lt_Some; eassumption). exact Hi.
    + rewrite lookup_app_l by (eapply lookup_lt_Some; eassumption). exact Hj.
Qed.

Lemma blocksOk_submseteq B B' : B' ⊆+ B → blocksOk B → blocksOk B'.
Proof.
  intros Hsub Hok. apply submseteq_Permutation in Hsub as [K HK].
  apply (blocksOk_app_l B' K). apply (blocksOk_Permutation B); assumption.
Qed.

Lemma blocksOk_snoc B n :
  blocksOk B → n.1 ≤ n.2 → n.2 + ptrSize < 2 ^ 32 →
  (∀ b, b ∈ B → b.2 < n.1 ∨ n.2 < b.1) →
  blocksOk (B ++ [n]).
Proof.
  intros [Hok Hdisj] Hwf Hlow Hfresh. split.
  - intros b Hb. apply elem_of_app in Hb as [Hb|Hb]; [auto|].
    apply list_elem_of_singleton in Hb as ->. auto.
  - assert (Hnew : ∀ i b a, B !! i = Some b →
                     ¬ (blockHolds b a ∧ blockHolds n a)).
    { intros i b a Hi [Hb Hn]. unfold blockHolds in *.
      destruct (Hfresh b); [eapply list_elem_of_lookup_2; exact Hi | lia | lia]. }
    intros i j bi bj a Hij Hi Hj.
    destruct (decide (i < length B)%nat) as [Hil|Hil];
      destruct (decide (j < length B)%nat) as [Hjl|Hjl].
    + rewrite lookup_app_l in Hi, Hj by assumption.
      apply (Hdisj i j bi bj a Hij Hi Hj).
    + rewrite lookup_app_l in Hi by assumption.
      rewrite lookup_app_r in Hj by lia.
      destruct (j - length B)%nat; [|destruct n0; discriminate].
      injection Hj as <-. apply (Hnew i bi a Hi).
    + rewrite lookup_app_l in Hj by assumption.
      rewrite lookup_app_r in Hi by lia.
      destruct (i - length B)%nat; [|destruct n0; discriminate].
      injection Hi as <-. intros [H1 H2]. apply (Hnew j bj a Hj). auto.
    + rewrite lookup_app_r in Hi, Hj by lia.
      destruct (i - length B)%nat eqn:Hi0; [|destruct n0; discriminate].
      destruct (j - length B)%nat eqn:Hj0; [|destruct n0; discriminate].
      lia.
Qed.

(** The registry's blocks after a step are among its blocks before. *)
Definition shrinkStep (s s' : state) : Prop :=
  map bounds (allocations s') ⊆+ map bounds (allocations s).

Lemma shrinkStep_refl s : shrinkStep s s.
Proof. unfold shrinkStep. reflexivity. Qed.

Lemma shrinkStep_trans x y z : shrinkStep x y → shrinkStep y z → shrinkStep x z.
Proof. unfold shrinkStep. intros Hxy Hyz. etransitivity; eassumption. Qed.

Lemma shrinkStep_same s s' :
  map bounds (allocations s') = map bounds (allocations s) → shrinkStep s s'.
Proof. unfold shrinkStep. intros ->. reflexivity. Qed.

Lemma scanLoop_same_bounds w fuel : ∀ addr e s,
  map bounds (allocations (finalState (scanLoop w fuel addr e s)))
  = map bounds (allocations s).
Proof.
  induction fuel as [|fuel IH]; intros addr e s; simpl.
  - destruct (_ <=? _); reflexivity.
  - destruct (_ <=? _); [|reflexivity].
    rewrite IH. apply mark_same_bounds.
Qed.

Lemma scan_same_bounds w fuel lo hi s :
  map bounds (allocations (finalState (scan w fuel lo hi s)))
  = map bounds (allocations s).
Proof.
  unfold scan.
  apply (bind_final (λ s s', map bounds (allocations s')
                             = map bounds (allocations s))).
  - intros x y z Hxy Hyz. congruence.
  - intros s0. apply scanLoop_same_bounds.
  - intros _ s0. destruct (_ <=? _); simpl; [|reflexivity].
    apply mark_same_bounds.
Qed.

Lemma markRanges_same_bounds w fuel ranges : ∀ s,
  map bounds (allocations (finalState (markRanges w fuel ranges s)))
  = map bounds (allocations s).
Proof.
  induction ranges as [|[lo hi] rest IH]; intros s; simpl; [reflexivity|].
  apply (bind_final (λ s s', map bounds (allocations s')
                             = map bounds (allocations s))).
  - intros x y z Hxy Hyz. congruence.
  - intros s0. apply scan_same_bounds.
  - intros _ s0. apply IH.
Qed.

Lemma finishMarking_same_bounds w sfuel fuel : ∀ s,
  map bounds (allocations (finalState (finishMarking w sfuel fuel s)))
  = map bounds (allocations s).
Proof.
  induction fuel as [|fuel IH]; intros s; simpl.
  - destruct (referenceScanQueue s); reflexivity.
  - destruct (referenceScanQueue s) as [i|]; [|reflexivity].
    destruct (allocations s !! i) as [cur|]; [|reflexivity].
    pose proof (scan_same_bounds w sfuel (start cur) (end_ cur)
                  (setQueue (next cur) s)) as Hscan.
    destruct (scan w sfuel (start cur) (end_ cur) (setQueue (next cur) s))
      as [[] s'| |]; simpl in *.
    + rewrite IH. exact Hscan.
    + exact Hscan.
    + exact Hscan.
Qed.

Lemma filter_bounds_submseteq (f : heapAllocation → bool) l :
  map bounds (List.filter f l) ⊆+ map bounds l.
Proof.
  induction l as [|r l IH]; cbn; [reflexivity|].
  destruct (f r); cbn; [apply submseteq_skip | apply submseteq_cons]; exact IH.
Qed.

Lemma GC_shrinkStep w sfuel fuel s :
  shrinkStep s (finalState (GC w sfuel fuel s)).
Proof.
  apply (shrinkStep_trans _ (emit EvGC s)); [apply shrinkStep_same; reflexivity|].
  unfold GC. cbn zeta.
  destruct (gcInProgress (emit EvGC s)); [apply shrinkStep_refl|].
  destruct (Nat.eqb _ 0); [apply shrinkStep_same; reflexivity|].
  set (s1 := setCycles _ _).
  set (ranges := rootRanges w (cycles s1)).
  apply (shrinkStep_trans _ s1); [apply shrinkStep_same; reflexivity|].
  clearbody ranges. generalize s1.
  pose proof (λ A B, @bind_final state A B shrinkStep) as Hbind.
  apply Hbind; [exact shrinkStep_trans | | intros _].
  { intros s0. unfold shrinkStep, modify, prepareGC. cbn.
    rewrite unmarkAllocations_bounds.
    apply Permutation_submseteq. apply fmap_Permutation.
    apply sortAllocations_Permutation. }
  apply Hbind; [exact shrinkStep_trans | | intros _].
  { intros s0. apply shrinkStep_same. apply markRanges_same_bounds. }
  apply Hbind; [exact shrinkStep_trans | | intros _].
  { intros s0. apply shrinkStep_same. apply finishMarking_same_bounds. }
  apply Hbind; [exact shrinkStep_trans | | intros _].
  { intros s0. unfold shrinkStep, modify. cbn [finalState].
    destruct (sweep_outcome s0) as (-> & _). apply filter_bounds_submseteq. }
  intros s0. apply shrinkStep_same. reflexivity.
Qed.

Lemma tryGC_shrinkStep w sfuel gfuel gcRan size fn :
  (∀ b sz s, shrinkStep s (finalState (fn b sz s))) →
  ∀ s, shrinkStep s (finalState (tryGC w sfuel gfuel gcRan size fn s)).
Proof.
  intros Hfn. unfold tryGC. destruct gcRan.
  - apply (bind_final shrinkStep); [exact shrinkStep_trans | apply Hfn |].
    intros _ s. apply shrinkStep_refl.
  - apply (bind_final shrinkStep); [exact shrinkStep_trans | |].
    + intros s. apply GC_shrinkStep.
    + intros _ s. apply shrinkStep_refl.
Qed.

Lemma expandHeap_shrinkStep b size s :
  shrinkStep s (finalState (expandHeap b size s)).
Proof.
  destruct b; [|apply shrinkStep_refl].
  unfold expandHeap, adjustHeapUsageLimit.
  remember (growLimit 32 (gcTotalAlloc s) size (heapUsageLimit s)) as g eqn:Hg.
  clear Hg. apply shrinkStep_same. reflexivity.
Qed.

Lemma fail_shrinkStep b size s : shrinkStep s (finalState (fail b size s)).
Proof. destruct b; apply shrinkStep_refl. Qed.

(** Collections ask the host for nothing. *)
Lemma sweepLoop_asked k : ∀ i j s,
  askedRecords (snd (sweepLoop k i j s)) = askedRecords s.
Proof.
  induction k as [|k IH]; intros i j s; simpl; [reflexivity|].
  destruct (allocations s !! i) as [cur|]; [|reflexivity].
  destruct (marked cur); simpl; rewrite IH; reflexivity.
Qed.

Lemma asked_offRegistry : offRegistry askedRecords.
Proof. split; reflexivity. Qed.

Lemma GC_asked w sfuel fuel s :
  askedRecords (finalState (GC w sfuel fuel s)) = askedRecords s.
Proof.
  pose (Rel := λ s s' : state, askedRecords s' = askedRecords s).
  assert (Htrans : ∀ x y z, Rel x y → Rel y z → Rel x z).
  { unfold Rel. intros x y z Hxy Hyz. congruence. }
  change (Rel s (finalState (GC w sfuel fuel s))).
  apply (Htrans _ (emit EvGC s)); [reflexivity|].
  unfold GC. cbn zeta.
  destruct (gcInProgress (emit EvGC s)); [reflexivity|].
  destruct (Nat.eqb _ 0); [reflexivity|].
  set (s1 := setCycles _ _).
  set (ranges := rootRanges w (cycles s1)).
  apply (Htrans _ s1); [reflexivity|].
  clearbody ranges. generalize s1.
  pose proof (λ A B, @bind_final state A B Rel) as Hbind.
  apply Hbind; [exact Htrans | | intros _].
  { intros s0. reflexivity. }
  apply Hbind; [exact Htrans | | intros _].
  { intros s0. apply markRanges_frame, asked_offRegistry. }
  apply Hbind; [exact Htrans | | intros _].
  { intros s0. apply finishMarking_frame, asked_offRegistry. }
  apply Hbind; [exact Htrans | | intros _].
  { intros s0. unfold Rel, modify, sweep. cbn [finalState].
    pose proof (sweepLoop_asked (length (allocations (setTotalAlloc 0 s0))) 0 0
                  (setTotalAlloc 0 s0)) as H.
    destruct (sweepLoop _ 0 0 _) as [j s2]. simpl in *. exact H. }
  intros s0. reflexivity.
Qed.

Lemma tryGC_asked w sfuel gfuel gcRan size fn :
  (∀ b sz s, askedRecords (finalState (fn b sz s)) = askedRecords s) →
  ∀ s, askedRecords (finalState (tryGC w sfuel gfuel gcRan size fn s))
       = askedRecords s.
Proof.
  intros Hfn. unfold tryGC.
  pose (Rel := λ s s' : state, askedRecords s' = askedRecords s).
  assert (Htrans : ∀ x y z, Rel x y → Rel y z → Rel x z).
  { unfold Rel. intros x y z Hxy Hyz. congruence. }
  destruct gcRan.
  - apply (bind_final Rel); [exact Htrans | apply Hfn |].
    intros _ s. reflexivity.
  - apply (bind_final Rel); [exact Htrans | |].
    + intros s. apply GC_asked.
    + intros _ s. reflexivity.
Qed.

Lemma expandHeap_asked b size s :
  askedRecords (finalState (expandHeap b size s)) = askedRecords s.
Proof.
  destruct b; [|reflexivity].
  unfold expandHeap, adjustHeapUsageLimit.
  remember (growLimit 32 (gcTotalAlloc s) size (heapUsageLimit s)) as g eqn:Hg.
  clear Hg. reflexivity.
Qed.

Lemma fail_asked b size s :
  askedRecords (finalState (fail b size s)) = askedRecords s.
Proof. destruct b; reflexivity. Qed.

(** Growing the registry: either nothing happens, or the host is asked for
    one array; when it answers, the records are left as they are. *)
Lemma expandAllocationsIfNeeded_asks_once w sfuel gfuel gcRan s :
  let s1 := finalState (expandAllocationsIfNeeded w sfuel gfuel gcRan s) in
  (askedRecords s1 = askedRecords s ∧ allocations s1 = allocations s)
  ∨ (askedRecords s1 = S (askedRecords s)
     ∧ (wrapPtr (extallocAnswer w ForRecords (askedRecords s)) ≠ 0 →
        allocations s1 = allocations s)).
Proof.
  cbn zeta. unfold expandAllocationsIfNeeded. cbn zeta.
  destruct (_ =? allocCap s); [right | left; split; reflexivity].
  unfold bind, ret, modify. cbn [extalloc]. cbn beta zeta.
  set (ptr := wrapPtr (extallocAnswer w ForRecords (askedRecords s))).
  set (s0 := emit _ _).
  destruct (Z.eqb_spec ptr 0) as [Hnull|Hptr].
  - split; [|contradiction].
    pose proof (tryGC_asked w sfuel gfuel gcRan 0 fail fail_asked s0) as Hgc.
    destruct (tryGC w sfuel gfuel gcRan 0 fail s0) as [g s2| |];
      cbn [finalState] in *; [|exact Hgc..].
    destruct (allocCap s =? 0); cbn [finalState]; exact Hgc.
  - destruct (allocCap s =? 0); cbn; (split; [reflexivity|]); intros _;
      apply take_app_length.
Qed.

Lemma allocLoop_shrinks w sfuel gfuel size : ∀ fuel gcRan s p s',
  allocLoop w sfuel gfuel fuel size gcRan s = Done p s' →
  (askedRecords s ≤ askedRecords s')%nat
  ∧ ((∀ k, (askedRecords s ≤ k < askedRecords s')%nat →
           wrapPtr (extallocAnswer w ForRecords k) ≠ 0) →
     ∃ before,
       allocations s' = before ++ [newHeapAllocation p size]
       ∧ map bounds before ⊆+ map bounds (allocations s)).
Proof.
  induction fuel as [|fuel IH]; intros gcRan s p s' Hrun; [discriminate|].
  cbn [allocLoop] in Hrun. destruct (needGC size s).
  - unfold bind in Hrun.
    pose proof (tryGC_shrinkStep w sfuel gfuel gcRan size expandHeap
                  expandHeap_shrinkStep s) as Hgc.
    pose proof (tryGC_asked w sfuel gfuel gcRan size expandHeap
                  expandHeap_asked s) as Hask.
    destruct (tryGC w sfuel gfuel gcRan size expandHeap s) as [g s1| |];
      try discriminate.
    cbn [finalState] in *.
    destruct (IH _ _ _ _ Hrun) as (Hmono & Hrest).
    split; [lia|]. intros Hhost.
    destruct Hrest as (before & Harr & Hsub).
    { intros k Hk. apply Hhost. lia. }
    exists before. split; [exact Harr|].
    etransitivity; [exact Hsub | exact Hgc].
  - unfold bind at 1 in Hrun.
    pose proof (expandAllocationsIfNeeded_asks_once w sfuel gfuel gcRan s)
      as Hexp.
    destruct (expandAllocationsIfNeeded w sfuel gfuel gcRan s) as [g s1| |];
      try discriminate.
    cbn zeta in Hexp. cbn [finalState] in Hexp.
    unfold bind at 1 in Hrun. unfold extalloc in Hrun.
    set (ptr := wrapPtr (extallocAnswer w ForData (askedData s1))) in *.
    set (s2 := emit _ _) in Hrun.
    assert (Hask2 : askedRecords s2 = askedRecords s1) by reflexivity.
    assert (Harr2 : allocations s2 = allocations s1) by reflexivity.
    assert (Hend : ∀ s',
              (askedRecords s2 ≤ askedRecords s')%nat →
              (askedRecords s ≤ askedRecords s')%nat
              ∧ ((∀ k, (askedRecords s ≤ k < askedRecords s')%nat →
                       wrapPtr (extallocAnswer w ForRecords k) ≠ 0) →
                 allocations s2 = allocations s
                 ∧ ∀ k, (askedRecords s2 ≤ k < askedRecords s')%nat →
                        wrapPtr (extallocAnswer w ForRecords k) ≠ 0)).
    { intros sf Hle. rewrite Hask2, Harr2 in *.
      destruct Hexp as [[Hsame Hkeep]|[Hone Hkeep]].
      - split; [lia|]. intros Hhost. split; [exact Hkeep|].
        intros k Hk. apply Hhost. lia.
      - split; [lia|]. intros Hhost. split.
        + apply Hkeep. apply Hhost. lia.
        + intros k Hk. apply Hhost. lia. }
    clearbody s2.
    destruct (Z.eqb_spec ptr 0) as [Hnull|Hptr].
    + unfold bind in Hrun.
      pose proof (tryGC_shrinkStep w sfuel gfuel g size fail fail_shrinkStep
                    s2) as Hgc.
      pose proof (tryGC_asked w sfuel gfuel g size fail fail_asked s2)
        as Hask.
      destruct (tryGC w sfuel gfuel g size fail s2) as [g' s3| |];
        try discriminate.
      cbn [finalState] in *.
      destruct (IH _ _ _ _ Hrun) as (Hmono & Hrest).
      destruct (Hend s') as (Hle & Hhyp); [lia|].
      split; [exact Hle|]. intros Hhost.
      destruct (Hhyp Hhost) as (Hsame & Hhost2).
      destruct Hrest as (before & Harr & Hsub).
      { intros k Hk. apply Hhost2. lia. }
      exists before. split; [exact Harr|].
      etransitivity; [exact Hsub|].
      etransitivity; [exact Hgc|].
      rewrite Hsame. reflexivity.
    + unfold bind, modify, ret in Hrun. injection Hrun as <- <-.
      destruct (Hend (emit (EvMemzero ptr size)
                        (setTotalAlloc
                           (wrap64
                              (gcTotalAlloc
                                 (appendAllocations
                                    (newHeapAllocation ptr size) s2) + size))
                           (appendAllocations (newHeapAllocation ptr size)
                              s2)))) as (Hle & Hhyp); [reflexivity|].
      split; [exact Hle|]. intros Hhost.
      destruct (Hhyp Hhost) as (Hsame & _).
      exists (allocations s2). split; [reflexivity|].
      rewrite Hsame. reflexivity.
Qed.

(** X19: a collection adds no block and keeps the registry sound. However
    [GC] ends (it returns, it panics because a collection is running, or
    its loops are cut short), the blocks of the records it leaves are among
    the blocks of the records it found, each at most as often. So when the
    records are well-formed, pairwise disjoint and end more than a pointer
    below the top of the address space, which is what the theorems on a
    collection ask for, the same holds of the records after it. *)
Theorem GC_keeps_the_registry_sound (w : world) (sfuel fuel : nat)
    (s : state) :
  wellFormed (allocations s) → disjointIntervals (allocations s) →
  (∀ r, r ∈ allocations s → end_ r + ptrSize < 2 ^ 32) →
  map bounds (allocations (finalState (GC w sfuel fuel s)))
    ⊆+ map bounds (allocations s)
  ∧ wellFormed (allocations (finalState (GC w sfuel fuel s)))
  ∧ disjointIntervals (allocations (finalState (GC w sfuel fuel s)))
  ∧ (∀ r, r ∈ allocations (finalState (GC w sfuel fuel s)) →
          end_ r + ptrSize < 2 ^ 32).
Proof.
  intros Hwf Hdisj Hlow.
  pose proof (GC_shrinkStep w sfuel fuel s) as Hsub. unfold shrinkStep in Hsub.
  split; [exact Hsub|].
  apply blocksOk_registry. apply (blocksOk_submseteq _ _ Hsub).
  apply blocksOk_registry. auto.
Qed.

Lemma GC_keeps_the_registry_sound_witness :
  map bounds
    (allocations (finalState (GC rootedWorld 64 2 (withRegistry apart))))
    ⊆+ map bounds (allocations (withRegistry apart))
  ∧ wellFormed
      (allocations (finalState (GC rootedWorld 64 2 (withRegistry apart))))
  ∧ disjointIntervals
      (allocations (finalState (GC rootedWorld 64 2 (withRegistry apart))))
  ∧ (∀ r, r ∈ allocations
                (finalState (GC rootedWorld 64 2 (withRegistry apart))) →
          end_ r + ptrSize < 2 ^ 32).
Proof.
  apply (GC_keeps_the_registry_sound rootedWorld 64 2 (withRegistry apart)).
  - exact apart_wellFormed.
  - exact apart_disjointIntervals.
  - exact apart_ends_low.
Defined.

(** X20: an allocation keeps the registry sound. Let [alloc] of a non-zero
    size return [p], every request for a registry array that it made having
    been answered. Then the registry it leaves is a selection of the records
    it found (collections may have dropped some) followed by the record of
    the new block, from [p] to [p] plus the padded size. If the records it
    found were well-formed, pairwise disjoint and low enough, and the host's
    block is low enough and apart from the records kept, then the records it
    leaves are well-formed, pairwise disjoint and low enough again. *)
Theorem alloc_keeps_the_registry_sound (w : world) (sfuel gfuel fuel : nat)
    (size p : Z) (s s' : state) :
  let size' := wrapPtr (size + align ptrSize) in
  wellFormed (allocations s) → disjointIntervals (allocations s) →
  (∀ r, r ∈ allocations s → end_ r + ptrSize < 2 ^ 32) →
  size ≠ 0 →
  alloc w sfuel gfuel fuel size s = Done p s' →
  (∀ k, (askedRecords s ≤ k < askedRecords s')%nat →
        wrapPtr (extallocAnswer w ForRecords k) ≠ 0) →
  p + size' + ptrSize < 2 ^ 32 →
  (∀ r, r ∈ removelast (allocations s') → end_ r < p ∨ p + size' < start r) →
  (∃ before,
     allocations s' = before ++ [mkAlloc p (p + size') false None]
     ∧ map bounds before ⊆+ map bounds (allocations s))
  ∧ wellFormed (allocations s') ∧ disjointIntervals (allocations s')
  ∧ (∀ r, r ∈ allocations s' → end_ r + ptrSize < 2 ^ 32).
Proof.
  intros size' Hwf Hdisj Hlow Hsize Hrun Hhost Htop Hfresh.
  unfold alloc in Hrun.
  destruct (gcInProgress s); [discriminate|].
  destruct (Z.eqb_spec size 0) as [|_]; [contradiction|].
  fold size' in Hrun.
  destruct (allocLoop_returns _ _ _ _ _ _ _ _ _ Hrun) as (_ & Hp & _).
  destruct (allocLoop_shrinks _ _ _ _ _ _ _ _ _ Hrun) as (_ & Hrest).
  destruct (Hrest Hhost) as (before & Harr & Hsub). clear Hrest.
  assert (Hend : wrapPtr (p + size') = p + size').
  { apply Z.mod_small. unfold ptrSize in Htop.
    assert (0 ≤ size') by (apply Z.mod_pos_bound; lia). lia. }
  unfold newHeapAllocation in Harr. rewrite Hend in Harr.
  rewrite Harr, removelast_last in Hfresh.
  split; [exists before; split; [exact Harr | exact Hsub]|].
  apply blocksOk_registry. rewrite Harr, map_app.
  apply blocksOk_snoc.
  - apply (blocksOk_submseteq _ _ Hsub). apply blocksOk_registry. auto.
  - cbn. assert (0 ≤ size') by (apply Z.mod_pos_bound; lia). lia.
  - exact Htop.
  - intros b Hb. apply list_elem_of_fmap in Hb as (r & -> & Hr).
    apply Hfresh. exact Hr.
Qed.

Lemma alloc_keeps_the_registry_sound_witness :
  (∃ before,
     allocations (finalState (alloc roomyWorld 0 0 1 8 (withRegistry apart)))
     = before
       ++ [mkAlloc 1048576 (1048576 + wrapPtr (8 + align ptrSize)) false None]
     ∧ map bounds before ⊆+ map bounds (allocations (withRegistry apart)))
  ∧ wellFormed
      (allocations (finalState (alloc roomyWorld 0 0 1 8 (withRegistry apart))))
  ∧ disjointIntervals
      (allocations (finalState (alloc roomyWorld 0 0 1 8 (withRegistry apart))))
  ∧ (∀ r, r ∈ allocations
                (finalState (alloc roomyWorld 0 0 1 8 (withRegistry apart))) →
          end_ r + ptrSize < 2 ^ 32).
Proof.
  apply (alloc_keeps_the_registry_sound roomyWorld 0 0 1 8 1048576
           (withRegistry apart)
           (finalState (alloc roomyWorld 0 0 1 8 (withRegistry apart)))).
  - exact apart_wellFormed.
  - exact apart_disjointIntervals.
  - exact apart_ends_low.
  - discriminate.
  - vm_compute. reflexivity.
  - intros k Hk. vm_compute in Hk.
    assert (k = 0%nat) as -> by lia. vm_compute. discriminate.
  - vm_compute. reflexivity.
  - intros r Hr. vm_compute in Hr.
    apply elem_of_cons in Hr as [->|Hr]; [left; vm_compute; reflexivity|].
    apply elem_of_cons in Hr as [->|Hr]; [left; vm_compute; reflexivity|].
    apply elem_of_nil in Hr. contradiction.
Defined.

(** * The tracing and the leaking variant, whatever is collected *)

(** Only the request for the user's bytes counts as a request for data. *)
Lemma sweepLoop_askedData k : ∀ i j s,
  askedData (snd (sweepLoop k i j s)) = askedData s.
Proof.
  induction k as [|k IH]; intros i j s; simpl; [reflexivity|].
  destruct (allocations s !! i) as [cur|]; [|reflexivity].
  destruct (marked cur); simpl; rewrite IH; reflexivity.
Qed.

Lemma askedData_offRegistry : offRegistry askedData.
Proof. split; reflexivity. Qed.

Lemma GC_askedData w sfuel fuel s :
  askedData (finalState (GC w sfuel fuel s)) = askedData s.
Proof.
  pose (Rel := λ s s' : state, askedData s' = askedData s).
  assert (Htrans : ∀ x y z, Rel x y → Rel y z → Rel x z).
  { unfold Rel. intros x y z Hxy Hyz. congruence. }
  change (Rel s (finalState (GC w sfuel fuel s))).
  apply (Htrans _ (emit EvGC s)); [reflexivity|].
  unfold GC. cbn zeta.
  destruct (gcInProgress (emit EvGC s)); [reflexivity|].
  destruct (Nat.eqb _ 0); [reflexivity|].
  set (s1 := setCycles _ _).
  set (ranges := rootRanges w (cycles s1)).
  apply (Htrans _ s1); [reflexivity|].
  clearbody ranges. generalize s1.
  pose proof (λ A B, @bind_final state A B Rel) as Hbind.
  apply Hbind; [exact Htrans | | intros _].
  { intros s0. reflexivity. }
  apply Hbind; [exact Htrans | | intros _].
  { intros s0. apply markRanges_frame, askedData_offRegistry. }
  apply Hbind; [exact Htrans | | intros _].
  { intros s0. apply finishMarking_frame, askedData_offRegistry. }
  apply Hbind; [exact Htrans | | intros _].
  { intros s0. unfold Rel, modify, sweep. cbn [finalState].
    pose proof (sweepLoop_askedData (length (allocations (setTotalAlloc 0 s0)))
                  0 0 (setTotalAlloc 0 s0)) as H.
    destruct (sweepLoop _ 0 0 _) as [j s2]. simpl in *. exact H. }
  intros s0. reflexivity.
Qed.

Lemma tryGC_askedData w sfuel gfuel gcRan size fn :
  fn = expandHeap ∨ fn = fail →
  ∀ s, askedData (finalState (tryGC w sfuel gfuel gcRan size fn s))
       = askedData s.
Proof.
  intros Hfn. unfold tryGC.
  pose (Rel := λ s s' : state, askedData s' = askedData s).
  assert (Htrans : ∀ x y z, Rel x y → Rel y z → Rel x z).
  { unfold Rel. intros x y z Hxy Hyz. congruence. }
  destruct gcRan.
  - apply (bind_final Rel); [exact Htrans | |].
    + intros s. destruct Hfn as [-> | ->]; [|reflexivity].
      unfold Rel, expandHeap, adjustHeapUsageLimit.
      remember (growLimit 32 (gcTotalAlloc s) size (heapUsageLimit s)) as g
        eqn:Hg.
      clear Hg. reflexivity.
    + intros _ s. reflexivity.
  - apply (bind_final Rel); [exact Htrans | |].
    + intros s. apply GC_askedData.
    + intros _ s. reflexivity.
Qed.

Lemma expandAllocationsIfNeeded_askedData w sfuel gfuel gcRan s :
  askedData (finalState (expandAllocationsIfNeeded w sfuel gfuel gcRan s))
  = askedData s.
Proof.
  pose (Rel := λ s s' : state, askedData s' = askedData s).
  assert (Htrans : ∀ x y z, Rel x y → Rel y z → Rel x z).
  { unfold Rel. intros x y z Hxy Hyz. congruence. }
  change (Rel s (finalState (expandAllocationsIfNeeded w sfuel gfuel gcRan s))).
  unfold expandAllocationsIfNeeded. cbn zeta.
  destruct (_ =? allocCap s); [|reflexivity].
  generalize (length (allocations s)), (allocPtr s), (allocCap s).
  intros hlen hptr hcap. revert s.
  apply (bind_final Rel); [exact Htrans | |].
  { intros s. reflexivity. }
  intros ptr.
  apply (bind_final Rel); [exact Htrans | |].
  { intros s. destruct (ptr =? 0); [|reflexivity].
    apply tryGC_askedData. right. reflexivity. }
  intros g.
  apply (bind_final Rel); [exact Htrans | |].
  { intros s. reflexivity. }
  intros _.
  apply (bind_final Rel); [exact Htrans | |].
  { intros s. destruct (hcap =? 0); reflexivity. }
  intros _ s. reflexivity.
Qed.

(** When the host answers the next request for data, the call that
    returns returns that answer, and has made no other request for data. *)
Lemma allocLoop_first_answer w sfuel gfuel size : ∀ fuel gcRan s p s',
  allocLoop w sfuel gfuel fuel size gcRan s = Done p s' →
  wrapPtr (extallocAnswer w ForData (askedData s)) ≠ 0 →
  p = wrapPtr (extallocAnswer w ForData (askedData s))
  ∧ askedData s' = S (askedData s).
Proof.
  induction fuel as [|fuel IH]; intros gcRan s p s' Hrun Hans; [discriminate|].
  cbn [allocLoop] in Hrun. destruct (needGC size s).
  - unfold bind in Hrun.
    pose proof (tryGC_askedData w sfuel gfuel gcRan size expandHeap
                  ltac:(left; reflexivity) s) as Hask.
    destruct (tryGC w sfuel gfuel gcRan size expandHeap s) as [g s1| |];
      try discriminate.
    cbn [finalState] in Hask. rewrite <- Hask in *.
    apply (IH _ _ _ _ Hrun Hans).
  - unfold bind at 1 in Hrun.
    pose proof (expandAllocationsIfNeeded_askedData w sfuel gfuel gcRan s)
      as Hask.
    destruct (expandAllocationsIfNeeded w sfuel gfuel gcRan s) as [g s1| |];
      try discriminate.
    cbn [finalState] in Hask. rewrite <- Hask in *.
    unfold bind at 1 in Hrun. unfold extalloc in Hrun.
    destruct (Z.eqb_spec (wrapPtr (extallocAnswer w ForData (askedData s1))) 0)
      as [Hnull|_]; [contradiction|].
    unfold bind, modify, ret in Hrun. injection Hrun as <- <-.
    split; reflexivity.
Qed.

(** The sizes of the records depend on their blocks only. *)
Definition sumBlocks (B : list (Z * Z)) : Z :=
  foldr (λ b acc, wrapPtr (b.2 - b.1) + acc) 0 B.

Lemma sumSizes_blocks l : sumSizes l = sumBlocks (map bounds l).
Proof.
  induction l as [|r l IH]; cbn; [reflexivity|]. unfold sumSizes in IH.
  rewrite IH. reflexivity.
Qed.

Lemma sumBlocks_Permutation B B' : B ≡ₚ B' → sumBlocks B = sumBlocks B'.
Proof.
  induction 1 as [|b B B' _ IH|b c B|B B' B'' _ IH1 _ IH2]; cbn.
  - reflexivity.
  - unfold sumBlocks in IH. rewrite IH. reflexivity.
  - lia.
  - congruence.
Qed.

Lemma sumSizes_same_blocks l l' :
  map bounds l ≡ₚ map bounds l' → sumSizes l = sumSizes l'.
Proof.
  intros Hp. rewrite !sumSizes_blocks. apply sumBlocks_Permutation, Hp.
Qed.

Lemma same_blocks_start l l' r :
  map bounds l' ≡ₚ map bounds l → r ∈ l' →
  ∃ r0, r0 ∈ l ∧ start r0 = start r.
Proof.
  intros Hp Hr.
  assert (Hb : bounds r ∈ map bounds l).
  { rewrite <- Hp. apply list_elem_of_fmap. exists r. auto. }
  apply list_elem_of_fmap in Hb as (r0 & Heq & Hr0).
  exists r0. split; [exact Hr0|]. unfold bounds in Heq. congruence.
Qed.

Lemma traceExt_refl s : traceExt s s.
Proof. exists []. symmetry. apply app_nil_r. Qed.

Lemma traceExt_same s s' : trace s' = trace s → traceExt s s'.
Proof. intros H. exists []. rewrite app_nil_r. exact H. Qed.

Lemma traceExt_trans x y z : traceExt x y → traceExt y z → traceExt x z.
Proof.
  intros [e1 H1] [e2 H2]. exists (e1 ++ e2). rewrite H2, H1, app_assoc.
  reflexivity.
Qed.

(** No record of the registry of [s] has been handed to [extfree] by the
    time of [s']. *)
Definition noDrop (s s' : state) : Prop :=
  ∀ r, r ∈ allocations s → EvExtfree (start r) ∉ trace s'.

Lemma noDrop_earlier x y z : traceExt y z → noDrop x z → noDrop x y.
Proof.
  intros Hext Hno r Hr Hin. apply (Hno r Hr).
  apply (traceExt_elem _ _ _ Hext Hin).
Qed.

Lemma noDrop_same_blocks x y z :
  map bounds (allocations y) ≡ₚ map bounds (allocations x) →
  noDrop x z → noDrop y z.
Proof.
  intros Hp Hno r Hr.
  destruct (same_blocks_start _ _ r Hp Hr) as (r0 & Hr0 & <-).
  apply Hno. exact Hr0.
Qed.

(** A step that, unless it hands a record to [extfree], keeps the blocks
    of the registry, and leaves the total as it was or as the sum of the
    sizes of the records. *)
Definition keepStep (s s' : state) : Prop :=
  traceExt s s'
  ∧ (noDrop s s' →
     map bounds (allocations s') ≡ₚ map bounds (allocations s)
     ∧ (gcTotalAlloc s' = gcTotalAlloc s
        ∨ gcTotalAlloc s' = wrap64 (sumSizes (allocations s')))).

Lemma keepStep_refl s : keepStep s s.
Proof. split; [apply traceExt_refl|]. intros _. split; [reflexivity | auto]. Qed.

Lemma keepStep_trans x y z : keepStep x y → keepStep y z → keepStep x z.
Proof.
  intros [Hxy Kxy] [Hyz Kyz]. split; [eapply traceExt_trans; eassumption|].
  intros Hno.
  destruct (Kxy (noDrop_earlier _ _ _ Hyz Hno)) as [Pxy Txy].
  destruct (Kyz (noDrop_same_blocks _ _ _ Pxy Hno)) as [Pyz Tyz].
  split; [etransitivity; eassumption|].
  destruct Tyz as [Tyz|Tyz]; [|right; exact Tyz].
  rewrite Tyz. destruct Txy as [Txy|Txy]; [left; exact Txy|].
  right. rewrite Txy. f_equal. symmetry. apply sumSizes_same_blocks, Pyz.
Qed.

Lemma keepStep_quiet s s' :
  traceExt s s' →
  map bounds (allocations s') ≡ₚ map bounds (allocations s) →
  gcTotalAlloc s' = gcTotalAlloc s →
  keepStep s s'.
Proof. intros Hext Hp Ht. split; [exact Hext|]. intros _. auto. Qed.

Lemma total_offRegistry : offRegistry gcTotalAlloc.
Proof. split; reflexivity. Qed.

Lemma filter_no_unmarked (l : list heapAllocation) :
  List.filter unmarked l = [] → List.filter marked l = l.
Proof.
  induction l as [|r l IH]; cbn; [reflexivity|]. unfold unmarked at 1.
  destruct (marked r); cbn; [|discriminate].
  intros H. f_equal. apply IH, H.
Qed.

Lemma sweep_keepStep s : keepStep s (sweep s).
Proof.
  destruct (sweep_outcome s) as (Harr & Htrace & Htotal).
  split; [eexists; exact Htrace|].
  intros Hno.
  assert (Hnone : List.filter unmarked (allocations s) = []).
  { destruct (List.filter unmarked (allocations s)) as [|r gone] eqn:Hgone;
      [reflexivity|].
    exfalso. apply (Hno r).
    - assert (Hr : r ∈ List.filter unmarked (allocations s))
        by (rewrite Hgone; left).
      apply list_elem_of_In, filter_In in Hr as [Hr _].
      apply list_elem_of_In. exact Hr.
    - rewrite Htrace. apply elem_of_app. right. cbn. left. }
  rewrite (filter_no_unmarked _ Hnone) in Harr, Htotal.
  rewrite Harr. split; [reflexivity|]. right. exact Htotal.
Qed.

Lemma GC_keepStep w sfuel fuel s : keepStep s (finalState (GC w sfuel fuel s)).
Proof.
  apply (keepStep_trans _ (emit EvGC s)).
  { apply keepStep_quiet; [eexists|..]; reflexivity. }
  unfold GC. cbn zeta.
  destruct (gcInProgress (emit EvGC s)); [apply keepStep_refl|].
  destruct (Nat.eqb _ 0).
  { apply keepStep_quiet; [apply traceExt_same|..]; reflexivity. }
  set (s1 := setCycles _ _).
  set (ranges := rootRanges w (cycles s1)).
  apply (keepStep_trans _ s1).
  { apply keepStep_quiet; [apply traceExt_same|..]; reflexivity. }
  clearbody ranges. generalize s1.
  pose proof (λ A B, @bind_final state A B keepStep) as Hbind.
  apply Hbind; [exact keepStep_trans | | intros _].
  { intros s0. apply keepStep_quiet; [apply traceExt_same; reflexivity| |reflexivity].
    unfold modify, prepareGC. cbn. rewrite unmarkAllocations_bounds.
    apply fmap_Permutation, sortAllocations_Permutation. }
  apply Hbind; [exact keepStep_trans | | intros _].
  { intros s0. apply keepStep_quiet.
    - apply traceExt_same, markRanges_frame, trace_offRegistry.
    - rewrite markRanges_same_bounds. reflexivity.
    - apply markRanges_frame, total_offRegistry. }
  apply Hbind; [exact keepStep_trans | | intros _].
  { intros s0. apply keepStep_quiet.
    - apply traceExt_same, finishMarking_frame, trace_offRegistry.
    - rewrite finishMarking_same_bounds. reflexivity.
    - apply finishMarking_frame, total_offRegistry. }
  apply Hbind; [exact keepStep_trans | | intros _].
  { intros s0. apply sweep_keepStep. }
  intros s0. apply keepStep_quiet; [apply traceExt_same|..]; reflexivity.
Qed.

Lemma tryGC_keepStep w sfuel gfuel gcRan size fn :
  fn = expandHeap ∨ fn = fail →
  ∀ s, keepStep s (finalState (tryGC w sfuel gfuel gcRan size fn s)).
Proof.
  intros Hfn. unfold tryGC. destruct gcRan.
  - apply (bind_final keepStep); [exact keepStep_trans | |].
    + intros s. destruct Hfn as [-> | ->]; [|apply keepStep_refl].
      unfold expandHeap, adjustHeapUsageLimit.
      remember (growLimit 32 (gcTotalAlloc s) size (heapUsageLimit s)) as g
        eqn:Hg.
      clear Hg. apply keepStep_quiet; [eexists|..]; reflexivity.
    + intros _ s. apply keepStep_refl.
  - apply (bind_final keepStep); [exact keepStep_trans | |].
    + intros s. apply GC_keepStep.
    + intros _ s. apply keepStep_refl.
Qed.

Lemma expandAllocationsIfNeeded_keepStep w sfuel gfuel gcRan s :
  keepStep s (finalState (expandAllocationsIfNeeded w sfuel gfuel gcRan s)).
Proof.
  unfold expandAllocationsIfNeeded. cbn zeta.
  destruct (_ =? allocCap s); [|apply keepStep_refl].
  unfold bind, ret, modify. cbn [extalloc]. cbn beta zeta.
  set (ptr := wrapPtr (extallocAnswer w ForRecords (askedRecords s))).
  set (s0 := emit _ _).
  assert (K0 : keepStep s s0).
  { apply keepStep_quiet; [eexists|..]; reflexivity. }
  destruct (Z.eqb_spec ptr 0) as [Hnull|Hptr].
  - pose proof (tryGC_keepStep w sfuel gfuel gcRan 0 fail
                  ltac:(right; reflexivity) s0) as Kgc.
    destruct (tryGC w sfuel gfuel gcRan 0 fail s0) as [g s2| |];
      cbn [finalState] in *;
      [|apply (keepStep_trans _ _ _ K0 Kgc)..].
    pose proof (keepStep_trans _ _ _ K0 Kgc) as [Hext K].
    set (s3 := setSlice _ _ _ _ s2).
    assert (Hfin : ∀ sf, traceExt s2 sf → allocations sf = allocations s3 →
              gcTotalAlloc sf = gcTotalAlloc s2 → keepStep s sf).
    { intros sf Hext3 Harr3 Ht3.
      split; [eapply traceExt_trans; eassumption|].
      intros Hno.
      destruct (K (noDrop_earlier _ _ _ Hext3 Hno)) as [P T].
      assert (Hlen : length (allocations s2) = length (allocations s)).
      { apply Permutation_length in P. rewrite !length_map in P. exact P. }
      assert (Harr : allocations s3 = allocations s2).
      { unfold s3. cbn. rewrite <- Hlen. apply take_app_length. }
      rewrite Harr3, Harr, Ht3. auto. }
    destruct (allocCap s =? 0); cbn [finalState]; apply Hfin;
      try reflexivity.
    + apply traceExt_same. reflexivity.
    + exists [EvExtfree (allocPtr s)]. reflexivity.
  - apply (keepStep_trans _ s0); [exact K0|]. apply keepStep_quiet.
    + destruct (allocCap s =? 0); cbn [finalState];
        [apply traceExt_same | exists [EvExtfree (allocPtr s)]]; reflexivity.
    + destruct (allocCap s =? 0); cbn; rewrite take_app_length; reflexivity.
    + destruct (allocCap s =? 0); reflexivity.
Qed.

(** What a call of [alloc] that returns leaves, if it has handed no record
    to [extfree]: the blocks it found and the new one, and a total that is
    the total before, or the sum of the sizes of the records it found, plus
    the size. *)
Lemma allocLoop_keeps w sfuel gfuel size : ∀ fuel gcRan s p s',
  allocLoop w sfuel gfuel fuel size gcRan s = Done p s' →
  noDrop s s' →
  ∃ before,
    allocations s' = before ++ [newHeapAllocation p size]
    ∧ map bounds before ≡ₚ map bounds (allocations s)
    ∧ (gcTotalAlloc s' = wrap64 (gcTotalAlloc s + size)
       ∨ gcTotalAlloc s' = wrap64 (wrap64 (sumSizes before) + size)).
Proof.
  induction fuel as [|fuel IH]; intros gcRan s p s' Hrun Hno; [discriminate|].
  assert (Hnext : ∀ g s1,
            keepStep s s1 →
            allocLoop w sfuel gfuel fuel size g s1 = Done p s' →
            ∃ before,
              allocations s' = before ++ [newHeapAllocation p size]
              ∧ map bounds before ≡ₚ map bounds (allocations s)
              ∧ (gcTotalAlloc s' = wrap64 (gcTotalAlloc s + size)
                 ∨ gcTotalAlloc s'
                   = wrap64 (wrap64 (sumSizes before) + size))).
  { intros g s1 [Hext K] Hloop.
    pose proof (allocLoop_growStep w sfuel gfuel fuel size g s1) as Hgrow.
    rewrite Hloop in Hgrow. apply growStep_traceExt in Hgrow.
    cbn [finalState] in Hgrow.
    destruct (K (noDrop_earlier _ _ _ Hgrow Hno)) as [P T].
    destruct (IH _ _ _ _ Hloop (noDrop_same_blocks _ _ _ P Hno))
      as (before & Harr & Pb & Tb).
    exists before. split; [exact Harr|].
    split; [etransitivity; eassumption|].
    destruct Tb as [Tb|Tb]; [|right; exact Tb].
    rewrite Tb. destruct T as [T|T]; [left; rewrite T; reflexivity|].
    right. rewrite T. do 3 f_equal. symmetry.
    apply sumSizes_same_blocks, Pb. }
  cbn [allocLoop] in Hrun. destruct (needGC size s).
  - unfold bind in Hrun.
    pose proof (tryGC_keepStep w sfuel gfuel gcRan size expandHeap
                  ltac:(left; reflexivity) s) as Kgc.
    destruct (tryGC w sfuel gfuel gcRan size expandHeap s) as [g s1| |];
      try discriminate.
    apply (Hnext g s1 Kgc Hrun).
  - unfold bind at 1 in Hrun.
    pose proof (expandAllocationsIfNeeded_keepStep w sfuel gfuel gcRan s)
      as Kexp.
    destruct (expandAllocationsIfNeeded w sfuel gfuel gcRan s) as [g s1| |];
      try discriminate.
    cbn [finalState] in Kexp.
    unfold bind at 1 in Hrun. unfold extalloc in Hrun.
    set (ptr := wrapPtr (extallocAnswer w ForData (askedData s1))) in *.
    set (s2 := emit _ _) in Hrun.
    assert (K2 : keepStep s s2).
    { apply (keepStep_trans _ s1); [exact Kexp|].
      apply keepStep_quiet; [eexists|..]; reflexivity. }
    clearbody s2.
    destruct (Z.eqb_spec ptr 0) as [Hnull|Hptr].
    + unfold bind in Hrun.
      pose proof (tryGC_keepStep w sfuel gfuel g size fail
                    ltac:(right; reflexivity) s2) as Kgc.
      destruct (tryGC w sfuel gfuel g size fail s2) as [g' s3| |];
        try discriminate.
      apply (Hnext g' s3 (keepStep_trans _ _ _ K2 Kgc) Hrun).
    + unfold bind, modify, ret in Hrun. injection Hrun as <- <-.
      destruct K2 as [Hext K].
      destruct K as [P T].
      { eapply noDrop_earlier; [|exact Hno]. eexists. reflexivity. }
      exists (allocations s2). split; [reflexivity|]. split; [exact P|].
      cbn. destruct T as [T|T]; [left | right]; rewrite T; reflexivity.
Qed.

Lemma recSize_new p size :
  0 ≤ size < 2 ^ 32 → recSize (newHeapAllocation p size) = size.
Proof.
  intros Hsize. unfold recSize, newHeapAllocation, wrapPtr. cbn.
  rewrite Zminus_mod_idemp_l.
  replace (p + size - p) with size by ring. apply Z.mod_small. exact Hsize.
Qed.

Lemma sumSizes_snoc l r : sumSizes (l ++ [r]) = sumSizes l + recSize r.
Proof.
  unfold sumSizes. induction l as [|x l IH]; cbn; [lia|]. rewrite IH. lia.
Qed.

Lemma leaking_alloc_done w size l p l1 :
  Leaking.alloc w size l = Done p l1 →
  (size = 0 ∧ p = zeroSizedAlloc w ∧ l1 = l)
  ∨ (size ≠ 0
     ∧ p = wrapPtr (extallocAnswer w ForData (Leaking.askedData l))
     ∧ p ≠ 0
     ∧ Leaking.askedData l1 = S (Leaking.askedData l)).
Proof.
  unfold Leaking.alloc. destruct (Z.eqb_spec size 0) as [->|Hsize].
  { intros [= <- <-]. left. auto. }
  cbn zeta. destruct (_ <? _); [discriminate|].
  destruct (Z.eqb_spec
              (wrapPtr (extallocAnswer w ForData (Leaking.askedData l))) 0)
    as [|Hptr]; [discriminate|].
  intros [= <- <-]. right. auto.
Qed.

Lemma allocAll_traceExt w sfuel gfuel fuel : ∀ sizes s ps s',
  allocAll w sfuel gfuel fuel sizes s = Done ps s' → traceExt s s'.
Proof.
  induction sizes as [|size rest IH]; intros s ps s' Hrun.
  - injection Hrun as <- <-. apply traceExt_refl.
  - cbn [allocAll] in Hrun. unfold bind at 1 in Hrun.
    pose proof (alloc_growStep w sfuel gfuel fuel size s) as Hg.
    destruct (alloc w sfuel gfuel fuel size s) as [q s1| |];
      [|discriminate..].
    unfold bind at 1 in Hrun.
    destruct (allocAll w sfuel gfuel fuel rest s1) as [qs s2| |] eqn:Hr;
      [|discriminate..].
    injection Hrun as <- <-.
    apply (traceExt_trans _ s1); [apply growStep_traceExt, Hg | eapply IH, Hr].
Qed.

(** The two variants side by side, from states that have made the same
    number of requests for data: the pointers agree; so do the totals when
    they agreed before, the total was the sum of the sizes of the records,
    and no block, registered before ([Q]) or returned since, has been handed
    to [extfree]. *)
Lemma allocAll_agree w sfuel gfuel fuel : ∀ sizes s l ps ps' s' l',
  allocAll w sfuel gfuel fuel sizes s = Done ps s' →
  leakingAllocAll w sizes l = Done ps' l' →
  askedData s = Leaking.askedData l →
  ps = ps'
  ∧ ∀ Q : Z → Prop,
      (∀ r, r ∈ allocations s → Q (start r)) →
      (∀ q, Q q ∨ q ∈ ps → EvExtfree q ∉ trace s') →
      gcTotalAlloc s = Leaking.gcTotalAlloc l →
      sumSizes (allocations s) = Leaking.gcTotalAlloc l →
      0 ≤ Leaking.gcTotalAlloc l < 2 ^ 64 →
      gcTotalAlloc s' = Leaking.gcTotalAlloc l'.
Proof.
  induction sizes as [|size rest IH]; intros s l ps ps' s' l' Hrun Hleak Hask.
  { injection Hrun as <- <-. injection Hleak as <- <-.
    split; [reflexivity|]. auto. }
  cbn [allocAll] in Hrun. unfold bind at 1 in Hrun.
  destruct (alloc w sfuel gfuel fuel size s) as [p s1| |] eqn:Halloc;
    [|discriminate..].
  unfold bind at 1 in Hrun.
  destruct (allocAll w sfuel gfuel fuel rest s1) as [ps1 s2| |] eqn:Hrest;
    [|discriminate..].
  injection Hrun as <- <-.
  cbn [leakingAllocAll] in Hleak. unfold bind at 1 in Hleak.
  destruct (Leaking.alloc w size l) as [p' l1| |] eqn:Hlalloc;
    [|discriminate..].
  unfold bind at 1 in Hleak.
  destruct (leakingAllocAll w rest l1) as [ps1' l2| |] eqn:Hlrest;
    [|discriminate..].
  injection Hleak as <- <-.
  pose proof (allocAll_traceExt _ _ _ _ _ _ _ _ Hrest) as Hext.
  unfold alloc in Halloc.
  destruct (gcInProgress s); [discriminate|].
  destruct (leaking_alloc_done _ _ _ _ _ Hlalloc)
    as [(-> & -> & ->)|(Hsize & -> & Hptr & Hask1)].
  - cbn in Halloc. injection Halloc as <- <-.
    destruct (IH _ _ _ _ _ _ Hrest Hlrest Hask) as [-> Htot].
    split; [reflexivity|].
    intros Q HQ Hfree Ht Hsum Hrange.
    apply (Htot Q); auto.
    intros q [Hq|Hq]; apply Hfree; [left | right; right]; assumption.
  - destruct (Z.eqb_spec size 0) as [|_]; [contradiction|].
    set (size' := wrapPtr (size + align ptrSize)) in *.
    set (s0 := setMallocs _ s) in Halloc.
    rewrite <- Hask in Hptr.
    destruct (allocLoop_first_answer _ _ _ _ _ _ _ _ _ Halloc Hptr)
      as [Hp Hask0].
    change (askedData s0) with (askedData s) in Hp, Hask0.
    destruct (IH _ _ _ _ _ _ Hrest Hlrest) as [-> Htot].
    { rewrite Hask0, Hask1, Hask. reflexivity. }
    rewrite <- Hask. split; [rewrite Hp; reflexivity|].
    intros Q HQ Hfree Ht Hsum Hrange.
    assert (Hno : noDrop s0 s1).
    { intros r Hr Hin. apply (Hfree (start r)); [left; apply HQ, Hr|].
      apply (traceExt_elem _ _ _ Hext Hin). }
    destruct (allocLoop_keeps _ _ _ _ _ _ _ _ _ Halloc Hno)
      as (before & Harr & P & T).
    change (allocations s0) with (allocations s) in P.
    change (gcTotalAlloc s0) with (gcTotalAlloc s) in T.
    assert (Hsz : 0 ≤ size' < 2 ^ 32) by (apply Z.mod_pos_bound; lia).
    destruct (leaking_alloc_total _ _ _ _ _ Hrange Hlalloc)
      as (Hl1 & Hl1range & _).
    unfold accounted in Hl1.
    destruct (Z.eqb_spec size 0) as [|_]; [contradiction|].
    fold size' in Hl1.
    assert (Hbefore : sumSizes before = Leaking.gcTotalAlloc l).
    { rewrite <- Hsum. apply sumSizes_same_blocks, P. }
    assert (Hfits : wrap64 (Leaking.gcTotalAlloc l + size')
                    = Leaking.gcTotalAlloc l + size').
    { unfold wrap64. apply Z.mod_small. lia. }
    apply (Htot (λ q, Q q ∨ q = p)).
    + intros r Hr. rewrite Harr in Hr.
      apply elem_of_app in Hr as [Hr|Hr].
      * destruct (same_blocks_start _ _ r P Hr) as (r0 & Hr0 & <-).
        left. apply HQ, Hr0.
      * apply list_elem_of_singleton in Hr as ->. right. reflexivity.
    + intros q [[Hq| ->]|Hq]; apply Hfree;
        [left; assumption | right; left | right; right; assumption].
    + rewrite Hl1.
      destruct T as [T|T]; rewrite T.
      * rewrite Ht. exact Hfits.
      * rewrite Hbefore. unfold wrap64 at 2.
        rewrite (Z.mod_small (Leaking.gcTotalAlloc l)) by lia. exact Hfits.
    + rewrite Harr, sumSizes_snoc, recSize_new by exact Hsz. lia.
    + lia.
Qed.

(** C9, amended. For every sequence of [alloc] calls from boot that both
    variants complete, the host giving both the same answers to their
    requests for user memory, the two variants return the same pointers,
    whatever the tracing variant collected on the way. [ReadMemStats]
    reports the same [HeapInuse] in both when the tracing variant has run
    no collection, or has handed none of the returned blocks to
    [extfree]. *)
Theorem variants_agree_when_both_complete (w : world)
    (sfuel gfuel fuel : nat) (sizes ps ps' : list Z) (s : state)
    (l : Leaking.state) :
  allocAll w sfuel gfuel fuel sizes bootState = Done ps s →
  leakingAllocAll w sizes Leaking.bootState = Done ps' l →
  ps = ps'
  ∧ (EvGC ∉ trace s ∨ (∀ p, p ∈ ps → EvExtfree p ∉ trace s) →
     HeapInuse (ReadMemStats w s) = HeapInuse (Leaking.ReadMemStats w l)).
Proof.
  intros Hrun Hleak.
  destruct (allocAll_agree w sfuel gfuel fuel sizes bootState
              Leaking.bootState ps ps' s l Hrun Hleak eq_refl) as [Hps Htot].
  split; [exact Hps|].
  cbn [HeapInuse ReadMemStats Leaking.ReadMemStats].
  intros [Hno|Hkept].
  - destruct (allocAll_inStep w sfuel gfuel fuel sizes bootState
                Leaking.bootState ps s Hrun Hno bootStates_inStep)
      as (l0 & Hl0 & (_ & Htotal & _)).
    rewrite Hl0 in Hleak. injection Hleak as _ <-. exact Htotal.
  - apply (Htot (λ _, False)).
    + intros r Hr. apply elem_of_nil in Hr. contradiction.
    + intros q [[]|Hq]. apply Hkept, Hq.
    + reflexivity.
    + reflexivity.
    + cbn. lia.
Qed.

Lemma variants_agree_when_both_complete_witness :
  [1048576; 1448592] = [1048576; 1448592]
  ∧ (EvGC ∉ trace (finalState
                     (allocAll pinnedWorld 8 2 3 [8; 600000] bootState))
     ∨ (∀ p, p ∈ [1048576; 1448592] →
             EvExtfree p
             ∉ trace (finalState
                        (allocAll pinnedWorld 8 2 3 [8; 600000] bootState))) →
     HeapInuse
       (ReadMemStats pinnedWorld
          (finalState (allocAll pinnedWorld 8 2 3 [8; 600000] bootState)))
     = HeapInuse
         (Leaking.ReadMemStats pinnedWorld
            (finalState
               (leakingAllocAll pinnedWorld [8; 600000] Leaking.bootState)))).
Proof.
  apply (variants_agree_when_both_complete pinnedWorld 8 2 3 [8; 600000]).
  - vm_compute. reflexivity.
  - vm_compute. reflexivity.
Defined.

(** * The overflow guard *)



















